(** * A resizable array over raw storage: [RawMemory<T>] and [Vector<T>]

    Shallow embedding of [advanced-vector/vector.h].

    The element type [T] is a template parameter: here it is an interface
    ([Element]) giving the type traits the code queries and the special member
    functions the code calls.  Each of them runs on the element type's own
    state [W] (static counters and the like) and may fail (throw).

    Storage is a heap of blocks; a block is a list of slots, a slot either raw
    ([None]) or holding a live object ([Some v]).  Objects of class [Vector]
    live in a store and are passed by reference (their identity), so that two
    references to one object alias as they do in the source.

    A [size_t] variable is rendered as a [nat], and [size_t] itself is an
    unsigned integer type of [size_bits] bits ([Platform]).  The two values
    that the source computes in [size_t] and that can exceed its range are
    reduced modulo [2 ^ size_bits] as the code reduces them: the byte count
    [n * sizeof(T)] of [Allocate] and the doubled length [size_ * 2] of a
    growth.  ([++size_] cannot exceed it: either [size_] is below a capacity,
    or the new block has just taken the object of index [size_].)

    An argument that the source takes by reference is a reference here too
    when it can refer to an object in a block ([from_lvalue_at],
    [from_rvalue_at]): an rvalue is moved from, and that is written to the
    slot it refers to. *)

From stdpp Require Import base option list gmap.

(** ** Results of a call *)

Inductive exn := bad_alloc | element_failure.

(** A call that does not return normally and does not throw either: a failed
    [assert], [std::terminate] (an exception leaving a [noexcept] function), or
    an access to storage that holds no object. *)
Inductive fault := assertion_failed | terminated | bad_access.

Inductive outcome (A : Type) : Type :=
| Ok (a : A)
| Throw (e : exn)
| Fault (f : fault).
Arguments Ok {A} a.
Arguments Throw {A} e.
Arguments Fault {A} f.

(** The element operations the container invokes, in the order it invokes
    them (instrumentation: the heap does not depend on it). *)
Inductive event :=
| ev_construct          (* T(args...) from the caller's arguments *)
| ev_value_construct    (* T() *)
| ev_copy_construct     (* T(const T&) from an element of a vector *)
| ev_move_construct     (* T(T&&) from an element of a vector *)
| ev_copy_assign
| ev_move_assign
| ev_destroy.

#[global] Instance exn_eq_dec : EqDecision exn.
Proof. solve_decision. Defined.
#[global] Instance fault_eq_dec : EqDecision fault.
Proof. solve_decision. Defined.
#[global] Instance event_eq_dec : EqDecision event.
Proof. solve_decision. Defined.

(** ** Pointers: [T*] is a block (or null) and an element offset *)

Record ptr := Ptr { block : option nat; offset : nat }.

#[global] Instance ptr_eq_dec : EqDecision ptr.
Proof. solve_decision. Defined.

Definition ptr_add (p : ptr) (k : nat) : ptr := Ptr (block p) (offset p + k).
Infix "+ₚ" := ptr_add (at level 50, left associativity).

(** Relational operators on pointers: meaningful inside one array. *)
Definition ptr_le (p q : ptr) : bool :=
  bool_decide (block p = block q) && (offset p <=? offset q).
Definition ptr_lt (p q : ptr) : bool :=
  bool_decide (block p = block q) && (offset p <? offset q).

(** ** The two classes' data members *)

Record RawMemory := { buffer_ : option nat; capacity_ : nat }.
Record Vector := { data_ : RawMemory; size_ : nat }.

#[global] Instance RawMemory_eq_dec : EqDecision RawMemory.
Proof. solve_decision. Defined.
#[global] Instance Vector_eq_dec : EqDecision Vector.
Proof. solve_decision. Defined.

(** ** The platform and the element type *)

(** [size_t] has [size_bits] bits. *)
Class Platform := { size_bits : N }.

Class Element (T W Args : Type) := {
  (* sizeof(T) *)
  sizeof_T : positive;
  (* std::is_nothrow_move_constructible_v<T>, std::is_copy_constructible_v<T> *)
  nothrow_move_constructible : bool;
  copy_constructible : bool;
  (* T(args...) *)
  construct : Args → W → W * option T;
  (* T() *)
  default_construct : W → W * option T;
  (* T(const T& src): the new object *)
  copy_construct : T → W → W * option T;
  (* T(T&& src): the new object and the moved-from source *)
  move_construct : T → W → W * option (T * T);
  (* dst = src: the new value of dst *)
  copy_assign : T → T → W → W * option T;
  (* dst = std::move(src): the new value of dst and the moved-from source *)
  move_assign : T → T → W → W * option (T * T);
  (* ~T() *)
  destroy : T → W → W
}.

(** What a new element is constructed from: [std::forward<Args>(args)...].
    A [const T&] or a [T&&] refers to an object: one outside the blocks (a
    temporary, a local of the caller), given by its value [v], or the object
    in the slot [p] of a block, an element of a vector for instance. *)
Inductive ctor_arg (T Args : Type) :=
| from_lvalue (v : T)       (* const T&: copy construction *)
| from_rvalue (v : T)       (* T&&: move construction *)
| from_args (a : Args)      (* anything else T is constructible from *)
| from_lvalue_at (p : ptr)  (* const T& to the object at p *)
| from_rvalue_at (p : ptr). (* T&& to the object at p *)
Arguments from_lvalue {T Args} v.
Arguments from_rvalue {T Args} v.
Arguments from_args {T Args} a.
Arguments from_lvalue_at {T Args} p.
Arguments from_rvalue_at {T Args} p.

(** A reference to an object of type [T]. *)
Inductive ref (T : Type) :=
| outside (v : T)   (* an object outside the blocks, with value v *)
| at_slot (p : ptr). (* the object at p *)
Arguments outside {T} v.
Arguments at_slot {T} p.

(** ** Machine state *)

Record state (T W : Type) := State {
  heap : gmap nat (list (option T));  (* allocated blocks *)
  avail : nat;                        (* slots [operator new] can still provide *)
  objs : gmap nat Vector;             (* Vector objects, by identity *)
  world : W;                          (* the element type's own state *)
  trace : list event;                 (* element operations invoked so far *)
  leaked : list T                     (* objects whose storage was released or
                                         reused without their destructor *)
}.
Arguments State {T W} _ _ _ _ _ _.
Arguments heap {T W} _.
Arguments avail {T W} _.
Arguments objs {T W} _.
Arguments world {T W} _.
Arguments trace {T W} _.
Arguments leaked {T W} _.

(** ** class RawMemory: the members that touch no storage *)

(** [RawMemory() = default] *)
Definition RawMemory_default : RawMemory := {| buffer_ := None; capacity_ := 0 |}.

(** [Swap(other)] on the two objects' members: the new [*this] and the new
    [other]. *)
Definition RawMemory_Swap (this other : RawMemory) : RawMemory * RawMemory :=
  ({| buffer_ := buffer_ other; capacity_ := capacity_ other |},
   {| buffer_ := buffer_ this; capacity_ := capacity_ this |}).

Definition RawMemory_GetAddress (r : RawMemory) : ptr := Ptr (buffer_ r) 0.
Definition RawMemory_Capacity (r : RawMemory) : nat := capacity_ r.

(** [RawMemory] objects with an identity, for the two members that take
    another [RawMemory] by reference.  They touch no storage. *)

Definition RawMemory_Swap_ref (this other : nat) (st : gmap nat RawMemory)
    : option (gmap nat RawMemory) :=
  a ← st !! this;
  b ← st !! other;
  Some (<[other := snd (RawMemory_Swap a b)]>
          (<[this := fst (RawMemory_Swap a b)]> st)).

(** [RawMemory(RawMemory&& other) noexcept]: [this] is the new object, its
    members start from their default initializers. *)
Definition RawMemory_move_ctor (this other : nat) (st : gmap nat RawMemory)
    : option (gmap nat RawMemory) :=
  RawMemory_Swap_ref this other (<[this := RawMemory_default]> st).

(** [RawMemory& operator=(RawMemory&& rhs) noexcept] *)
Definition RawMemory_move_assign (this rhs : nat) (st : gmap nat RawMemory)
    : option (gmap nat RawMemory) :=
  if decide (this ≠ rhs) then RawMemory_Swap_ref this rhs st else Some st.

(** ** Element types and states used as concrete inputs *)

(** An instrumented element type holding a number in four bytes.  Its state
    counts the constructor calls made so far; the constructor call number
    [limit] (counting from 0) throws.  A moved-from object holds 0. *)
Definition probe (nothrow_move copyable : bool) (limit : option nat)
    : Element nat nat nat := {|
  sizeof_T := 4;
  nothrow_move_constructible := nothrow_move;
  copy_constructible := copyable;
  construct a w := (S w, if decide (limit = Some w) then None else Some a);
  default_construct w := (S w, if decide (limit = Some w) then None else Some 0);
  copy_construct v w := (S w, if decide (limit = Some w) then None else Some v);
  move_construct v w :=
    (S w, if decide (limit = Some w) then None else Some (v, 0));
  copy_assign d v w := (w, Some v);
  move_assign d v w := (w, Some (v, 0));
  destroy v w := w
|}.

(** [int]-like elements: nothing throws. *)
Definition plain : Element nat nat nat := probe true true None.

(** No vector, no block, 100 free slots. *)
Definition start : state nat nat := State ∅ 100 ∅ 0 [] [].

(** A state with one vector (object 0) that is full: three elements in a
    block of three slots. *)
Definition full3 : state nat nat :=
  State {[ 0 := [Some 10; Some 20; Some 30] ]} 97
        {[ 0 := {| data_ := {| buffer_ := Some 0; capacity_ := 3 |}; size_ := 3 |} ]}
        3 [] [].

(** A state with one vector (object 0) holding two elements in a block of
    four slots. *)
Definition roomy2 : state nat nat :=
  State {[ 0 := [Some 10; Some 20; None; None] ]} 96
        {[ 0 := {| data_ := {| buffer_ := Some 0; capacity_ := 4 |}; size_ := 2 |} ]}
        2 [] [].

(** Two vectors: object 0 of capacity 4 and object 1 of capacity 1. *)
Definition two_vectors : state nat nat :=
  State {[ 0 := [Some 10; Some 20; None; None]; 1 := [Some 7] ]} 95
        {[ 0 := {| data_ := {| buffer_ := Some 0; capacity_ := 4 |}; size_ := 2 |};
           1 := {| data_ := {| buffer_ := Some 1; capacity_ := 1 |}; size_ := 1 |} ]}
        3 [] [].

(** Two [RawMemory] objects owning a block each. *)
Definition two_buffers : gmap nat RawMemory :=
  {[ 0 := {| buffer_ := Some 7; capacity_ := 2 |};
     1 := {| buffer_ := Some 9; capacity_ := 4 |} ]}.

(** The machines of the concrete runs: one whose [size_t] has 64 bits, and
    a small one whose [size_t] has 4 bits, where a count of bytes wraps at
    16. *)
Definition lp64 : Platform := {| size_bits := 64 |}.
Definition tiny : Platform := {| size_bits := 4 |}.

(** * The machine *)

Section Machine.
Context {T W Args : Type} `{!Element T W Args} {Platform0 : Platform}.
Abbreviation state := (state T W).

Definition with_heap (h : gmap nat (list (option T))) (s : state) : state :=
  State h (avail s) (objs s) (world s) (trace s) (leaked s).
Definition with_avail (n : nat) (s : state) : state :=
  State (heap s) n (objs s) (world s) (trace s) (leaked s).
Definition with_objs (o : gmap nat Vector) (s : state) : state :=
  State (heap s) (avail s) o (world s) (trace s) (leaked s).
Definition with_world (w : W) (s : state) : state :=
  State (heap s) (avail s) (objs s) w (trace s) (leaked s).
Definition with_trace (t : list event) (s : state) : state :=
  State (heap s) (avail s) (objs s) (world s) t (leaked s).
Definition with_leaked (l : list T) (s : state) : state :=
  State (heap s) (avail s) (objs s) (world s) (trace s) l.

(** ** State and failure monad *)

Definition M (A : Type) : Type := state → state * outcome A.

#[global] Instance M_ret : MRet M := λ A a s, (s, Ok a).
#[global] Instance M_bind : MBind M := λ A B k m s,
  match m s with
  | (s', Ok a) => k a s'
  | (s', Throw e) => (s', Throw e)
  | (s', Fault f) => (s', Fault f)
  end.

Definition modify (f : state → state) : M unit := λ s, (f s, Ok tt).
Definition throw {A} (e : exn) : M A := λ s, (s, Throw e).
Definition abort {A} (f : fault) : M A := λ s, (s, Fault f).

(** [assert(c)] *)
Definition assert (c : bool) : M unit :=
  if c then mret tt else abort assertion_failed.

(** Stack unwinding: when [m] throws, [cleanup] (the destructors of the
    objects in scope, or a catch block that rethrows) runs and the exception
    propagates.  An exception that leaves [cleanup] meanwhile ends the
    program. *)
Definition on_throw {A} (m : M A) (cleanup : M unit) : M A := λ s,
  match m s with
  | (s', Throw e) =>
      match cleanup s' with
      | (s'', Ok _) => (s'', Throw e)
      | (s'', Throw _) => (s'', Fault terminated)
      | (s'', Fault f) => (s'', Fault f)
      end
  | r => r
  end.

(** ** Objects *)

Definition get_obj (this : nat) : M Vector := λ s,
  match objs s !! this with
  | Some v => (s, Ok v)
  | None => (s, Fault bad_access)
  end.
Definition put_obj (this : nat) (v : Vector) : M unit :=
  modify (λ s, with_objs (<[this := v]> (objs s)) s).
Definition remove_obj (this : nat) : M unit :=
  modify (λ s, with_objs (delete this (objs s)) s).
(** Storage for a local object. *)
Definition fresh_obj : M nat := λ s, (s, Ok (fresh (dom (objs s)))).

(** Assignment to one data member of [this]. *)
Definition set_data (this : nat) (d : RawMemory) : M unit :=
  v ← get_obj this; put_obj this {| data_ := d; size_ := size_ v |}.
Definition set_size (this : nat) (n : nat) : M unit :=
  v ← get_obj this; put_obj this {| data_ := data_ v; size_ := n |}.

(** ** Slots *)

Definition slot (s : state) (p : ptr) : option (option T) :=
  b ← block p; blk ← heap s !! b; blk !! offset p.

Definition set_slot (p : ptr) (o : option T) (s : state) : state :=
  match block p with
  | Some b => with_heap (alter (λ blk, <[offset p := o]> blk) b (heap s)) s
  | None => s
  end.

(** Read the object at [p]. *)
Definition load (p : ptr) : M T := λ s,
  match slot s p with
  | Some (Some v) => (s, Ok v)
  | _ => (s, Fault bad_access)
  end.

(** Write a new value into the live object at [p]. *)
Definition store (p : ptr) (v : T) : M unit := λ s,
  match slot s p with
  | Some (Some _) => (set_slot p (Some v) s, Ok tt)
  | _ => (s, Fault bad_access)
  end.

(** A constructor has completed at [p]: the object lives there.  An object
    that lived there before was overwritten without being destroyed. *)
Definition place (p : ptr) (v : T) : M unit := λ s,
  match slot s p with
  | Some None => (set_slot p (Some v) s, Ok tt)
  | Some (Some old) =>
      (with_leaked (leaked s ++ [old]) (set_slot p (Some v) s), Ok tt)
  | None => (s, Fault bad_access)
  end.

(** ** Calls into the element type *)

(** Run an element operation; a failure is an exception, or
    [std::terminate] when the operation is [noexcept]. *)
Definition elem_op {A} (ev : event) (noexcept : bool)
    (op : W → W * option A) : M A := λ s,
  let '(w, r) := op (world s) in
  let s' := with_trace (trace s ++ [ev]) (with_world w s) in
  match r with
  | Some a => (s', Ok a)
  | None => (s', if noexcept then Fault terminated else Throw element_failure)
  end.

(** [T(std::forward<Args>(args)...)] *)
Definition construct_value (a : ctor_arg T Args) : M T :=
  match a with
  | from_lvalue v => elem_op ev_construct false (copy_construct v)
  | from_rvalue v =>
      r ← elem_op ev_construct nothrow_move_constructible (move_construct v);
      mret (fst r)
  | from_args x => elem_op ev_construct false (construct x)
  | from_lvalue_at p =>
      v ← load p;
      elem_op ev_construct false (copy_construct v)
  | from_rvalue_at p =>
      v ← load p;
      r ← elem_op ev_construct nothrow_move_constructible (move_construct v);
      store p (snd r);;
      mret (fst r)
  end.

(** [new (p) T(std::forward<Args>(args)...)] *)
Definition construct_at (p : ptr) (a : ctor_arg T Args) : M unit :=
  v ← construct_value a; place p v.

(** [std::destroy_at(p)] *)
Definition destroy_at (p : ptr) : M unit :=
  v ← load p;
  modify (λ s, with_trace (trace s ++ [ev_destroy])
                 (with_world (destroy v (world s)) (set_slot p None s))).

(** The destructor of a local object (one that is not in a block). *)
Definition destroy_local (v : T) : M unit :=
  modify (λ s, with_trace (trace s ++ [ev_destroy])
                 (with_world (destroy v (world s)) s)).

(** [std::destroy_n(first, n)] *)
Fixpoint destroy_n (first : ptr) (n : nat) : M unit :=
  match n with
  | 0 => mret tt
  | S n' => destroy_at first;; destroy_n (first +ₚ 1) n'
  end.

(** Placement-new at [dst] of a copy of the object at [src]. *)
Definition copy_construct_at (dst src : ptr) : M unit :=
  v ← load src;
  v' ← elem_op ev_copy_construct false (copy_construct v);
  place dst v'.

(** Placement-new at [dst], move-constructing from the object at [src]. *)
Definition move_construct_at (dst src : ptr) : M unit :=
  v ← load src;
  r ← elem_op ev_move_construct nothrow_move_constructible (move_construct v);
  store src (snd r);;
  place dst (fst r).

(** [new (dst) T()] *)
Definition value_construct_at (dst : ptr) : M unit :=
  v ← elem_op ev_value_construct false default_construct;
  place dst v.

(** Copy-assign the object at [src] to the object at [dst]. *)
Definition copy_assign_at (dst src : ptr) : M unit :=
  d ← load dst;
  v ← load src;
  d' ← elem_op ev_copy_assign false (copy_assign d v);
  store dst d'.

(** Move-assign the object at [src] to the object at [dst]. *)
Definition move_assign_at (dst src : ptr) : M unit :=
  d ← load dst;
  v ← load src;
  r ← elem_op ev_move_assign false (move_assign d v);
  store src (snd r);;
  store dst (fst r).

(** Move-assign a local [tmp] to the object at [dst]: returns the moved-from
    [tmp]. *)
Definition move_assign_from_local (dst : ptr) (tmp : T) : M T :=
  d ← load dst;
  r ← elem_op ev_move_assign false (move_assign d tmp);
  store dst (fst r);;
  mret (snd r).

(** ** The standard algorithms the source calls

    The [uninitialized_*] algorithms construct the elements in order, and when
    a constructor throws they destroy the elements constructed so far and
    rethrow.  [k] is the number of elements done. *)

Fixpoint uninitialized_copy_from (k count : nat) (first d_first : ptr) : M unit :=
  match count with
  | 0 => mret tt
  | S c =>
      on_throw (copy_construct_at (d_first +ₚ k) (first +ₚ k))
               (destroy_n d_first k);;
      uninitialized_copy_from (S k) c first d_first
  end.
(** [std::uninitialized_copy_n(first, count, d_first)] *)
Definition uninitialized_copy_n (first : ptr) (count : nat) (d_first : ptr) : M unit :=
  uninitialized_copy_from 0 count first d_first.

Fixpoint uninitialized_move_from (k count : nat) (first d_first : ptr) : M unit :=
  match count with
  | 0 => mret tt
  | S c =>
      on_throw (move_construct_at (d_first +ₚ k) (first +ₚ k))
               (destroy_n d_first k);;
      uninitialized_move_from (S k) c first d_first
  end.
(** [std::uninitialized_move_n(first, count, d_first)] *)
Definition uninitialized_move_n (first : ptr) (count : nat) (d_first : ptr) : M unit :=
  uninitialized_move_from 0 count first d_first.

Fixpoint uninitialized_value_construct_from (k count : nat) (first : ptr) : M unit :=
  match count with
  | 0 => mret tt
  | S c =>
      on_throw (value_construct_at (first +ₚ k)) (destroy_n first k);;
      uninitialized_value_construct_from (S k) c first
  end.
(** [std::uninitialized_value_construct_n(first, count)] *)
Definition uninitialized_value_construct_n (first : ptr) (count : nat) : M unit :=
  uninitialized_value_construct_from 0 count first.

(** [std::copy(first, first + count, d_first)] *)
Fixpoint std_copy (first : ptr) (count : nat) (d_first : ptr) : M unit :=
  match count with
  | 0 => mret tt
  | S c => copy_assign_at d_first first;; std_copy (first +ₚ 1) c (d_first +ₚ 1)
  end.

(** [std::move(first, first + count, d_first)] *)
Fixpoint std_move (first : ptr) (count : nat) (d_first : ptr) : M unit :=
  match count with
  | 0 => mret tt
  | S c => move_assign_at d_first first;; std_move (first +ₚ 1) c (d_first +ₚ 1)
  end.

(** [std::move_backward(first, first + count, d_first + count)]: the last
    element first. *)
Fixpoint std_move_backward (first : ptr) (count : nat) (d_first : ptr) : M unit :=
  match count with
  | 0 => mret tt
  | S c =>
      move_assign_at (d_first +ₚ c) (first +ₚ c);;
      std_move_backward first c d_first
  end.

(** ** class RawMemory: storage *)

(** Conversion to [size_t]. *)
Definition size_t (n : nat) : nat :=
  N.to_nat (N.of_nat n mod 2 ^ size_bits)%N.

(** [n * sizeof(T)], computed in [size_t]. *)
Definition byte_count (n : nat) : N :=
  ((N.of_nat n * Npos sizeof_T) mod 2 ^ size_bits)%N.

(** The objects of type [T] that [bytes] bytes have room for. *)
Definition room (bytes : N) : nat := N.to_nat (bytes / Npos sizeof_T).

(** [operator new(bytes)]: a new block of [bytes] bytes; it throws when the
    provider is out of memory.  A request of no byte gives a block too. *)
Definition operator_new (bytes : N) : M nat := λ s,
  if decide (room bytes ≤ avail s) then
    let b := fresh (dom (heap s)) in
    (with_avail (avail s - room bytes)
       (with_heap (<[b := replicate (room bytes) None]> (heap s)) s), Ok b)
  else (s, Throw bad_alloc).

(** [Allocate(n)]: [n != 0 ? operator new(n * sizeof(T)) : nullptr]. *)
Definition Allocate (n : nat) : M (option nat) :=
  if decide (n ≠ 0) then b ← operator_new (byte_count n); mret (Some b)
  else mret None.

(** [Deallocate(buf)]: [operator delete]; nothing happens on a null pointer.
    No destructor runs for what the block still holds. *)
Definition Deallocate (buf : option nat) : M unit := λ s,
  match buf with
  | None => (s, Ok tt)
  | Some b =>
      match heap s !! b with
      | Some blk =>
          (with_leaked (leaked s ++ omap id blk)
             (with_avail (avail s + length blk)
                (with_heap (delete b (heap s)) s)), Ok tt)
      | None => (s, Fault bad_access)
      end
  end.

(** [explicit RawMemory(size_t capacity)] *)
Definition RawMemory_new (capacity : nat) : M RawMemory :=
  b ← Allocate capacity; mret {| buffer_ := b; capacity_ := capacity |}.

(** [~RawMemory()] *)
Definition RawMemory_delete (r : RawMemory) : M unit := Deallocate (buffer_ r).

(** [operator+(offset)] *)
Definition RawMemory_plus (r : RawMemory) (offset : nat) : M ptr :=
  assert (offset <=? capacity_ r);; mret (RawMemory_GetAddress r +ₚ offset).

(** [operator[](index)] *)
Definition RawMemory_index (r : RawMemory) (index : nat) : M ptr :=
  assert (index <? capacity_ r);; mret (RawMemory_GetAddress r +ₚ index).

(** ** class Vector

    A member function takes [this], the identity of the object it is called
    on; another [Vector] passed by reference is an identity too. *)

(** [Vector() = default] *)
Definition Vector_default (this : nat) : M unit :=
  put_obj this {| data_ := RawMemory_default; size_ := 0 |}.

(** [explicit Vector(size_t size)]: when the body throws, the member [data_]
    is destroyed and the object never exists. *)
Definition Vector_sized (this : nat) (size : nat) : M unit :=
  data ← RawMemory_new size;
  on_throw (uninitialized_value_construct_n (RawMemory_GetAddress data) size)
           (RawMemory_delete data);;
  put_obj this {| data_ := data; size_ := size |}.

(** [Vector(const Vector& other)] *)
Definition Vector_copy (this other : nat) : M unit :=
  o ← get_obj other;
  data ← RawMemory_new (size_ o);
  on_throw (uninitialized_copy_n (RawMemory_GetAddress (data_ o)) (size_ o)
              (RawMemory_GetAddress data))
           (RawMemory_delete data);;
  put_obj this {| data_ := data; size_ := size_ o |}.

(** [void Swap(Vector& other) noexcept] *)
Definition Vector_Swap (this other : nat) : M unit :=
  (* data_.Swap(other.data_) *)
  a ← get_obj this;
  b ← get_obj other;
  set_data this (fst (RawMemory_Swap (data_ a) (data_ b)));;
  set_data other (snd (RawMemory_Swap (data_ a) (data_ b)));;
  (* std::swap(size_, other.size_) *)
  a ← get_obj this;
  b ← get_obj other;
  set_size this (size_ b);;
  set_size other (size_ a).

(** [Vector(Vector&& other) noexcept] *)
Definition Vector_move (this other : nat) : M unit :=
  Vector_default this;;
  Vector_Swap this other.

(** [~Vector()], then the destructor of the member [data_]. *)
Definition Vector_delete (this : nat) : M unit :=
  v ← get_obj this;
  destroy_n (RawMemory_GetAddress (data_ v)) (size_ v);;
  RawMemory_delete (data_ v);;
  remove_obj this.

Definition Vector_Size (this : nat) : M nat :=
  v ← get_obj this; mret (size_ v).

Definition Vector_Capacity (this : nat) : M nat :=
  v ← get_obj this; mret (RawMemory_Capacity (data_ v)).

Definition Vector_begin (this : nat) : M ptr :=
  v ← get_obj this; mret (RawMemory_GetAddress (data_ v)).

Definition Vector_end (this : nat) : M ptr :=
  v ← get_obj this; mret (RawMemory_GetAddress (data_ v) +ₚ size_ v).

(** [T& operator[](size_t index) noexcept] *)
Definition Vector_index (this : nat) (index : nat) : M ptr :=
  v ← get_obj this;
  assert (index <? size_ v);;
  RawMemory_index (data_ v) index.

(** [void Reserve(size_t new_capacity)].  The local [new_data] is destroyed
    when the function is left, normally or by an exception. *)
Definition Vector_Reserve (this : nat) (new_capacity : nat) : M unit :=
  v ← get_obj this;
  if decide (new_capacity ≤ RawMemory_Capacity (data_ v)) then mret tt
  else
    new_data ← RawMemory_new new_capacity;
    on_throw
      ((if nothrow_move_constructible || negb copy_constructible
        then uninitialized_move_n (RawMemory_GetAddress (data_ v)) (size_ v)
               (RawMemory_GetAddress new_data)
        else uninitialized_copy_n (RawMemory_GetAddress (data_ v)) (size_ v)
               (RawMemory_GetAddress new_data));;
       destroy_n (RawMemory_GetAddress (data_ v)) (size_ v))
      (RawMemory_delete new_data);;
    set_data this (fst (RawMemory_Swap (data_ v) new_data));;
    RawMemory_delete (snd (RawMemory_Swap (data_ v) new_data)).

(** [void Resize(size_t new_size)] *)
Definition Vector_Resize (this : nat) (new_size : nat) : M unit :=
  v ← get_obj this;
  (if decide (new_size < size_ v) then
     destroy_n (RawMemory_GetAddress (data_ v) +ₚ new_size) (size_ v - new_size)
   else
     (if decide (RawMemory_Capacity (data_ v) < new_size)
      then Vector_Reserve this new_size else mret tt);;
     v' ← get_obj this;
     uninitialized_value_construct_n
       (RawMemory_GetAddress (data_ v') +ₚ size_ v') (new_size - size_ v'));;
  set_size this new_size.

(** [T& EmplaceBack(Args&&... args)] *)
Definition Vector_EmplaceBack (this : nat) (args : ctor_arg T Args) : M ptr :=
  v ← get_obj this;
  p ← (if decide (RawMemory_Capacity (data_ v) ≤ size_ v) then
         new_data ← RawMemory_new
           (if decide (size_ v = 0) then 1 else size_t (size_ v * 2));
         on_throw
           (construct_at (RawMemory_GetAddress new_data +ₚ size_ v) args;;
            (if nothrow_move_constructible || negb copy_constructible
             then uninitialized_move_n (RawMemory_GetAddress (data_ v)) (size_ v)
                    (RawMemory_GetAddress new_data)
             else uninitialized_copy_n (RawMemory_GetAddress (data_ v)) (size_ v)
                    (RawMemory_GetAddress new_data));;
            destroy_n (RawMemory_GetAddress (data_ v)) (size_ v))
           (RawMemory_delete new_data);;
         set_data this (fst (RawMemory_Swap (data_ v) new_data));;
         RawMemory_delete (snd (RawMemory_Swap (data_ v) new_data));;
         mret (RawMemory_GetAddress new_data +ₚ size_ v)
       else
         construct_at (RawMemory_GetAddress (data_ v) +ₚ size_ v) args;;
         mret (RawMemory_GetAddress (data_ v) +ₚ size_ v));
  set_size this (size_ v + 1);;
  mret p.

(** [void PushBack(U&& value)] *)
Definition Vector_PushBack (this : nat) (value : ctor_arg T Args) : M unit :=
  Vector_EmplaceBack this value;; mret tt.

(** [void PopBack()] *)
Definition Vector_PopBack (this : nat) : M unit :=
  v ← get_obj this;
  if decide (size_ v ≠ 0) then
    set_size this (size_ v - 1);;
    destroy_at (RawMemory_GetAddress (data_ v) +ₚ (size_ v - 1))
  else mret tt.

(** [iterator Emplace(const_iterator pos, Args&&... args)], after its
    assertion. *)
Definition Vector_Emplace_body (this : nat) (pos : ptr) (args : ctor_arg T Args)
    : M ptr :=
  b ← Vector_begin this;
  e ← Vector_end this;
  v ← get_obj this;
  let distance := offset pos - offset b in
  (if decide (size_ v < RawMemory_Capacity (data_ v)) then
     if decide (pos = e) then construct_at e args
     else
       temp_obj ← construct_value args;
       moved ← on_throw
         (last ← RawMemory_index (data_ v) (size_ v - 1);
          move_construct_at e last;;
          std_move_backward (RawMemory_GetAddress (data_ v) +ₚ distance)
            (size_ v - 1 - distance)
            (RawMemory_GetAddress (data_ v) +ₚ distance +ₚ 1);;
          move_assign_from_local (b +ₚ distance) temp_obj)
         (destroy_local temp_obj);
       destroy_local moved
   else
     new_data ← RawMemory_new
       (if decide (size_ v = 0) then 1 else size_t (size_ v * 2));
     on_throw
       (construct_at (RawMemory_GetAddress new_data +ₚ distance) args;;
        (if nothrow_move_constructible || negb copy_constructible
         then
           uninitialized_move_n b distance (RawMemory_GetAddress new_data);;
           uninitialized_move_n (b +ₚ distance) (size_ v - distance)
             (RawMemory_GetAddress new_data +ₚ distance +ₚ 1)
         else
           uninitialized_copy_n b distance (RawMemory_GetAddress new_data);;
           uninitialized_copy_n (b +ₚ distance) (size_ v - distance)
             (RawMemory_GetAddress new_data +ₚ distance +ₚ 1));;
        destroy_n (RawMemory_GetAddress (data_ v)) (size_ v))
       (RawMemory_delete new_data);;
     set_data this (fst (RawMemory_Swap (data_ v) new_data));;
     RawMemory_delete (snd (RawMemory_Swap (data_ v) new_data)));;
  set_size this (size_ v + 1);;
  b' ← Vector_begin this;
  mret (b' +ₚ distance).

(** [iterator Emplace(const_iterator pos, Args&&... args)] *)
Definition Vector_Emplace (this : nat) (pos : ptr) (args : ctor_arg T Args)
    : M ptr :=
  b ← Vector_begin this;
  e ← Vector_end this;
  assert (ptr_le b pos && ptr_lt pos e);;
  Vector_Emplace_body this pos args.

(** [iterator Insert(const_iterator pos, const T& value)] *)
Definition Vector_Insert (this : nat) (pos : ptr) (value : ref T) : M ptr :=
  Vector_Emplace this pos
    match value with
    | outside v => from_lvalue v
    | at_slot p => from_lvalue_at p
    end.

(** [iterator Insert(const_iterator pos, T&& value)] *)
Definition Vector_Insert_rvalue (this : nat) (pos : ptr) (value : ref T)
    : M ptr :=
  Vector_Emplace this pos
    match value with
    | outside v => from_rvalue v
    | at_slot p => from_rvalue_at p
    end.

(** [iterator Erase(const_iterator pos)] *)
Definition Vector_Erase (this : nat) (pos : ptr) : M ptr :=
  b ← Vector_begin this;
  e ← Vector_end this;
  assert (ptr_le b pos && ptr_lt pos e);;
  let shift := offset pos - offset b in
  std_move (b +ₚ shift +ₚ 1) (offset e - (offset b + shift + 1)) (b +ₚ shift);;
  Vector_PopBack this;;
  b' ← Vector_begin this;
  mret (b' +ₚ shift).

(** [void CopyFromRhsVector(const Vector& rhs)] *)
Definition Vector_CopyFromRhsVector (this rhs : nat) : M unit :=
  r ← get_obj rhs;
  v ← get_obj this;
  std_copy (RawMemory_GetAddress (data_ r)) (min (size_ r) (size_ v))
    (RawMemory_GetAddress (data_ v));;
  (if decide (size_ r < size_ v) then
     destroy_n (RawMemory_GetAddress (data_ v) +ₚ size_ r) (size_ v - size_ r)
   else
     uninitialized_copy_n (RawMemory_GetAddress (data_ r) +ₚ size_ v)
       (size_ r - size_ v) (RawMemory_GetAddress (data_ v) +ₚ size_ v));;
  set_size this (size_ r).

(** [Vector& operator=(const Vector& rhs)].  The local [new_vector] is
    destroyed when its block is left. *)
Definition Vector_copy_assign (this rhs : nat) : M unit :=
  if decide (this ≠ rhs) then
    r ← get_obj rhs;
    v ← get_obj this;
    if decide (RawMemory_Capacity (data_ v) < size_ r) then
      new_vector ← fresh_obj;
      Vector_copy new_vector rhs;;
      Vector_Swap this new_vector;;
      Vector_delete new_vector
    else Vector_CopyFromRhsVector this rhs
  else mret tt.

(** [Vector& operator=(Vector&& rhs) noexcept] *)
Definition Vector_move_assign (this rhs : nat) : M unit :=
  if decide (this = rhs) then mret tt
  else Vector_Swap this rhs.

(** ** Views of a state *)

(** The elements of a vector: what its first [size_] slots hold, if all of
    them hold an object. *)
Definition block_of (s : state) (r : RawMemory) : list (option T) :=
  default [] (b ← buffer_ r; heap s !! b).

Definition elements (s : state) (this : nat) : option (list T) :=
  v ← objs s !! this;
  mapM id (take (size_ v) (block_of s (data_ v))).

Definition size_of (s : state) (this : nat) : nat :=
  default 0 (size_ <$> objs s !! this).

Definition capacity_of (s : state) (this : nat) : nat :=
  default 0 (capacity_ ∘ data_ <$> objs s !! this).

(** The mutating calls on one instance. *)
Inductive call :=
| call_Reserve (new_capacity : nat)
| call_Resize (new_size : nat)
| call_PushBack (value : ctor_arg T Args)
| call_PopBack
| call_Emplace (pos : ptr) (args : ctor_arg T Args)
| call_Erase (pos : ptr)
| call_copy_assign (rhs : nat)
| call_move_assign (rhs : nat).

Definition exec (this : nat) (c : call) : M unit :=
  match c with
  | call_Reserve n => Vector_Reserve this n
  | call_Resize n => Vector_Resize this n
  | call_PushBack a => Vector_PushBack this a
  | call_PopBack => Vector_PopBack this
  | call_Emplace pos a => Vector_Emplace this pos a;; mret tt
  | call_Erase pos => Vector_Erase this pos;; mret tt
  | call_copy_assign rhs => Vector_copy_assign this rhs
  | call_move_assign rhs => Vector_move_assign this rhs
  end.

(** A sequence of calls, each one started when the one before returned. *)
Fixpoint exec_all (this : nat) (cs : list call) : M unit :=
  match cs with
  | [] => mret tt
  | c :: cs' => exec this c;; exec_all this cs'
  end.


(** ** Vocabulary of the statements *)

Implicit Types (s : state) (v : Vector) (p : ptr).

(** Every run of [m] takes a state to an [R]-related one, whatever the
    outcome. *)
Definition preserves (R : relation state) {A} (m : M A) : Prop :=
  ∀ s, R s (m s).1.

(** The store of objects is untouched. *)
Definition same_objs : relation state := λ s s', objs s' = objs s.

(** No element operation was invoked. *)
Definition same_trace : relation state := λ s s', trace s' = trace s.

(** The element operations invoked between two states all satisfy [P]. *)
Definition emitted (P : event → Prop) : relation state := λ s s',
  ∃ l, trace s' = trace s ++ l ∧ Forall P l.

(** Object [this] is still there and its capacity is no smaller. *)
Definition not_shrunk (this : nat) : relation state := λ s s',
  ∀ v, objs s !! this = Some v →
       ∃ v', objs s' !! this = Some v' ∧
             capacity_ (data_ v) ≤ capacity_ (data_ v').

(** The [if constexpr] condition of the three relocations. *)
Definition relocates_by_move : bool :=
  nothrow_move_constructible || negb copy_constructible.

(** The constructor event of a relocation. *)
Definition relocation_event : event :=
  if relocates_by_move then ev_move_construct else ev_copy_construct.

Definition is_move_assign (c : call) : bool :=
  match c with call_move_assign _ => true | _ => false end.


(** Only storage changed: blocks, free slots and the record of leaks. *)
Definition storage_step : relation state := λ s s',
  objs s' = objs s ∧ world s' = world s ∧ trace s' = trace s.

(** Only the store of objects changed. *)
Definition objs_step : relation state := λ s s',
  heap s' = heap s ∧ avail s' = avail s ∧ world s' = world s ∧
  trace s' = trace s ∧ leaked s' = leaked s.


(** Object [this] has the same data members. *)
Definition same_object (this : nat) : relation state := λ s s',
  objs s' !! this = objs s !! this.

(** What a state holds apart from the element type's state and the record of
    its calls: blocks, free slots, objects, leaks. *)
Definition mem (s : state) :
    gmap nat (list (option T)) * nat * gmap nat Vector * list T :=
  (heap s, avail s, objs s, leaked s).

(** The block of a vector holding the elements [xs]: [xs] in the first slots,
    raw slots up to the capacity. *)
Definition block_with (capacity : nat) (xs : list T) : list (option T) :=
  (Some <$> xs) ++ replicate (capacity - length xs) None.

(** The data members [v] describe a vector whose elements are [xs]. *)
Definition holds (s : state) (v : Vector) (xs : list T) : Prop :=
  size_ v = length xs ∧
  length xs ≤ capacity_ (data_ v) ∧
  match buffer_ (data_ v) with
  | Some b => heap s !! b = Some (block_with (capacity_ (data_ v)) xs)
  | None => capacity_ (data_ v) = 0
  end.

(** [std::terminate] aside, the run of [m] does not end in an exception. *)
Definition never_throws {A} (m : M A) : Prop :=
  ∀ s s' e, m s ≠ (s', Throw e).

(** [y] is what some call of the copy constructor makes of [x]. *)
Definition copy_of (x y : T) : Prop := ∃ w, (copy_construct x w).2 = Some y.

(** [y] is what some call of the move constructor makes of [x]. *)
Definition move_of (x y : T) : Prop :=
  ∃ w m, (move_construct x w).2 = Some (y, m).

(** The argument of [PushBack(value)] for a value [x] of the element type:
    an rvalue ([rv]) or an lvalue. *)
Definition pushed (rv : bool) (x : T) : ctor_arg T Args :=
  if rv then from_rvalue x else from_lvalue x.

(** Reading [v[index]]. *)
Definition Vector_read (this : nat) (index : nat) : M T :=
  p ← Vector_index this index; load p.

(** The vector [this] holds [xs], and [total] slots are either free or in
    its buffer. *)
Definition vector_with (this : nat) (total : nat) (xs : list T) (s : state)
    : Prop :=
  ∃ v, objs s !! this = Some v ∧ holds s v xs ∧
       avail s + capacity_ (data_ v) = total.

(** The element operations of a growth: the construction of the new element,
    the relocation constructor, destructions. *)
Definition growth_event (ev : event) : Prop :=
  ev = ev_construct ∨ ev = relocation_event ∨ ev = ev_destroy.

(** Two vectors do not share a buffer. *)
Definition separate (a b : Vector) : Prop :=
  ∀ blk, buffer_ (data_ a) = Some blk → buffer_ (data_ b) ≠ Some blk.

(** [y] is what some call of the default constructor makes. *)
Definition default_made (y : T) : Prop := ∃ w, (default_construct w).2 = Some y.

(** What a relocation makes of the elements [xs]. *)
Definition relocated (xs ys : list T) : Prop :=
  if relocates_by_move then Forall2 move_of xs ys else Forall2 copy_of xs ys.

(** A constructor of the relocation fails on one of the elements [xs]. *)
Definition relocation_failed (xs : list T) : Prop :=
  ∃ x w, x ∈ xs ∧
         if relocates_by_move then (move_construct x w).2 = None
         else (copy_construct x w).2 = None.

(** The blocks once the buffer of [r] is released. *)
Definition release (r : RawMemory) (h : gmap nat (list (option T)))
    : gmap nat (list (option T)) :=
  match buffer_ r with
  | Some b => delete b h
  | None => h
  end.

(** Every vector has a length within its capacity. *)
Definition all_bounded (s : state) : Prop :=
  ∀ x v, objs s !! x = Some v → size_ v ≤ capacity_ (data_ v).

Definition keeps_bounds : relation state := λ s s',
  all_bounded s → all_bounded s'.

(** Nothing was allocated, released or leaked, and vector [this] has the
    buffer and capacity it had. *)
Definition storage_kept (this : nat) : relation state := λ s s',
  avail s' = avail s ∧
  dom (heap s') = dom (heap s) ∧
  leaked s' = leaked s ∧
  ∀ v, objs s !! this = Some v →
       ∃ v', objs s' !! this = Some v' ∧ data_ v' = data_ v.

(** [n] objects of type [T] take a number of bytes that [size_t] can hold:
    [n * sizeof(T)] does not wrap. *)
Definition addressable (n : nat) : Prop :=
  (N.of_nat n * Npos sizeof_T < 2 ^ size_bits)%N.

(** The slots of the block that [Allocate(n)] asks for. *)
Definition slots (n : nat) : nat := room (byte_count n).

(** The object that the construction from [a] writes to: the one an rvalue
    refers to, when it is in a block. *)
Definition moved_from (a : ctor_arg T Args) : option ptr :=
  match a with
  | from_rvalue_at p => Some p
  | _ => None
  end.

(** The slot that the argument [a] refers to, when it refers to one. *)
Definition referent (a : ctor_arg T Args) : option ptr :=
  match a with
  | from_lvalue_at p | from_rvalue_at p => Some p
  | _ => None
  end.

(** The state [s] with a new block [nb] of [k] raw slots, [n] slots being
    left free. *)
Definition with_new_block (nb k n : nat) (s : state) : state :=
  with_avail n (with_heap (<[nb := replicate k None]> (heap s)) s).

(** No slot has appeared. *)
Definition no_new_slots : relation state := λ s s',
  ∀ p, is_Some (slot s' p) → is_Some (slot s p).

(** * Properties *)

(** ** Arithmetic in [size_t] *)

Lemma size_modulus_pos : (0 < 2 ^ size_bits)%N.
Proof. apply N.neq_0_lt_0, N.pow_nonzero. lia. Qed.

Lemma slots_le n : slots n ≤ n.
Proof.
  unfold slots, room, byte_count.
  pose proof size_modulus_pos as Hpos.
  assert (((N.of_nat n * N.pos sizeof_T) mod 2 ^ size_bits) / N.pos sizeof_T
          ≤ N.of_nat n)%N as Hle; [|lia].
  etrans; [apply N.Div0.div_le_mono, N.Div0.mod_le|].
  rewrite N.div_mul; lia.
Qed.

Lemma slots_addressable n : addressable n → slots n = n.
Proof.
  unfold addressable, slots, room, byte_count. intros Hn.
  rewrite N.mod_small by done. rewrite N.div_mul by lia. apply Nat2N.id.
Qed.

Lemma size_t_le n : size_t n ≤ n.
Proof.
  unfold size_t. pose proof (N.Div0.mod_le (N.of_nat n) (2 ^ size_bits)). lia.
Qed.

Lemma size_t_small n : (N.of_nat n < 2 ^ size_bits)%N → size_t n = n.
Proof. intros Hn. unfold size_t. rewrite N.mod_small by done. apply Nat2N.id. Qed.

Lemma addressable_le m n : m ≤ n → addressable n → addressable m.
Proof.
  unfold addressable. intros Hle Hn.
  eapply N.le_lt_trans; [|exact Hn]. apply N.mul_le_mono_r. lia.
Qed.

Lemma addressable_size_t n : addressable n → size_t n = n.
Proof.
  unfold addressable. intros Hn. apply size_t_small.
  eapply N.le_lt_trans; [|exact Hn].
  rewrite <- (N.mul_1_r (N.of_nat n)) at 1. apply N.mul_le_mono_l. lia.
Qed.

Lemma size_t_double n : n < size_t (n * 2) → size_t (n * 2) = n * 2.
Proof.
  intros Hlt. apply size_t_small.
  destruct (decide (N.of_nat (n * 2) < 2 ^ size_bits)%N) as [|Hge]; [done|].
  exfalso. unfold size_t in Hlt.
  pose proof size_modulus_pos as Hpos.
  pose proof (N.mod_upper_bound (N.of_nat (n * 2)) (2 ^ size_bits)
                ltac:(lia)) as Hup.
  destruct (decide (N.of_nat n < 2 ^ size_bits)%N) as [Hn|Hn]; [|lia].
  assert (N.of_nat (n * 2) mod 2 ^ size_bits
          = N.of_nat (n * 2) - 2 ^ size_bits)%N as Hmod.
  { symmetry. apply (N.mod_unique _ _ 1); lia. }
  lia.
Qed.

Lemma growth_no_wrap n :
  addressable (1 `max` (2 * n)) →
  (if decide (n = 0) then 1 else size_t (n * 2))
    = (if decide (n = 0) then 1 else n * 2).
Proof.
  intros Hn. case_decide; [done|]. apply addressable_size_t.
  eapply addressable_le; [|exact Hn]. lia.
Qed.

Lemma growth_room n :
  n < slots (if decide (n = 0) then 1 else size_t (n * 2)) →
  (if decide (n = 0) then 1 else size_t (n * 2)) = 1 `max` (2 * n).
Proof.
  intros Hlt. case_decide as Hn; [lia|].
  pose proof (slots_le (size_t (n * 2))). rewrite size_t_double; lia.
Qed.

(** ** The monad *)


Lemma bind_unfold {A B} (m : M A) (k : A → M B) s :
  (m ≫= k) s =
  match m s with
  | (s', Ok a) => k a s'
  | (s', Throw e) => (s', Throw e)
  | (s', Fault f) => (s', Fault f)
  end.
Proof. reflexivity. Qed.

Lemma bind_Ok {A B} (m : M A) (k : A → M B) s s1 a :
  m s = (s1, Ok a) → (m ≫= k) s = k a s1.
Proof. intros E. by rewrite bind_unfold, E. Qed.

Lemma bind_assoc {A B C} (m : M A) (k1 : A → M B) (k2 : B → M C) s :
  ((m ≫= k1) ≫= k2) s = (m ≫= λ a, k1 a ≫= k2) s.
Proof. rewrite !bind_unfold. by destruct (m s) as [s1 [a|e|f]]. Qed.

Lemma bind_Ok_inv {A B} (m : M A) (k : A → M B) s s' b :
  (m ≫= k) s = (s', Ok b) →
  ∃ s1 a, m s = (s1, Ok a) ∧ k a s1 = (s', Ok b).
Proof.
  rewrite bind_unfold. destruct (m s) as [s1 [a|e|f]]; [eauto | done | done].
Qed.

Lemma on_throw_Ok_inv {A} (m : M A) c s s' a :
  on_throw m c s = (s', Ok a) → m s = (s', Ok a).
Proof.
  unfold on_throw. destruct (m s) as [s1 [x|e|f]]; [done | | done].
  by destruct (c s1) as [s2 [[]|e'|f]].
Qed.

Lemma on_throw_Ok {A} (m : M A) c s s' a :
  m s = (s', Ok a) → on_throw m c s = (s', Ok a).
Proof. intros E. unfold on_throw. by rewrite E. Qed.

Lemma get_obj_Some this s v :
  objs s !! this = Some v → get_obj this s = (s, Ok v).
Proof. intros E. unfold get_obj. by rewrite E. Qed.

Lemma set_data_Some this d s v :
  objs s !! this = Some v →
  set_data this d s =
    (with_objs (<[this := {| data_ := d; size_ := size_ v |}]> (objs s)) s, Ok tt).
Proof.
  intros E. unfold set_data.
  by rewrite (bind_Ok _ _ _ _ _ (get_obj_Some _ _ _ E)).
Qed.

Lemma set_size_Some this n s v :
  objs s !! this = Some v →
  set_size this n s =
    (with_objs (<[this := {| data_ := data_ v; size_ := n |}]> (objs s)) s, Ok tt).
Proof.
  intros E. unfold set_size.
  by rewrite (bind_Ok _ _ _ _ _ (get_obj_Some _ _ _ E)).
Qed.

Lemma RawMemory_eta (r : RawMemory) :
  {| buffer_ := buffer_ r; capacity_ := capacity_ r |} = r.
Proof. by destruct r. Qed.

Lemma Vector_eta v : {| data_ := data_ v; size_ := size_ v |} = v.
Proof. by destruct v. Qed.

(** *** Relations kept by every run *)

Section Preserves.
Context (R : relation state) `{!PreOrder R}.

Lemma preserves_ret {A} (a : A) : preserves R (mret a).
Proof. intros s. simpl. reflexivity. Qed.

Lemma preserves_bind {A B} (m : M A) (k : A → M B) :
  preserves R m → (∀ a, preserves R (k a)) → preserves R (m ≫= k).
Proof.
  intros Hm Hk s. rewrite bind_unfold. specialize (Hm s).
  destruct (m s) as [s1 [a|e|f]]; simpl in *; [|done..].
  etrans; [exact Hm | apply Hk].
Qed.

Lemma preserves_on_throw {A} (m : M A) c :
  preserves R m → preserves R c → preserves R (on_throw m c).
Proof.
  intros Hm Hc s. unfold on_throw. specialize (Hm s).
  destruct (m s) as [s1 [a|e|f]]; simpl in *; [done| |done].
  specialize (Hc s1). destruct (c s1) as [s2 [[]|e'|f]]; simpl in *; by etrans.
Qed.

Lemma preserves_throw {A} e : preserves R (throw (A := A) e).
Proof. intros s. simpl. reflexivity. Qed.

Lemma preserves_abort {A} f : preserves R (abort (A := A) f).
Proof. intros s. simpl. reflexivity. Qed.

Lemma preserves_assert c : preserves R (assert c).
Proof. destruct c; [apply preserves_ret | apply preserves_abort]. Qed.

Lemma preserves_get_obj this : preserves R (get_obj this).
Proof. intros s. unfold get_obj. destruct (objs s !! this); simpl; reflexivity. Qed.

Lemma preserves_fresh_obj : preserves R fresh_obj.
Proof. intros s. simpl. reflexivity. Qed.

Lemma preserves_modify (f : state → state) :
  (∀ s, R s (f s)) → preserves R (modify f).
Proof. intros Hf s. apply Hf. Qed.

Lemma preserves_weaken (R' : relation state) {A} (m : M A) :
  (∀ s s', R' s s' → R s s') → preserves R' m → preserves R m.
Proof. intros Hsub Hm s. apply Hsub, Hm. Qed.

End Preserves.

(** *** What each layer of the machine leaves alone *)

Create HintDb frame.

Ltac frame_step :=
  lazymatch goal with
  | |- preserves ?R (mret _) => apply (preserves_ret R)
  | |- preserves ?R (_ ≫= _) => apply (preserves_bind R); [|intros ?]
  | |- preserves ?R (on_throw _ _) => apply (preserves_on_throw R)
  | |- preserves ?R (assert _) => apply (preserves_assert R)
  | |- preserves ?R (get_obj _) => apply (preserves_get_obj R)
  | |- preserves ?R fresh_obj => apply (preserves_fresh_obj R)
  | |- preserves ?R (throw _) => apply (preserves_throw R)
  | |- preserves ?R (abort _) => apply (preserves_abort R)
  | |- preserves _ (if ?c then _ else _) => destruct c
  | |- preserves _ (match ?c with _ => _ end) => destruct c
  end.
Ltac frame := repeat frame_step; eauto with frame.

#[local] Instance same_objs_preorder : PreOrder same_objs.
Proof. split; [done | intros s1 s2 s3; unfold same_objs; congruence]. Qed.

#[local] Instance same_trace_preorder : PreOrder same_trace.
Proof. split; [done | intros s1 s2 s3; unfold same_trace; congruence]. Qed.

#[local] Instance storage_step_preorder : PreOrder storage_step.
Proof.
  split; [done|]. intros s1 s2 s3 (?&?&?) (?&?&?).
  unfold storage_step. split_and!; congruence.
Qed.

#[local] Instance objs_step_preorder : PreOrder objs_step.
Proof.
  split; [done|]. intros s1 s2 s3 (?&?&?&?&?) (?&?&?&?&?).
  unfold objs_step. split_and!; congruence.
Qed.

#[local] Instance emitted_preorder P : PreOrder (emitted P).
Proof.
  split.
  - intros s. exists []. by rewrite app_nil_r.
  - intros s1 s2 s3 (l1 & E1 & H1) (l2 & E2 & H2). exists (l1 ++ l2).
    rewrite E2, E1, app_assoc. split; [done | by apply Forall_app].
Qed.

#[local] Instance not_shrunk_preorder this : PreOrder (not_shrunk this).
Proof.
  split.
  - intros s v Hv. eauto.
  - intros s1 s2 s3 H12 H23 v Hv.
    destruct (H12 v Hv) as (v' & Hv' & Hle).
    destruct (H23 v' Hv') as (v'' & Hv'' & Hle'). exists v''. split; [done | lia].
Qed.

Lemma set_slot_storage p o s : storage_step s (set_slot p o s).
Proof. unfold set_slot. by destruct (block p). Qed.

Lemma storage_load p : preserves storage_step (load p).
Proof. intros s. unfold load. by destruct (slot s p) as [[?|]|]. Qed.

Lemma storage_store p x : preserves storage_step (store p x).
Proof.
  intros s. unfold store.
  destruct (slot s p) as [[?|]|]; simpl; try done. apply set_slot_storage.
Qed.

Lemma storage_place p x : preserves storage_step (place p x).
Proof.
  intros s. unfold place.
  destruct (slot s p) as [[?|]|]; simpl; try done; apply set_slot_storage.
Qed.

Lemma storage_operator_new bytes : preserves storage_step (operator_new bytes).
Proof. intros s. unfold operator_new. by case_decide. Qed.

Lemma storage_Allocate n : preserves storage_step (Allocate n).
Proof. unfold Allocate. frame. apply storage_operator_new. Qed.

Lemma storage_Deallocate buf : preserves storage_step (Deallocate buf).
Proof.
  intros s. unfold Deallocate. destruct buf as [b|]; [|done].
  by destruct (heap s !! b).
Qed.

Lemma storage_RawMemory_new n : preserves storage_step (RawMemory_new n).
Proof. unfold RawMemory_new. frame. apply storage_Allocate. Qed.

Lemma storage_RawMemory_delete r : preserves storage_step (RawMemory_delete r).
Proof. apply storage_Deallocate. Qed.

Lemma objs_put_obj this v : preserves objs_step (put_obj this v).
Proof. by apply (preserves_modify objs_step). Qed.

Lemma objs_remove_obj this : preserves objs_step (remove_obj this).
Proof. by apply (preserves_modify objs_step). Qed.

Lemma objs_set_data this d : preserves objs_step (set_data this d).
Proof. unfold set_data. frame. apply objs_put_obj. Qed.

Lemma objs_set_size this n : preserves objs_step (set_size this n).
Proof. unfold set_size. frame. apply objs_put_obj. Qed.

Lemma storage_same_objs s s' : storage_step s s' → same_objs s s'.
Proof. by intros (?&?&?). Qed.

Lemma storage_same_trace s s' : storage_step s s' → same_trace s s'.
Proof. by intros (?&?&?). Qed.

Lemma objs_same_trace s s' : objs_step s s' → same_trace s s'.
Proof. by intros (?&?&?&?&?). Qed.

(** **** Below the member functions the store of objects is not touched *)

Lemma keeps_objs_storage {A} (m : M A) :
  preserves storage_step m → preserves same_objs m.
Proof. apply preserves_weaken, storage_same_objs. Qed.

Lemma keeps_objs_load p : preserves same_objs (load p).
Proof. apply keeps_objs_storage, storage_load. Qed.

Lemma keeps_objs_store p x : preserves same_objs (store p x).
Proof. apply keeps_objs_storage, storage_store. Qed.

Lemma keeps_objs_place p x : preserves same_objs (place p x).
Proof. apply keeps_objs_storage, storage_place. Qed.

Lemma keeps_objs_RawMemory_new n : preserves same_objs (RawMemory_new n).
Proof. apply keeps_objs_storage, storage_RawMemory_new. Qed.

Lemma keeps_objs_RawMemory_delete r : preserves same_objs (RawMemory_delete r).
Proof. apply keeps_objs_storage, storage_RawMemory_delete. Qed.

Lemma keeps_objs_elem_op {A} ev ne (op : W → W * option A) :
  preserves same_objs (elem_op ev ne op).
Proof. intros s. unfold elem_op. by destruct (op (world s)) as [w [a|]]. Qed.

Hint Resolve keeps_objs_load keeps_objs_store keeps_objs_place
  keeps_objs_RawMemory_new keeps_objs_RawMemory_delete keeps_objs_elem_op : frame.

Lemma keeps_objs_destroy_at p : preserves same_objs (destroy_at p).
Proof.
  unfold destroy_at. frame.
  apply (preserves_modify same_objs). intros s. unfold same_objs. simpl.
  apply (set_slot_storage p None s).
Qed.

Lemma keeps_objs_destroy_local x : preserves same_objs (destroy_local x).
Proof. by apply (preserves_modify same_objs). Qed.

Hint Resolve keeps_objs_destroy_at keeps_objs_destroy_local : frame.

Lemma keeps_objs_destroy_n p n : preserves same_objs (destroy_n p n).
Proof. revert p. induction n as [|n IH]; intros p; simpl; frame. Qed.

Lemma keeps_objs_construct_value a : preserves same_objs (construct_value a).
Proof. unfold construct_value. frame. Qed.

Hint Resolve keeps_objs_destroy_n keeps_objs_construct_value : frame.

Lemma keeps_objs_construct_at p a : preserves same_objs (construct_at p a).
Proof. unfold construct_at. frame. Qed.

Lemma keeps_objs_copy_construct_at p q : preserves same_objs (copy_construct_at p q).
Proof. unfold copy_construct_at. frame. Qed.

Lemma keeps_objs_move_construct_at p q : preserves same_objs (move_construct_at p q).
Proof. unfold move_construct_at. frame. Qed.

Lemma keeps_objs_value_construct_at p : preserves same_objs (value_construct_at p).
Proof. unfold value_construct_at. frame. Qed.

Lemma keeps_objs_copy_assign_at p q : preserves same_objs (copy_assign_at p q).
Proof. unfold copy_assign_at. frame. Qed.

Lemma keeps_objs_move_assign_at p q : preserves same_objs (move_assign_at p q).
Proof. unfold move_assign_at. frame. Qed.

Lemma keeps_objs_move_assign_from_local p x :
  preserves same_objs (move_assign_from_local p x).
Proof. unfold move_assign_from_local. frame. Qed.

Hint Resolve keeps_objs_construct_at keeps_objs_copy_construct_at
  keeps_objs_move_construct_at keeps_objs_value_construct_at
  keeps_objs_copy_assign_at keeps_objs_move_assign_at
  keeps_objs_move_assign_from_local : frame.

Lemma keeps_objs_uninitialized_copy_from k n p q :
  preserves same_objs (uninitialized_copy_from k n p q).
Proof. revert k. induction n as [|n IH]; intros k; simpl; frame. Qed.

Lemma keeps_objs_uninitialized_move_from k n p q :
  preserves same_objs (uninitialized_move_from k n p q).
Proof. revert k. induction n as [|n IH]; intros k; simpl; frame. Qed.

Lemma keeps_objs_uninitialized_value_construct_from k n p :
  preserves same_objs (uninitialized_value_construct_from k n p).
Proof. revert k. induction n as [|n IH]; intros k; simpl; frame. Qed.

Lemma keeps_objs_uninitialized_copy_n p n q :
  preserves same_objs (uninitialized_copy_n p n q).
Proof. apply keeps_objs_uninitialized_copy_from. Qed.

Lemma keeps_objs_uninitialized_move_n p n q :
  preserves same_objs (uninitialized_move_n p n q).
Proof. apply keeps_objs_uninitialized_move_from. Qed.

Lemma keeps_objs_uninitialized_value_construct_n p n :
  preserves same_objs (uninitialized_value_construct_n p n).
Proof. apply keeps_objs_uninitialized_value_construct_from. Qed.

Lemma keeps_objs_std_copy p n q : preserves same_objs (std_copy p n q).
Proof. revert p q. induction n as [|n IH]; intros p q; simpl; frame. Qed.

Lemma keeps_objs_std_move p n q : preserves same_objs (std_move p n q).
Proof. revert p q. induction n as [|n IH]; intros p q; simpl; frame. Qed.

Lemma keeps_objs_std_move_backward p n q :
  preserves same_objs (std_move_backward p n q).
Proof. induction n as [|n IH]; simpl; frame. Qed.

Lemma keeps_objs_RawMemory_index r i : preserves same_objs (RawMemory_index r i).
Proof. unfold RawMemory_index. frame. Qed.

Hint Resolve keeps_objs_uninitialized_copy_n keeps_objs_uninitialized_move_n
  keeps_objs_uninitialized_value_construct_n keeps_objs_std_copy
  keeps_objs_std_move keeps_objs_std_move_backward keeps_objs_RawMemory_index
  : frame.

Lemma preserves_run (R : relation state) {A} (m : M A) s s' r :
  preserves R m → m s = (s', r) → R s s'.
Proof. intros Hm E. specialize (Hm s). by rewrite E in Hm. Qed.

(** ** Slots appear by allocation only

    What a run below the member functions writes to is a slot that was there
    before the run. *)

#[local] Instance no_new_slots_preorder : PreOrder no_new_slots.
Proof.
  split; [by intros s p|]. intros s1 s2 s3 H12 H23 p Hp. by apply H12, H23.
Qed.

Lemma no_new_slots_heap s s' : heap s' = heap s → no_new_slots s s'.
Proof. intros Hh p. unfold slot. by rewrite Hh. Qed.

Lemma set_slot_no_new p o s : no_new_slots s (set_slot p o s).
Proof.
  intros q. unfold set_slot, slot. destruct (block p) as [b|]; [|done]. simpl.
  destruct (block q) as [b'|]; simpl; [|done].
  destruct (decide (b' = b)) as [->|Hne].
  - rewrite lookup_alter_eq. destruct (heap s !! b) as [blk|]; simpl; [|done].
    rewrite !lookup_lt_is_Some. by rewrite length_insert.
  - by rewrite lookup_alter_ne.
Qed.

Lemma no_new_load p : preserves no_new_slots (load p).
Proof. intros s. unfold load. by destruct (slot s p) as [[?|]|]. Qed.

Lemma no_new_store p x : preserves no_new_slots (store p x).
Proof.
  intros s. unfold store.
  destruct (slot s p) as [[?|]|]; simpl; try done. apply set_slot_no_new.
Qed.

Lemma no_new_place p x : preserves no_new_slots (place p x).
Proof.
  intros s. unfold place.
  destruct (slot s p) as [[?|]|]; simpl; try done; apply set_slot_no_new.
Qed.

Lemma no_new_elem_op {A} ev ne (op : W → W * option A) :
  preserves no_new_slots (elem_op ev ne op).
Proof.
  intros s. apply no_new_slots_heap. unfold elem_op.
  by destruct (op (world s)) as [w [a|]].
Qed.

Lemma no_new_destroy_at p : preserves no_new_slots (destroy_at p).
Proof.
  unfold destroy_at. apply (preserves_bind no_new_slots); [apply no_new_load|].
  intros x. apply (preserves_modify no_new_slots). intros s.
  apply (set_slot_no_new p None s).
Qed.

Hint Resolve no_new_load no_new_store no_new_place no_new_elem_op
  no_new_destroy_at : frame.

Lemma no_new_destroy_n p n : preserves no_new_slots (destroy_n p n).
Proof. revert p. induction n; intros p; simpl; frame. Qed.

Lemma no_new_construct_value a : preserves no_new_slots (construct_value a).
Proof. destruct a; simpl; frame. Qed.

Hint Resolve no_new_destroy_n no_new_construct_value : frame.

Lemma no_new_construct_at p a : preserves no_new_slots (construct_at p a).
Proof. unfold construct_at. frame. Qed.

Lemma no_new_copy_construct_at p q :
  preserves no_new_slots (copy_construct_at p q).
Proof. unfold copy_construct_at. frame. Qed.

Lemma no_new_move_construct_at p q :
  preserves no_new_slots (move_construct_at p q).
Proof. unfold move_construct_at. frame. Qed.

Lemma no_new_value_construct_at p : preserves no_new_slots (value_construct_at p).
Proof. unfold value_construct_at. frame. Qed.

Hint Resolve no_new_construct_at no_new_copy_construct_at
  no_new_move_construct_at no_new_value_construct_at : frame.

Lemma no_new_uninitialized_copy_from k n p q :
  preserves no_new_slots (uninitialized_copy_from k n p q).
Proof. revert k. induction n; intros k; simpl; frame. Qed.

Lemma no_new_uninitialized_move_from k n p q :
  preserves no_new_slots (uninitialized_move_from k n p q).
Proof. revert k. induction n; intros k; simpl; frame. Qed.

Hint Resolve no_new_uninitialized_copy_from no_new_uninitialized_move_from
  : frame.

(** A run that returned has written to slots only. *)

Lemma place_room p x s s' : place p x s = (s', Ok tt) → is_Some (slot s p).
Proof. unfold place. by destruct (slot s p) as [[?|]|]. Qed.

Lemma construct_at_room p a s s' :
  construct_at p a s = (s', Ok tt) → is_Some (slot s p).
Proof.
  unfold construct_at. intros E. apply bind_Ok_inv in E as (s1 & x & E1 & E).
  apply place_room in E.
  by apply (preserves_run no_new_slots _ _ _ _ (no_new_construct_value a) E1).
Qed.

Lemma copy_construct_at_room dst src s s' :
  copy_construct_at dst src s = (s', Ok tt) → is_Some (slot s dst).
Proof.
  unfold copy_construct_at. intros E.
  apply bind_Ok_inv in E as (s1 & x & E1 & E).
  apply bind_Ok_inv in E as (s2 & y & E2 & E). apply place_room in E.
  apply (preserves_run no_new_slots _ _ _ _ (no_new_load src) E1).
  by apply (preserves_run no_new_slots _ _ _ _ (no_new_elem_op _ _ _) E2).
Qed.

Lemma move_construct_at_room dst src s s' :
  move_construct_at dst src s = (s', Ok tt) → is_Some (slot s dst).
Proof.
  unfold move_construct_at. intros E.
  apply bind_Ok_inv in E as (s1 & x & E1 & E).
  apply bind_Ok_inv in E as (s2 & y & E2 & E).
  apply bind_Ok_inv in E as (s3 & [] & E3 & E). apply place_room in E.
  apply (preserves_run no_new_slots _ _ _ _ (no_new_load src) E1).
  apply (preserves_run no_new_slots _ _ _ _ (no_new_elem_op _ _ _) E2).
  by apply (preserves_run no_new_slots _ _ _ _ (no_new_store _ _) E3).
Qed.

Lemma value_construct_at_room dst s s' :
  value_construct_at dst s = (s', Ok tt) → is_Some (slot s dst).
Proof.
  unfold value_construct_at. intros E.
  apply bind_Ok_inv in E as (s1 & x & E1 & E). apply place_room in E.
  by apply (preserves_run no_new_slots _ _ _ _ (no_new_elem_op _ _ _) E1).
Qed.

Lemma uninitialized_copy_from_room c : ∀ k first d s s',
  uninitialized_copy_from k (S c) first d s = (s', Ok tt) →
  is_Some (slot s (d +ₚ (k + c))).
Proof.
  induction c as [|c IH]; intros k first d s s' E; simpl in E;
    apply bind_Ok_inv in E as (s1 & [] & E1 & E);
    pose proof E1 as E1'; apply on_throw_Ok_inv in E1.
  - rewrite Nat.add_0_r. by apply copy_construct_at_room in E1.
  - apply IH in E. replace (k + S c) with (S k + c) by lia.
    refine (preserves_run no_new_slots _ _ _ _ _ E1' _ E). frame.
Qed.

Lemma uninitialized_move_from_room c : ∀ k first d s s',
  uninitialized_move_from k (S c) first d s = (s', Ok tt) →
  is_Some (slot s (d +ₚ (k + c))).
Proof.
  induction c as [|c IH]; intros k first d s s' E; simpl in E;
    apply bind_Ok_inv in E as (s1 & [] & E1 & E);
    pose proof E1 as E1'; apply on_throw_Ok_inv in E1.
  - rewrite Nat.add_0_r. by apply move_construct_at_room in E1.
  - apply IH in E. replace (k + S c) with (S k + c) by lia.
    refine (preserves_run no_new_slots _ _ _ _ _ E1' _ E). frame.
Qed.

Lemma uninitialized_value_construct_from_room c : ∀ k first s s',
  uninitialized_value_construct_from k (S c) first s = (s', Ok tt) →
  is_Some (slot s (first +ₚ (k + c))).
Proof.
  induction c as [|c IH]; intros k first s s' E; simpl in E;
    apply bind_Ok_inv in E as (s1 & [] & E1 & E);
    pose proof E1 as E1'; apply on_throw_Ok_inv in E1.
  - rewrite Nat.add_0_r. by apply value_construct_at_room in E1.
  - apply IH in E. replace (k + S c) with (S k + c) by lia.
    refine (preserves_run no_new_slots _ _ _ _ _ E1' _ E). frame.
Qed.

(** ** Ownership transfer *)

Lemma RawMemory_Swap_ref_distinct this other (st : gmap nat RawMemory) a b :
  this ≠ other → st !! this = Some a → st !! other = Some b →
  RawMemory_Swap_ref this other st = Some (<[other := a]> (<[this := b]> st)).
Proof.
  intros Hne Ha Hb. unfold RawMemory_Swap_ref. rewrite Ha, Hb. simpl.
  by rewrite !RawMemory_eta.
Qed.

(** C8 (amended).  Move construction of a Raw Buffer transfers the
    address-plus-capacity pair of the source to the new object and leaves the
    source with a null address and capacity 0.  Move assignment exchanges the
    pairs of the destination and the source: the destination gets the
    source's pair and the source gets the destination's former pair.
    Assigning an object to itself changes nothing. *)
Theorem RawMemory_move_transfers_or_exchanges
    (other : nat) (st : gmap nat RawMemory) (src : RawMemory) :
  st !! other = Some src →
  (∀ this, this ≠ other →
     ∃ st', RawMemory_move_ctor this other st = Some st' ∧
            st' !! this = Some src ∧ st' !! other = Some RawMemory_default) ∧
  (∀ this dst, this ≠ other → st !! this = Some dst →
     ∃ st', RawMemory_move_assign this other st = Some st' ∧
            st' !! this = Some src ∧ st' !! other = Some dst) ∧
  RawMemory_move_assign other other st = Some st.
Proof.
  intros Hsrc. split_and!.
  - intros this Hne. eexists. split.
    + unfold RawMemory_move_ctor. apply RawMemory_Swap_ref_distinct; [done| |].
      * apply lookup_insert_eq.
      * by rewrite lookup_insert_ne.
    + split; [|apply lookup_insert_eq].
      rewrite lookup_insert_ne by done. apply lookup_insert_eq.
  - intros this dst Hne Hdst. eexists. split.
    + unfold RawMemory_move_assign. rewrite decide_True by done.
      by apply RawMemory_Swap_ref_distinct.
    + split; [|apply lookup_insert_eq].
      rewrite lookup_insert_ne by done. apply lookup_insert_eq.
  - unfold RawMemory_move_assign. by rewrite decide_False by auto.
Qed.

Lemma Vector_Swap_distinct this other s a b :
  this ≠ other →
  objs s !! this = Some a → objs s !! other = Some b →
  Vector_Swap this other s =
    (with_objs (<[other := a]> (<[this := b]> (objs s))) s, Ok tt).
Proof.
  intros Hne Ha Hb. unfold Vector_Swap.
  rewrite (bind_Ok _ _ _ _ _ (get_obj_Some _ _ _ Ha)).
  rewrite (bind_Ok _ _ _ _ _ (get_obj_Some _ _ _ Hb)).
  rewrite (bind_Ok _ _ _ _ _ (set_data_Some _ _ _ _ Ha)).
  erewrite bind_Ok; last first.
  { apply set_data_Some. simpl. rewrite lookup_insert_ne by done. exact Hb. }
  erewrite bind_Ok; last first.
  { apply get_obj_Some. simpl. rewrite lookup_insert_ne by done.
    apply lookup_insert_eq. }
  erewrite bind_Ok; last first.
  { apply get_obj_Some. simpl. apply lookup_insert_eq. }
  erewrite bind_Ok; last first.
  { apply set_size_Some. simpl. rewrite lookup_insert_ne by done.
    apply lookup_insert_eq. }
  erewrite set_size_Some; last first.
  { simpl. rewrite lookup_insert_ne by done. apply lookup_insert_eq. }
  simpl. f_equal. unfold with_objs; simpl. f_equal.
  rewrite !RawMemory_eta, !Vector_eta.
  apply map_eq. intros i.
  destruct (decide (i = other)) as [->|]; [by rewrite !lookup_insert_eq|].
  rewrite !(lookup_insert_ne _ other) by done.
  destruct (decide (i = this)) as [->|]; [by rewrite !lookup_insert_eq|].
  by rewrite !lookup_insert_ne by done.
Qed.

(** C9.  Move-constructing a vector [this] from a vector [other] returns
    normally; afterwards [this] has the data members [other] had (the same
    buffer, so the same elements in the same order, the same length and the
    same capacity), [other] is empty with length 0, and no block was
    touched. *)
Theorem Vector_move_transfers this other s v :
  this ≠ other →
  objs s !! other = Some v →
  ∃ s', Vector_move this other s = (s', Ok tt) ∧
        objs s' !! this = Some v ∧
        elements s' this = elements s other ∧
        size_of s' this = size_ v ∧
        capacity_of s' this = capacity_ (data_ v) ∧
        size_of s' other = 0 ∧
        elements s' other = Some [] ∧
        heap s' = heap s.
Proof.
  intros Hne Hv. eexists. split.
  { unfold Vector_move, Vector_default.
    erewrite bind_Ok; [|reflexivity].
    apply Vector_Swap_distinct; [done| |]; simpl.
    - apply lookup_insert_eq.
    - by rewrite lookup_insert_ne. }
  assert (∀ (o : gmap nat Vector) x y,
            <[other := x]> (<[this := y]> o) !! this = Some y) as Hthis.
  { intros o x y. rewrite lookup_insert_ne by done. apply lookup_insert_eq. }
  unfold elements, size_of, capacity_of, block_of. simpl.
  rewrite !Hthis, !lookup_insert_eq, Hv. by simpl.
Qed.

(** C10.  Assigning a vector to itself, by copy or by move, returns at once
    and leaves the whole state, so the vector's length, capacity and
    elements, as it was. *)
Theorem self_assignment_is_noop this s :
  Vector_copy_assign this this s = (s, Ok tt) ∧
  Vector_move_assign this this s = (s, Ok tt).
Proof.
  unfold Vector_copy_assign, Vector_move_assign.
  rewrite decide_False by auto. by rewrite decide_True.
Qed.

(** ** The position precondition of Emplace *)

Lemma ptr_lt_irrefl p : ptr_lt p p = false.
Proof.
  unfold ptr_lt. apply andb_false_intro2. apply Nat.ltb_ge. lia.
Qed.

(** C3 (the code's behaviour).  On every vector, [Emplace] and both [Insert]s
    called at the position [end()] stop at the assertion
    [pos >= begin() && pos < end()]: nothing is inserted. *)
Theorem Emplace_at_end_fails_assertion this args x s v :
  objs s !! this = Some v →
  let e := RawMemory_GetAddress (data_ v) +ₚ size_ v in
  Vector_end this s = (s, Ok e) ∧
  Vector_Emplace this e args s = (s, Fault assertion_failed) ∧
  Vector_Insert this e x s = (s, Fault assertion_failed) ∧
  Vector_Insert_rvalue this e x s = (s, Fault assertion_failed).
Proof.
  intros Hv e.
  assert (Vector_end this s = (s, Ok e)) as He.
  { unfold Vector_end. by rewrite (bind_Ok _ _ _ _ _ (get_obj_Some _ _ _ Hv)). }
  assert (∀ a, Vector_Emplace this e a s = (s, Fault assertion_failed)) as Ha.
  { intros a. unfold Vector_Emplace.
    erewrite bind_Ok; last first.
    { unfold Vector_begin.
      by rewrite (bind_Ok _ _ _ _ _ (get_obj_Some _ _ _ Hv)). }
    rewrite (bind_Ok _ _ _ _ _ He).
    by rewrite ptr_lt_irrefl, andb_false_r. }
  unfold Vector_Insert, Vector_Insert_rvalue. auto.
Qed.

(** ** Growth *)

Lemma RawMemory_new_Ok_inv n s s' d :
  RawMemory_new n s = (s', Ok d) → capacity_ d = n ∧ objs s' = objs s.
Proof.
  intros E. split.
  - unfold RawMemory_new in E. apply bind_Ok_inv in E as (s1 & b & _ & E).
    by inversion E.
  - exact (preserves_run same_objs _ _ _ _ (keeps_objs_RawMemory_new n) E).
Qed.

Lemma Vector_begin_Some this s v :
  objs s !! this = Some v →
  Vector_begin this s = (s, Ok (RawMemory_GetAddress (data_ v))).
Proof.
  intros Hv. unfold Vector_begin.
  by rewrite (bind_Ok _ _ _ _ _ (get_obj_Some _ _ _ Hv)).
Qed.

Lemma Vector_end_Some this s v :
  objs s !! this = Some v →
  Vector_end this s = (s, Ok (RawMemory_GetAddress (data_ v) +ₚ size_ v)).
Proof.
  intros Hv. unfold Vector_end.
  by rewrite (bind_Ok _ _ _ _ _ (get_obj_Some _ _ _ Hv)).
Qed.

Lemma growth_formula n : (if decide (n = 0) then 1 else n * 2) = 1 `max` (2 * n).
Proof. case_decide; lia. Qed.

(** A slot of a new buffer is one of the slots its block has room for. *)
Lemma new_buffer_room n s s1 d i :
  RawMemory_new n s = (s1, Ok d) →
  is_Some (slot s1 (RawMemory_GetAddress d +ₚ i)) →
  i < slots n.
Proof.
  unfold RawMemory_new, Allocate, operator_new. intros E Hi.
  rewrite bind_unfold in E. case_decide as Hn.
  - rewrite bind_unfold in E. case_decide as Hav; [|done].
    simpl in E. injection E as <- <-. unfold slot in Hi. simpl in Hi.
    rewrite lookup_insert_eq in Hi. simpl in Hi.
    apply lookup_lt_is_Some in Hi. by rewrite length_replicate in Hi.
  - simpl in E. injection E as <- <-. by destruct Hi.
Qed.

(** The new buffer of a growth that has taken an object at index [i], at or
    after the old length, has twice the old length as its capacity: the
    doubling has not wrapped. *)
Lemma growth_capacity n s s1 d i :
  RawMemory_new (if decide (n = 0) then 1 else size_t (n * 2)) s = (s1, Ok d) →
  n ≤ i →
  is_Some (slot s1 (RawMemory_GetAddress d +ₚ i)) →
  capacity_ d = 1 `max` (2 * n).
Proof.
  intros E Hle Hi. pose proof (new_buffer_room _ _ _ _ _ E Hi) as Hroom.
  apply RawMemory_new_Ok_inv in E as [-> _]. apply growth_room. lia.
Qed.

(** The relocation of at least one object has written to the slot of the
    last one. *)
Lemma relocation_room first c d s s' :
  (if nothrow_move_constructible || negb copy_constructible
   then uninitialized_move_n first (S c) d
   else uninitialized_copy_n first (S c) d) s = (s', Ok tt) →
  is_Some (slot s (d +ₚ c)).
Proof.
  destruct (_ || _); intros E.
  - by apply uninitialized_move_from_room in E.
  - by apply uninitialized_copy_from_room in E.
Qed.

Lemma assert_Ok c s s' : assert c s = (s', Ok tt) → c = true ∧ s' = s.
Proof. unfold assert. destruct c; intros E; by inversion E. Qed.

(** A reallocating Emplace before an element: once the elements are in the
    new buffer, its slot of index [size] has been written to. *)
Lemma Emplace_growth_room (b : ptr) d distance size args (old : M unit) s s' :
  distance < size →
  (construct_at (RawMemory_GetAddress d +ₚ distance) args;;
   (if nothrow_move_constructible || negb copy_constructible
    then
      uninitialized_move_n b distance (RawMemory_GetAddress d);;
      uninitialized_move_n (b +ₚ distance) (size - distance)
        (RawMemory_GetAddress d +ₚ distance +ₚ 1)
    else
      uninitialized_copy_n b distance (RawMemory_GetAddress d);;
      uninitialized_copy_n (b +ₚ distance) (size - distance)
        (RawMemory_GetAddress d +ₚ distance +ₚ 1));;
   old) s = (s', Ok tt) →
  is_Some (slot s (RawMemory_GetAddress d +ₚ size)).
Proof.
  intros Hlt E. apply bind_Ok_inv in E as (s1 & [] & E1 & E).
  apply bind_Ok_inv in E as (s2 & [] & E2 & _).
  apply (preserves_run no_new_slots _ _ _ _ (no_new_construct_at _ _) E1).
  replace (size - distance) with (S (size - distance - 1)) in E2 by lia.
  replace (RawMemory_GetAddress d +ₚ size)
    with (RawMemory_GetAddress d +ₚ distance +ₚ 1
          +ₚ (0 + (size - distance - 1)))
    by (unfold ptr_add; simpl; f_equal; lia).
  destruct (_ || _); apply bind_Ok_inv in E2 as (s3 & [] & E3 & E2).
  - apply uninitialized_move_from_room in E2.
    refine (preserves_run no_new_slots _ _ _ _ _ E3 _ E2).
    unfold uninitialized_move_n. frame.
  - apply uninitialized_copy_from_room in E2.
    refine (preserves_run no_new_slots _ _ _ _ _ E3 _ E2).
    unfold uninitialized_copy_n. frame.
Qed.

(** The commit of a reallocation: the new buffer is swapped in and the old
    one released. *)
Lemma commit_Ok_inv this v new_data s s' :
  objs s !! this = Some v →
  (set_data this (RawMemory_Swap (data_ v) new_data).1;;
   RawMemory_delete (RawMemory_Swap (data_ v) new_data).2) s = (s', Ok tt) →
  objs s' = <[this := {| data_ := new_data; size_ := size_ v |}]> (objs s).
Proof.
  intros Hv E. apply bind_Ok_inv in E as (s1 & [] & E1 & E).
  rewrite (set_data_Some _ _ _ _ Hv) in E1. inversion E1; subst s1; clear E1.
  rewrite (preserves_run same_objs _ _ _ _ (keeps_objs_RawMemory_delete _) E).
  simpl. by rewrite RawMemory_eta.
Qed.

Lemma EmplaceBack_full_Ok_inv this args s v s' p :
  objs s !! this = Some v →
  capacity_ (data_ v) ≤ size_ v →
  Vector_EmplaceBack this args s = (s', Ok p) →
  ∃ new_data,
    capacity_ new_data = 1 `max` (2 * size_ v) ∧
    objs s' !! this = Some {| data_ := new_data; size_ := size_ v + 1 |}.
Proof.
  intros Hv Hfull E. unfold Vector_EmplaceBack in E.
  rewrite (bind_Ok _ _ _ _ _ (get_obj_Some _ _ _ Hv)) in E.
  unfold RawMemory_Capacity in E. rewrite decide_True in E by done.
  apply bind_Ok_inv in E as (s1 & p1 & E & Esize).
  apply bind_Ok_inv in E as (s2 & new_data & Enew & E).
  pose proof Enew as Enew'.
  apply RawMemory_new_Ok_inv in Enew as [Hcap Ho2].
  apply bind_Ok_inv in E as (s3 & [] & Ebody & E).
  apply on_throw_Ok_inv in Ebody.
  assert (capacity_ new_data = 1 `max` (2 * size_ v)) as Hdouble.
  { apply bind_Ok_inv in Ebody as (s0 & [] & Ector & _).
    apply construct_at_room in Ector.
    by apply (growth_capacity _ _ _ _ _ Enew' (Nat.le_refl _)). }
  assert (objs s3 = objs s2) as Ho3.
  { refine (preserves_run same_objs _ _ _ _ _ Ebody). frame. }
  apply bind_Ok_inv in E as (s4 & [] & Eset & E).
  apply bind_Ok_inv in E as (s5 & [] & Edel & E).
  inversion E; subst s5 p1; clear E.
  assert (objs s3 !! this = Some v) as Hv3 by congruence.
  pose proof (commit_Ok_inv this v new_data s3 s1 Hv3) as Hcommit.
  rewrite bind_unfold, Eset in Hcommit. specialize (Hcommit Edel).
  apply bind_Ok_inv in Esize as (s6 & [] & Esize & E).
  inversion E; subst s6; clear E.
  assert (objs s1 !! this = Some {| data_ := new_data; size_ := size_ v |}) as Hv1.
  { rewrite Hcommit. apply lookup_insert_eq. }
  rewrite (set_size_Some _ _ _ _ Hv1) in Esize. inversion Esize; subst s'.
  exists new_data. split; [done|]. simpl. apply lookup_insert_eq.
Qed.

Lemma Emplace_full_Ok_inv this pos args s v s' p :
  objs s !! this = Some v →
  capacity_ (data_ v) ≤ size_ v →
  Vector_Emplace this pos args s = (s', Ok p) →
  ∃ new_data,
    capacity_ new_data = 1 `max` (2 * size_ v) ∧
    objs s' !! this = Some {| data_ := new_data; size_ := size_ v + 1 |}.
Proof.
  intros Hv Hfull E. unfold Vector_Emplace in E.
  rewrite (bind_Ok _ _ _ _ _ (Vector_begin_Some _ _ _ Hv)) in E.
  rewrite (bind_Ok _ _ _ _ _ (Vector_end_Some _ _ _ Hv)) in E.
  apply bind_Ok_inv in E as (s0 & [] & Eassert & E).
  apply assert_Ok in Eassert as [Hpos ->].
  assert (offset pos - offset (RawMemory_GetAddress (data_ v)) < size_ v)
    as Hdist.
  { apply andb_true_iff in Hpos as [_ Hlt].
    apply andb_true_iff in Hlt as [_ Hlt]. apply Nat.ltb_lt in Hlt.
    simpl in *. lia. }
  unfold Vector_Emplace_body in E.
  rewrite (bind_Ok _ _ _ _ _ (Vector_begin_Some _ _ _ Hv)) in E.
  rewrite (bind_Ok _ _ _ _ _ (Vector_end_Some _ _ _ Hv)) in E.
  rewrite (bind_Ok _ _ _ _ _ (get_obj_Some _ _ _ Hv)) in E.
  unfold RawMemory_Capacity in E. rewrite decide_False in E by lia.
  apply bind_Ok_inv in E as (s1 & [] & E & Esize).
  apply bind_Ok_inv in E as (s2 & new_data & Enew & E).
  pose proof Enew as Enew'.
  apply RawMemory_new_Ok_inv in Enew as [Hcap Ho2].
  apply bind_Ok_inv in E as (s3 & [] & Ebody & E).
  apply on_throw_Ok_inv in Ebody.
  assert (capacity_ new_data = 1 `max` (2 * size_ v)) as Hdouble.
  { apply (growth_capacity _ _ _ _ (size_ v) Enew' (Nat.le_refl _)).
    by apply (Emplace_growth_room _ _ _ _ _ _ _ _ Hdist Ebody). }
  assert (objs s3 = objs s2) as Ho3.
  { refine (preserves_run same_objs _ _ _ _ _ Ebody). frame. }
  assert (objs s3 !! this = Some v) as Hv3 by congruence.
  pose proof (commit_Ok_inv this v new_data s3 s1 Hv3 E) as Hcommit.
  apply bind_Ok_inv in Esize as (s6 & [] & Esize & E').
  assert (objs s1 !! this = Some {| data_ := new_data; size_ := size_ v |}) as Hv1.
  { rewrite Hcommit. apply lookup_insert_eq. }
  rewrite (set_size_Some _ _ _ _ Hv1) in Esize. inversion Esize; subst s6.
  apply bind_Ok_inv in E' as (s7 & b' & Eb & E').
  inversion E'; subst s7.
  erewrite Vector_begin_Some in Eb by (simpl; apply lookup_insert_eq).
  inversion Eb; subst s'.
  exists new_data. split; [done|]. simpl. apply lookup_insert_eq.
Qed.

(** When a vector's length equals its capacity, a PushBack, an EmplaceBack
    or an Emplace that returns normally leaves the vector with capacity
    [max(1, 2 * old capacity)]. *)
Lemma growth_capacity_of this args s v :
  objs s !! this = Some v →
  size_ v = capacity_ (data_ v) →
  (∀ s' p, Vector_EmplaceBack this args s = (s', Ok p) →
     capacity_of s' this = 1 `max` (2 * capacity_ (data_ v))) ∧
  (∀ s', Vector_PushBack this args s = (s', Ok tt) →
     capacity_of s' this = 1 `max` (2 * capacity_ (data_ v))) ∧
  (∀ pos s' p, Vector_Emplace this pos args s = (s', Ok p) →
     capacity_of s' this = 1 `max` (2 * capacity_ (data_ v))).
Proof.
  intros Hv Hfull.
  assert (∀ s' p, Vector_EmplaceBack this args s = (s', Ok p) →
     capacity_of s' this = 1 `max` (2 * capacity_ (data_ v))) as Hback.
  { intros s' p E.
    destruct (EmplaceBack_full_Ok_inv this args s v s' p) as (d & Hd & Hs');
      [done | lia | done |].
    unfold capacity_of. rewrite Hs'. simpl. by rewrite Hd, Hfull. }
  split_and!; [done | |].
  - intros s' E. unfold Vector_PushBack in E.
    apply bind_Ok_inv in E as (s1 & p & E & E'). inversion E'; subst s1. eauto.
  - intros pos s' p E.
    destruct (Emplace_full_Ok_inv this pos args s v s' p) as (d & Hd & Hs');
      [done | lia | done |].
    unfold capacity_of. rewrite Hs'. simpl. by rewrite Hd, Hfull.
Qed.

(** ** Capacity over a sequence of calls *)

#[local] Instance same_object_preorder this : PreOrder (same_object this).
Proof. split; [done | intros s1 s2 s3; unfold same_object; congruence]. Qed.

Lemma same_object_keeps this {A} (m : M A) :
  preserves same_objs m → preserves (same_object this) m.
Proof.
  apply preserves_weaken. intros s s' Ho. unfold same_object. by rewrite Ho.
Qed.

Lemma same_object_not_shrunk this s s' : same_object this s s' → not_shrunk this s s'.
Proof. intros Ho v Hv. exists v. split; [congruence | done]. Qed.

Lemma not_shrunk_keeps this {A} (m : M A) :
  preserves same_objs m → preserves (not_shrunk this) m.
Proof.
  intros Hm. eapply preserves_weaken; [apply same_object_not_shrunk|].
  by apply same_object_keeps.
Qed.

Lemma same_object_put_obj this x v :
  x ≠ this → preserves (same_object this) (put_obj x v).
Proof.
  intros Hne. apply (preserves_modify (same_object this)). intros s.
  unfold same_object. simpl. by rewrite lookup_insert_ne.
Qed.

Lemma same_object_remove_obj this x :
  x ≠ this → preserves (same_object this) (remove_obj x).
Proof.
  intros Hne. apply (preserves_modify (same_object this)). intros s.
  unfold same_object. simpl. by rewrite lookup_delete_ne.
Qed.

Lemma not_shrunk_set_size this x n : preserves (not_shrunk this) (set_size x n).
Proof.
  intros s v Hv. unfold set_size, get_obj. rewrite bind_unfold.
  destruct (objs s !! x) as [vx|] eqn:Hx; simpl; [|eauto].
  destruct (decide (x = this)) as [->|Hne].
  - rewrite lookup_insert_eq. eexists. split; [done|]. simpl.
    assert (vx = v) as -> by congruence. done.
  - rewrite lookup_insert_ne by done. eauto.
Qed.

Hint Resolve not_shrunk_keeps not_shrunk_set_size : frame.

Lemma not_shrunk_absent this s s' : objs s !! this = None → not_shrunk this s s'.
Proof. intros Hnone v Hv. congruence. Qed.

Lemma not_shrunk_same_objs this s s' : objs s' = objs s → not_shrunk this s s'.
Proof. intros Ho v Hv. rewrite Ho. eauto. Qed.

(** A step that leaves the objects alone, in front of the rest of a run. *)
Lemma not_shrunk_bind_keeps this {A B} (m : M A) (k : A → M B) s0 s :
  objs s = objs s0 →
  preserves same_objs m →
  (∀ s1 a, m s = (s1, Ok a) → objs s1 = objs s0 →
           not_shrunk this s0 (k a s1).1) →
  not_shrunk this s0 ((m ≫= k) s).1.
Proof.
  intros Hs Hm Hok. rewrite bind_unfold.
  destruct (m s) as [s1 r] eqn:E.
  pose proof (preserves_run same_objs _ _ _ _ Hm E) as Ho.
  unfold same_objs in Ho. rewrite Hs in Ho.
  destruct r as [a|e|f]; simpl; eauto using not_shrunk_same_objs.
Qed.

Lemma not_shrunk_bind this {A B} (m : M A) (k : A → M B) s :
  not_shrunk this s (m s).1 →
  (∀ a, preserves (not_shrunk this) (k a)) →
  not_shrunk this s ((m ≫= k) s).1.
Proof.
  intros Hm Hk. rewrite bind_unfold.
  destruct (m s) as [s1 [a|e|f]]; simpl in *; [|done..].
  etrans; [exact Hm | apply Hk].
Qed.

(** The commit of a reallocation to a buffer that is no smaller. *)
Lemma not_shrunk_commit this v d s s2 {B} (K : M B) :
  objs s !! this = Some v →
  objs s2 = objs s →
  capacity_ (data_ v) ≤ capacity_ d →
  preserves same_objs K →
  not_shrunk this s ((set_data this d;; K) s2).1.
Proof.
  intros Hv Ho Hle HK.
  assert (objs s2 !! this = Some v) as Hv2 by congruence.
  rewrite (bind_Ok _ _ _ _ _ (set_data_Some _ _ _ _ Hv2)).
  intros v0 Hv0. rewrite (HK _). simpl. rewrite lookup_insert_eq.
  eexists. split; [done|]. simpl. congruence.
Qed.

Lemma not_shrunk_Reserve this n : preserves (not_shrunk this) (Vector_Reserve this n).
Proof.
  intros s. destruct (objs s !! this) as [v|] eqn:Hv;
    [|by apply not_shrunk_absent].
  unfold Vector_Reserve.
  rewrite (bind_Ok _ _ _ _ _ (get_obj_Some _ _ _ Hv)).
  unfold RawMemory_Capacity. case_decide as Hn; [done|].
  apply not_shrunk_bind_keeps; [done | frame |].
  intros s1 d Enew Ho1. apply RawMemory_new_Ok_inv in Enew as [Hcap _].
  apply not_shrunk_bind_keeps; [done | frame |].
  intros s2 [] _ Ho2.
  apply (not_shrunk_commit this v); [done | congruence | simpl; lia | frame].
Qed.

Hint Resolve not_shrunk_Reserve : frame.

Lemma not_shrunk_Resize this n : preserves (not_shrunk this) (Vector_Resize this n).
Proof. unfold Vector_Resize. frame. Qed.

Lemma growth_not_less n c : c ≤ n → c ≤ (if decide (n = 0) then 1 else n * 2).
Proof. case_decide; lia. Qed.

Lemma not_shrunk_EmplaceBack this a :
  preserves (not_shrunk this) (Vector_EmplaceBack this a).
Proof.
  intros s. destruct (objs s !! this) as [v|] eqn:Hv;
    [|by apply not_shrunk_absent].
  unfold Vector_EmplaceBack.
  rewrite (bind_Ok _ _ _ _ _ (get_obj_Some _ _ _ Hv)).
  apply not_shrunk_bind; [|intros p; frame].
  unfold RawMemory_Capacity. case_decide as Hfull.
  - apply not_shrunk_bind_keeps; [done | frame |].
    intros s1 d Enew Ho1.
    apply not_shrunk_bind_keeps; [done | frame |].
    intros s2 [] Ebody Ho2.
    apply (not_shrunk_commit this v); [done | congruence | | frame].
    simpl. apply on_throw_Ok_inv, bind_Ok_inv in Ebody as (s0 & [] & Ector & _).
    apply construct_at_room in Ector.
    rewrite (growth_capacity _ _ _ _ _ Enew (Nat.le_refl _) Ector). lia.
  - apply (not_shrunk_keeps this). frame.
Qed.

Lemma not_shrunk_PushBack this a :
  preserves (not_shrunk this) (Vector_PushBack this a).
Proof.
  unfold Vector_PushBack. frame. apply not_shrunk_EmplaceBack.
Qed.

Lemma not_shrunk_PopBack this : preserves (not_shrunk this) (Vector_PopBack this).
Proof. unfold Vector_PopBack. frame. Qed.

Lemma not_shrunk_Erase this pos : preserves (not_shrunk this) (Vector_Erase this pos).
Proof.
  unfold Vector_Erase, Vector_begin, Vector_end. frame.
  apply not_shrunk_PopBack.
Qed.

Lemma not_shrunk_Emplace this pos a :
  preserves (not_shrunk this) (Vector_Emplace this pos a).
Proof.
  intros s. destruct (objs s !! this) as [v|] eqn:Hv;
    [|by apply not_shrunk_absent].
  unfold Vector_Emplace.
  rewrite (bind_Ok _ _ _ _ _ (Vector_begin_Some _ _ _ Hv)).
  rewrite (bind_Ok _ _ _ _ _ (Vector_end_Some _ _ _ Hv)).
  rewrite bind_unfold. unfold assert.
  destruct (ptr_le _ _ && ptr_lt _ _) eqn:Hpos; simpl; [|done].
  assert (offset pos - offset (RawMemory_GetAddress (data_ v)) < size_ v)
    as Hdist.
  { apply andb_true_iff in Hpos as [_ Hlt].
    apply andb_true_iff in Hlt as [_ Hlt]. apply Nat.ltb_lt in Hlt.
    simpl in *. lia. }
  unfold Vector_Emplace_body.
  rewrite (bind_Ok _ _ _ _ _ (Vector_begin_Some _ _ _ Hv)).
  rewrite (bind_Ok _ _ _ _ _ (Vector_end_Some _ _ _ Hv)).
  rewrite (bind_Ok _ _ _ _ _ (get_obj_Some _ _ _ Hv)).
  apply not_shrunk_bind; [|intros p; unfold Vector_begin; frame].
  unfold RawMemory_Capacity. case_decide as Hroom.
  - apply (not_shrunk_keeps this). frame.
  - apply not_shrunk_bind_keeps; [done | frame |].
    intros s1 d Enew Ho1.
    apply not_shrunk_bind_keeps; [done | frame |].
    intros s2 [] Ebody Ho2.
    apply (not_shrunk_commit this v); [done | congruence | | frame].
    simpl. apply on_throw_Ok_inv in Ebody.
    pose proof (Emplace_growth_room _ _ _ _ _ _ _ _ Hdist Ebody) as Hslot.
    rewrite (growth_capacity _ _ _ _ _ Enew (Nat.le_refl _) Hslot). lia.
Qed.

Hint Resolve same_object_keeps : frame.

Lemma same_object_Vector_copy this x rhs :
  x ≠ this → preserves (same_object this) (Vector_copy x rhs).
Proof.
  intros Hne. unfold Vector_copy. frame. by apply same_object_put_obj.
Qed.

Lemma same_object_Vector_delete this x :
  x ≠ this → preserves (same_object this) (Vector_delete x).
Proof.
  intros Hne. unfold Vector_delete. frame. by apply same_object_remove_obj.
Qed.

Lemma Vector_copy_Ok_inv x rhs s s1 r :
  objs s !! rhs = Some r →
  Vector_copy x rhs s = (s1, Ok tt) →
  ∃ d, capacity_ d = size_ r ∧
       objs s1 = <[x := {| data_ := d; size_ := size_ r |}]> (objs s).
Proof.
  intros Hr E. unfold Vector_copy in E.
  rewrite (bind_Ok _ _ _ _ _ (get_obj_Some _ _ _ Hr)) in E.
  apply bind_Ok_inv in E as (s2 & d & Enew & E).
  apply RawMemory_new_Ok_inv in Enew as [Hcap Ho2].
  apply bind_Ok_inv in E as (s3 & [] & Ebody & E).
  assert (objs s3 = objs s2) as Ho3.
  { refine (preserves_run same_objs _ _ _ _ _ Ebody). frame. }
  inversion E; subst s1. exists d. split; [done|]. simpl. congruence.
Qed.

Lemma fresh_obj_new s this v :
  objs s !! this = Some v → fresh (dom (objs s)) ≠ this.
Proof.
  intros Hv Heq. apply (is_fresh (dom (objs s))). rewrite Heq.
  apply elem_of_dom. eauto.
Qed.

Lemma not_shrunk_copy_assign this rhs :
  preserves (not_shrunk this) (Vector_copy_assign this rhs).
Proof.
  intros s. destruct (objs s !! this) as [v|] eqn:Hv;
    [|by apply not_shrunk_absent].
  unfold Vector_copy_assign. case_decide as Hne; [|done].
  rewrite bind_unfold. unfold get_obj at 1.
  destruct (objs s !! rhs) as [r|] eqn:Hr; simpl; [|done].
  rewrite (bind_Ok _ _ _ _ _ (get_obj_Some _ _ _ Hv)).
  unfold RawMemory_Capacity. case_decide as Hbig.
  - erewrite bind_Ok; [|reflexivity].
    pose proof (fresh_obj_new s this v Hv) as Hnew.
    set (x := fresh (dom (objs s))) in *.
    rewrite bind_unfold. destruct (Vector_copy x rhs s) as [s1 r1] eqn:Ecopy.
    pose proof (preserves_run (same_object this) _ _ _ _
                  (same_object_Vector_copy this x rhs Hnew) Ecopy) as Hsame.
    destruct r1 as [[]|e|f]; simpl; try by apply same_object_not_shrunk.
    destruct (Vector_copy_Ok_inv x rhs s s1 r Hr Ecopy) as (d & Hcap & Ho1).
    erewrite bind_Ok; last first.
    { apply (Vector_Swap_distinct this x s1 v {| data_ := d; size_ := size_ r |});
        [done | by rewrite Hsame | rewrite Ho1; apply lookup_insert_eq]. }
    intros v0 Hv0. assert (v0 = v) as -> by congruence.
    exists {| data_ := d; size_ := size_ r |}. split; [|simpl; lia].
    rewrite (same_object_Vector_delete this x Hnew _). simpl.
    rewrite lookup_insert_ne by done. apply lookup_insert_eq.
  - unfold Vector_CopyFromRhsVector.
    rewrite (bind_Ok _ _ _ _ _ (get_obj_Some _ _ _ Hr)).
    rewrite (bind_Ok _ _ _ _ _ (get_obj_Some _ _ _ Hv)).
    assert (preserves (not_shrunk this)
      (std_copy (RawMemory_GetAddress (data_ r)) (size_ r `min` size_ v)
         (RawMemory_GetAddress (data_ v));;
       (if decide (size_ r < size_ v)
        then destroy_n (RawMemory_GetAddress (data_ v) +ₚ size_ r)
               (size_ v - size_ r)
        else uninitialized_copy_n (RawMemory_GetAddress (data_ r) +ₚ size_ v)
               (size_ r - size_ v) (RawMemory_GetAddress (data_ v) +ₚ size_ v));;
       set_size this (size_ r))) as Hp by frame.
    apply Hp.
Qed.

Lemma not_shrunk_exec this c :
  is_move_assign c = false → preserves (not_shrunk this) (exec this c).
Proof.
  destruct c; simpl; intros Hc; try done.
  - apply not_shrunk_Reserve.
  - apply not_shrunk_Resize.
  - apply not_shrunk_PushBack.
  - apply not_shrunk_PopBack.
  - frame. apply not_shrunk_Emplace.
  - frame. apply not_shrunk_Erase.
  - apply not_shrunk_copy_assign.
Qed.

Lemma not_shrunk_exec_all this cs :
  Forall (λ c, is_move_assign c = false) cs →
  preserves (not_shrunk this) (exec_all this cs).
Proof.
  induction 1 as [|c cs Hc Hcs IH]; simpl; frame. by apply not_shrunk_exec.
Qed.

Lemma not_shrunk_capacity_of this s s' :
  not_shrunk this s s' → capacity_of s this ≤ capacity_of s' this.
Proof.
  intros Hns. unfold capacity_of.
  destruct (objs s !! this) as [v|] eqn:Hv; simpl; [|lia].
  destruct (Hns v Hv) as (v' & -> & Hle). done.
Qed.

(** C7 (amended).  Across any sequence of Reserve, Resize, PushBack, PopBack,
    Emplace, Erase and copy-assignment calls on a vector, however each call
    ends, the vector's capacity does not decrease.  A move-assignment from
    another vector instead leaves the vector with the capacity that the
    source had. *)
Theorem capacity_kept_except_by_move_assign this s :
  (∀ cs, Forall (λ c, is_move_assign c = false) cs →
         capacity_of s this ≤ capacity_of (exec_all this cs s).1 this) ∧
  (∀ rhs, this ≠ rhs → is_Some (objs s !! this) → is_Some (objs s !! rhs) →
          capacity_of (Vector_move_assign this rhs s).1 this = capacity_of s rhs).
Proof.
  split.
  - intros cs Hcs. apply not_shrunk_capacity_of.
    by apply not_shrunk_exec_all.
  - intros rhs Hne [a Ha] [b Hb]. unfold Vector_move_assign.
    rewrite decide_False by done.
    rewrite (Vector_Swap_distinct this rhs s a b Hne Ha Hb).
    unfold capacity_of. simpl. rewrite lookup_insert_ne by done.
    by rewrite lookup_insert_eq, Hb.
Qed.

(** ** Which constructor relocates *)

Lemma keeps_trace_storage {A} (m : M A) :
  preserves storage_step m → preserves same_trace m.
Proof. apply preserves_weaken, storage_same_trace. Qed.

Lemma keeps_trace_objs {A} (m : M A) :
  preserves objs_step m → preserves same_trace m.
Proof. apply preserves_weaken, objs_same_trace. Qed.

Hint Resolve keeps_trace_storage keeps_trace_objs storage_load storage_store
  storage_place storage_RawMemory_new storage_RawMemory_delete objs_put_obj
  objs_remove_obj objs_set_data objs_set_size : frame.

Lemma trace_run {A} (m : M A) s s' r :
  preserves same_trace m → m s = (s', r) → trace s' = trace s.
Proof. apply (preserves_run same_trace). Qed.

Lemma elem_op_trace {A} ev ne (op : W → W * option A) s s' r :
  elem_op ev ne op s = (s', r) → trace s' = trace s ++ [ev].
Proof.
  unfold elem_op. destruct (op (world s)) as [w [a|]]; intros E;
    by inversion E.
Qed.

Lemma destroy_at_trace p s s' :
  destroy_at p s = (s', Ok tt) → trace s' = trace s ++ [ev_destroy].
Proof.
  unfold destroy_at. intros E. apply bind_Ok_inv in E as (s1 & x & E1 & E).
  rewrite <- (trace_run _ _ _ _ ltac:(apply keeps_trace_storage, storage_load) E1).
  by inversion E.
Qed.

Lemma destroy_n_trace p n s s' :
  destroy_n p n s = (s', Ok tt) →
  trace s' = trace s ++ replicate n ev_destroy.
Proof.
  revert p s. induction n as [|n IH]; intros p s E; simpl in *.
  - inversion E. by rewrite app_nil_r.
  - apply bind_Ok_inv in E as (s1 & [] & E1 & E).
    rewrite (IH _ _ E), (destroy_at_trace _ _ _ E1). by rewrite <- app_assoc.
Qed.

Lemma construct_value_trace a s s' x :
  construct_value a s = (s', Ok x) → trace s' = trace s ++ [ev_construct].
Proof.
  destruct a; simpl; intros E.
  - by apply elem_op_trace in E.
  - apply bind_Ok_inv in E as (s1 & r & E1 & E). inversion E; subst s1.
    by apply elem_op_trace in E1.
  - by apply elem_op_trace in E.
  - apply bind_Ok_inv in E as (s1 & y & E1 & E).
    rewrite (elem_op_trace _ _ _ _ _ _ E).
    by rewrite (trace_run (load p) s s1 _ ltac:(frame) E1).
  - apply bind_Ok_inv in E as (s1 & y & E1 & E).
    apply bind_Ok_inv in E as (s2 & r & E2 & E).
    apply bind_Ok_inv in E as (s3 & [] & E3 & E). inversion E; subst s3.
    rewrite (trace_run (store p r.2) s2 s' _ ltac:(frame) E3).
    rewrite (elem_op_trace _ _ _ _ _ _ E2).
    by rewrite (trace_run (load p) s s1 _ ltac:(frame) E1).
Qed.

Lemma construct_at_trace p a s s' :
  construct_at p a s = (s', Ok tt) → trace s' = trace s ++ [ev_construct].
Proof.
  unfold construct_at. intros E. apply bind_Ok_inv in E as (s1 & x & E1 & E).
  rewrite (trace_run (place p x) s1 s' _ ltac:(frame) E).
  by apply construct_value_trace in E1.
Qed.

Lemma copy_construct_at_trace p q s s' :
  copy_construct_at p q s = (s', Ok tt) →
  trace s' = trace s ++ [ev_copy_construct].
Proof.
  unfold copy_construct_at. intros E.
  apply bind_Ok_inv in E as (s1 & x & E1 & E).
  apply bind_Ok_inv in E as (s2 & x' & E2 & E).
  rewrite (trace_run (place p x') s2 s' _ ltac:(frame) E).
  rewrite (elem_op_trace _ _ _ _ _ _ E2).
  by rewrite (trace_run (load q) s s1 _ ltac:(frame) E1).
Qed.

Lemma move_construct_at_trace p q s s' :
  move_construct_at p q s = (s', Ok tt) →
  trace s' = trace s ++ [ev_move_construct].
Proof.
  unfold move_construct_at. intros E.
  apply bind_Ok_inv in E as (s1 & x & E1 & E).
  apply bind_Ok_inv in E as (s2 & x' & E2 & E).
  apply bind_Ok_inv in E as (s3 & [] & E3 & E).
  rewrite (trace_run (place p x'.1) s3 s' _ ltac:(frame) E).
  rewrite (trace_run (store q x'.2) s2 s3 _ ltac:(frame) E3).
  rewrite (elem_op_trace _ _ _ _ _ _ E2).
  by rewrite (trace_run (load q) s s1 _ ltac:(frame) E1).
Qed.

Lemma uninitialized_copy_from_trace k n p q s s' :
  uninitialized_copy_from k n p q s = (s', Ok tt) →
  trace s' = trace s ++ replicate n ev_copy_construct.
Proof.
  revert k s. induction n as [|n IH]; intros k s E; simpl in *.
  - inversion E. by rewrite app_nil_r.
  - apply bind_Ok_inv in E as (s1 & [] & E1 & E).
    apply on_throw_Ok_inv, copy_construct_at_trace in E1.
    rewrite (IH _ _ E), E1. by rewrite <- app_assoc.
Qed.

Lemma uninitialized_move_from_trace k n p q s s' :
  uninitialized_move_from k n p q s = (s', Ok tt) →
  trace s' = trace s ++ replicate n ev_move_construct.
Proof.
  revert k s. induction n as [|n IH]; intros k s E; simpl in *.
  - inversion E. by rewrite app_nil_r.
  - apply bind_Ok_inv in E as (s1 & [] & E1 & E).
    apply on_throw_Ok_inv, move_construct_at_trace in E1.
    rewrite (IH _ _ E), E1. by rewrite <- app_assoc.
Qed.

(** The relocation of [n] elements, as the three member functions write
    it. *)
Lemma relocation_trace p n q s s' :
  (if nothrow_move_constructible || negb copy_constructible
   then uninitialized_move_n p n q else uninitialized_copy_n p n q) s
    = (s', Ok tt) →
  trace s' = trace s ++ replicate n relocation_event.
Proof.
  unfold relocation_event, relocates_by_move.
  destruct (nothrow_move_constructible || negb copy_constructible).
  - apply uninitialized_move_from_trace.
  - apply uninitialized_copy_from_trace.
Qed.

Lemma commit_trace this d d' s s' :
  (set_data this d;; RawMemory_delete d') s = (s', Ok tt) →
  trace s' = trace s.
Proof. apply trace_run. frame. Qed.

(** *** The element operations of a run, whatever its outcome *)

Lemma emitted_quiet P {A} (m : M A) :
  preserves same_trace m → preserves (emitted P) m.
Proof.
  apply preserves_weaken. intros s s' Ht. exists []. split; [|constructor].
  by rewrite app_nil_r.
Qed.

Lemma emitted_elem_op P {A} ev ne (op : W → W * option A) :
  P ev → preserves (emitted P) (elem_op ev ne op).
Proof.
  intros Hev s. destruct (elem_op ev ne op s) as [s' r] eqn:E. simpl.
  exists [ev]. split; [by apply elem_op_trace in E | by constructor].
Qed.

Lemma emitted_destroy_at P p : P ev_destroy → preserves (emitted P) (destroy_at p).
Proof.
  intros Hev. unfold destroy_at. apply (preserves_bind (emitted P)).
  - apply emitted_quiet. frame.
  - intros x. apply (preserves_modify (emitted P)). intros s.
    exists [ev_destroy]. split; [done | by constructor].
Qed.

Hint Resolve emitted_quiet emitted_elem_op emitted_destroy_at : frame.

Lemma emitted_destroy_n P p n : P ev_destroy → preserves (emitted P) (destroy_n p n).
Proof. intros Hev. revert p. induction n as [|n IH]; intros p; simpl; frame. Qed.

Lemma emitted_construct_at P p a :
  P ev_construct → preserves (emitted P) (construct_at p a).
Proof. intros Hev. unfold construct_at, construct_value. frame. Qed.

Lemma emitted_copy_construct_at P p q :
  P ev_copy_construct → preserves (emitted P) (copy_construct_at p q).
Proof. intros Hev. unfold copy_construct_at. frame. Qed.

Lemma emitted_move_construct_at P p q :
  P ev_move_construct → preserves (emitted P) (move_construct_at p q).
Proof. intros Hev. unfold move_construct_at. frame. Qed.

Hint Resolve emitted_destroy_n emitted_construct_at emitted_copy_construct_at
  emitted_move_construct_at : frame.

Lemma emitted_uninitialized_copy_from P k n p q :
  P ev_copy_construct → P ev_destroy →
  preserves (emitted P) (uninitialized_copy_from k n p q).
Proof.
  intros Hcopy Hdestroy. revert k. induction n as [|n IH]; intros k; simpl; frame.
Qed.

Lemma emitted_uninitialized_move_from P k n p q :
  P ev_move_construct → P ev_destroy →
  preserves (emitted P) (uninitialized_move_from k n p q).
Proof.
  intros Hmove Hdestroy. revert k. induction n as [|n IH]; intros k; simpl; frame.
Qed.

Lemma emitted_relocation P p n q :
  P relocation_event → P ev_destroy →
  preserves (emitted P)
    (if nothrow_move_constructible || negb copy_constructible
     then uninitialized_move_n p n q else uninitialized_copy_n p n q).
Proof.
  unfold relocation_event, relocates_by_move. intros Hreloc Hdestroy.
  destruct (nothrow_move_constructible || negb copy_constructible).
  - by apply emitted_uninitialized_move_from.
  - by apply emitted_uninitialized_copy_from.
Qed.

Hint Resolve emitted_relocation : frame.

Lemma emitted_Reserve P this n :
  P relocation_event → P ev_destroy →
  preserves (emitted P) (Vector_Reserve this n).
Proof.
  intros Hreloc Hdestroy. unfold Vector_Reserve.
  apply (preserves_bind (emitted P)); [frame|]. intros v.
  case_decide; [frame|].
  apply (preserves_bind (emitted P)); [frame|]. intros new_data.
  apply (preserves_bind (emitted P)); [|intros _; frame].
  apply (preserves_on_throw (emitted P)); [|frame].
  apply (preserves_bind (emitted P)); [by apply emitted_relocation|].
  intros _. frame.
Qed.

Lemma emitted_EmplaceBack P this a :
  P ev_construct → P relocation_event → P ev_destroy →
  preserves (emitted P) (Vector_EmplaceBack this a).
Proof.
  intros Hctor Hreloc Hdestroy. unfold Vector_EmplaceBack.
  apply (preserves_bind (emitted P)); [frame|]. intros v.
  apply (preserves_bind (emitted P)); [|intros p; frame].
  case_decide; [|frame].
  apply (preserves_bind (emitted P)); [frame|]. intros new_data.
  apply (preserves_bind (emitted P)); [|intros _; frame].
  apply (preserves_on_throw (emitted P)); [|frame].
  apply (preserves_bind (emitted P)); [frame|]. intros _.
  apply (preserves_bind (emitted P)); [by apply emitted_relocation|].
  intros _. frame.
Qed.

Lemma emitted_Emplace_full P this pos a s v :
  P ev_construct → P relocation_event → P ev_destroy →
  objs s !! this = Some v →
  capacity_ (data_ v) ≤ size_ v →
  emitted P s (Vector_Emplace this pos a s).1.
Proof.
  intros Hctor Hreloc Hdestroy Hv Hfull. unfold Vector_Emplace.
  rewrite (bind_Ok _ _ _ _ _ (Vector_begin_Some _ _ _ Hv)).
  rewrite (bind_Ok _ _ _ _ _ (Vector_end_Some _ _ _ Hv)).
  rewrite bind_unfold. unfold assert.
  destruct (ptr_le _ _ && ptr_lt _ _); simpl; [|reflexivity].
  unfold Vector_Emplace_body.
  rewrite (bind_Ok _ _ _ _ _ (Vector_begin_Some _ _ _ Hv)).
  rewrite (bind_Ok _ _ _ _ _ (Vector_end_Some _ _ _ Hv)).
  rewrite (bind_Ok _ _ _ _ _ (get_obj_Some _ _ _ Hv)).
  unfold RawMemory_Capacity. rewrite decide_False by lia.
  match goal with
  | |- emitted P s (?m s).1 => enough (preserves (emitted P) m) as Hm by apply Hm
  end.
  apply (preserves_bind (emitted P));
    [|intros _; unfold Vector_begin; frame].
  apply (preserves_bind (emitted P)); [frame|]. intros new_data.
  apply (preserves_bind (emitted P)); [|intros _; frame].
  apply (preserves_on_throw (emitted P)); [|frame].
  apply (preserves_bind (emitted P)); [frame|]. intros _.
  apply (preserves_bind (emitted P)); [|intros _; frame].
  unfold relocation_event, relocates_by_move in Hreloc.
  destruct (nothrow_move_constructible || negb copy_constructible);
    apply (preserves_bind (emitted P)); try (intros _);
    by (apply emitted_uninitialized_move_from
        || apply emitted_uninitialized_copy_from).
Qed.

(** Rewrite with the fact that the run [E] invoked no element operation. *)
Ltac quiet E :=
  match type of E with
  | ?m ?s = (?s', ?r) =>
      rewrite (trace_run m s s' r ltac:(unfold Vector_begin; frame) E)
  end.

Lemma Reserve_trace this n s v s' :
  objs s !! this = Some v →
  capacity_ (data_ v) < n →
  Vector_Reserve this n s = (s', Ok tt) →
  trace s' = trace s ++ replicate (size_ v) relocation_event
                     ++ replicate (size_ v) ev_destroy.
Proof.
  intros Hv Hn E. unfold Vector_Reserve in E.
  rewrite (bind_Ok _ _ _ _ _ (get_obj_Some _ _ _ Hv)) in E.
  unfold RawMemory_Capacity in E. rewrite decide_False in E by lia.
  apply bind_Ok_inv in E as (s1 & d & Enew & E).
  apply bind_Ok_inv in E as (s2 & [] & Ebody & E).
  apply on_throw_Ok_inv in Ebody.
  apply bind_Ok_inv in Ebody as (s3 & [] & Ereloc & Edestroy).
  rewrite (commit_trace _ _ _ _ _ E).
  rewrite (destroy_n_trace _ _ _ _ Edestroy).
  rewrite (relocation_trace _ _ _ _ _ Ereloc).
  quiet Enew.
  by rewrite <- app_assoc.
Qed.

Lemma EmplaceBack_full_trace this a s v s' p :
  objs s !! this = Some v →
  capacity_ (data_ v) ≤ size_ v →
  Vector_EmplaceBack this a s = (s', Ok p) →
  trace s' = trace s ++ [ev_construct]
                     ++ replicate (size_ v) relocation_event
                     ++ replicate (size_ v) ev_destroy.
Proof.
  intros Hv Hfull E. unfold Vector_EmplaceBack in E.
  rewrite (bind_Ok _ _ _ _ _ (get_obj_Some _ _ _ Hv)) in E.
  unfold RawMemory_Capacity in E. rewrite decide_True in E by done.
  apply bind_Ok_inv in E as (s1 & p1 & E & Esize).
  apply bind_Ok_inv in E as (s2 & d & Enew & E).
  apply bind_Ok_inv in E as (s3 & [] & Ebody & E).
  apply on_throw_Ok_inv in Ebody.
  apply bind_Ok_inv in Ebody as (s4 & [] & Ector & Ebody).
  apply bind_Ok_inv in Ebody as (s5 & [] & Ereloc & Edestroy).
  quiet Esize.
  quiet E.
  rewrite (destroy_n_trace _ _ _ _ Edestroy).
  rewrite (relocation_trace _ _ _ _ _ Ereloc).
  rewrite (construct_at_trace _ _ _ _ Ector).
  quiet Enew.
  by rewrite <- !app_assoc.
Qed.

Lemma Emplace_full_trace this pos a s v s' p :
  objs s !! this = Some v →
  capacity_ (data_ v) ≤ size_ v →
  Vector_Emplace this pos a s = (s', Ok p) →
  trace s' = trace s ++ [ev_construct]
                     ++ replicate (size_ v) relocation_event
                     ++ replicate (size_ v) ev_destroy.
Proof.
  intros Hv Hfull E. unfold Vector_Emplace in E.
  rewrite (bind_Ok _ _ _ _ _ (Vector_begin_Some _ _ _ Hv)) in E.
  rewrite (bind_Ok _ _ _ _ _ (Vector_end_Some _ _ _ Hv)) in E.
  apply bind_Ok_inv in E as (s0 & [] & Eassert & E).
  unfold assert in Eassert.
  destruct (ptr_le _ _ && ptr_lt _ _) eqn:Hpos; [|done].
  inversion Eassert; subst s0; clear Eassert.
  apply andb_prop in Hpos as [_ Hlt]. unfold ptr_lt in Hlt.
  apply andb_prop in Hlt as [_ Hlt]. apply Nat.ltb_lt in Hlt. simpl in Hlt.
  unfold Vector_Emplace_body in E.
  rewrite (bind_Ok _ _ _ _ _ (Vector_begin_Some _ _ _ Hv)) in E.
  rewrite (bind_Ok _ _ _ _ _ (Vector_end_Some _ _ _ Hv)) in E.
  rewrite (bind_Ok _ _ _ _ _ (get_obj_Some _ _ _ Hv)) in E.
  unfold RawMemory_Capacity in E. rewrite decide_False in E by lia.
  apply bind_Ok_inv in E as (s1 & [] & E & Esize).
  apply bind_Ok_inv in E as (s2 & d & Enew & E).
  apply bind_Ok_inv in E as (s3 & [] & Ebody & E).
  apply on_throw_Ok_inv in Ebody.
  apply bind_Ok_inv in Ebody as (s4 & [] & Ector & Ebody).
  apply bind_Ok_inv in Ebody as (s5 & [] & Ereloc & Edestroy).
  quiet Esize.
  rewrite (commit_trace _ _ _ _ _ E).
  rewrite (destroy_n_trace _ _ _ _ Edestroy).
  assert (trace s5 = trace s4 ++ replicate (size_ v) relocation_event) as ->.
  { simpl in Ereloc. set (dist := offset pos - 0) in *.
    assert (∀ e : event, replicate (size_ v) e
              = replicate dist e ++ replicate (size_ v - dist) e) as ->.
    { intros e. rewrite <- replicate_add. f_equal. lia. }
    rewrite app_assoc.
    unfold relocation_event, relocates_by_move.
    destruct (nothrow_move_constructible || negb copy_constructible);
      apply bind_Ok_inv in Ereloc as (s6 & [] & Eprefix & Esuffix).
    - apply uninitialized_move_from_trace in Eprefix, Esuffix. congruence.
    - apply uninitialized_copy_from_trace in Eprefix, Esuffix. congruence. }
  rewrite (construct_at_trace _ _ _ _ Ector).
  quiet Enew.
  by rewrite <- !app_assoc.
Qed.

(** C4 (amended).  Whatever the element type, the relocations of Reserve, of
    a reallocating EmplaceBack and of a reallocating Emplace construct the
    elements in the new buffer by move construction if the element type's
    move constructor is declared non-throwing or the type is not
    copy-constructible, and by copy construction otherwise.  A call that
    returns normally has transferred every existing element by exactly one
    such constructor call and then destroyed the originals; a call that ends
    otherwise has made no constructor call of the other kind either. *)
Theorem relocation_by_move_or_copy this s v s' :
  objs s !! this = Some v →
  (ev_move_construct = relocation_event ↔
     nothrow_move_constructible = true ∨ copy_constructible = false) ∧
  (ev_copy_construct = relocation_event ↔
     nothrow_move_constructible = false ∧ copy_constructible = true) ∧
  (∀ n, capacity_ (data_ v) < n →
     Vector_Reserve this n s = (s', Ok tt) →
     trace s' = trace s ++ replicate (size_ v) relocation_event
                        ++ replicate (size_ v) ev_destroy) ∧
  (∀ a p, capacity_ (data_ v) ≤ size_ v →
     Vector_EmplaceBack this a s = (s', Ok p) →
     trace s' = trace s ++ [ev_construct]
                        ++ replicate (size_ v) relocation_event
                        ++ replicate (size_ v) ev_destroy) ∧
  (∀ pos a p, capacity_ (data_ v) ≤ size_ v →
     Vector_Emplace this pos a s = (s', Ok p) →
     trace s' = trace s ++ [ev_construct]
                        ++ replicate (size_ v) relocation_event
                        ++ replicate (size_ v) ev_destroy) ∧
  (∀ n, emitted growth_event s (Vector_Reserve this n s).1) ∧
  (∀ a, emitted growth_event s (Vector_EmplaceBack this a s).1) ∧
  (∀ pos a, capacity_ (data_ v) ≤ size_ v →
     emitted growth_event s (Vector_Emplace this pos a s).1).
Proof.
  intros Hv.
  assert (growth_event ev_construct) as Hctor by by left.
  assert (growth_event relocation_event) as Hreloc by by right; left.
  assert (growth_event ev_destroy) as Hdestroy by by right; right.
  split_and!.
  - unfold relocation_event, relocates_by_move.
    destruct nothrow_move_constructible, copy_constructible; simpl;
      split; intros; try done; auto; by intuition.
  - unfold relocation_event, relocates_by_move.
    destruct nothrow_move_constructible, copy_constructible; simpl;
      split; intros; try done; auto; by intuition.
  - intros n. by apply Reserve_trace.
  - intros a p. by apply EmplaceBack_full_trace.
  - intros pos a p. by apply Emplace_full_trace.
  - intros n. by apply emitted_Reserve.
  - intros a. by apply emitted_EmplaceBack.
  - intros pos a Hfull. by apply (emitted_Emplace_full _ _ _ _ _ v).
Qed.

(** ** Storage, slot by slot *)

Lemma slot_lookup s b i :
  slot s (Ptr (Some b) i) = heap s !! b ≫= (.!! i).
Proof. reflexivity. Qed.

Lemma slot_mem s s' p : mem s' = mem s → slot s' p = slot s p.
Proof. unfold mem, slot. intros E. by injection E as -> _ _ _. Qed.

Lemma mem_components s h n o l :
  mem s = (h, n, o, l) → heap s = h ∧ avail s = n ∧ objs s = o ∧ leaked s = l.
Proof. unfold mem. intros E. by injection E. Qed.

Lemma mem_set_slot b i o s blk :
  heap s !! b = Some blk →
  mem (set_slot (Ptr (Some b) i) o s)
    = (<[b := <[i := o]> blk]> (heap s), avail s, objs s, leaked s).
Proof.
  intros Hb. unfold mem, set_slot. simpl. repeat f_equal.
  apply map_eq. intros j. destruct (decide (j = b)) as [->|Hne].
  - by rewrite lookup_alter_eq, Hb, lookup_insert_eq.
  - by rewrite lookup_alter_ne, lookup_insert_ne.
Qed.

Lemma load_Some p s x : slot s p = Some (Some x) → load p s = (s, Ok x).
Proof. intros E. unfold load. by rewrite E. Qed.

Lemma store_Some p s x y :
  slot s p = Some (Some y) → store p x s = (set_slot p (Some x) s, Ok tt).
Proof. intros E. unfold store. by rewrite E. Qed.

Lemma place_raw p s x :
  slot s p = Some None → place p x s = (set_slot p (Some x) s, Ok tt).
Proof. intros E. unfold place. by rewrite E. Qed.

Lemma elem_op_inv {A} ev ne (op : W → W * option A) s s' r :
  elem_op ev ne op s = (s', r) →
  mem s' = mem s ∧
  match r with
  | Ok a => (op (world s)).2 = Some a
  | Throw e => e = element_failure ∧ ne = false ∧ (op (world s)).2 = None
  | Fault f => f = terminated ∧ ne = true ∧ (op (world s)).2 = None
  end.
Proof.
  unfold elem_op. destruct (op (world s)) as [w [a|]]; simpl.
  - intros E. by inversion E.
  - destruct ne; intros E; by inversion E.
Qed.

Lemma destroy_at_Some p s x :
  slot s p = Some (Some x) →
  ∃ s', destroy_at p s = (s', Ok tt) ∧ mem s' = mem (set_slot p None s).
Proof.
  intros E. eexists. split.
  - unfold destroy_at. rewrite (bind_Ok _ _ _ _ _ (load_Some _ _ _ E)).
    reflexivity.
  - reflexivity.
Qed.

(** Destroying [k] objects in a row of a block. *)
Lemma destroy_n_Some k : ∀ s b pre zs rest,
  length zs = k →
  heap s !! b = Some (pre ++ (Some <$> zs) ++ rest) →
  ∃ s', destroy_n (Ptr (Some b) (length pre)) k s = (s', Ok tt) ∧
        mem s' = (<[b := pre ++ replicate k None ++ rest]> (heap s),
                  avail s, objs s, leaked s).
Proof.
  induction k as [|k IH]; intros s b pre zs rest Hlen Hb.
  - destruct zs; [|done]. exists s. split; [done|]. simpl in *.
    unfold mem. by rewrite insert_id.
  - destruct zs as [|z zs]; [done|]. simpl in *.
    destruct (destroy_at_Some (Ptr (Some b) (length pre)) s z) as (s1 & E1 & M1).
    { rewrite slot_lookup, Hb. simpl.
      by rewrite lookup_app_r, Nat.sub_diag by lia. }
    rewrite (mem_set_slot _ _ _ _ _ Hb) in M1.
    injection M1 as Hh1 Ha1 Ho1 Hl1.
    rewrite (bind_Ok _ _ _ _ _ E1).
    assert (<[length pre:=None]> (pre ++ Some z :: (Some <$> zs) ++ rest)
            = (pre ++ [None]) ++ (Some <$> zs) ++ rest) as Hblk.
    { rewrite insert_app_r_alt, Nat.sub_diag by lia. simpl.
      by rewrite <- app_assoc. }
    destruct (IH s1 b (pre ++ [None]) zs rest) as (s2 & E2 & M2); [lia | |].
    { rewrite Hh1, lookup_insert_eq. f_equal. exact Hblk. }
    exists s2. split.
    + unfold ptr_add. simpl. rewrite length_app in E2. simpl in E2. exact E2.
    + rewrite M2, Hh1, Ha1, Ho1, Hl1.
      rewrite insert_insert_eq. by rewrite <- app_assoc.
Qed.

Lemma mem_set_slot_cong p o s s1 :
  mem s1 = mem s → mem (set_slot p o s1) = mem (set_slot p o s).
Proof.
  unfold mem, set_slot. intros E. injection E as Hh Ha Ho Hl.
  destruct (block p); simpl; congruence.
Qed.

Lemma take_drop_cons {A} n k (l : list A) a t :
  take (S n) (drop k l) = a :: t →
  l !! k = Some a ∧ take n (drop (S k) l) = t.
Proof.
  intros E. destruct (l !! k) as [a'|] eqn:Hk.
  - rewrite (drop_S _ _ _ Hk) in E. simpl in E. by injection E as -> ->.
  - apply lookup_ge_None in Hk. by rewrite drop_ge in E.
Qed.

Lemma copy_construct_at_inv dst src s x s' r :
  slot s src = Some (Some x) →
  slot s dst = Some None →
  copy_construct_at dst src s = (s', r) →
  match r with
  | Ok _ => ∃ y, (copy_construct x (world s)).2 = Some y ∧
                 mem s' = mem (set_slot dst (Some y) s)
  | Throw _ => (copy_construct x (world s)).2 = None ∧ mem s' = mem s
  | Fault _ => False
  end.
Proof.
  intros Hsrc Hdst E. unfold copy_construct_at in E.
  rewrite (bind_Ok _ _ _ _ _ (load_Some _ _ _ Hsrc)), bind_unfold in E.
  destruct (elem_op _ _ _ s) as [s1 r1] eqn:E1.
  apply elem_op_inv in E1 as [M1 Hr1].
  destruct r1 as [y|e|f].
  - rewrite place_raw in E by by rewrite (slot_mem _ _ _ M1).
    inversion E; subst s' r. exists y. split; [done|].
    by apply mem_set_slot_cong.
  - inversion E; subst s' r. by destruct Hr1 as (_ & _ & ?).
  - by destruct Hr1 as (_ & ? & _).
Qed.

(** [std::uninitialized_copy_n] from block [b] to block [nb], at the point
    where [k] elements are done and [n] are left: it either constructs the
    copies, or, when a copy constructor throws, leaves no copy behind. *)
Lemma uninitialized_copy_from_spec n : ∀ k s b nb src done todo suf s' r,
  b ≠ nb →
  heap s !! b = Some src →
  take n (drop k src) = Some <$> todo →
  length todo = n →
  length done = k →
  heap s !! nb = Some ((Some <$> done) ++ replicate n None ++ suf) →
  uninitialized_copy_from k n (Ptr (Some b) 0) (Ptr (Some nb) 0) s = (s', r) →
  match r with
  | Ok _ =>
      ∃ ys, Forall2 copy_of todo ys ∧
            mem s' = (<[nb := (Some <$> (done ++ ys)) ++ suf]> (heap s),
                      avail s, objs s, leaked s)
  | Throw _ =>
      (∃ x w, x ∈ todo ∧ (copy_construct x w).2 = None) ∧
      mem s' = (<[nb := replicate (k + n) None ++ suf]> (heap s),
                avail s, objs s, leaked s)
  | Fault _ => False
  end.
Proof.
  induction n as [|n IH];
    intros k s b nb src done todo suf s' r Hne Hb Hsrc Hlen Hk Hnb E.
  - simpl in E. inversion E; subst s' r. destruct todo; [|done].
    exists []. split; [constructor|]. simpl in *.
    unfold mem. by rewrite app_nil_r, insert_id.
  - destruct todo as [|x todo]; [done|]. simpl in Hsrc, Hlen.
    apply take_drop_cons in Hsrc as [Hx Hsrc].
    cbn [uninitialized_copy_from] in E.
    change (Ptr (Some nb) 0 +ₚ k) with (Ptr (Some nb) k) in E.
    change (Ptr (Some b) 0 +ₚ k) with (Ptr (Some b) k) in E.
    rewrite bind_unfold in E. unfold on_throw in E.
    destruct (copy_construct_at _ _ s) as [s1 r1] eqn:E1.
    apply (copy_construct_at_inv _ _ _ x) in E1.
    2:{ unfold slot. simpl. rewrite Hb. simpl. exact Hx. }
    2:{ unfold slot. simpl. rewrite Hnb. simpl.
        rewrite lookup_app_r; rewrite length_fmap; [|lia].
        by rewrite Hk, Nat.sub_diag. }
    destruct r1 as [[]|e|f]; [| |done].
    + destruct E1 as (y & Hy & M1).
      rewrite (mem_set_slot _ _ _ _ _ Hnb) in M1.
      injection M1 as Hh1 Ha1 Ho1 Hl1. simpl in Hh1.
      assert (<[k:=Some y]> ((Some <$> done) ++ None :: replicate n None ++ suf)
              = (Some <$> (done ++ [y])) ++ replicate n None ++ suf) as Hblk.
      { rewrite insert_app_r_alt; rewrite length_fmap; [|lia].
        rewrite Hk, Nat.sub_diag, fmap_app. simpl. by rewrite <- app_assoc. }
      simpl in Hh1. rewrite Hblk in Hh1.
      specialize (IH (S k) s1 b nb src (done ++ [y]) todo suf s' r Hne).
      destruct r as [[]|e|f].
      * destruct IH as (ys & Hys & M); try done.
        { by rewrite Hh1, lookup_insert_ne. }
        { lia. }
        { rewrite length_app. simpl. lia. }
        { by rewrite Hh1, lookup_insert_eq. }
        exists (y :: ys). split; [constructor; [by eexists | done]|].
        rewrite M, Hh1, Ha1, Ho1, Hl1, insert_insert_eq.
        by rewrite <- app_assoc.
      * destruct IH as ((x' & w & Hx' & Hw) & M); try done.
        { by rewrite Hh1, lookup_insert_ne. }
        { lia. }
        { rewrite length_app. simpl. lia. }
        { by rewrite Hh1, lookup_insert_eq. }
        split; [exists x', w; split; [by right | done]|].
        rewrite M, Hh1, Ha1, Ho1, Hl1, insert_insert_eq.
        by replace (S k + n) with (k + S n) by lia.
      * apply IH; try done.
        { by rewrite Hh1, lookup_insert_ne. }
        { lia. }
        { rewrite length_app. simpl. lia. }
        { by rewrite Hh1, lookup_insert_eq. }
    + destruct E1 as [Hthrow M1]. injection M1 as Hh1 Ha1 Ho1 Hl1.
      destruct (destroy_n_Some k s1 nb [] done
                  (replicate (S n) None ++ suf)) as (s2 & E2 & M2); [done| |].
      { by rewrite Hh1. }
      simpl in E2. rewrite E2 in E. inversion E; subst s' r.
      split; [exists x, (world s); split; [by left | done]|].
      rewrite M2, Hh1, Ha1, Ho1, Hl1.
      replace (replicate (k + S n) None ++ suf)
        with ([] ++ replicate k (@None T) ++ replicate (S n) None ++ suf);
        [done|].
      by rewrite replicate_add, <- app_assoc.
Qed.

(** ** Calls that cannot end in an exception *)

Lemma never_throws_ret {A} (a : A) : never_throws (mret a).
Proof. by intros s s' e. Qed.

Lemma never_throws_bind {A B} (m : M A) (k : A → M B) :
  never_throws m → (∀ a, never_throws (k a)) → never_throws (m ≫= k).
Proof.
  intros Hm Hk s s' e. rewrite bind_unfold.
  destruct (m s) as [s1 [a|e1|f]] eqn:E; [apply Hk | | done].
  by destruct (Hm s s1 e1).
Qed.

Lemma never_throws_on_throw {A} (m : M A) c :
  never_throws m → never_throws (on_throw m c).
Proof.
  intros Hm s s' e. unfold on_throw.
  destruct (m s) as [s1 [a|e1|f]] eqn:E; [done | | done].
  by destruct (Hm s s1 e1).
Qed.

Lemma never_throws_get_obj this : never_throws (get_obj this).
Proof. intros s s' e. unfold get_obj. by destruct (objs s !! this). Qed.

Lemma never_throws_modify f : never_throws (modify f).
Proof. by intros s s' e. Qed.

Lemma never_throws_abort {A} f : never_throws (abort (A := A) f).
Proof. by intros s s' e. Qed.

Lemma never_throws_load p : never_throws (load p).
Proof. intros s s' e. unfold load. by destruct (slot s p) as [[?|]|]. Qed.

Lemma never_throws_store p x : never_throws (store p x).
Proof. intros s s' e. unfold store. by destruct (slot s p) as [[?|]|]. Qed.

Lemma never_throws_place p x : never_throws (place p x).
Proof. intros s s' e. unfold place. by destruct (slot s p) as [[?|]|]. Qed.

Lemma never_throws_Deallocate buf : never_throws (Deallocate buf).
Proof.
  intros s s' e. unfold Deallocate. destruct buf as [b|]; [|done].
  by destruct (heap s !! b).
Qed.

Lemma never_throws_elem_op_noexcept {A} ev (op : W → W * option A) :
  never_throws (elem_op ev true op).
Proof.
  intros s s' e. unfold elem_op. by destruct (op (world s)) as [w [a|]].
Qed.

Create HintDb nothrow.

Hint Resolve never_throws_get_obj never_throws_modify never_throws_abort
  never_throws_load never_throws_store never_throws_place
  never_throws_Deallocate never_throws_elem_op_noexcept : nothrow.

Ltac nothrow_step :=
  lazymatch goal with
  | |- never_throws (mret _) => apply never_throws_ret
  | |- never_throws (_ ≫= _) => apply never_throws_bind; [|intros ?]
  | |- never_throws (on_throw _ _) => apply never_throws_on_throw
  | |- never_throws (if ?c then _ else _) => destruct c
  end.
Ltac nothrow := repeat nothrow_step; eauto with nothrow.

Lemma never_throws_put_obj this v : never_throws (put_obj this v).
Proof. apply never_throws_modify. Qed.

Lemma never_throws_set_data this d : never_throws (set_data this d).
Proof. unfold set_data. nothrow. Qed.

Lemma never_throws_set_size this n : never_throws (set_size this n).
Proof. unfold set_size. nothrow. Qed.

Lemma never_throws_RawMemory_delete r : never_throws (RawMemory_delete r).
Proof. apply never_throws_Deallocate. Qed.

Lemma never_throws_destroy_at p : never_throws (destroy_at p).
Proof. unfold destroy_at. nothrow. Qed.

Hint Resolve never_throws_put_obj never_throws_set_data never_throws_set_size
  never_throws_RawMemory_delete never_throws_destroy_at : nothrow.

Lemma never_throws_destroy_n p n : never_throws (destroy_n p n).
Proof. revert p. induction n as [|n IH]; intros p; simpl; nothrow. Qed.

Hint Resolve never_throws_destroy_n : nothrow.

(** A move constructor declared non-throwing does not throw: relocation by
    [std::uninitialized_move_n] then cannot end in an exception. *)
Lemma never_throws_move_construct_at dst src :
  nothrow_move_constructible = true →
  never_throws (move_construct_at dst src).
Proof. intros Hnm. unfold move_construct_at. rewrite Hnm. nothrow. Qed.

Lemma never_throws_uninitialized_move_from k n p q :
  nothrow_move_constructible = true →
  never_throws (uninitialized_move_from k n p q).
Proof.
  intros Hnm. revert k. induction n as [|n IH]; intros k; simpl; nothrow.
  by apply never_throws_move_construct_at.
Qed.

(** ** Allocation and release *)

Lemma RawMemory_new_inv n s s' r :
  RawMemory_new n s = (s', r) →
  match r with
  | Ok d =>
      capacity_ d = n ∧
      ((n = 0 ∧ buffer_ d = None ∧ s' = s) ∨
       (n ≠ 0 ∧ slots n ≤ avail s ∧
        ∃ nb, buffer_ d = Some nb ∧ heap s !! nb = None ∧
              s' = with_avail (avail s - slots n)
                     (with_heap (<[nb := replicate (slots n) None]> (heap s))
                        s)))
  | Throw _ => s' = s
  | Fault _ => False
  end.
Proof.
  unfold RawMemory_new, Allocate, operator_new. rewrite bind_unfold.
  change (room (byte_count n)) with (slots n).
  destruct (decide (n ≠ 0)) as [Hn|Hn].
  - rewrite bind_unfold.
    destruct (decide (slots n ≤ avail s)) as [Hle|Hle]; simpl; intros E;
      inversion E; subst s' r; [|done].
    split; [done|]. right. split_and!; [done..|].
    exists (fresh (dom (heap s))). split_and!; [done| |done].
    apply not_elem_of_dom, is_fresh.
  - simpl. intros E. inversion E; subst s' r. split; [done|]. left.
    split_and!; [|done..]. destruct (decide (n = 0)); [done | by destruct Hn].
Qed.

Lemma RawMemory_new_block n s :
  n ≠ 0 → slots n ≤ avail s →
  RawMemory_new n s =
    (with_new_block (fresh (dom (heap s))) (slots n) (avail s - slots n) s,
     Ok {| buffer_ := Some (fresh (dom (heap s))); capacity_ := n |}).
Proof.
  intros Hn Hle. unfold RawMemory_new, Allocate, operator_new.
  rewrite bind_unfold. change (room (byte_count n)) with (slots n).
  rewrite decide_True by done. rewrite bind_unfold.
  by rewrite decide_True.
Qed.

Lemma RawMemory_new_out_of_memory n s :
  avail s < slots n → RawMemory_new n s = (s, Throw bad_alloc).
Proof.
  intros Hlt. pose proof (slots_le n).
  unfold RawMemory_new, Allocate, operator_new.
  rewrite bind_unfold. change (room (byte_count n)) with (slots n).
  rewrite decide_True by lia. rewrite bind_unfold.
  by rewrite decide_False by lia.
Qed.

Lemma RawMemory_delete_Some r b blk s :
  buffer_ r = Some b →
  heap s !! b = Some blk →
  RawMemory_delete r s =
    (with_leaked (leaked s ++ omap id blk)
       (with_avail (avail s + length blk)
          (with_heap (delete b (heap s)) s)), Ok tt).
Proof.
  intros Hr Hb. unfold RawMemory_delete, Deallocate. by rewrite Hr, Hb.
Qed.

Lemma RawMemory_delete_null r s :
  buffer_ r = None → RawMemory_delete r s = (s, Ok tt).
Proof. intros Hr. unfold RawMemory_delete, Deallocate. by rewrite Hr. Qed.

Lemma omap_id_replicate_None n : omap id (replicate n (@None T)) = [].
Proof. induction n; [done | by simpl]. Qed.

(** ** Construction of the new element *)

(** The construction of the new element leaves blocks, free slots, vectors
    and leaks as they are, but for the object an rvalue refers to: once the
    construction has returned, that one is moved-from. *)
Lemma construct_value_inv a s s' r :
  construct_value a s = (s', r) →
  match moved_from a, r with
  | Some p, Ok x =>
      ∃ y m, slot s p = Some (Some y) ∧
             (move_construct y (world s)).2 = Some (x, m) ∧
             mem s' = mem (set_slot p (Some m) s)
  | _, _ => mem s' = mem s
  end.
Proof.
  destruct a as [x|x|x|p|p]; simpl; intros E.
  - by apply elem_op_inv in E as [? _].
  - rewrite bind_unfold in E.
    destruct (elem_op _ _ _ s) as [s1 r1] eqn:E1.
    apply elem_op_inv in E1 as [M1 _].
    destruct r1; inversion E; by subst.
  - by apply elem_op_inv in E as [? _].
  - rewrite bind_unfold in E. unfold load in E.
    destruct (slot s p) as [[y|]|]; try by inversion E; subst.
    by apply elem_op_inv in E as [? _].
  - rewrite bind_unfold in E. unfold load in E.
    destruct (slot s p) as [[y|]|] eqn:Hp;
      try by (injection E as <- <-).
    rewrite bind_unfold in E.
    destruct (elem_op _ _ _ s) as [s1 r1] eqn:E1.
    apply elem_op_inv in E1 as [M1 Hr1].
    destruct r1 as [[x m]|e|f]; [|by inversion E; subst..].
    rewrite bind_unfold in E. cbn [fst snd] in E.
    rewrite (store_Some p s1 m y) in E by by rewrite (slot_mem _ _ _ M1).
    simpl in E. inversion E; subst s' r. exists y, m.
    split_and!; [done..|]. by apply mem_set_slot_cong.
Qed.

Lemma construct_value_keeps a s s' r :
  moved_from a = None → construct_value a s = (s', r) → mem s' = mem s.
Proof.
  intros Ha E. apply construct_value_inv in E. by rewrite Ha in E.
Qed.

Lemma construct_value_failed a s s' r :
  (∀ x, r ≠ Ok x) → construct_value a s = (s', r) → mem s' = mem s.
Proof.
  intros Hr E. apply construct_value_inv in E.
  destruct (moved_from a), r as [x|e|f]; try done. by destruct (Hr x).
Qed.

Lemma slot_set_slot_ne p q o s : p ≠ q → slot (set_slot p o s) q = slot s q.
Proof.
  intros Hne. unfold set_slot, slot.
  destruct p as [[b|] i], q as [[b'|] j]; simpl; try done.
  destruct (decide (b' = b)) as [->|Hb]; [|by rewrite lookup_alter_ne].
  rewrite lookup_alter_eq. destruct (heap s !! b) as [blk|]; simpl; [|done].
  apply list_lookup_insert_ne. congruence.
Qed.

(** What the construction of the new element leaves alone. *)
Lemma construct_value_frame a s s' r :
  construct_value a s = (s', r) →
  objs s' = objs s ∧ avail s' = avail s ∧ leaked s' = leaked s ∧
  dom (heap s') = dom (heap s) ∧
  (∀ q, moved_from a ≠ Some q → slot s' q = slot s q).
Proof.
  intros E. apply construct_value_inv in E.
  assert (mem s' = mem s →
          objs s' = objs s ∧ avail s' = avail s ∧ leaked s' = leaked s ∧
          dom (heap s') = dom (heap s) ∧
          (∀ q, moved_from a ≠ Some q → slot s' q = slot s q)) as Hsame.
  { intros M. pose proof (λ q, slot_mem s s' q M) as Hslot.
    injection M as Hh Ha Ho Hl. split_and!; try done. by rewrite Hh. }
  destruct (moved_from a) as [p|] eqn:Ha; [|by apply Hsame].
  destruct r as [x|e|f]; [|by apply Hsame..].
  destruct E as (y & m & Hp & _ & M).
  assert (∀ q, slot s' q = slot (set_slot p (Some m) s) q) as Hslot
    by (intros q; apply (slot_mem _ _ _ M)).
  unfold mem in M. injection M as Hh Ha' Ho Hl.
  unfold set_slot in Hh, Ha', Ho, Hl.
  destruct (block p) as [b|] eqn:Hb; simpl in *; split_and!; try done.
  - rewrite Hh. apply dom_alter_L.
  - intros q Hq. rewrite Hslot. apply slot_set_slot_ne. congruence.
  - by rewrite Hh.
  - intros q Hq. rewrite Hslot. apply slot_set_slot_ne. congruence.
Qed.

(** The vector still holds as many elements once the new element is
    constructed, and the same ones unless an rvalue referred to one. *)
Lemma holds_construct_value a s s' r v xs :
  construct_value a s = (s', r) →
  holds s v xs →
  ∃ xs', holds s' v xs' ∧ length xs' = length xs ∧
         (moved_from a = None → xs' = xs) ∧
         ((∀ x, r ≠ Ok x) → xs' = xs).
Proof.
  intros E (Hsize & Hcap & Hblk). apply construct_value_inv in E.
  assert (mem s' = mem s →
          ∃ xs', holds s' v xs' ∧ length xs' = length xs ∧
                 (moved_from a = None → xs' = xs) ∧
                 ((∀ x, r ≠ Ok x) → xs' = xs)) as Hsame.
  { intros M. injection M as Hh _ _ _. exists xs. split_and!; try done.
    unfold holds. by rewrite Hh. }
  destruct (moved_from a) as [p|] eqn:Ha; [|by apply Hsame].
  destruct r as [x|e|f]; [|by apply Hsame..].
  destruct E as (y & m & Hp & _ & M).
  destruct p as [[bp|] i]; [|done].
  rewrite slot_lookup in Hp.
  destruct (heap s !! bp) as [blk|] eqn:Hbp; [|done]. simpl in Hp.
  rewrite (mem_set_slot _ _ _ _ _ Hbp) in M. injection M as Hh _ _ _.
  destruct (buffer_ (data_ v)) as [b|] eqn:Hb.
  - destruct (decide (bp = b)) as [->|Hne].
    + assert (blk = block_with (capacity_ (data_ v)) xs) as -> by congruence.
      assert (i < length xs) as Hi.
      { destruct (decide (i < length xs)); [done|].
        unfold block_with in Hp.
        rewrite lookup_app_r in Hp by (rewrite length_fmap; lia).
        apply lookup_replicate in Hp as [? _]. done. }
      exists (<[i := m]> xs). split_and!.
      * unfold holds. rewrite length_insert. split_and!; [done..|].
        rewrite Hb, Hh, lookup_insert_eq. f_equal. unfold block_with.
        rewrite length_insert, list_fmap_insert.
        by rewrite insert_app_l by (rewrite length_fmap; lia).
      * by rewrite length_insert.
      * done.
      * intros Hr. by destruct (Hr x).
    + exists xs. split_and!; try done.
      unfold holds. rewrite Hb, Hh. by rewrite lookup_insert_ne.
  - exists xs. split_and!; try done. unfold holds. by rewrite Hb.
Qed.

Lemma slot_with_new_block nb k n s p :
  heap s !! nb = None →
  ∀ y, slot (with_new_block nb k n s) p = Some (Some y)
       ↔ slot s p = Some (Some y).
Proof.
  intros Hnb y. unfold slot. destruct (block p) as [b|]; simpl; [|done].
  destruct (decide (b = nb)) as [->|Hne].
  - rewrite lookup_insert_eq, Hnb. simpl. split; [|done].
    intros Hy. by apply lookup_replicate in Hy as [? _].
  - by rewrite lookup_insert_ne.
Qed.

Lemma set_slot_with_new_block nb k n s p o y :
  heap s !! nb = None →
  slot s p = Some (Some y) →
  set_slot p o (with_new_block nb k n s) = with_new_block nb k n (set_slot p o s).
Proof.
  intros Hnb Hp. unfold set_slot, slot in *.
  destruct (block p) as [b|]; [|done]. simpl in *.
  assert (b ≠ nb) as Hne by (intros ->; by rewrite Hnb in Hp).
  unfold with_new_block, with_avail, with_heap. simpl. f_equal.
  apply map_eq. intros j. destruct (decide (j = b)) as [->|Hj].
  - rewrite lookup_alter_eq, !lookup_insert_ne by done.
    by rewrite lookup_alter_eq.
  - rewrite lookup_alter_ne by done.
    destruct (decide (j = nb)) as [->|Hj'].
    + by rewrite !lookup_insert_eq.
    + rewrite !lookup_insert_ne by done. by rewrite lookup_alter_ne.
Qed.

(** The construction of the new element is the same with one more block
    of raw slots. *)
Lemma construct_value_new_block a s nb k n :
  heap s !! nb = None →
  construct_value a (with_new_block nb k n s)
    = (with_new_block nb k n (construct_value a s).1, (construct_value a s).2).
Proof.
  intros Hnb.
  assert (∀ {A} ev ne (op : W → W * option A),
            elem_op ev ne op (with_new_block nb k n s)
            = (with_new_block nb k n (elem_op ev ne op s).1,
               (elem_op ev ne op s).2)) as Hop.
  { intros A ev ne op. unfold elem_op. simpl.
    by destruct (op (world s)) as [w [y|]]. }
  destruct a as [x|x|x|p|p]; simpl.
  - apply Hop.
  - rewrite !bind_unfold, Hop.
    by destruct (elem_op _ _ _ s) as [s1 [r|e|f]].
  - apply Hop.
  - rewrite !bind_unfold. unfold load.
    destruct (slot s p) as [[y|]|] eqn:Hp.
    + rewrite (proj2 (slot_with_new_block nb k n s p Hnb y) Hp).
      unfold elem_op. simpl. by destruct (copy_construct y (world s)) as [w [z|]].
    + destruct (slot (with_new_block nb k n s) p) as [[y|]|] eqn:Hp'; try done.
      apply (slot_with_new_block nb k n s p Hnb) in Hp'. congruence.
    + destruct (slot (with_new_block nb k n s) p) as [[y|]|] eqn:Hp'; try done.
      apply (slot_with_new_block nb k n s p Hnb) in Hp'. congruence.
  - rewrite !bind_unfold. unfold load.
    destruct (slot s p) as [[y|]|] eqn:Hp.
    + rewrite (proj2 (slot_with_new_block nb k n s p Hnb y) Hp). rewrite !bind_unfold.
      unfold elem_op. simpl.
      destruct (move_construct y (world s)) as [w [[z m]|]]; simpl;
        [|by destruct nothrow_move_constructible].
      rewrite !bind_unfold. unfold store. simpl.
      assert (slot (with_trace (trace s ++ [ev_construct]) (with_world w s)) p
              = Some (Some y)) as Hp1 by exact Hp.
      assert (slot (with_trace (trace s ++ [ev_construct])
                      (with_world w (with_new_block nb k n s))) p
              = Some (Some y)) as Hp2
        by exact (proj2 (slot_with_new_block nb k n s p Hnb y) Hp).
      rewrite Hp1, Hp2. simpl. unfold mret, M_ret. simpl. f_equal.
      by apply (set_slot_with_new_block nb k n
                  (with_trace (trace s ++ [ev_construct]) (with_world w s))
                  p (Some m) y).
    + destruct (slot (with_new_block nb k n s) p) as [[y|]|] eqn:Hp'; try done.
      apply (slot_with_new_block nb k n s p Hnb) in Hp'. congruence.
    + destruct (slot (with_new_block nb k n s) p) as [[y|]|] eqn:Hp'; try done.
      apply (slot_with_new_block nb k n s p Hnb) in Hp'. congruence.
Qed.

(** Placement-new of the new element in the slot [i] of a new block. *)
Lemma construct_at_new_block a s nb k n i s' r :
  heap s !! nb = None →
  construct_at (Ptr (Some nb) i) a (with_new_block nb k n s) = (s', r) →
  ∃ s1 r1,
    construct_value a s = (s1, r1) ∧
    match r1 with
    | Ok x =>
        if decide (i < k) then
          r = Ok tt ∧
          mem s' = (<[nb := <[i := Some x]> (replicate k None)]> (heap s1),
                    n, objs s1, leaked s1)
        else r = Fault bad_access
    | Throw e =>
        r = Throw e ∧
        mem s' = (<[nb := replicate k None]> (heap s1), n, objs s1, leaked s1)
    | Fault f => r = Fault f
    end.
Proof.
  intros Hnb E. unfold construct_at in E.
  rewrite bind_unfold, (construct_value_new_block a s nb k n Hnb) in E.
  destruct (construct_value a s) as [s1 r1] eqn:E1. exists s1, r1.
  split; [done|]. simpl in E.
  destruct r1 as [x|e|f]; [|by inversion E; subst..].
  unfold place in E. rewrite slot_lookup in E. simpl in E.
  rewrite lookup_insert_eq in E. simpl in E.
  case_decide as Hi.
  - rewrite lookup_replicate_2 in E by done. inversion E; subst s' r.
    split; [done|].
    rewrite (mem_set_slot nb i (Some x) _ (replicate k None))
      by apply lookup_insert_eq.
    simpl. by rewrite insert_insert_eq.
  - rewrite lookup_ge_None_2 in E by (rewrite length_replicate; lia).
    by inversion E.
Qed.

(** With a move constructor that may throw, the construction of the new
    element from an argument that refers to no object, or to a live one,
    returns or throws. *)
Lemma construct_value_no_fault a s s' f :
  nothrow_move_constructible = false →
  (∀ p, referent a = Some p → ∃ y, slot s p = Some (Some y)) →
  construct_value a s ≠ (s', Fault f).
Proof.
  intros Hnm Hp E. destruct a as [x|x|x|p|p]; simpl in E.
  - by apply elem_op_inv in E as [_ (_ & ? & _)].
  - rewrite Hnm, bind_unfold in E.
    destruct (elem_op _ _ _ s) as [s1 [r|e1|f1]] eqn:E1; [done..|].
    by apply elem_op_inv in E1 as [_ (_ & ? & _)].
  - by apply elem_op_inv in E as [_ (_ & ? & _)].
  - destruct (Hp p eq_refl) as [y Hy].
    rewrite (bind_Ok _ _ _ _ _ (load_Some _ _ _ Hy)) in E.
    by apply elem_op_inv in E as [_ (_ & ? & _)].
  - destruct (Hp p eq_refl) as [y Hy].
    rewrite (bind_Ok _ _ _ _ _ (load_Some _ _ _ Hy)) in E.
    rewrite Hnm, bind_unfold in E.
    destruct (elem_op _ _ _ s) as [s1 [[z m]|e1|f1]] eqn:E1; [|done|].
    + apply elem_op_inv in E1 as [M1 _].
      rewrite bind_unfold in E. cbn [fst snd] in E.
      rewrite (store_Some p s1 m y) in E by by rewrite (slot_mem _ _ _ M1).
      done.
    + by apply elem_op_inv in E1 as [_ (_ & ? & _)].
Qed.

(** ** A reallocating append that throws *)

Lemma holds_elements this s v xs :
  objs s !! this = Some v → holds s v xs → elements s this = Some xs.
Proof.
  intros Hv (Hsize & Hcap & Hblk). unfold elements, block_of.
  rewrite Hv. simpl. destruct (buffer_ (data_ v)) as [b|]; simpl.
  - rewrite Hblk. simpl. unfold block_with.
    rewrite take_app_length' by by rewrite length_fmap.
    by apply mapM_fmap_Some.
  - destruct xs; [|simpl in *; lia]. by rewrite Hsize.
Qed.

Lemma elements_same_mem this s s' :
  heap s' = heap s → objs s' = objs s → elements s' this = elements s this.
Proof. intros Hh Ho. unfold elements, block_of. by rewrite Hh, Ho. Qed.

Lemma growth_more n : n < (if decide (n = 0) then 1 else n * 2).
Proof. case_decide; lia. Qed.

(** The new buffer once the new element is in its slot. *)
Lemma new_block_with_element n c (x : T) :
  n < c →
  <[n := Some x]> (replicate c None)
    = (Some <$> []) ++ replicate n None ++ Some x :: replicate (c - S n) None.
Proof.
  intros Hlt. replace c with (n + S (c - S n)) at 1 by lia.
  rewrite replicate_add. simpl.
  rewrite insert_app_r_alt; rewrite length_replicate; [|lia].
  by rewrite Nat.sub_diag.
Qed.

(** Releasing the new buffer gives the state before the call back, but for
    what the buffer still held. *)
Lemma release_new_buffer d nb blk s s1 :
  buffer_ d = Some nb →
  heap s !! nb = None →
  capacity_ d ≤ avail s →
  length blk = capacity_ d →
  mem s1 = (<[nb := blk]> (heap s), avail s - capacity_ d, objs s, leaked s) →
  ∃ s', RawMemory_delete d s1 = (s', Ok tt) ∧
        mem s' = (heap s, avail s, objs s, leaked s ++ omap id blk).
Proof.
  intros Hd Hnb Hle Hlen M1. injection M1 as Hh1 Ha1 Ho1 Hl1.
  eexists. split.
  - apply (RawMemory_delete_Some d nb blk); [done|].
    rewrite Hh1. apply lookup_insert_eq.
  - unfold mem. simpl. rewrite Hh1, Ha1, Ho1, Hl1, Hlen.
    rewrite delete_insert_id by done. repeat f_equal. lia.
Qed.

Lemma never_throws_run {A} (m : M A) s s' e :
  never_throws m → m s = (s', Throw e) → False.
Proof. intros Hm E. by destruct (Hm s s' e). Qed.

(** The run [E] cannot have ended in an exception. *)
Ltac absurd_throw E :=
  exfalso; refine (never_throws_run _ _ _ _ _ E); nothrow.

(** Releasing a block gives its slots back; what it still held is leaked. *)
Lemma release_block d nb blk (h : gmap nat (list (option T))) n o l s1 :
  buffer_ d = Some nb →
  h !! nb = None →
  length blk ≤ n →
  mem s1 = (<[nb := blk]> h, n - length blk, o, l) →
  ∃ s', RawMemory_delete d s1 = (s', Ok tt) ∧
        mem s' = (h, n, o, l ++ omap id blk).
Proof.
  intros Hd Hnb Hle M1. injection M1 as Hh1 Ha1 Ho1 Hl1.
  eexists. split.
  - apply (RawMemory_delete_Some d nb blk); [done|].
    rewrite Hh1. apply lookup_insert_eq.
  - unfold mem. simpl. rewrite Hh1, Ha1, Ho1, Hl1.
    rewrite delete_insert_id by done. repeat f_equal. lia.
Qed.

(** Placement-new in a slot that is not there does not return; when the
    constructor throws before, nothing has changed. *)
Lemma construct_at_no_slot p a s s' r :
  slot s p = None →
  construct_at p a s = (s', r) →
  match r with
  | Ok _ => False
  | Throw _ => mem s' = mem s
  | Fault _ => True
  end.
Proof.
  intros Hp E. unfold construct_at in E. rewrite bind_unfold in E.
  destruct (construct_value a s) as [s1 [x|e|f]] eqn:E1.
  - unfold place in E.
    assert (slot s1 p = None) as Hp1.
    { destruct (slot s1 p) eqn:Hp1; [|done].
      destruct (preserves_run no_new_slots _ _ _ _
                  (no_new_construct_value a) E1 p) as [? ?];
        [by rewrite Hp1 | congruence]. }
    rewrite Hp1 in E. by inversion E.
  - inversion E; subst. by apply (construct_value_failed a s _ (Throw e)).
  - by inversion E; subst.
Qed.

Lemma EmplaceBack_Throw_inv this a s v xs s' e :
  objs s !! this = Some v →
  holds s v xs →
  capacity_ (data_ v) ≤ size_ v →
  nothrow_move_constructible = true ∨ copy_constructible = true →
  Vector_EmplaceBack this a s = (s', Throw e) →
  mem s' = mem s ∨
  ∃ s1 x, construct_value a s = (s1, Ok x) ∧
          mem s' = (heap s1, avail s, objs s, leaked s ++ [x]).
Proof.
  intros Hv Hholds Hfull Htraits E.
  unfold Vector_EmplaceBack in E.
  rewrite (bind_Ok _ _ _ _ _ (get_obj_Some _ _ _ Hv)) in E.
  unfold RawMemory_Capacity in E. rewrite decide_True in E by done.
  rewrite bind_unfold in E.
  match type of E with
  | context [match ?m s with _ => _ end] =>
      destruct (m s) as [s1 [p1|e1|f1]] eqn:E1
  end; [|inversion E; subst s1 e1; clear E|done].
  { absurd_throw E. }
  rewrite bind_unfold in E1.
  destruct (RawMemory_new _ s) as [s2 r2] eqn:Enew.
  apply RawMemory_new_inv in Enew.
  destruct r2 as [d|e2|f2]; [| |done].
  2:{ inversion E1; subst. by left. }
  set (c := if decide (size_ v = 0) then 1 else size_t (size_ v * 2)) in *.
  rewrite bind_unfold in E1.
  destruct (on_throw _ _ s2) as [s3 [[]|e3|f3]] eqn:Ebody;
    [|inversion E1; subst s3 e3; clear E1|done].
  { absurd_throw E1. }
  unfold on_throw in Ebody.
  match type of Ebody with
  | context [match ?m s2 with _ => _ end] =>
      destruct (m s2) as [s4 [[]|e4|f4]] eqn:Eb
  end; [done| |done].
  destruct (RawMemory_delete d s4) as [s5 [[]|e5|f5]] eqn:Edel;
    [|by destruct (never_throws_RawMemory_delete d s4 s5 e5)|done].
  inversion Ebody; subst s5 e4; clear Ebody.
  rewrite bind_unfold in Eb.
  destruct (construct_at _ a s2) as [s6 r6] eqn:Ector.
  destruct (slot s2 (RawMemory_GetAddress d +ₚ size_ v)) as [o|] eqn:Hslot;
    last first.
  { (* the new block has no slot for the new element *)
    apply (construct_at_no_slot _ _ _ _ _ Hslot) in Ector.
    destruct r6 as [[]|e6|f6]; [done| |done].
    inversion Eb; subst s6 e6; clear Eb.
    destruct Enew as [Hcapd [(Hn0 & Hd & ->) | (_ & Hav & nb & Hd & Hnb & ->)]].
    - rewrite (RawMemory_delete_null _ _ Hd) in Edel.
      inversion Edel; subst. by left.
    - destruct (release_block d nb (replicate (slots c) None) (heap s)
                  (avail s) (objs s) (leaked s) s4 Hd Hnb)
        as (s5 & Edel' & M5).
      { by rewrite length_replicate. }
      { by rewrite Ector, length_replicate. }
      rewrite Edel' in Edel. inversion Edel; subst s5. left.
      by rewrite M5, omap_id_replicate_None, app_nil_r. }
  destruct Enew as [Hcapd [(Hn0 & Hd & ->) | (_ & Hav & nb & Hd & Hnb & ->)]].
  { unfold RawMemory_GetAddress in Hslot. by rewrite Hd in Hslot. }
  set (k := slots c) in *.
  change (with_avail (avail s - k)
            (with_heap (<[nb:=replicate k None]> (heap s)) s))
    with (with_new_block nb k (avail s - k) s) in *.
  assert (RawMemory_GetAddress d = Ptr (Some nb) 0) as Hdp.
  { unfold RawMemory_GetAddress. by rewrite Hd. }
  rewrite Hdp in Ector, Hslot, Eb.
  change (Ptr (Some nb) 0 +ₚ size_ v) with (Ptr (Some nb) (size_ v))
    in Ector, Hslot.
  assert (size_ v < k) as Hk.
  { rewrite slot_lookup in Hslot. simpl in Hslot.
    rewrite lookup_insert_eq in Hslot. simpl in Hslot.
    apply lookup_lt_Some in Hslot. by rewrite length_replicate in Hslot. }
  apply (construct_at_new_block a s nb k _ _ _ _ Hnb) in Ector
    as (s1 & r1 & E1 & Hr1).
  destruct (construct_value_frame _ _ _ _ E1) as (Ho1 & Ha1 & Hl1 & Hdom1 & _).
  assert (heap s1 !! nb = None) as Hnb1.
  { apply not_elem_of_dom. rewrite Hdom1. by apply not_elem_of_dom. }
  destruct r1 as [x|e1|f1].
  - rewrite decide_True in Hr1 by done. destruct Hr1 as [-> M6].
    destruct (holds_construct_value _ _ _ _ v xs E1 Hholds)
      as (xs' & (Hsize & Hcap & Hblk) & Hlen & _).
    rewrite new_block_with_element in M6 by done.
    injection M6 as Hh6 Ha6 Ho6 Hl6.
    rewrite bind_unfold in Eb.
    match type of Eb with
    | context [match ?m s6 with _ => _ end] =>
        destruct (m s6) as [s7 [[]|e7|f7]] eqn:Er
    end; [|inversion Eb; subst s7 e7; clear Eb|done].
    { absurd_throw Eb. }
    destruct nothrow_move_constructible eqn:Hnm.
    { exfalso. simpl in Er.
      refine (never_throws_run _ _ _ _ _ Er).
      by apply never_throws_uninitialized_move_from. }
    destruct copy_constructible eqn:Hcc; [|by destruct Htraits].
    simpl in Er. unfold uninitialized_copy_n in Er.
    destruct (buffer_ (data_ v)) as [b|] eqn:Hb.
    + unfold RawMemory_GetAddress in Er. rewrite Hb in Er.
      apply (uninitialized_copy_from_spec (size_ v) 0 s6 b nb
               (block_with (capacity_ (data_ v)) xs') [] xs'
               (Some x :: replicate (k - S (size_ v)) None)) in Er;
        [ | congruence
          | rewrite Hh6, lookup_insert_ne; [exact Hblk | congruence]
          | rewrite Hsize; unfold block_with; rewrite drop_0;
            by rewrite take_app_length' by by rewrite length_fmap
          | done
          | done
          | by rewrite Hh6, lookup_insert_eq ].
      destruct Er as [_ M4]. simpl in M4.
      rewrite Hh6, Ha6, Ho6, Hl6, insert_insert_eq in M4.
      destruct (release_block d nb
                  (replicate (size_ v) None
                   ++ Some x :: replicate (k - S (size_ v)) None)
                  (heap s1) (avail s) (objs s1) (leaked s1) s4 Hd Hnb1)
        as (s5 & Edel' & M5).
      { rewrite length_app, length_replicate. simpl.
        rewrite length_replicate. lia. }
      { rewrite M4. repeat f_equal. rewrite length_app, length_replicate.
        simpl. rewrite length_replicate. lia. }
      rewrite Edel' in Edel. inversion Edel; subst s5.
      right. exists s1, x. split; [done|].
      rewrite M5, Ho1, Hl1. repeat f_equal.
      rewrite omap_app, omap_id_replicate_None. simpl.
      by rewrite omap_id_replicate_None.
    + exfalso. assert (size_ v = 0) as Hz by lia. rewrite Hz in Er.
      simpl in Er. by inversion Er.
  - destruct Hr1 as [-> M6]. inversion Eb; subst s6 e1; clear Eb.
    pose proof (construct_value_failed a s s1 (Throw e)
                  ltac:(done) E1) as M1.
    destruct (release_block d nb (replicate k None) (heap s1) (avail s)
                (objs s1) (leaked s1) s4 Hd Hnb1) as (s5 & Edel' & M5).
    { by rewrite length_replicate. }
    { by rewrite M6, length_replicate. }
    rewrite Edel' in Edel. inversion Edel; subst s5. left.
    rewrite M5, omap_id_replicate_None, app_nil_r, <- M1.
    unfold mem. by rewrite Ha1.
  - by subst r6.
Qed.

(** With relocation by copy, a reallocating EmplaceBack on a well-formed
    vector returns or throws, when the new capacity does not wrap and the
    argument refers to no object or to a live one: it never stops at an
    assertion, at [std::terminate] or at a bad access. *)
Lemma EmplaceBack_full_no_fault this a s v xs s' f :
  objs s !! this = Some v →
  holds s v xs →
  capacity_ (data_ v) ≤ size_ v →
  nothrow_move_constructible = false →
  copy_constructible = true →
  addressable (1 `max` (2 * size_ v)) →
  (∀ p, referent a = Some p → ∃ y, slot s p = Some (Some y)) →
  Vector_EmplaceBack this a s ≠ (s', Fault f).
Proof.
  intros Hv Hholds Hfull Hnm Hcc Haddr Hvalid E.
  unfold Vector_EmplaceBack in E.
  rewrite (bind_Ok _ _ _ _ _ (get_obj_Some _ _ _ Hv)) in E.
  unfold RawMemory_Capacity in E. rewrite decide_True in E by done.
  rewrite Hnm, Hcc in E. simpl in E.
  rewrite (growth_no_wrap _ Haddr) in E.
  set (c := if decide (size_ v = 0) then 1 else size_ v * 2) in *.
  assert (size_ v < c) as Hc by apply growth_more.
  assert (slots c = c) as Hslots.
  { apply slots_addressable. unfold c. by rewrite growth_formula. }
  rewrite bind_assoc, bind_unfold in E.
  destruct (RawMemory_new c s) as [s2 r2] eqn:Enew.
  apply RawMemory_new_inv in Enew. rewrite Hslots in Enew.
  destruct r2 as [d|e2|f2]; [|done..].
  destruct Enew as [Hcapd [(Hn0 & _) | (_ & Hav & nb & Hd & Hnb & ->)]]; [lia|].
  change (with_avail (avail s - c)
            (with_heap (<[nb:=replicate c None]> (heap s)) s))
    with (with_new_block nb c (avail s - c) s) in *.
  assert (RawMemory_GetAddress d = Ptr (Some nb) 0) as Hdp.
  { unfold RawMemory_GetAddress. by rewrite Hd. }
  rewrite Hdp in E. change (Ptr (Some nb) 0 +ₚ size_ v)
    with (Ptr (Some nb) (size_ v)) in E.
  rewrite bind_assoc, bind_unfold in E. unfold on_throw in E.
  rewrite bind_unfold in E.
  destruct (construct_at _ a _) as [s6 r6] eqn:Ector.
  apply (construct_at_new_block a s nb c _ _ _ _ Hnb) in Ector
    as (s1 & r1 & E1 & Hr1).
  destruct (construct_value_frame _ _ _ _ E1) as (Ho1 & Ha1 & Hl1 & Hdom1 & _).
  assert (heap s1 !! nb = None) as Hnb1.
  { apply not_elem_of_dom. rewrite Hdom1. by apply not_elem_of_dom. }
  destruct r1 as [x|e1|f1]; [| |by apply construct_value_no_fault in E1].
  2:{ (* the constructor of the new element threw *)
      destruct Hr1 as [-> M6].
      destruct (release_block d nb (replicate c None) (heap s1) (avail s)
                  (objs s1) (leaked s1) s6 Hd Hnb1) as (s5 & Edel & _).
      { by rewrite length_replicate. }
      { by rewrite M6, length_replicate. }
      by rewrite Edel in E. }
  rewrite decide_True in Hr1 by done. destruct Hr1 as [-> M6].
  destruct (holds_construct_value _ _ _ _ v xs E1 Hholds)
    as (xs' & (Hsize & Hcap & Hblk) & Hlen & _).
  rewrite new_block_with_element in M6 by done.
  apply mem_components in M6 as (Hh6 & Ha6 & Ho6 & Hl6).
  simpl in Hh6, Ha6, Ho6, Hl6.
  set (suf := Some x :: replicate (c - S (size_ v)) None) in *.
  assert (objs s6 !! this = Some v) as Hv6 by congruence.
  rewrite bind_unfold in E. unfold uninitialized_copy_n in E.
  destruct (buffer_ (data_ v)) as [b|] eqn:Hb.
  - assert (b ≠ nb) as Hne by congruence.
    unfold RawMemory_GetAddress in E. rewrite Hb in E.
    destruct (uninitialized_copy_from 0 (size_ v) (Ptr (Some b) 0)
                (Ptr (Some nb) 0) s6) as [s7 r7] eqn:Er.
    apply (uninitialized_copy_from_spec (size_ v) 0 s6 b nb
             (block_with (capacity_ (data_ v)) xs') [] xs' suf) in Er;
      [ | congruence
        | rewrite Hh6, lookup_insert_ne; [exact Hblk | congruence]
        | rewrite Hsize; unfold block_with; rewrite drop_0;
          by rewrite take_app_length' by by rewrite length_fmap
        | done
        | done
        | by rewrite Hh6, lookup_insert_eq ].
    destruct r7 as [[]|e7|f7]; [| |done].
    + destruct Er as (ys & Hys & M7).
      apply mem_components in M7 as (Hh7 & Ha7 & Ho7 & Hl7).
      assert (length ys = length xs') as Hlen'
        by (symmetry; by eapply Forall2_length).
      destruct (destroy_n_Some (size_ v) s7 b [] xs'
                  (replicate (capacity_ (data_ v) - length xs') None))
        as (s8 & E8 & M8); [done | |].
      { rewrite Hh7, lookup_insert_ne by done.
        rewrite Hh6, lookup_insert_ne by done. exact Hblk. }
      apply mem_components in M8 as (Hh8 & Ha8 & Ho8 & Hl8).
      simpl in E8. rewrite E8 in E. simpl in E.
      assert (objs s8 !! this = Some v) as Hv8 by congruence.
      rewrite bind_assoc, (bind_Ok _ _ _ _ _ (set_data_Some _ _ _ _ Hv8)) in E.
      rewrite bind_assoc in E.
      erewrite (bind_Ok (RawMemory_delete _)) in E; last first.
      { apply (RawMemory_delete_Some _ b); [reflexivity|].
        simpl. rewrite Hh8. apply lookup_insert_eq. }
      erewrite bind_Ok in E; [|reflexivity].
      erewrite bind_Ok in E;
        [|apply set_size_Some; simpl; apply lookup_insert_eq].
      done.
    + destruct Er as [_ M7]. simpl in M7.
      rewrite Hh6, Ha6, Ho6, Hl6, insert_insert_eq in M7.
      destruct (release_block d nb (replicate (size_ v) None ++ suf)
                  (heap s1) (avail s) (objs s1) (leaked s1) s7 Hd Hnb1)
        as (s5 & Edel & _).
      { unfold suf. rewrite length_app, length_replicate. simpl.
        rewrite length_replicate. lia. }
      { rewrite M7. repeat f_equal. unfold suf.
        rewrite length_app, length_replicate. simpl.
        rewrite length_replicate. lia. }
      by rewrite Edel in E.
  - assert (size_ v = 0) as Hz by lia. rewrite Hz in E. simpl in E.
    rewrite bind_assoc, (bind_Ok _ _ _ _ _ (set_data_Some _ _ _ _ Hv6)) in E.
    rewrite bind_assoc in E.
    erewrite (bind_Ok (RawMemory_delete _)) in E;
      [|by apply RawMemory_delete_null].
    erewrite bind_Ok in E; [|reflexivity].
    erewrite bind_Ok in E;
      [|apply set_size_Some; simpl; apply lookup_insert_eq].
    done.
Qed.


(** ** Relocation by move *)

Lemma move_construct_at_inv dst src s x s' r :
  slot s src = Some (Some x) →
  slot s dst = Some None →
  src ≠ dst →
  block dst ≠ block src →
  move_construct_at dst src s = (s', r) →
  match r with
  | Ok _ => ∃ y m, (move_construct x (world s)).2 = Some (y, m) ∧
                   mem s' = mem (set_slot dst (Some y)
                                   (set_slot src (Some m) s))
  | _ => (move_construct x (world s)).2 = None
  end.
Proof.
  intros Hsrc Hdst Hne Hblk E. unfold move_construct_at in E.
  rewrite (bind_Ok _ _ _ _ _ (load_Some _ _ _ Hsrc)), bind_unfold in E.
  destruct (elem_op _ _ _ s) as [s1 r1] eqn:E1.
  apply elem_op_inv in E1 as [M1 Hr1].
  destruct r1 as [[y m]|e|f].
  - simpl in E. rewrite (bind_Ok _ _ _ _ _ (store_Some _ _ m x
      ltac:(by rewrite (slot_mem _ _ _ M1)))) in E.
    rewrite place_raw in E.
    + inversion E; subst s' r. exists y, m. split; [done|].
      by apply mem_set_slot_cong, mem_set_slot_cong.
    + rewrite <- Hdst. transitivity (slot s1 dst); [|by apply slot_mem].
      unfold slot, set_slot. destruct (block src) as [bs|]; [|done].
      destruct (block dst) as [bd|]; [|done]. simpl.
      rewrite lookup_alter_ne; [done | congruence].
  - inversion E; subst s' r. by destruct Hr1 as (_ & _ & ?).
  - inversion E; subst s' r. by destruct Hr1 as (_ & _ & ?).
Qed.

(** [std::uninitialized_move_n] from block [b] to block [nb], at the point
    where [k] elements are done and [n] are left. *)
Lemma uninitialized_move_from_spec n :
  ∀ k s b nb gone done todo srest suf s' r,
  b ≠ nb →
  heap s !! b = Some ((Some <$> gone) ++ (Some <$> todo) ++ srest) →
  length gone = k →
  length todo = n →
  length done = k →
  heap s !! nb = Some ((Some <$> done) ++ replicate n None ++ suf) →
  uninitialized_move_from k n (Ptr (Some b) 0) (Ptr (Some nb) 0) s = (s', r) →
  match r with
  | Ok _ =>
      ∃ ys ms, Forall2 move_of todo ys ∧ length ms = n ∧
        mem s' = (<[nb := (Some <$> (done ++ ys)) ++ suf]>
                    (<[b := (Some <$> (gone ++ ms)) ++ srest]> (heap s)),
                  avail s, objs s, leaked s)
  | _ => ∃ x w, x ∈ todo ∧ (move_construct x w).2 = None
  end.
Proof.
  induction n as [|n IH];
    intros k s b nb gone done todo srest suf s' r Hne Hb Hgone Hlen Hk Hnb E.
  - simpl in E. inversion E; subst s' r. destruct todo; [|done].
    exists [], []. split; [constructor|]. split; [done|]. simpl in *.
    unfold mem. rewrite !app_nil_r.
    rewrite (insert_id (heap s) b) by done. by rewrite insert_id.
  - destruct todo as [|x todo]; [done|]. simpl in Hlen.
    cbn [uninitialized_move_from] in E.
    change (Ptr (Some nb) 0 +ₚ k) with (Ptr (Some nb) k) in E.
    change (Ptr (Some b) 0 +ₚ k) with (Ptr (Some b) k) in E.
    rewrite bind_unfold in E. unfold on_throw in E.
    destruct (move_construct_at _ _ s) as [s1 r1] eqn:E1.
    apply (move_construct_at_inv _ _ _ x) in E1.
    2:{ rewrite slot_lookup, Hb. simpl.
        rewrite lookup_app_r; rewrite length_fmap; [|lia].
        by rewrite Hgone, Nat.sub_diag. }
    2:{ rewrite slot_lookup, Hnb. simpl.
        rewrite lookup_app_r; rewrite length_fmap; [|lia].
        by rewrite Hk, Nat.sub_diag. }
    2:{ congruence. }
    2:{ simpl. congruence. }
    destruct r1 as [[]|e|f].
    + destruct E1 as (y & m & Hy & M1).
      assert (mem s1 =
        (<[nb := (Some <$> (done ++ [y])) ++ replicate n None ++ suf]>
           (<[b := (Some <$> (gone ++ [m])) ++ (Some <$> todo) ++ srest]>
              (heap s)), avail s, objs s, leaked s)) as M1'.
      { rewrite M1.
        pose proof (mem_set_slot b k (Some m) s _ Hb) as Mmid.
        apply mem_components in Mmid as (Hhm & Ham & Hom & Hlm).
        set (smid := set_slot (Ptr (Some b) k) (Some m) s) in *.
        rewrite (mem_set_slot nb k (Some y) smid
                   ((Some <$> done) ++ replicate (S n) None ++ suf))
          by by rewrite Hhm, lookup_insert_ne.
        rewrite Hhm, Ham, Hom, Hlm.
        assert (<[k:=Some y]> ((Some <$> done) ++ replicate (S n) None ++ suf)
                = (Some <$> (done ++ [y])) ++ replicate n None ++ suf) as ->.
        { rewrite insert_app_r_alt; rewrite length_fmap; [|lia].
          rewrite Hk, Nat.sub_diag, fmap_app. simpl. by rewrite <- app_assoc. }
        assert (<[k:=Some m]>
                  ((Some <$> gone) ++ (Some <$> x :: todo) ++ srest)
                = (Some <$> (gone ++ [m])) ++ (Some <$> todo) ++ srest) as ->.
        { rewrite insert_app_r_alt; rewrite length_fmap; [|lia].
          rewrite Hgone, Nat.sub_diag, fmap_app. simpl.
          by rewrite <- app_assoc. }
        done. }
      injection M1' as Hh1 Ha1 Ho1 Hl1.
      specialize (IH (S k) s1 b nb (gone ++ [m]) (done ++ [y]) todo srest suf
                    s' r Hne).
      assert (heap s1 !! b
              = Some ((Some <$> (gone ++ [m])) ++ (Some <$> todo) ++ srest))
        as Hb1.
      { rewrite Hh1, lookup_insert_ne by done. apply lookup_insert_eq. }
      assert (heap s1 !! nb
              = Some ((Some <$> (done ++ [y])) ++ replicate n None ++ suf))
        as Hnb1.
      { rewrite Hh1. apply lookup_insert_eq. }
      specialize (IH Hb1).
      rewrite !length_app in IH. simpl in IH.
      specialize (IH ltac:(lia) ltac:(lia) ltac:(lia) Hnb1 E).
      revert IH. destruct r as [[]|e|f].
      * intros (ys & ms & Hys & Hms & M).
        exists (y :: ys), (m :: ms). split_and!.
        -- constructor; [by exists (world s), m | done].
        -- simpl. lia.
        -- rewrite M, Hh1, Ha1, Ho1, Hl1.
           rewrite (insert_insert_ne _ b nb) by done.
           rewrite !insert_insert_eq.
           by rewrite <- !app_assoc.
      * intros (x' & w & Hx' & Hw). exists x', w. split; [by right|done].
      * intros (x' & w & Hx' & Hw). exists x', w. split; [by right|done].
    + assert (∃ x0 w, x0 ∈ x :: todo ∧ (move_construct x0 w).2 = None) as Hbad.
      { exists x, (world s). split; [by left | done]. }
      destruct (destroy_n _ _ s1) as [s2 [[]|e2|f2]]; by inversion E; subst.
    + inversion E; subst. exists x, (world s). split; [by left | done].
Qed.

(** ** Appending values of a regular element type

    The element type copies and moves faithfully and without failure: the
    new object has the value of the source. *)

Section Regular.
Hypothesis copy_ok : ∀ x w, (copy_construct x w).2 = Some x.
Hypothesis move_ok : ∀ x w, ∃ m, (move_construct x w).2 = Some (x, m).

Lemma construct_value_pushed rv x s :
  ∃ s1, construct_value (pushed rv x) s = (s1, Ok x) ∧ mem s1 = mem s.
Proof.
  destruct rv; simpl.
  - rewrite bind_unfold. destruct (elem_op _ _ _ s) as [s1 r1] eqn:E1.
    apply elem_op_inv in E1 as [M1 Hr1].
    destruct (move_ok x (world s)) as [m Hm]. rewrite Hm in Hr1.
    destruct r1 as [[y m']|e|f]; [|by destruct Hr1 as (_ & _ & ?)..].
    injection Hr1 as -> ->. by exists s1.
  - destruct (elem_op _ _ _ s) as [s1 r1] eqn:E1.
    apply elem_op_inv in E1 as [M1 Hr1]. rewrite copy_ok in Hr1.
    destruct r1 as [y|e|f]; [|by destruct Hr1 as (_ & _ & ?)..].
    injection Hr1 as ->. by exists s1.
Qed.

Lemma construct_at_pushed p rv x s :
  slot s p = Some None →
  ∃ s1, construct_at p (pushed rv x) s = (s1, Ok tt) ∧
        mem s1 = mem (set_slot p (Some x) s).
Proof.
  intros Hp. destruct (construct_value_pushed rv x s) as (s0 & E0 & M0).
  eexists. split.
  - unfold construct_at. rewrite (bind_Ok _ _ _ _ _ E0).
    apply place_raw. by rewrite (slot_mem _ _ _ M0).
  - by apply mem_set_slot_cong.
Qed.

Lemma Forall2_copy_of_eq xs ys : Forall2 copy_of xs ys → ys = xs.
Proof.
  induction 1 as [|x y xs ys [w Hw] _ IH]; [done|].
  rewrite copy_ok in Hw. injection Hw as ->. by rewrite IH.
Qed.

Lemma Forall2_move_of_eq xs ys : Forall2 move_of xs ys → ys = xs.
Proof.
  induction 1 as [|x y xs ys (w & m & Hw) _ IH]; [done|].
  destruct (move_ok x w) as [m' Hm']. rewrite Hm' in Hw.
  injection Hw as -> _. by rewrite IH.
Qed.

(** The relocation of all the elements of a full buffer [b] into the first
    slots of a new buffer [nb]: every element arrives, and the old buffer
    still holds as many objects. *)
Lemma relocation_Ok s b nb xs suf :
  b ≠ nb →
  heap s !! b = Some (Some <$> xs) →
  heap s !! nb = Some (replicate (length xs) None ++ suf) →
  ∃ s' ms,
    (if nothrow_move_constructible || negb copy_constructible
     then uninitialized_move_n (Ptr (Some b) 0) (length xs) (Ptr (Some nb) 0)
     else uninitialized_copy_n (Ptr (Some b) 0) (length xs) (Ptr (Some nb) 0))
      s = (s', Ok tt) ∧
    length ms = length xs ∧
    mem s' = (<[nb := (Some <$> xs) ++ suf]> (<[b := Some <$> ms]> (heap s)),
              avail s, objs s, leaked s).
Proof.
  intros Hne Hb Hnb.
  destruct (nothrow_move_constructible || negb copy_constructible).
  - destruct (uninitialized_move_n (Ptr (Some b) 0) (length xs)
                (Ptr (Some nb) 0) s) as [s' r] eqn:E.
    apply (uninitialized_move_from_spec (length xs) 0 s b nb [] [] xs [] suf)
      in E; [|done| by rewrite app_nil_r |done..].
    destruct r as [[]|e|f].
    + destruct E as (ys & ms & Hys & Hms & M).
      apply Forall2_move_of_eq in Hys as ->.
      exists s', ms. split_and!; [done..|]. simpl in M.
      by rewrite app_nil_r in M.
    + destruct E as (x & w & _ & Hw). destruct (move_ok x w) as [m Hm].
      congruence.
    + destruct E as (x & w & _ & Hw). destruct (move_ok x w) as [m Hm].
      congruence.
  - destruct (uninitialized_copy_n (Ptr (Some b) 0) (length xs)
                (Ptr (Some nb) 0) s) as [s' r] eqn:E.
    apply (uninitialized_copy_from_spec (length xs) 0 s b nb
             (Some <$> xs) [] xs suf) in E;
      [|done|done| |done..].
    2:{ rewrite drop_0. apply take_ge. by rewrite length_fmap. }
    destruct r as [[]|e|f]; [| |done].
    + destruct E as (ys & Hys & M).
      apply Forall2_copy_of_eq in Hys as ->.
      exists s', xs. split_and!; [done..|]. simpl in M.
      by rewrite (insert_id (heap s) b).
    + destruct E as ((x & w & _ & Hw) & _). rewrite copy_ok in Hw. done.
Qed.

Lemma RawMemory_new_Ok n s :
  n ≠ 0 → slots n = n → n ≤ avail s →
  RawMemory_new n s =
    (with_avail (avail s - n)
       (with_heap (<[fresh (dom (heap s)) := replicate n None]> (heap s)) s),
     Ok {| buffer_ := Some (fresh (dom (heap s))); capacity_ := n |}).
Proof.
  intros Hn Hs Hle. unfold RawMemory_new, Allocate, operator_new.
  rewrite bind_unfold. change (room (byte_count n)) with (slots n).
  rewrite Hs, decide_True by done. rewrite bind_unfold.
  by rewrite decide_True.
Qed.

Lemma block_with_snoc capacity xs (x : T) :
  length xs < capacity →
  <[length xs := Some x]> (block_with capacity xs)
    = block_with capacity (xs ++ [x]).
Proof.
  intros Hlt. unfold block_with.
  rewrite insert_app_r_alt; rewrite length_fmap; [|lia].
  rewrite Nat.sub_diag, length_app, fmap_app, <- app_assoc. simpl.
  replace (capacity - length xs) with (S (capacity - (length xs + 1))) by lia.
  done.
Qed.

Lemma block_with_full xs : block_with (length xs) xs = Some <$> xs.
Proof. unfold block_with. by rewrite Nat.sub_diag, app_nil_r. Qed.

Lemma block_with_lookup capacity xs i :
  length xs ≤ i < capacity → block_with capacity xs !! i = Some None.
Proof.
  intros Hi. unfold block_with.
  rewrite lookup_app_r; rewrite length_fmap; [|lia].
  apply lookup_replicate_2. lia.
Qed.

Lemma block_with_lookup_Some capacity xs i x :
  xs !! i = Some x → block_with capacity xs !! i = Some (Some x).
Proof.
  intros Hi. unfold block_with.
  rewrite lookup_app_l by (rewrite length_fmap; by eapply lookup_lt_Some).
  by rewrite list_lookup_fmap, Hi.
Qed.

(** One EmplaceBack of a value: it returns, and the vector holds one more
    element, that value. *)
Lemma EmplaceBack_step this total rv x xs s :
  vector_with this total xs s →
  3 * (length xs + 1) ≤ total →
  addressable (2 * (length xs + 1)) →
  ∃ s' p, Vector_EmplaceBack this (pushed rv x) s = (s', Ok p) ∧
          vector_with this total (xs ++ [x]) s'.
Proof.
  intros (v & Hv & (Hsize & Hcap & Hblk) & Hav) Hroom Haddr.
  unfold Vector_EmplaceBack.
  rewrite (bind_Ok _ _ _ _ _ (get_obj_Some _ _ _ Hv)).
  unfold RawMemory_Capacity. case_decide as Hfull.
  - assert (capacity_ (data_ v) = length xs) as Hcap' by lia.
    assert (addressable (1 `max` (2 * size_ v))) as Haddr'
      by (eapply addressable_le; [|exact Haddr]; lia).
    rewrite (growth_no_wrap _ Haddr').
    set (c := if decide (size_ v = 0) then 1 else size_ v * 2).
    assert (size_ v < c) as Hc by apply growth_more.
    assert (c ≤ avail s) as Hcav by (subst c; case_decide; lia).
    assert (slots c = c) as Hslots
      by (apply slots_addressable; unfold c; by rewrite growth_formula).
    rewrite bind_assoc.
    rewrite (bind_Ok _ _ _ _ _ (RawMemory_new_Ok c s ltac:(lia) Hslots Hcav)).
    set (nb := fresh (dom (heap s))).
    assert (heap s !! nb = None) as Hnb by apply not_elem_of_dom, is_fresh.
    set (s2 := with_avail (avail s - c)
                 (with_heap (<[nb:=replicate c None]> (heap s)) s)).
    change (RawMemory_GetAddress {| buffer_ := Some nb; capacity_ := c |})
      with (Ptr (Some nb) 0).
    change (Ptr (Some nb) 0 +ₚ size_ v) with (Ptr (Some nb) (size_ v)).
    destruct (construct_at_pushed (Ptr (Some nb) (size_ v)) rv x s2)
      as (s3 & E3 & M3).
    { rewrite slot_lookup. simpl. rewrite lookup_insert_eq. simpl.
      apply lookup_replicate_2. lia. }
    rewrite (mem_set_slot nb (size_ v) (Some x) s2 (replicate c None))
      in M3 by apply lookup_insert_eq.
    rewrite new_block_with_element in M3 by done.
    apply mem_components in M3 as (Hh3 & Ha3 & Ho3 & Hl3).
    simpl in Hh3, Ha3, Ho3, Hl3. rewrite insert_insert_eq in Hh3.
    set (suf := Some x :: replicate (c - S (size_ v)) None) in *.
    (* relocation, destruction of the originals, release of the old buffer *)
    assert (∃ s6,
      ((if nothrow_move_constructible || negb copy_constructible
        then uninitialized_move_n (RawMemory_GetAddress (data_ v)) (size_ v)
               (Ptr (Some nb) 0)
        else uninitialized_copy_n (RawMemory_GetAddress (data_ v)) (size_ v)
               (Ptr (Some nb) 0));;
       destroy_n (RawMemory_GetAddress (data_ v)) (size_ v)) s3 = (s6, Ok tt) ∧
      ∃ s7, RawMemory_delete (data_ v) s6 = (s7, Ok tt) ∧
        heap s7 !! nb = Some ((Some <$> xs) ++ suf) ∧
        avail s7 = avail s - c + capacity_ (data_ v) ∧
        objs s6 = objs s ∧
        ∀ o, RawMemory_delete (data_ v) (with_objs o s6) = (with_objs o s7, Ok tt))
      as (s6 & E6 & s7 & E7 & Hh7 & Ha7 & Ho6 & E7').
    { destruct (buffer_ (data_ v)) as [b|] eqn:Hbuf.
      - assert (b ≠ nb) as Hne by congruence.
        unfold RawMemory_GetAddress. rewrite Hbuf, Hsize.
        destruct (relocation_Ok s3 b nb xs suf) as (s4 & ms & E4 & Hms & M4);
          [done | | |].
        { rewrite Hh3, lookup_insert_ne by done.
          by rewrite Hblk, Hcap', block_with_full. }
        { rewrite Hh3, lookup_insert_eq. by rewrite Hsize. }
        apply mem_components in M4 as (Hh4 & Ha4 & Ho4 & Hl4).
        destruct (destroy_n_Some (length xs) s4 b [] ms []) as (s5 & E5 & M5);
          [done | |].
        { rewrite Hh4, lookup_insert_ne by done.
          rewrite lookup_insert_eq. simpl. by rewrite app_nil_r. }
        apply mem_components in M5 as (Hh5 & Ha5 & Ho5 & Hl5).
        simpl in E5, Hh5. rewrite app_nil_r in Hh5.
        exists s5. split; [by rewrite (bind_Ok _ _ _ _ _ E4)|].
        assert (heap s5 !! b = Some (replicate (length xs) None)) as Hb5.
        { rewrite Hh5. apply lookup_insert_eq. }
        eexists. split; [by apply (RawMemory_delete_Some _ b _ s5 Hbuf Hb5)|].
        simpl. split_and!.
        + rewrite lookup_delete_ne by done.
          rewrite Hh5, lookup_insert_ne by done.
          rewrite Hh4. apply lookup_insert_eq.
        + rewrite length_replicate. congruence.
        + congruence.
        + intros o.
          by rewrite (RawMemory_delete_Some (data_ v) b
                        (replicate (length xs) None) (with_objs o s5) Hbuf Hb5).
      - assert (size_ v = 0) as Hz by lia. rewrite Hz. simpl.
        assert (xs = []) as -> by (destruct xs; [done | simpl in *; lia]).
        exists s3. split.
        { by destruct (nothrow_move_constructible || negb copy_constructible). }
        exists s3. split; [by apply RawMemory_delete_null|].
        split_and!; [by rewrite Hh3, lookup_insert_eq, Hz | lia | done |].
        intros o. by apply RawMemory_delete_null. }
    rewrite bind_assoc.
    rewrite (bind_Ok _ _ _ _ _
               (on_throw_Ok _ _ _ _ _ (eq_trans (bind_Ok _ _ _ _ _ E3) E6))).
    assert (objs s6 !! this = Some v) as Hv6 by congruence.
    rewrite bind_assoc.
    rewrite (bind_Ok _ _ _ _ _ (set_data_Some _ _ _ _ Hv6)).
    rewrite bind_assoc.
    rewrite (bind_Ok _ _ _ _ _ (E7' _)).
    erewrite bind_Ok; [|reflexivity].
    erewrite bind_Ok; [|apply set_size_Some; simpl; apply lookup_insert_eq].
    eexists _, _. split; [reflexivity|]. simpl.
    eexists. split; [apply lookup_insert_eq|]. split; [|simpl; lia].
    split_and!; simpl.
    + rewrite length_app. simpl. lia.
    + rewrite length_app. simpl. lia.
    + rewrite Hh7. f_equal. unfold block_with, suf.
      rewrite fmap_app, length_app, <- app_assoc. simpl.
      by replace (c - (length xs + 1)) with (c - S (size_ v)) by lia.
  - destruct (buffer_ (data_ v)) as [b|] eqn:Hbuf; [|lia].
    unfold RawMemory_GetAddress. rewrite Hbuf.
    change (Ptr (Some b) 0 +ₚ size_ v) with (Ptr (Some b) (size_ v)).
    destruct (construct_at_pushed (Ptr (Some b) (size_ v)) rv x s)
      as (s1 & E1 & M1).
    { rewrite slot_lookup, Hblk. simpl. apply block_with_lookup. lia. }
    rewrite (mem_set_slot _ _ _ _ _ Hblk) in M1.
    apply mem_components in M1 as (Hh1 & Ha1 & Ho1 & Hl1).
    rewrite bind_assoc.
    rewrite (bind_Ok _ _ _ _ _ E1).
    erewrite bind_Ok; [|reflexivity].
    assert (objs s1 !! this = Some v) as Hv1 by congruence.
    rewrite (bind_Ok _ _ _ _ _ (set_size_Some _ _ _ _ Hv1)).
    eexists _, _. split; [reflexivity|]. simpl.
    eexists. split; [apply lookup_insert_eq|]. split; [|simpl; lia].
    split_and!; simpl.
    + rewrite length_app. simpl. lia.
    + rewrite length_app. simpl. lia.
    + rewrite Hbuf, Hh1, lookup_insert_eq. f_equal.
      rewrite Hsize. apply block_with_snoc. lia.
Qed.

Lemma PushBack_step this total rv x xs s :
  vector_with this total xs s →
  3 * (length xs + 1) ≤ total →
  addressable (2 * (length xs + 1)) →
  ∃ s', Vector_PushBack this (pushed rv x) s = (s', Ok tt) ∧
        vector_with this total (xs ++ [x]) s'.
Proof.
  intros Hs Hroom Haddr.
  destruct (EmplaceBack_step this total rv x xs s Hs Hroom Haddr)
    as (s' & p & E & Hs').
  exists s'. split; [|done]. unfold Vector_PushBack.
  by rewrite (bind_Ok _ _ _ _ _ E).
Qed.

Lemma Vector_read_holds this s v xs i x :
  objs s !! this = Some v → holds s v xs → xs !! i = Some x →
  Vector_read this i s = (s, Ok x).
Proof.
  intros Hv (Hsize & Hcap & Hblk) Hi.
  pose proof (lookup_lt_Some _ _ _ Hi) as Hlt.
  unfold Vector_read, Vector_index.
  rewrite bind_assoc, (bind_Ok _ _ _ _ _ (get_obj_Some _ _ _ Hv)).
  assert ((i <? size_ v) = true) as -> by (apply Nat.ltb_lt; lia).
  simpl. rewrite bind_assoc. erewrite bind_Ok; [|reflexivity].
  unfold RawMemory_index.
  assert ((i <? capacity_ (data_ v)) = true) as ->
    by (apply Nat.ltb_lt; lia).
  simpl. rewrite bind_assoc. erewrite bind_Ok; [|reflexivity].
  erewrite bind_Ok; [|reflexivity].
  apply load_Some. unfold slot, RawMemory_GetAddress. simpl.
  destruct (buffer_ (data_ v)) as [b|]; [|lia]. simpl. rewrite Hblk. simpl.
  by apply block_with_lookup_Some.
Qed.

Lemma Vector_Size_Some this s v :
  objs s !! this = Some v → Vector_Size this s = (s, Ok (size_ v)).
Proof.
  intros Hv. unfold Vector_Size.
  by rewrite (bind_Ok _ _ _ _ _ (get_obj_Some _ _ _ Hv)).
Qed.

Lemma exec_all_PushBack this total (vals : list (bool * T)) : ∀ xs s,
  vector_with this total xs s →
  3 * (length xs + length vals) ≤ total →
  addressable (2 * (length xs + length vals)) →
  ∃ s', exec_all this ((λ a, call_PushBack (pushed a.1 a.2)) <$> vals) s
          = (s', Ok tt) ∧
        vector_with this total (xs ++ vals.*2) s'.
Proof.
  induction vals as [|[rv x] vals IH]; intros xs s Hs Hroom Haddr; simpl.
  - exists s. by rewrite app_nil_r.
  - destruct (PushBack_step this total rv x xs s Hs) as (s1 & E1 & Hs1);
      [simpl in Hroom; lia
      |eapply addressable_le; [|exact Haddr]; simpl; lia|].
    destruct (IH (xs ++ [x]) s1 Hs1) as (s' & E' & Hs').
    { rewrite length_app. simpl in *. lia. }
    { eapply addressable_le; [|exact Haddr]. rewrite length_app. simpl. lia. }
    exists s'. split.
    + by rewrite (bind_Ok _ _ _ _ _ E1).
    + by rewrite <- app_assoc in Hs'.
Qed.


End Regular.

(** ** Erase

    Move assignment of the element type does not fail and gives the
    destination the value of the source. *)

Section RegularAssignment.
Hypothesis move_assign_ok :
  ∀ d x w, ∃ m, (move_assign d x w).2 = Some (x, m).

Lemma elem_op_Some {A} ev ne (op : W → W * option A) s a :
  (op (world s)).2 = Some a →
  ∃ s1, elem_op ev ne op s = (s1, Ok a) ∧ mem s1 = mem s.
Proof.
  intros Ha. unfold elem_op. destruct (op (world s)) as [w r]. simpl in Ha.
  subst r. by eexists.
Qed.

Lemma ptr_succ (b : option nat) j : Ptr b j +ₚ 1 = Ptr b (S j).
Proof. unfold ptr_add. simpl. f_equal. lia. Qed.

(** One move assignment inside a block, from slot [j + 1] to slot [j]. *)
Lemma move_assign_at_next b j s pre d x rest :
  length pre = j →
  heap s !! b = Some (pre ++ Some d :: Some x :: rest) →
  ∃ s' m, move_assign_at (Ptr (Some b) j) (Ptr (Some b) (S j)) s = (s', Ok tt) ∧
          mem s' = (<[b := pre ++ Some x :: Some m :: rest]> (heap s),
                    avail s, objs s, leaked s).
Proof.
  intros Hj Hb. unfold move_assign_at.
  assert (slot s (Ptr (Some b) j) = Some (Some d)) as Hd.
  { rewrite slot_lookup, Hb. simpl.
    by rewrite lookup_app_r, Hj, Nat.sub_diag by lia. }
  assert (slot s (Ptr (Some b) (S j)) = Some (Some x)) as Hx.
  { rewrite slot_lookup, Hb. simpl. rewrite lookup_app_r by lia.
    by replace (S j - length pre) with 1 by lia. }
  rewrite (bind_Ok _ _ _ _ _ (load_Some _ _ _ Hd)).
  rewrite (bind_Ok _ _ _ _ _ (load_Some _ _ _ Hx)).
  destruct (move_assign_ok d x (world s)) as [m Hm].
  destruct (elem_op_Some ev_move_assign false (move_assign d x) s (x, m) Hm)
    as (s1 & E1 & M1).
  rewrite (bind_Ok _ _ _ _ _ E1). simpl.
  rewrite (bind_Ok _ _ _ _ _ (store_Some _ s1 m x
             ltac:(by rewrite (slot_mem _ _ _ M1)))).
  pose proof (mem_set_slot_cong (Ptr (Some b) (S j)) (Some m) s s1 M1) as M2.
  rewrite (mem_set_slot _ _ _ _ _ Hb) in M2.
  assert (<[S j:=Some m]> (pre ++ Some d :: Some x :: rest)
          = pre ++ Some d :: Some m :: rest) as Hblk2.
  { rewrite insert_app_r_alt by lia.
    by replace (S j - length pre) with 1 by lia. }
  rewrite Hblk2 in M2. apply mem_components in M2 as (Hh2 & Ha2 & Ho2 & Hl2).
  set (s2 := set_slot (Ptr (Some b) (S j)) (Some m) s1) in *.
  assert (heap s2 !! b = Some (pre ++ Some d :: Some m :: rest)) as Hb2.
  { rewrite Hh2. apply lookup_insert_eq. }
  exists (set_slot (Ptr (Some b) j) (Some x) s2), m. split.
  - apply (store_Some _ s2 x d). rewrite slot_lookup, Hb2. simpl.
    by rewrite lookup_app_r, Hj, Nat.sub_diag by lia.
  - rewrite (mem_set_slot _ _ _ _ _ Hb2), Hh2, Ha2, Ho2, Hl2.
    rewrite insert_insert_eq. repeat f_equal.
    rewrite insert_app_r_alt by lia. by rewrite Hj, Nat.sub_diag.
Qed.

(** [std::move] of the run that follows slot [j] onto the run that starts at
    slot [j]: every element moves one slot down, and the last slot of the
    run keeps some object. *)
Lemma std_move_down b todo : ∀ j s pre d rest,
  length pre = j →
  heap s !! b = Some (pre ++ Some d :: (Some <$> todo) ++ rest) →
  ∃ s' m, std_move (Ptr (Some b) (S j)) (length todo) (Ptr (Some b) j) s
            = (s', Ok tt) ∧
          mem s' = (<[b := pre ++ (Some <$> todo) ++ Some m :: rest]> (heap s),
                    avail s, objs s, leaked s).
Proof.
  induction todo as [|x todo IH]; intros j s pre d rest Hj Hb.
  - exists s, d. split; [done|]. unfold mem. simpl in *.
    by rewrite insert_id.
  - simpl in Hb.
    destruct (move_assign_at_next b j s pre d x ((Some <$> todo) ++ rest) Hj Hb)
      as (s1 & m & E1 & M1).
    apply mem_components in M1 as (Hh1 & Ha1 & Ho1 & Hl1).
    destruct (IH (S j) s1 (pre ++ [Some x]) m rest) as (s' & m' & E' & M').
    { rewrite length_app. simpl. lia. }
    { rewrite Hh1, lookup_insert_eq. by rewrite <- app_assoc. }
    exists s', m'. split.
    + simpl. rewrite (bind_Ok _ _ _ _ _ E1). rewrite !ptr_succ. exact E'.
    + rewrite M', Hh1, Ha1, Ho1, Hl1, insert_insert_eq.
      by rewrite <- app_assoc.
Qed.

Lemma block_with_delete capacity xs i (x m : T) :
  xs !! i = Some x →
  length xs ≤ capacity →
  (Some <$> take i xs) ++ (Some <$> drop (S i) xs)
     ++ None :: replicate (capacity - length xs) None
    = block_with capacity (delete i xs).
Proof.
  intros Hi Hcap. pose proof (lookup_lt_Some _ _ _ Hi) as Hlt.
  unfold block_with. rewrite delete_take_drop, fmap_app, <- app_assoc.
  do 2 f_equal. rewrite length_app, length_take, length_drop.
  by replace (capacity - (i `min` length xs + (length xs - S i)))
    with (S (capacity - length xs)) by lia.
Qed.

(** C6.  Take an element type whose move assignment does not fail and gives
    the destination the value of the source, a vector holding [xs] and an
    index [i] below its length.  Erase at the position of index [i] returns
    normally; the length decreases by exactly 1 and the buffer stays; the
    elements before [i] are unchanged and each element that was at an index
    [j > i] is at index [j - 1]; the iterator returned is the position of
    index [i], which is [end()] exactly when the last element was erased. *)
Theorem Erase_shifts_tail_left this s v xs i :
  objs s !! this = Some v →
  holds s v xs →
  i < length xs →
  let pos := RawMemory_GetAddress (data_ v) +ₚ i in
  ∃ s' v',
    Vector_Erase this pos s = (s', Ok pos) ∧
    objs s' !! this = Some v' ∧
    holds s' v' (delete i xs) ∧
    size_ v' = size_ v - 1 ∧
    data_ v' = data_ v ∧
    elements s' this = Some (delete i xs) ∧
    (∀ j x, j < i → xs !! j = Some x → Vector_read this j s' = (s', Ok x)) ∧
    (∀ j x, i < j → xs !! j = Some x →
            Vector_read this (j - 1) s' = (s', Ok x)) ∧
    (Vector_end this s' = (s', Ok pos) ↔ i = length xs - 1).
Proof.
  intros Hv (Hsize & Hcap & Hblk) Hi pos.
  destruct (buffer_ (data_ v)) as [b|] eqn:Hbuf; [|lia].
  destruct (lookup_lt_is_Some_2 xs i Hi) as [xi Hxi].
  assert (RawMemory_GetAddress (data_ v) = Ptr (Some b) 0) as Haddr.
  { unfold RawMemory_GetAddress. by rewrite Hbuf. }
  assert (pos = Ptr (Some b) i) as Hpos.
  { unfold pos. by rewrite Haddr. }
  set (pre := Some <$> take i xs).
  set (todo := drop (S i) xs).
  set (raws := replicate (capacity_ (data_ v) - length xs) (@None T)).
  assert (length pre = i) as Hpre.
  { unfold pre. rewrite length_fmap, length_take. lia. }
  assert (length todo = length xs - S i) as Htodo
    by (unfold todo; by rewrite length_drop).
  assert (heap s !! b = Some (pre ++ Some xi :: (Some <$> todo) ++ raws))
    as Hb.
  { rewrite Hblk. f_equal. unfold block_with, pre, todo, raws.
    rewrite <- (take_drop_middle xs i xi Hxi) at 1.
    rewrite fmap_app, <- app_assoc. by rewrite fmap_cons. }
  destruct (std_move_down b todo i s pre xi raws Hpre Hb)
    as (s1 & m & E1 & M1).
  apply mem_components in M1 as (Hh1 & Ha1 & Ho1 & Hl1).
  assert (objs s1 !! this = Some v) as Hv1 by congruence.
  set (v' := {| data_ := data_ v; size_ := size_ v - 1 |}).
  set (s2 := with_objs (<[this := v']> (objs s1)) s1).
  assert (heap s2 !! b = Some ((pre ++ (Some <$> todo)) ++ Some m :: raws))
    as Hb2.
  { simpl. rewrite Hh1, lookup_insert_eq. by rewrite <- app_assoc. }
  destruct (destroy_at_Some (Ptr (Some b) (size_ v - 1)) s2 m) as (s3 & E3 & M3).
  { rewrite slot_lookup, Hb2. simpl.
    rewrite lookup_app_r; rewrite length_app, length_fmap; [|lia].
    by replace (size_ v - 1 - (length pre + length todo)) with 0 by lia. }
  rewrite (mem_set_slot _ _ _ _ _ Hb2) in M3.
  apply mem_components in M3 as (Hh3 & Ha3 & Ho3 & Hl3).
  simpl in Hh3, Ha3, Ho3, Hl3.
  assert (objs s3 !! this = Some v') as Hv3.
  { rewrite Ho3. apply lookup_insert_eq. }
  assert (holds s3 v' (delete i xs)) as Hholds.
  { split_and!; simpl.
    - rewrite length_delete by eauto. lia.
    - rewrite length_delete by eauto. lia.
    - rewrite Hbuf, Hh3, lookup_insert_eq. f_equal.
      rewrite insert_app_r_alt; rewrite length_app, length_fmap; [|lia].
      replace (size_ v - 1 - (length pre + length todo)) with 0 by lia.
      simpl. rewrite <- app_assoc. by apply (block_with_delete _ _ _ xi m). }
  exists s3, v'. split_and!; try done.
  - unfold Vector_Erase.
    rewrite (bind_Ok _ _ _ _ _ (Vector_begin_Some _ _ _ Hv)).
    rewrite (bind_Ok _ _ _ _ _ (Vector_end_Some _ _ _ Hv)).
    rewrite Haddr, Hpos.
    assert (ptr_le (Ptr (Some b) 0) (Ptr (Some b) i)
            && ptr_lt (Ptr (Some b) i) (Ptr (Some b) 0 +ₚ size_ v) = true)
      as ->.
    { unfold ptr_le, ptr_lt. simpl. rewrite !bool_decide_eq_true_2 by done.
      simpl. apply Nat.ltb_lt. lia. }
    simpl. erewrite bind_Ok; [|reflexivity].
    rewrite Nat.sub_0_r.
    replace (Ptr (Some b) 0 +ₚ i +ₚ 1) with (Ptr (Some b) (S i))
      by (unfold ptr_add; simpl; f_equal; lia).
    change (Ptr (Some b) 0 +ₚ i) with (Ptr (Some b) i).
    replace (size_ v - (i + 1)) with (length todo) by lia.
    rewrite (bind_Ok _ _ _ _ _ E1).
    unfold Vector_PopBack.
    rewrite bind_assoc, (bind_Ok _ _ _ _ _ (get_obj_Some _ _ _ Hv1)).
    rewrite decide_True by lia.
    rewrite !bind_assoc.
    rewrite (bind_Ok _ _ _ _ _ (set_size_Some _ _ _ _ Hv1)).
    rewrite Haddr.
    change (Ptr (Some b) 0 +ₚ (size_ v - 1)) with (Ptr (Some b) (size_ v - 1)).
    fold v' s2. rewrite (bind_Ok _ _ _ _ _ E3).
    rewrite (bind_Ok _ _ _ _ _ (Vector_begin_Some _ _ _ Hv3)).
    simpl. by rewrite Haddr.
  - by apply (holds_elements this s3 v').
  - intros j x Hj Hx. apply (Vector_read_holds this s3 v' (delete i xs));
      [done..|]. by rewrite list_lookup_delete_lt.
  - intros j x Hj Hx. apply (Vector_read_holds this s3 v' (delete i xs));
      [done..|]. rewrite list_lookup_delete_ge by lia.
    by replace (S (j - 1)) with j by lia.
  - rewrite (Vector_end_Some _ _ _ Hv3), Hpos.
    change (data_ v') with (data_ v). rewrite Haddr.
    unfold ptr_add. simpl. split.
    + intros E. injection E as E. lia.
    + intros ->. do 3 f_equal. lia.
Qed.

End RegularAssignment.

(** * The remaining member functions *)

(** ** PopBack and the destructor *)

Tactic Notation "step" uconstr(E) :=
  rewrite ?bind_assoc, (bind_Ok _ _ _ _ _ E).

Lemma ptr_at (b : option nat) i k : Ptr b i +ₚ k = Ptr b (i + k).
Proof. done. Qed.

Lemma GetAddress_Some r b :
  buffer_ r = Some b → RawMemory_GetAddress r = Ptr (Some b) 0.
Proof. unfold RawMemory_GetAddress. by intros ->. Qed.

Lemma block_with_last capacity xs (x : T) :
  length xs < capacity →
  <[length xs := None]> (block_with capacity (xs ++ [x]))
    = block_with capacity xs.
Proof.
  intros Hlt. rewrite <- block_with_snoc by done.
  rewrite list_insert_insert_eq. apply list_insert_id.
  apply block_with_lookup. lia.
Qed.

(** PopBack on a vector whose last element is [x]. *)
Lemma PopBack_last this s v b ys x :
  objs s !! this = Some v →
  buffer_ (data_ v) = Some b →
  size_ v = length ys + 1 →
  length ys + 1 ≤ capacity_ (data_ v) →
  heap s !! b = Some (block_with (capacity_ (data_ v)) (ys ++ [x])) →
  ∃ s',
    Vector_PopBack this s = (s', Ok tt) ∧
    mem s' = (<[b := block_with (capacity_ (data_ v)) ys]> (heap s), avail s,
              <[this := {| data_ := data_ v; size_ := size_ v - 1 |}]> (objs s),
              leaked s) ∧
    world s' = destroy x (world s) ∧
    trace s' = trace s ++ [ev_destroy].
Proof.
  intros Hv Hbuf Hsize Hcap Hblk. unfold Vector_PopBack.
  step (get_obj_Some _ _ _ Hv). rewrite decide_True by lia.
  step (set_size_Some _ _ _ _ Hv).
  set (v' := {| data_ := data_ v; size_ := size_ v - 1 |}).
  set (s1 := with_objs (<[this := v']> (objs s)) s).
  rewrite (GetAddress_Some _ _ Hbuf), ptr_at. simpl.
  replace (size_ v - 1) with (length ys) by lia.
  assert (heap s1 !! b = Some (block_with (capacity_ (data_ v)) (ys ++ [x])))
    as Hb1 by done.
  assert (slot s1 (Ptr (Some b) (length ys)) = Some (Some x)) as Hx.
  { rewrite slot_lookup, Hb1. simpl. apply block_with_lookup_Some.
    by rewrite lookup_app_r, Nat.sub_diag by lia. }
  unfold destroy_at. step (load_Some _ _ _ Hx).
  eexists. split; [reflexivity|]. split; [|done].
  change (mem (set_slot (Ptr (Some b) (length ys)) None s1)
          = (<[b:=block_with (capacity_ (data_ v)) ys]> (heap s), avail s,
             <[this:=v']> (objs s), leaked s)).
  rewrite (mem_set_slot _ _ _ _ _ Hb1). simpl.
  by rewrite block_with_last by lia.
Qed.

Lemma PopBack_Ok this s v xs :
  objs s !! this = Some v →
  holds s v xs →
  ∃ s' v',
    Vector_PopBack this s = (s', Ok tt) ∧
    objs s' !! this = Some v' ∧
    data_ v' = data_ v ∧
    holds s' v' (take (length xs - 1) xs) ∧
    avail s' = avail s ∧
    leaked s' = leaked s ∧
    match last xs with
    | None => s' = s
    | Some x => world s' = destroy x (world s) ∧
                trace s' = trace s ++ [ev_destroy]
    end.
Proof.
  intros Hv (Hsize & Hcap & Hblk).
  destruct (decide (xs = [])) as [->|Hne].
  - unfold Vector_PopBack. step (get_obj_Some _ _ _ Hv).
    rewrite decide_False by (simpl in Hsize; lia).
    exists s, v. by split_and!.
  - destruct (exists_last Hne) as (ys & x & ->).
    rewrite length_app in Hsize, Hcap |- *. simpl in Hsize, Hcap |- *.
    destruct (buffer_ (data_ v)) as [b|] eqn:Hbuf; [|lia].
    destruct (PopBack_last this s v b ys x Hv Hbuf Hsize Hcap Hblk)
      as (s' & E & M & Hw & Ht).
    apply mem_components in M as (Hh & Ha & Ho & Hl).
    exists s', {| data_ := data_ v; size_ := size_ v - 1 |}.
    rewrite last_snoc.
    replace (length ys + 1 - 1) with (length ys) by lia.
    rewrite take_app_length.
    split_and!; try done.
    + rewrite Ho. apply lookup_insert_eq.
    + split_and!; simpl; [lia..|].
      rewrite Hbuf, Hh. apply lookup_insert_eq.
Qed.

(** X1.  PopBack on a well-formed vector always returns.  On an empty vector
    it changes nothing; otherwise it runs the destructor of the last element
    and of no other, drops that element, and keeps the buffer, the capacity
    and the memory provider as they are. *)
Theorem PopBack_drops_last this s v xs :
  objs s !! this = Some v →
  holds s v xs →
  ∃ s' v',
    Vector_PopBack this s = (s', Ok tt) ∧
    objs s' !! this = Some v' ∧
    data_ v' = data_ v ∧
    holds s' v' (take (length xs - 1) xs) ∧
    avail s' = avail s ∧
    leaked s' = leaked s ∧
    match last xs with
    | None => s' = s
    | Some x => world s' = destroy x (world s) ∧
                trace s' = trace s ++ [ev_destroy]
    end.
Proof. apply PopBack_Ok. Qed.

Lemma Vector_delete_Ok this s v xs :
  objs s !! this = Some v →
  holds s v xs →
  ∃ s',
    Vector_delete this s = (s', Ok tt) ∧
    objs s' = delete this (objs s) ∧
    heap s' = match buffer_ (data_ v) with
              | Some b => delete b (heap s)
              | None => heap s
              end ∧
    avail s' = avail s + capacity_ (data_ v) ∧
    leaked s' = leaked s ∧
    trace s' = trace s ++ replicate (length xs) ev_destroy.
Proof.
  intros Hv (Hsize & Hcap & Hblk). unfold Vector_delete.
  step (get_obj_Some _ _ _ Hv).
  destruct (buffer_ (data_ v)) as [b|] eqn:Hbuf.
  - unfold RawMemory_GetAddress. rewrite Hbuf, Hsize.
    destruct (destroy_n_Some (length xs) s b [] xs
                (replicate (capacity_ (data_ v) - length xs) None))
      as (s1 & E1 & M1); [done..|].
    simpl in E1, M1. pose proof (destroy_n_trace _ _ _ _ E1) as Ht1.
    apply mem_components in M1 as (Hh1 & Ha1 & Ho1 & Hl1).
    step E1.
    assert (heap s1 !! b = Some (replicate (capacity_ (data_ v)) None)) as Hb1.
    { rewrite Hh1, lookup_insert_eq. f_equal.
      rewrite <- replicate_add. f_equal. lia. }
    step (RawMemory_delete_Some _ _ _ s1 Hbuf Hb1).
    eexists. split; [reflexivity|]. simpl.
    rewrite omap_id_replicate_None, app_nil_r, length_replicate.
    split_and!; try congruence.
    rewrite Hh1. apply delete_insert_eq.
  - assert (xs = []) as -> by (destruct xs; [done | simpl in *; lia]).
    rewrite Hsize. simpl. erewrite bind_Ok; [|reflexivity].
    step (RawMemory_delete_null (data_ v) s Hbuf).
    eexists. split; [reflexivity|]. simpl.
    rewrite app_nil_r. split_and!; try done. lia.
Qed.

(** X2.  The destructor of a well-formed vector always returns: it runs the
    destructor of each element once, releases the buffer to the memory
    provider with nothing left constructed in it, and the object is gone. *)
Theorem Vector_delete_releases this s v xs :
  objs s !! this = Some v →
  holds s v xs →
  ∃ s',
    Vector_delete this s = (s', Ok tt) ∧
    objs s' = delete this (objs s) ∧
    heap s' = match buffer_ (data_ v) with
              | Some b => delete b (heap s)
              | None => heap s
              end ∧
    avail s' = avail s + capacity_ (data_ v) ∧
    leaked s' = leaked s ∧
    trace s' = trace s ++ replicate (length xs) ev_destroy.
Proof. apply Vector_delete_Ok. Qed.

(** ** Swap, move assignment and the queries *)

Lemma with_objs_same s : with_objs (objs s) s = s.
Proof. by destruct s. Qed.

Lemma Vector_Swap_self this s v :
  objs s !! this = Some v → Vector_Swap this this s = (s, Ok tt).
Proof.
  intros Hv. unfold Vector_Swap.
  assert (∀ x, with_objs (<[this := x]> (objs s)) s = s ↔ x = v) as Hput.
  { intros x. split.
    - intros E. apply (f_equal (λ s, objs s !! this)) in E. simpl in E.
      rewrite lookup_insert_eq, Hv in E. by injection E.
    - intros ->. by rewrite insert_id, with_objs_same. }
  assert (set_data this (data_ v) s = (s, Ok tt)) as Ed.
  { rewrite (set_data_Some _ _ _ _ Hv), Vector_eta. f_equal. by apply Hput. }
  assert (set_size this (size_ v) s = (s, Ok tt)) as Es.
  { rewrite (set_size_Some _ _ _ _ Hv), Vector_eta. f_equal. by apply Hput. }
  step (get_obj_Some _ _ _ Hv). step (get_obj_Some _ _ _ Hv).
  simpl. rewrite RawMemory_eta. step Ed. step Ed.
  step (get_obj_Some _ _ _ Hv). step (get_obj_Some _ _ _ Hv).
  step Es. exact Es.
Qed.

(** X3.  Swap of two vectors always returns: each gets the buffer, capacity
    and length the other had, and blocks, memory provider and elements are
    not touched.  A second Swap gives the state before the first back. *)
Theorem Vector_Swap_exchanges_and_reverts this other s a b :
  objs s !! this = Some a →
  objs s !! other = Some b →
  ∃ s1,
    Vector_Swap this other s = (s1, Ok tt) ∧
    objs s1 !! this = Some b ∧
    objs s1 !! other = Some a ∧
    (∀ x, x ≠ this → x ≠ other → objs s1 !! x = objs s !! x) ∧
    objs_step s s1 ∧
    Vector_Swap this other s1 = (s, Ok tt).
Proof.
  intros Ha Hb. destruct (decide (this = other)) as [->|Hne].
  - assert (a = b) as -> by congruence.
    exists s. rewrite (Vector_Swap_self _ _ _ Ha). by split_and!.
  - exists (with_objs (<[other := a]> (<[this := b]> (objs s))) s).
    split; [by apply Vector_Swap_distinct|]. split_and!; simpl.
    + rewrite lookup_insert_ne by done. apply lookup_insert_eq.
    + apply lookup_insert_eq.
    + intros x H1 H2. by rewrite !lookup_insert_ne.
    + done.
    + erewrite Vector_Swap_distinct; [|done|simpl..].
      2:{ rewrite lookup_insert_ne by done. apply lookup_insert_eq. }
      2:{ apply lookup_insert_eq. }
      f_equal. destruct s as [h n o w t l]. unfold with_objs. simpl.
      f_equal. apply map_eq. intros i.
      destruct (decide (i = other)) as [->|]; [by rewrite lookup_insert_eq|].
      rewrite lookup_insert_ne by done.
      destruct (decide (i = this)) as [->|]; [by rewrite lookup_insert_eq|].
      by rewrite !lookup_insert_ne.
Qed.

(** X4.  Swap, move construction and move assignment never end in an
    exception, and whatever their outcome they touch no block, invoke no
    operation of the element type and leave the memory provider as it is:
    only the data members of the vectors change. *)
Theorem ownership_transfer_touches_no_storage this other :
  (never_throws (Vector_Swap this other) ∧
   never_throws (Vector_move this other) ∧
   never_throws (Vector_move_assign this other)) ∧
  (preserves objs_step (Vector_Swap this other) ∧
   preserves objs_step (Vector_move this other) ∧
   preserves objs_step (Vector_move_assign this other)).
Proof.
  assert (never_throws (Vector_Swap this other)) as Hswap.
  { unfold Vector_Swap. nothrow. }
  assert (preserves objs_step (Vector_Swap this other)) as Hswap'.
  { unfold Vector_Swap. frame. }
  split; split_and!; try done.
  - unfold Vector_move, Vector_default. nothrow.
  - unfold Vector_move_assign. case_decide; nothrow.
  - unfold Vector_move, Vector_default. frame.
  - unfold Vector_move_assign. case_decide; frame.
Qed.

(** X5.  Move assignment between two distinct well-formed vectors with
    separate buffers exchanges their contents, and the destructor of the
    source then destroys what the destination held: each of those elements
    once, their buffer released, nothing leaked, and the destination keeps
    what the source held. *)
Theorem move_assign_then_source_destructor this rhs s a b xs ys :
  this ≠ rhs →
  objs s !! this = Some a →
  objs s !! rhs = Some b →
  holds s a xs →
  holds s b ys →
  separate a b →
  ∃ s1 s2,
    Vector_move_assign this rhs s = (s1, Ok tt) ∧
    objs s1 !! this = Some b ∧ holds s1 b ys ∧
    objs s1 !! rhs = Some a ∧ holds s1 a xs ∧
    Vector_delete rhs s1 = (s2, Ok tt) ∧
    objs s2 !! this = Some b ∧ holds s2 b ys ∧
    objs s2 !! rhs = None ∧
    avail s2 = avail s + capacity_ (data_ a) ∧
    leaked s2 = leaked s ∧
    trace s2 = trace s ++ replicate (length xs) ev_destroy.
Proof.
  intros Hne Ha Hb Hxs Hys Hsep.
  set (s1 := with_objs (<[rhs := a]> (<[this := b]> (objs s))) s).
  assert (objs s1 !! rhs = Some a) as Ha1 by apply lookup_insert_eq.
  assert (objs s1 !! this = Some b) as Hb1.
  { simpl. rewrite lookup_insert_ne by done. apply lookup_insert_eq. }
  destruct (Vector_delete_Ok rhs s1 a xs Ha1 Hxs)
    as (s2 & E2 & Ho2 & Hh2 & Ha2 & Hl2 & Ht2).
  exists s1, s2. split_and!; try done.
  - unfold Vector_move_assign. rewrite decide_False by done.
    by apply Vector_Swap_distinct.
  - rewrite Ho2, lookup_delete_ne by done. exact Hb1.
  - destruct Hys as (Hsize & Hcap & Hblk). split_and!; [done..|].
    destruct (buffer_ (data_ b)) as [bb|] eqn:Hbb; [|done].
    rewrite Hh2. destruct (buffer_ (data_ a)) as [ba|] eqn:Hba; [|done].
    rewrite lookup_delete_ne; [done|]. intros ->. by apply (Hsep bb).
  - rewrite Ho2. apply lookup_delete_eq.
Qed.

(** ** Raw storage *)

(** X6.  Constructing a Raw Buffer of capacity [n] asks the memory provider
    for [n * sizeof(T)] bytes, a product computed in [size_t]: the block has
    room for [slots n] objects, which is [n] when the product does not wrap
    and less than [n] otherwise.  When the provider has that many free slots,
    the constructor returns a Raw Buffer of capacity [n] on a new block of
    raw slots (for [n = 0] the address is null and nothing is allocated),
    and destroying it gives the state before the construction back.  When
    it has fewer, the constructor throws the allocation failure and changes
    nothing. *)
Theorem RawMemory_new_delete_round_trip n s :
  slots n ≤ n ∧
  (addressable n → slots n = n) ∧
  (slots n ≤ avail s →
   ∃ s1 d,
     RawMemory_new n s = (s1, Ok d) ∧
     capacity_ d = n ∧
     (buffer_ d = None ↔ n = 0) ∧
     (∀ b, buffer_ d = Some b →
           heap s !! b = None ∧
           heap s1 !! b = Some (replicate (slots n) None)) ∧
     avail s1 = avail s - slots n ∧
     RawMemory_delete d s1 = (s, Ok tt)) ∧
  (avail s < slots n → RawMemory_new n s = (s, Throw bad_alloc)).
Proof.
  split_and!; [apply slots_le | apply slots_addressable | |
               apply RawMemory_new_out_of_memory].
  intros Hle. destruct (decide (n = 0)) as [->|Hn].
  - pose proof (slots_le 0).
    exists s, RawMemory_default. split_and!; try done. lia.
  - eexists _, _. split; [by apply RawMemory_new_block|]. simpl.
    assert (heap s !! fresh (dom (heap s)) = None) as Hfresh
      by apply not_elem_of_dom, is_fresh.
    split_and!; try done.
    + intros b [= <-]. split; [done | apply lookup_insert_eq].
    + erewrite RawMemory_delete_Some; [|done|apply lookup_insert_eq].
      f_equal. destruct s as [h av o w t l]. unfold with_leaked, with_avail,
        with_heap. simpl in *.
      rewrite omap_id_replicate_None, app_nil_r, length_replicate.
      rewrite delete_insert_id by done. f_equal. lia.
Qed.

(** X7.  On a well-formed vector [operator[]] passes its assertions exactly
    for the indices below the length: it then returns the address of slot
    [index] of the buffer, where the element of that index lives, and
    changes nothing; for any other index the assertion fails. *)
Theorem Vector_index_checks_bounds this s v xs i :
  objs s !! this = Some v →
  holds s v xs →
  match xs !! i with
  | Some x =>
      Vector_index this i s = (s, Ok (RawMemory_GetAddress (data_ v) +ₚ i)) ∧
      slot s (RawMemory_GetAddress (data_ v) +ₚ i) = Some (Some x)
  | None => Vector_index this i s = (s, Fault assertion_failed)
  end.
Proof.
  intros Hv (Hsize & Hcap & Hblk). unfold Vector_index.
  step (get_obj_Some _ _ _ Hv).
  destruct (xs !! i) as [x|] eqn:Hi.
  - pose proof (lookup_lt_Some _ _ _ Hi) as Hlt.
    assert ((i <? size_ v) = true) as -> by (apply Nat.ltb_lt; lia).
    simpl. erewrite bind_Ok; [|reflexivity]. unfold RawMemory_index.
    assert ((i <? capacity_ (data_ v)) = true) as ->
      by (apply Nat.ltb_lt; lia).
    simpl. erewrite bind_Ok; [|reflexivity]. split; [done|].
    unfold slot, RawMemory_GetAddress. simpl.
    destruct (buffer_ (data_ v)) as [b|]; [|lia]. simpl. rewrite Hblk. simpl.
    by apply block_with_lookup_Some.
  - apply lookup_ge_None in Hi.
    assert ((i <? size_ v) = false) as -> by (apply Nat.ltb_ge; lia).
    done.
Qed.

(** ** The standard algorithms at any position of a block *)

Lemma lookup_middle {A} (pre : list A) x rest i :
  length pre = i → (pre ++ x :: rest) !! i = Some x.
Proof. intros <-. by rewrite list_lookup_middle. Qed.

Lemma insert_middle {A} (pre : list A) x y rest i :
  length pre = i → <[i := y]> (pre ++ x :: rest) = pre ++ y :: rest.
Proof.
  intros <-. rewrite insert_app_r_alt by lia. by rewrite Nat.sub_diag.
Qed.

(** [std::uninitialized_copy_n] from slot [i] of block [b] to slot [j] of
    another block [nb], at the point where [k] elements are done and [n] are
    left. *)
Lemma uninitialized_copy_from_at n :
  ∀ k s b nb i j src pre done todo suf s' r,
  b ≠ nb →
  heap s !! b = Some src →
  take n (drop (i + k) src) = Some <$> todo →
  length todo = n →
  length done = k →
  length pre = j →
  heap s !! nb = Some (pre ++ (Some <$> done) ++ replicate n None ++ suf) →
  uninitialized_copy_from k n (Ptr (Some b) i) (Ptr (Some nb) j) s = (s', r) →
  match r with
  | Ok _ =>
      ∃ ys, Forall2 copy_of todo ys ∧
            mem s' = (<[nb := pre ++ (Some <$> (done ++ ys)) ++ suf]> (heap s),
                      avail s, objs s, leaked s)
  | Throw _ =>
      (∃ x w, x ∈ todo ∧ (copy_construct x w).2 = None) ∧
      mem s' = (<[nb := pre ++ replicate (k + n) None ++ suf]> (heap s),
                avail s, objs s, leaked s)
  | Fault _ => False
  end.
Proof.
  induction n as [|n IH];
    intros k s b nb i j src pre done todo suf s' r Hne Hb Hsrc Hlen Hk Hj Hnb E.
  - simpl in E. inversion E; subst s' r. destruct todo; [|done].
    exists []. split; [constructor|]. simpl in *.
    unfold mem. by rewrite app_nil_r, insert_id.
  - destruct todo as [|x todo]; [done|]. simpl in Hsrc, Hlen.
    apply take_drop_cons in Hsrc as [Hx Hsrc].
    cbn [uninitialized_copy_from] in E. rewrite !ptr_at in E.
    rewrite bind_unfold in E. unfold on_throw in E.
    destruct (copy_construct_at _ _ s) as [s1 r1] eqn:E1.
    assert (heap s !! nb
            = Some ((pre ++ (Some <$> done)) ++ None :: replicate n None ++ suf))
      as Hnb' by (by rewrite Hnb, <- app_assoc).
    assert (length (pre ++ (Some <$> done)) = j + k) as Hjk
      by (rewrite length_app, length_fmap; lia).
    apply (copy_construct_at_inv _ _ _ x) in E1.
    2:{ rewrite slot_lookup, Hb. simpl. exact Hx. }
    2:{ rewrite slot_lookup, Hnb'. simpl. by apply lookup_middle. }
    destruct r1 as [[]|e|f]; [| |done].
    + destruct E1 as (y & Hy & M1).
      rewrite (mem_set_slot _ _ _ _ _ Hnb') in M1.
      rewrite (insert_middle _ _ (Some y)) in M1 by done.
      apply mem_components in M1 as (Hh1 & Ha1 & Ho1 & Hl1).
      assert (heap s1 !! nb
              = Some (pre ++ (Some <$> (done ++ [y])) ++ replicate n None ++ suf))
        as Hnb1.
      { rewrite Hh1, lookup_insert_eq. f_equal.
        rewrite fmap_app, <- !app_assoc. done. }
      specialize (IH (S k) s1 b nb i j src pre (done ++ [y]) todo suf s' r Hne).
      rewrite Hh1, lookup_insert_ne in IH by done.
      replace (i + S k) with (S (i + k)) in IH by lia.
      specialize (IH Hb Hsrc ltac:(lia)).
      rewrite length_app in IH. simpl in IH.
      specialize (IH ltac:(lia) Hj).
      rewrite <- Hh1 in IH. specialize (IH Hnb1 E).
      destruct r as [[]|e|f]; [| |done].
      * destruct IH as (ys & Hys & M).
        exists (y :: ys). split; [constructor; [by eexists | done]|].
        rewrite M, Hh1, Ha1, Ho1, Hl1, insert_insert_eq.
        by rewrite <- app_assoc.
      * destruct IH as ((x' & w & Hx' & Hw) & M).
        split; [exists x', w; split; [by right | done]|].
        rewrite M, Hh1, Ha1, Ho1, Hl1, insert_insert_eq.
        by replace (k + S n) with (S (k + n)) by lia.
    + destruct E1 as [Hthrow M1].
      apply mem_components in M1 as (Hh1 & Ha1 & Ho1 & Hl1).
      destruct (destroy_n_Some k s1 nb pre done
                  (replicate (S n) None ++ suf)) as (s2 & E2 & M2); [done| |].
      { by rewrite Hh1. }
      rewrite Hj in E2. rewrite E2 in E. inversion E; subst s' r.
      split; [exists x, (world s); split; [by left | done]|].
      rewrite M2, Hh1, Ha1, Ho1, Hl1.
      by rewrite replicate_add, <- app_assoc.
Qed.

Lemma move_construct_at_apart b nb i j s x src dst s' r :
  b ≠ nb →
  heap s !! b = Some src → src !! i = Some (Some x) →
  heap s !! nb = Some dst → dst !! j = Some None →
  move_construct_at (Ptr (Some nb) j) (Ptr (Some b) i) s = (s', r) →
  match r with
  | Ok _ => ∃ y m, (move_construct x (world s)).2 = Some (y, m) ∧
                   mem s' = (<[nb := <[j := Some y]> dst]>
                               (<[b := <[i := Some m]> src]> (heap s)),
                             avail s, objs s, leaked s)
  | _ => (move_construct x (world s)).2 = None
  end.
Proof.
  intros Hne Hb Hi Hnb Hj E.
  apply (move_construct_at_inv _ _ _ x) in E.
  - destruct r as [[]|e|f]; [|done..].
    destruct E as (y & m & Hy & M). exists y, m. split; [done|].
    rewrite M.
    pose proof (mem_set_slot b i (Some m) s _ Hb) as Mmid.
    apply mem_components in Mmid as (Hhm & Ham & Hom & Hlm).
    rewrite (mem_set_slot nb j (Some y) _ dst)
      by by rewrite Hhm, lookup_insert_ne.
    by rewrite Hhm, Ham, Hom, Hlm.
  - rewrite slot_lookup, Hb. simpl. exact Hi.
  - rewrite slot_lookup, Hnb. simpl. exact Hj.
  - congruence.
  - simpl. congruence.
Qed.

(** [std::uninitialized_move_n] from slot [i] of block [b] to slot [j] of
    another block [nb], at the point where [k] elements are done and [n] are
    left. *)
Lemma uninitialized_move_from_at n :
  ∀ k s b nb i j spre gone pre done todo srest suf s' r,
  b ≠ nb →
  heap s !! b
    = Some (spre ++ (Some <$> gone) ++ (Some <$> todo) ++ srest) →
  length spre = i →
  length gone = k →
  length todo = n →
  length done = k →
  length pre = j →
  heap s !! nb = Some (pre ++ (Some <$> done) ++ replicate n None ++ suf) →
  uninitialized_move_from k n (Ptr (Some b) i) (Ptr (Some nb) j) s = (s', r) →
  match r with
  | Ok _ =>
      ∃ ys ms, Forall2 move_of todo ys ∧ length ms = n ∧
        mem s' = (<[nb := pre ++ (Some <$> (done ++ ys)) ++ suf]>
                    (<[b := spre ++ (Some <$> (gone ++ ms)) ++ srest]> (heap s)),
                  avail s, objs s, leaked s)
  | _ => ∃ x w, x ∈ todo ∧ (move_construct x w).2 = None
  end.
Proof.
  induction n as [|n IH];
    intros k s b nb i j spre gone pre done todo srest suf s' r
           Hne Hb Hi Hgone Hlen Hk Hj Hnb E.
  - simpl in E. inversion E; subst s' r. destruct todo; [|done].
    exists [], []. split; [constructor|]. split; [done|]. simpl in *.
    unfold mem. rewrite !app_nil_r.
    rewrite (insert_id (heap s) b) by done. by rewrite insert_id.
  - destruct todo as [|x todo]; [done|]. simpl in Hlen.
    cbn [uninitialized_move_from] in E. rewrite !ptr_at in E.
    rewrite bind_unfold in E. unfold on_throw in E.
    destruct (move_construct_at _ _ s) as [s1 r1] eqn:E1.
    assert (heap s !! nb
            = Some ((pre ++ (Some <$> done)) ++ None :: replicate n None ++ suf))
      as Hnb' by (by rewrite Hnb, <- app_assoc).
    assert (length (pre ++ (Some <$> done)) = j + k) as Hjk
      by (rewrite length_app, length_fmap; lia).
    assert (heap s !! b
            = Some ((spre ++ (Some <$> gone)) ++ Some x :: (Some <$> todo) ++ srest))
      as Hb' by (by rewrite Hb, <- app_assoc).
    assert (length (spre ++ (Some <$> gone)) = i + k) as Hik
      by (rewrite length_app, length_fmap; lia).
    apply (move_construct_at_apart b nb _ _ s x _ _ _ _ Hne Hb'
             (lookup_middle _ _ _ _ Hik) Hnb' (lookup_middle _ _ _ _ Hjk))
      in E1.
    destruct r1 as [[]|e|f].
    + destruct E1 as (y & m & Hy & M1).
      rewrite !insert_middle in M1 by done.
      apply mem_components in M1 as (Hh1 & Ha1 & Ho1 & Hl1).
      specialize (IH (S k) s1 b nb i j spre (gone ++ [m]) pre (done ++ [y])
                    todo srest suf s' r Hne).
      assert (heap s1 !! b
              = Some (spre ++ (Some <$> (gone ++ [m])) ++ (Some <$> todo) ++ srest))
        as Hb1.
      { rewrite Hh1, lookup_insert_ne by done. rewrite lookup_insert_eq.
        f_equal. rewrite fmap_app, <- !app_assoc. done. }
      assert (heap s1 !! nb
              = Some (pre ++ (Some <$> (done ++ [y])) ++ replicate n None ++ suf))
        as Hnb1.
      { rewrite Hh1, lookup_insert_eq. f_equal.
        rewrite fmap_app, <- !app_assoc. done. }
      specialize (IH Hb1 Hi).
      rewrite !length_app in IH. simpl in IH.
      specialize (IH ltac:(lia) ltac:(lia) ltac:(lia) Hj Hnb1 E).
      revert IH. destruct r as [[]|e|f].
      * intros (ys & ms & Hys & Hms & M).
        exists (y :: ys), (m :: ms). split_and!.
        -- constructor; [by exists (world s), m | done].
        -- simpl. lia.
        -- rewrite M, Hh1, Ha1, Ho1, Hl1.
           rewrite (insert_insert_ne _ b nb) by done.
           rewrite !insert_insert_eq.
           by rewrite <- !app_assoc.
      * intros (x' & w & Hx' & Hw). exists x', w. split; [by right|done].
      * intros (x' & w & Hx' & Hw). exists x', w. split; [by right|done].
    + assert (∃ x0 w, x0 ∈ x :: todo ∧ (move_construct x0 w).2 = None) as Hbad.
      { exists x, (world s). split; [by left | done]. }
      destruct (destroy_n _ _ s1) as [s2 [[]|e2|f2]]; by inversion E; subst.
    + inversion E; subst. exists x, (world s). split; [by left | done].
Qed.

Lemma value_construct_at_inv dst s s' r :
  slot s dst = Some None →
  value_construct_at dst s = (s', r) →
  match r with
  | Ok _ => ∃ y, (default_construct (world s)).2 = Some y ∧
                 mem s' = mem (set_slot dst (Some y) s)
  | Throw _ => (default_construct (world s)).2 = None ∧ mem s' = mem s
  | Fault _ => False
  end.
Proof.
  intros Hdst E. unfold value_construct_at in E. rewrite bind_unfold in E.
  destruct (elem_op _ _ _ s) as [s1 r1] eqn:E1.
  apply elem_op_inv in E1 as [M1 Hr1].
  destruct r1 as [y|e|f].
  - rewrite place_raw in E by by rewrite (slot_mem _ _ _ M1).
    inversion E; subst s' r. exists y. split; [done|].
    by apply mem_set_slot_cong.
  - inversion E; subst s' r. by destruct Hr1 as (_ & _ & ?).
  - by destruct Hr1 as (_ & ? & _).
Qed.

(** [std::uninitialized_value_construct_n] at slot [j] of block [nb], at the
    point where [k] elements are done and [n] are left. *)
Lemma uninitialized_value_construct_from_spec n :
  ∀ k s nb j pre done suf s' r,
  length done = k →
  length pre = j →
  heap s !! nb = Some (pre ++ (Some <$> done) ++ replicate n None ++ suf) →
  uninitialized_value_construct_from k n (Ptr (Some nb) j) s = (s', r) →
  match r with
  | Ok _ =>
      ∃ ys, length ys = n ∧ Forall default_made ys ∧
            mem s' = (<[nb := pre ++ (Some <$> (done ++ ys)) ++ suf]> (heap s),
                      avail s, objs s, leaked s)
  | Throw _ =>
      (∃ w, (default_construct w).2 = None) ∧
      mem s' = (<[nb := pre ++ replicate (k + n) None ++ suf]> (heap s),
                avail s, objs s, leaked s)
  | Fault _ => False
  end.
Proof.
  induction n as [|n IH]; intros k s nb j pre done suf s' r Hk Hj Hnb E.
  - simpl in E. inversion E; subst s' r.
    exists []. split_and!; [done|constructor|]. simpl in *.
    unfold mem. by rewrite app_nil_r, insert_id.
  - cbn [uninitialized_value_construct_from] in E. rewrite !ptr_at in E.
    rewrite bind_unfold in E. unfold on_throw in E.
    destruct (value_construct_at _ s) as [s1 r1] eqn:E1.
    assert (heap s !! nb
            = Some ((pre ++ (Some <$> done)) ++ None :: replicate n None ++ suf))
      as Hnb' by (by rewrite Hnb, <- app_assoc).
    assert (length (pre ++ (Some <$> done)) = j + k) as Hjk
      by (rewrite length_app, length_fmap; lia).
    apply value_construct_at_inv in E1.
    2:{ rewrite slot_lookup, Hnb'. simpl. by apply lookup_middle. }
    destruct r1 as [[]|e|f]; [| |done].
    + destruct E1 as (y & Hy & M1).
      rewrite (mem_set_slot _ _ _ _ _ Hnb') in M1.
      rewrite (insert_middle _ _ (Some y)) in M1 by done.
      apply mem_components in M1 as (Hh1 & Ha1 & Ho1 & Hl1).
      assert (heap s1 !! nb
              = Some (pre ++ (Some <$> (done ++ [y])) ++ replicate n None ++ suf))
        as Hnb1.
      { rewrite Hh1, lookup_insert_eq. f_equal.
        rewrite fmap_app, <- !app_assoc. done. }
      specialize (IH (S k) s1 nb j pre (done ++ [y]) suf s' r).
      rewrite length_app in IH. simpl in IH.
      specialize (IH ltac:(lia) Hj Hnb1 E).
      destruct r as [[]|e|f]; [| |done].
      * destruct IH as (ys & Hlen & Hys & M).
        exists (y :: ys). split_and!.
        -- simpl. lia.
        -- constructor; [by eexists | done].
        -- rewrite M, Hh1, Ha1, Ho1, Hl1, insert_insert_eq.
           by rewrite <- app_assoc.
      * destruct IH as (Hw & M). split; [done|].
        rewrite M, Hh1, Ha1, Ho1, Hl1, insert_insert_eq.
        by replace (k + S n) with (S (k + n)) by lia.
    + destruct E1 as [Hthrow M1].
      apply mem_components in M1 as (Hh1 & Ha1 & Ho1 & Hl1).
      destruct (destroy_n_Some k s1 nb pre done
                  (replicate (S n) None ++ suf)) as (s2 & E2 & M2); [done| |].
      { by rewrite Hh1. }
      rewrite Hj in E2. rewrite E2 in E. inversion E; subst s' r.
      split; [by exists (world s)|].
      rewrite M2, Hh1, Ha1, Ho1, Hl1.
      by rewrite replicate_add, <- app_assoc.
Qed.

(** ** Growth of the buffer *)

Lemma RawMemory_new_Throw n s s' e :
  RawMemory_new n s = (s', Throw e) →
  avail s < slots n ∧ e = bad_alloc ∧ s' = s.
Proof.
  unfold RawMemory_new, Allocate, operator_new. rewrite bind_unfold.
  change (room (byte_count n)) with (slots n).
  destruct (decide (n ≠ 0)); [|done]. rewrite bind_unfold.
  destruct (decide (slots n ≤ avail s)); [done|]. simpl.
  intros E. injection E as <- <-. split_and!; [lia|done..].
Qed.

Lemma holds_nil s v : holds s v [] → size_ v = 0.
Proof. by intros (? & _). Qed.

Lemma holds_null s v xs : holds s v xs → buffer_ (data_ v) = None → xs = [].
Proof.
  intros (Hsize & Hcap & Hblk) Hbuf. rewrite Hbuf in Hblk.
  destruct xs; [done | simpl in *; lia].
Qed.

(** The relocation of the elements [xs] from slot [i] of block [b] to slot
    [j] of another block [nb], as the three member functions write it. *)
Lemma relocation_inv s b nb i j spre xs srest pre suf s' r :
  b ≠ nb →
  heap s !! b = Some (spre ++ (Some <$> xs) ++ srest) →
  length spre = i →
  heap s !! nb = Some (pre ++ replicate (length xs) None ++ suf) →
  length pre = j →
  (if nothrow_move_constructible || negb copy_constructible
   then uninitialized_move_n (Ptr (Some b) i) (length xs) (Ptr (Some nb) j)
   else uninitialized_copy_n (Ptr (Some b) i) (length xs) (Ptr (Some nb) j))
    s = (s', r) →
  match r with
  | Ok _ =>
      ∃ ys ms, relocated xs ys ∧ length ms = length xs ∧
        mem s' = (<[nb := pre ++ (Some <$> ys) ++ suf]>
                    (<[b := spre ++ (Some <$> ms) ++ srest]> (heap s)),
                  avail s, objs s, leaked s)
  | Throw _ =>
      nothrow_move_constructible = false ∧ relocation_failed xs ∧
      (copy_constructible = true → mem s' = mem s)
  | Fault _ => relocates_by_move = true ∧ relocation_failed xs
  end.
Proof.
  intros Hne Hb <- Hnb <-.
  unfold relocated, relocation_failed, relocates_by_move.
  destruct (nothrow_move_constructible || negb copy_constructible) eqn:Hmove.
  - intros E.
    pose proof (uninitialized_move_from_at (length xs) 0 s b nb _ _ spre []
                  pre [] xs srest suf s' r Hne Hb eq_refl eq_refl eq_refl
                  eq_refl eq_refl Hnb E) as H.
    destruct r as [[]|e|f]; [done| |done].
    split_and!; [|done|].
    + destruct nothrow_move_constructible eqn:Hnm; [|done].
      exfalso. refine (never_throws_run _ _ _ _ _ E).
      by apply never_throws_uninitialized_move_from.
    + intros Hcc. rewrite Hcc in Hmove.
      destruct nothrow_move_constructible eqn:Hnm; [|done].
      exfalso. refine (never_throws_run _ _ _ _ _ E).
      by apply never_throws_uninitialized_move_from.
  - intros E.
    pose proof (uninitialized_copy_from_at (length xs) 0 s b nb (length spre)
                  (length pre) _ pre [] xs suf s' r Hne Hb) as H.
    rewrite Nat.add_0_r, drop_app_length in H.
    rewrite take_app_length' in H by by rewrite length_fmap.
    specialize (H eq_refl eq_refl eq_refl eq_refl Hnb E).
    destruct r as [[]|e|f]; [| |done].
    + destruct H as (ys & Hys & M). exists ys, xs. split_and!; [done..|].
      by rewrite (insert_id (heap s) b).
    + destruct H as (Hbad & M). split_and!; [|done|].
      * by destruct nothrow_move_constructible.
      * intros _. rewrite M. unfold mem. by rewrite insert_id.
Qed.

(** The new buffer takes the place of the old one, which is released with
    no object in it. *)
Lemma commit_Ok this v d s :
  objs s !! this = Some v →
  match buffer_ (data_ v) with
  | Some b => heap s !! b = Some (replicate (capacity_ (data_ v)) None)
  | None => capacity_ (data_ v) = 0
  end →
  ∃ s',
    (set_data this (fst (RawMemory_Swap (data_ v) d));;
     RawMemory_delete (snd (RawMemory_Swap (data_ v) d))) s = (s', Ok tt) ∧
    mem s' = (release (data_ v) (heap s), avail s + capacity_ (data_ v),
              <[this := {| data_ := d; size_ := size_ v |}]> (objs s),
              leaked s).
Proof.
  intros Hv Hb. simpl. rewrite !RawMemory_eta.
  step (set_data_Some _ _ _ _ Hv). unfold release.
  destruct (buffer_ (data_ v)) as [b|] eqn:Hbuf.
  - eexists. split.
    + by apply (RawMemory_delete_Some _ b (replicate (capacity_ (data_ v)) None)).
    + unfold mem. simpl.
      by rewrite omap_id_replicate_None, app_nil_r, length_replicate.
  - eexists. split; [by apply RawMemory_delete_null|].
    unfold mem. simpl. by rewrite Hb, Nat.add_0_r.
Qed.

Lemma fmap_Some_block_with capacity n (xs : list T) :
  length xs = n → n ≤ capacity →
  (Some <$> xs) ++ replicate (capacity - n) None = block_with capacity xs.
Proof. by intros <- _. Qed.

(** Reserve beyond the capacity of a well-formed vector, whatever its
    outcome. *)
Lemma Reserve_grow_inv this n s v xs s' r :
  objs s !! this = Some v →
  holds s v xs →
  capacity_ (data_ v) < n →
  slots n = n →
  Vector_Reserve this n s = (s', r) →
  match r with
  | Ok _ =>
      n ≤ avail s ∧
      ∃ ys nb, relocated xs ys ∧ heap s !! nb = None ∧
        mem s' = (<[nb := block_with n ys]> (release (data_ v) (heap s)),
                  avail s - n + capacity_ (data_ v),
                  <[this := {| data_ := {| buffer_ := Some nb; capacity_ := n |};
                               size_ := size_ v |}]> (objs s),
                  leaked s)
  | Throw e =>
      (avail s < n ∧ e = bad_alloc ∧ s' = s) ∨
      (nothrow_move_constructible = false ∧ relocation_failed xs ∧
       (copy_constructible = true → mem s' = mem s))
  | Fault _ => relocates_by_move = true ∧ relocation_failed xs
  end.
Proof.
  intros Hv (Hsize & Hcap & Hblk) Hn Hslots E. unfold Vector_Reserve in E.
  rewrite (bind_Ok _ _ _ _ _ (get_obj_Some _ _ _ Hv)) in E.
  unfold RawMemory_Capacity in E. rewrite decide_False in E by lia.
  rewrite bind_unfold in E.
  destruct (RawMemory_new n s) as [s2 r2] eqn:Enew.
  pose proof Enew as Enew'. apply RawMemory_new_inv in Enew.
  rewrite Hslots in Enew.
  destruct r2 as [d|e2|f2]; [| |done].
  2:{ inversion E; subst s' r. subst s2. left.
      apply RawMemory_new_Throw in Enew' as (Hlt & -> & _).
      rewrite Hslots in Hlt. by split_and!. }
  clear Enew'.
  destruct Enew as [Hcapd [(Hn0 & _) | (_ & Hav & nb & Hd & Hnb & ->)]]; [lia|].
  set (s2 := with_avail (avail s - n)
               (with_heap (<[nb:=replicate n None]> (heap s)) s)) in *.
  assert (RawMemory_GetAddress d = Ptr (Some nb) 0) as Hdp.
  { unfold RawMemory_GetAddress. by rewrite Hd. }
  assert (d = {| buffer_ := Some nb; capacity_ := n |}) as Hdeq.
  { rewrite <- (RawMemory_eta d). by rewrite Hd, Hcapd. }
  rewrite Hdp in E.
  assert (heap s2 !! nb
          = Some ([] ++ replicate (length xs) None ++ replicate (n - length xs) None))
    as Hnb2.
  { simpl. rewrite lookup_insert_eq. f_equal.
    rewrite <- replicate_add. f_equal. lia. }
  rewrite bind_unfold in E. unfold on_throw in E. rewrite bind_unfold in E.
  match type of E with
  | context [match ?m s2 with _ => _ end] =>
      destruct (m s2) as [s3 r3] eqn:Er
  end.
  destruct (buffer_ (data_ v)) as [b|] eqn:Hbuf.
  - assert (b ≠ nb) as Hne by congruence.
    assert (RawMemory_GetAddress (data_ v) = Ptr (Some b) 0) as Hvp.
    { unfold RawMemory_GetAddress. by rewrite Hbuf. }
    rewrite Hvp, Hsize in Er, E.
    apply (relocation_inv s2 b nb 0 0 [] xs
             (replicate (capacity_ (data_ v) - length xs) None) []
             (replicate (n - length xs) None)) in Er;
      [|done| |done|done|done].
    2:{ simpl. rewrite lookup_insert_ne by done. exact Hblk. }
    destruct r3 as [[]|e3|f3].
    + destruct Er as (ys & ms & Hys & Hms & M3).
      apply mem_components in M3 as (Hh3 & Ha3 & Ho3 & Hl3).
      simpl in Hh3, Ha3, Ho3, Hl3.
      destruct (destroy_n_Some (length xs) s3 b [] ms
                  (replicate (capacity_ (data_ v) - length xs) None))
        as (s4 & E4 & M4); [done| |].
      { rewrite Hh3, lookup_insert_ne by done. apply lookup_insert_eq. }
      apply mem_components in M4 as (Hh4 & Ha4 & Ho4 & Hl4).
      simpl in E4, Hh4. rewrite E4 in E.
      destruct (commit_Ok this v d s4) as (s5 & E5 & M5).
      { congruence. }
      { rewrite Hbuf, Hh4, lookup_insert_eq. f_equal.
        rewrite <- replicate_add. f_equal. lia. }
      simpl in E5. simpl in E. rewrite E5 in E. inversion E; subst s' r.
      split; [done|]. exists ys, nb. split_and!; [done..|].
      rewrite M5, Hh4, Ha4, Ho4, Hl4, Ha3, Ho3, Hl3, Hdeq. unfold release.
      rewrite Hbuf, delete_insert_eq, Hh3.
      rewrite (insert_insert_ne _ nb b) by done.
      rewrite delete_insert_eq, !delete_insert_ne by done.
      rewrite insert_insert_eq. simpl. unfold block_with.
      assert (length ys = length xs) as ->; [|done].
      unfold relocated in Hys. symmetry.
      destruct relocates_by_move; by eapply Forall2_length.
    + destruct Er as (Hnm & Hbad & M3).
      destruct copy_constructible eqn:Hcc.
      * specialize (M3 eq_refl).
        destruct (release_new_buffer d nb (replicate n None) s s3 Hd Hnb)
          as (s5 & E5 & M5); [lia | by rewrite length_replicate | |].
        { rewrite M3, Hcapd. done. }
        rewrite E5 in E. inversion E; subst s' r. right.
        split_and!; [done..|]. intros _. rewrite M5.
        by rewrite omap_id_replicate_None, app_nil_r.
      * destruct (RawMemory_delete d s3) as [s5 [[]|e5|f5]];
          inversion E; subst s' r.
        -- right. by split_and!.
        -- split; [|done]. unfold relocates_by_move.
           by rewrite Hnm, Hcc.
        -- split; [|done]. unfold relocates_by_move.
           by rewrite Hnm, Hcc.
    + inversion E; subst s' r. done.
  - assert (xs = []) as -> by (destruct xs; [done | simpl in *; lia]).
    rewrite Hsize in Er, E. simpl in Er, E.
    assert (s3 = s2 ∧ r3 = Ok tt) as [-> ->].
    { destruct (nothrow_move_constructible || negb copy_constructible);
        by inversion Er. }
    destruct (commit_Ok this v d s2 Hv) as (s5 & E5 & M5);
      [by rewrite Hbuf|].
    simpl in E5. simpl in E. rewrite E5 in E. inversion E; subst s' r.
    split; [done|]. exists [], nb. split_and!; [|done|].
    { unfold relocated. destruct relocates_by_move; constructor. }
    rewrite M5. unfold release. rewrite Hbuf, Hdeq. simpl.
    unfold block_with. simpl. by rewrite Nat.sub_0_r.
Qed.

Lemma holds_after_growth s' s v nb n ys :
  heap s' = <[nb := block_with n ys]> (release (data_ v) (heap s)) →
  length ys = size_ v →
  size_ v ≤ n →
  holds s' {| data_ := {| buffer_ := Some nb; capacity_ := n |};
              size_ := size_ v |} ys.
Proof.
  intros Hh Hlen Hn. split_and!; simpl; [lia..|].
  rewrite Hh. apply lookup_insert_eq.
Qed.

Lemma relocated_length xs ys : relocated xs ys → length ys = length xs.
Proof.
  unfold relocated. intros H. symmetry.
  destruct relocates_by_move; by eapply Forall2_length.
Qed.

(** X8.  Reserve gives the strong guarantee when the element type is
    copy-constructible or its move constructor is declared non-throwing, and
    [n] is a number of objects that [size_t] can hold the byte count of
    ([n * sizeof(T)] does not wrap).  A Reserve on a well-formed vector that
    ends in an exception (the allocation failed, or a copy constructor threw
    during the relocation) then leaves blocks, memory provider, vectors and
    elements as they were and leaks nothing; and with relocation by copy it
    never stops otherwise than by returning or throwing.  A Reserve of no
    more than the capacity returns at once and changes nothing, whatever
    [n]. *)
Theorem Reserve_strong_guarantee this n s v xs :
  objs s !! this = Some v →
  holds s v xs →
  nothrow_move_constructible = true ∨ copy_constructible = true →
  (addressable n →
   ∀ s' e, Vector_Reserve this n s = (s', Throw e) →
           mem s' = mem s ∧ elements s' this = Some xs) ∧
  (addressable n →
   nothrow_move_constructible = false →
   ∀ s' f, Vector_Reserve this n s ≠ (s', Fault f)) ∧
  (n ≤ capacity_ (data_ v) → Vector_Reserve this n s = (s, Ok tt)).
Proof.
  intros Hv Hholds Htraits.
  assert (n ≤ capacity_ (data_ v) → Vector_Reserve this n s = (s, Ok tt))
    as Hnoop.
  { intros Hle. unfold Vector_Reserve.
    rewrite (bind_Ok _ _ _ _ _ (get_obj_Some _ _ _ Hv)).
    unfold RawMemory_Capacity. by rewrite decide_True. }
  split_and!; [| |done].
  - intros Haddr s' e E.
    assert (mem s' = mem s) as M.
    { destruct (decide (n ≤ capacity_ (data_ v))) as [Hle|Hgt].
      { rewrite (Hnoop Hle) in E. by inversion E. }
      apply (Reserve_grow_inv this n s v xs) in E;
        [|done|done|lia|by apply slots_addressable].
      destruct E as [(_ & _ & ->) | (Hnm & _ & M)]; [done|].
      apply M. destruct Htraits; congruence. }
    split; [done|]. apply mem_components in M as (Hh & _ & Ho & _).
    rewrite (elements_same_mem this s s') by done.
    by apply (holds_elements this s v).
  - intros Haddr Hnm s' f E.
    destruct (decide (n ≤ capacity_ (data_ v))) as [Hle|Hgt].
    { rewrite (Hnoop Hle) in E. by inversion E. }
    apply (Reserve_grow_inv this n s v xs) in E;
      [|done|done|lia|by apply slots_addressable].
    destruct E as [Hmove _]. unfold relocates_by_move in Hmove.
    rewrite Hnm in Hmove. destruct Htraits as [?|Hcc]; [congruence|].
    by rewrite Hcc in Hmove.
Qed.

(** ** Regular element types

    The copy and move constructors do not fail and give the new object the
    value of their source. *)

Section RegularElements.
Hypothesis copy_ok : ∀ x w, (copy_construct x w).2 = Some x.
Hypothesis move_ok : ∀ x w, ∃ m, (move_construct x w).2 = Some (x, m).

Lemma relocated_eq xs ys : relocated xs ys → ys = xs.
Proof.
  unfold relocated. destruct relocates_by_move.
  - by apply Forall2_move_of_eq.
  - by apply Forall2_copy_of_eq.
Qed.

Lemma relocation_never_fails xs : ¬ relocation_failed xs.
Proof.
  unfold relocation_failed. intros (x & w & _ & H).
  destruct relocates_by_move.
  - destruct (move_ok x w) as [m Hm]. congruence.
  - rewrite copy_ok in H. done.
Qed.

(** Reserve on a vector of a regular element type returns once the byte
    count of the new buffer does not wrap and the memory provider has room
    for it. *)
Lemma Reserve_Ok this n s v xs :
  objs s !! this = Some v →
  holds s v xs →
  n ≤ capacity_ (data_ v) ∨ (addressable n ∧ n ≤ avail s) →
  ∃ s' v',
    Vector_Reserve this n s = (s', Ok tt) ∧
    objs s' !! this = Some v' ∧
    holds s' v' xs ∧
    size_ v' = size_ v ∧
    capacity_ (data_ v') = n `max` capacity_ (data_ v) ∧
    (n ≤ capacity_ (data_ v) → s' = s ∧ v' = v) ∧
    (capacity_ (data_ v) < n →
     ∃ nb, heap s !! nb = None ∧ buffer_ (data_ v') = Some nb ∧
           heap s' = <[nb := block_with n xs]> (release (data_ v) (heap s))) ∧
    (∀ x, x ≠ this → objs s' !! x = objs s !! x) ∧
    avail s' + capacity_ (data_ v') = avail s + capacity_ (data_ v) ∧
    leaked s' = leaked s.
Proof.
  intros Hv Hholds Hroom.
  destruct (decide (n ≤ capacity_ (data_ v))) as [Hle|Hgt].
  - exists s, v. split_and!; try done; try lia.
    unfold Vector_Reserve.
    rewrite (bind_Ok _ _ _ _ _ (get_obj_Some _ _ _ Hv)).
    unfold RawMemory_Capacity. by rewrite decide_True.
  - destruct Hroom as [?|[Haddr Hroom]]; [lia|].
    destruct (Vector_Reserve this n s) as [s' r] eqn:E.
    pose proof (Reserve_grow_inv this n s v xs s' r Hv Hholds ltac:(lia)
                  (slots_addressable n Haddr) E) as H.
    destruct Hholds as (Hsize & Hcap & Hblk).
    destruct r as [[]|e|f].
    + destruct H as (Hav & ys & nb & Hys & Hnb & M).
      apply relocated_eq in Hys as ->.
      apply mem_components in M as (Hh & Ha & Ho & Hl).
      exists s', {| data_ := {| buffer_ := Some nb; capacity_ := n |};
                    size_ := size_ v |}.
      split_and!; simpl; try done; try lia.
      * rewrite Ho. apply lookup_insert_eq.
      * apply (holds_after_growth s' s v nb n xs); [done|done|lia].
      * intros _. by exists nb.
      * intros x Hx. by rewrite Ho, lookup_insert_ne.
    + destruct H as [(Hlt & _) | (_ & Hbad & _)]; [lia|].
      by apply relocation_never_fails in Hbad.
    + destruct H as [_ Hbad]. by apply relocation_never_fails in Hbad.
Qed.

(** X9.  For a regular element type, Reserve of more than the capacity on a
    well-formed vector returns once [n] is a number of objects that [size_t]
    can hold the byte count of and the memory provider has [n] free slots:
    the vector then has a new buffer of exactly [n] slots holding the same
    elements in the same order, its length is unchanged, the old buffer is
    released and nothing is leaked. *)
Theorem Reserve_moves_to_buffer_of_exact_capacity this n s v xs :
  objs s !! this = Some v →
  holds s v xs →
  capacity_ (data_ v) < n →
  addressable n →
  n ≤ avail s →
  ∃ s' v',
    Vector_Reserve this n s = (s', Ok tt) ∧
    objs s' !! this = Some v' ∧
    holds s' v' xs ∧
    elements s' this = Some xs ∧
    size_ v' = size_ v ∧
    capacity_ (data_ v') = n ∧
    (∃ nb, heap s !! nb = None ∧ buffer_ (data_ v') = Some nb ∧
           heap s' = <[nb := block_with n xs]> (release (data_ v) (heap s))) ∧
    avail s' = avail s + capacity_ (data_ v) - n ∧
    leaked s' = leaked s.
Proof.
  intros Hv Hholds Hgt Haddr Hav.
  destruct (Reserve_Ok this n s v xs Hv Hholds (or_intror (conj Haddr Hav)))
    as (s' & v' & E & Hv' & Hholds' & Hsize & Hcap & _ & Hnew & _ & Ha & Hl).
  exists s', v'. split_and!; try done; try lia.
  - by apply (holds_elements this s' v').
  - by apply Hnew.
Qed.

(** One PushBack below the capacity: the new element is constructed in the
    first free slot of the buffer, and nothing else happens. *)
Lemma PushBack_in_place this rv x s v xs :
  objs s !! this = Some v →
  holds s v xs →
  length xs < capacity_ (data_ v) →
  ∃ s',
    Vector_PushBack this (pushed rv x) s = (s', Ok tt) ∧
    objs s' = <[this := {| data_ := data_ v; size_ := size_ v + 1 |}]> (objs s) ∧
    holds s' {| data_ := data_ v; size_ := size_ v + 1 |} (xs ++ [x]) ∧
    avail s' = avail s ∧
    dom (heap s') = dom (heap s) ∧
    leaked s' = leaked s ∧
    trace s' = trace s ++ [ev_construct] ∧
    ∀ b, buffer_ (data_ v) = Some b →
         heap s' = <[b := block_with (capacity_ (data_ v)) (xs ++ [x])]>
                     (heap s).
Proof.
  intros Hv (Hsize & Hcap & Hblk) Hroom.
  unfold Vector_PushBack, Vector_EmplaceBack.
  step (get_obj_Some _ _ _ Hv).
  unfold RawMemory_Capacity. rewrite decide_False by lia.
  destruct (buffer_ (data_ v)) as [b|] eqn:Hbuf; [|lia].
  unfold RawMemory_GetAddress. rewrite Hbuf, ptr_at. simpl.
  destruct (construct_at_pushed copy_ok move_ok (Ptr (Some b) (size_ v)) rv x s)
    as (s1 & E1 & M1).
  { rewrite slot_lookup, Hblk. simpl. apply block_with_lookup. lia. }
  pose proof (construct_at_trace _ _ _ _ E1) as Ht1.
  rewrite (mem_set_slot _ _ _ _ _ Hblk) in M1.
  apply mem_components in M1 as (Hh1 & Ha1 & Ho1 & Hl1).
  step E1. erewrite bind_Ok; [|reflexivity].
  assert (objs s1 !! this = Some v) as Hv1 by congruence.
  step (set_size_Some _ _ _ _ Hv1).
  erewrite bind_Ok; [|reflexivity].
  eexists. split; [reflexivity|]. simpl.
  split_and!; try done.
  - by rewrite Ho1.
  - split_and!; simpl.
    + rewrite length_app. simpl. lia.
    + rewrite length_app. simpl. lia.
    + rewrite Hbuf, Hh1, lookup_insert_eq. f_equal.
      rewrite Hsize. apply block_with_snoc. lia.
  - rewrite Hh1. apply dom_insert_lookup_L. by eexists.
  - intros b' [= <-]. rewrite Hh1. f_equal.
    rewrite Hsize. apply block_with_snoc. lia.
Qed.

Lemma pushes_in_place this (vals : list (bool * T)) : ∀ s v xs,
  objs s !! this = Some v →
  holds s v xs →
  length xs + length vals ≤ capacity_ (data_ v) →
  ∃ s',
    exec_all this ((λ a, call_PushBack (pushed a.1 a.2)) <$> vals) s
      = (s', Ok tt) ∧
    objs s' !! this
      = Some {| data_ := data_ v; size_ := size_ v + length vals |} ∧
    holds s' {| data_ := data_ v; size_ := size_ v + length vals |}
      (xs ++ vals.*2) ∧
    avail s' = avail s ∧
    dom (heap s') = dom (heap s) ∧
    leaked s' = leaked s ∧
    trace s' = trace s ++ replicate (length vals) ev_construct.
Proof.
  induction vals as [|[rv x] vals IH]; intros s v xs Hv Hholds Hroom.
  - exists s. simpl. rewrite !app_nil_r, Nat.add_0_r, Vector_eta.
    by split_and!.
  - simpl in Hroom.
    destruct (PushBack_in_place this rv x s v xs Hv Hholds ltac:(lia))
      as (s1 & E1 & Ho1 & Hholds1 & Ha1 & Hd1 & Hl1 & Ht1 & _).
    set (v1 := {| data_ := data_ v; size_ := size_ v + 1 |}) in *.
    assert (objs s1 !! this = Some v1) as Hv1.
    { rewrite Ho1. apply lookup_insert_eq. }
    destruct (IH s1 v1 (xs ++ [x]) Hv1 Hholds1) as
      (s' & E' & Hv' & Hholds' & Ha' & Hd' & Hl' & Ht').
    { rewrite length_app. simpl. lia. }
    exists s'. simpl. rewrite (bind_Ok _ _ _ _ _ E1).
    replace (size_ v + S (length vals)) with (size_ v1 + length vals)
      by (simpl; lia).
    rewrite <- app_assoc in Hholds'.
    split_and!; try done; try congruence.
    rewrite Ht', Ht1, <- app_assoc. done.
Qed.

(** X10.  For a regular element type, Reserve (of a number of objects that
    [size_t] can hold the byte count of, when it is above the capacity)
    followed by pushes that fit the capacity reserved performs no
    reallocation.  The values pushed are given as lvalues, or as rvalues that
    refer to objects outside the blocks (temporaries, locals of the caller),
    so not to elements of the vector.  The pushes return, keep the buffer
    that Reserve left, allocate and release nothing, invoke one constructor
    each and relocate no element; the vector then holds the old elements
    followed by the values pushed. *)
Theorem Reserve_then_pushes_keep_buffer this n s v xs (vals : list (bool * T)) :
  objs s !! this = Some v →
  holds s v xs →
  n ≤ capacity_ (data_ v) ∨ (addressable n ∧ n ≤ avail s) →
  length xs + length vals ≤ n →
  ∃ s1 v1 s2 v2,
    Vector_Reserve this n s = (s1, Ok tt) ∧
    objs s1 !! this = Some v1 ∧
    exec_all this ((λ a, call_PushBack (pushed a.1 a.2)) <$> vals) s1
      = (s2, Ok tt) ∧
    objs s2 !! this = Some v2 ∧
    data_ v2 = data_ v1 ∧
    size_ v2 = length xs + length vals ∧
    elements s2 this = Some (xs ++ vals.*2) ∧
    avail s2 = avail s1 ∧
    dom (heap s2) = dom (heap s1) ∧
    leaked s2 = leaked s ∧
    trace s2 = trace s1 ++ replicate (length vals) ev_construct.
Proof.
  intros Hv Hholds Hroom Hfit.
  destruct (Reserve_Ok this n s v xs Hv Hholds Hroom)
    as (s1 & v1 & E1 & Hv1 & Hholds1 & Hsize1 & Hcap1 & _ & _ & _ & _ & Hl1).
  destruct (pushes_in_place this vals s1 v1 xs Hv1 Hholds1 ltac:(lia))
    as (s2 & E2 & Hv2 & Hholds2 & Ha2 & Hd2 & Hl2 & Ht2).
  eexists s1, v1, s2, _. split_and!; try done; simpl.
  - destruct Hholds as (Hsize & _). lia.
  - by apply (holds_elements this s2 _ _ Hv2).
  - congruence.
Qed.

Lemma block_with_take capacity xs n :
  n ≤ length xs → length xs ≤ capacity →
  (Some <$> take n xs) ++ replicate (length xs - n) None
     ++ replicate (capacity - length xs) None
    = block_with capacity (take n xs).
Proof.
  intros Hn Hcap. unfold block_with. f_equal.
  rewrite <- replicate_add, length_take. f_equal. lia.
Qed.

Lemma block_with_split capacity xs n :
  n ≤ length xs →
  block_with capacity xs
    = (Some <$> take n xs) ++ (Some <$> drop n xs)
        ++ replicate (capacity - length xs) None.
Proof.
  intros Hn. unfold block_with.
  by rewrite <- (take_drop n xs) at 1; rewrite fmap_app, <- app_assoc.
Qed.

Lemma block_with_room capacity xs n :
  length xs ≤ n → n ≤ capacity →
  block_with capacity xs
    = (Some <$> xs) ++ (Some <$> []) ++ replicate (n - length xs) None
        ++ replicate (capacity - n) None.
Proof.
  intros Hn Hcap. unfold block_with. simpl. f_equal.
  rewrite <- replicate_add. f_equal. lia.
Qed.

Lemma block_with_app capacity xs ys n :
  length ys = n - length xs → length xs ≤ n →
  (Some <$> xs) ++ (Some <$> ys) ++ replicate (capacity - n) None
    = block_with capacity (xs ++ ys).
Proof.
  intros Hlen Hn. unfold block_with.
  rewrite fmap_app, <- app_assoc, length_app. do 3 f_equal. lia.
Qed.

(** X13.  Resize on a well-formed vector of a regular element type, with
    room in the capacity, or in the memory provider for a number of objects
    that [size_t] can hold the byte count of, either returns or throws.
    When it returns, the vector holds the first [new_size] of its
    elements followed by [new_size - Size()] elements made by the default
    constructor, and its capacity is the larger of the old capacity and
    [new_size].  When it throws (a default constructor threw), the new
    elements constructed so far are destroyed and the vector holds the
    elements it held, with its length unchanged; nothing is leaked either
    way. *)
Theorem Resize_truncates_or_value_initializes this new_size s v xs s' r :
  objs s !! this = Some v →
  holds s v xs →
  new_size ≤ capacity_ (data_ v) ∨
    (addressable new_size ∧ new_size ≤ avail s) →
  Vector_Resize this new_size s = (s', r) →
  match r with
  | Ok _ =>
      ∃ v' ys,
        objs s' !! this = Some v' ∧
        holds s' v' (take new_size xs ++ ys) ∧
        length ys = new_size - length xs ∧
        Forall default_made ys ∧
        size_ v' = new_size ∧
        capacity_ (data_ v') = new_size `max` capacity_ (data_ v) ∧
        leaked s' = leaked s
  | Throw _ =>
      (∃ w, (default_construct w).2 = None) ∧
      length xs < new_size ∧
      ∃ v', objs s' !! this = Some v' ∧ holds s' v' xs ∧ leaked s' = leaked s
  | Fault _ => False
  end.
Proof.
  intros Hv Hholds Hroom E. pose proof Hholds as (Hsize & Hcap & Hblk).
  unfold Vector_Resize in E.
  rewrite (bind_Ok _ _ _ _ _ (get_obj_Some _ _ _ Hv)) in E.
  unfold RawMemory_Capacity in E.
  destruct (decide (new_size < size_ v)) as [Hlt|Hge].
  - (* the trailing elements are destroyed *)
    destruct (buffer_ (data_ v)) as [b|] eqn:Hbuf; [|lia].
    rewrite (GetAddress_Some _ _ Hbuf), ptr_at in E. simpl in E.
    destruct (destroy_n_Some (size_ v - new_size) s b
                (Some <$> take new_size xs) (drop new_size xs)
                (replicate (capacity_ (data_ v) - length xs) None))
      as (s1 & E1 & M1).
    { rewrite length_drop. lia. }
    { rewrite Hblk. f_equal. apply block_with_split. lia. }
    rewrite length_fmap, length_take in E1.
    replace (new_size `min` length xs) with new_size in E1 by lia.
    apply mem_components in M1 as (Hh1 & Ha1 & Ho1 & Hl1).
    rewrite (bind_Ok _ _ _ _ _ E1) in E.
    assert (objs s1 !! this = Some v) as Hv1 by congruence.
    rewrite (set_size_Some _ _ _ _ Hv1) in E. inversion E; subst s' r.
    exists {| data_ := data_ v; size_ := new_size |}, [].
    rewrite app_nil_r. split_and!; simpl; try done; try lia.
    + apply lookup_insert_eq.
    + split_and!; simpl.
      * rewrite length_take. lia.
      * rewrite length_take. lia.
      * rewrite Hbuf, Hh1, lookup_insert_eq. f_equal.
        rewrite Hsize. apply block_with_take; lia.
  - assert (∃ s1 v1,
        (if decide (capacity_ (data_ v) < new_size)
         then Vector_Reserve this new_size else mret tt) s = (s1, Ok tt) ∧
        objs s1 !! this = Some v1 ∧ holds s1 v1 xs ∧
        capacity_ (data_ v1) = new_size `max` capacity_ (data_ v) ∧
        leaked s1 = leaked s) as (s1 & v1 & E1 & Hv1 & Hholds1 & Hcap1 & Hl1).
    { case_decide as Hgrow.
      - destruct (Reserve_Ok this new_size s v xs Hv Hholds Hroom)
          as (s1 & v1 & E1 & Hv1 & Hholds1 & _ & Hcap1 & _ & _ & _ & _ & Hl1).
        by exists s1, v1.
      - exists s, v. split_and!; try done. lia. }
    rewrite bind_assoc, (bind_Ok _ _ _ _ _ E1) in E.
    rewrite bind_assoc, (bind_Ok _ _ _ _ _ (get_obj_Some _ _ _ Hv1)) in E.
    destruct Hholds1 as (Hsize1 & Hcapxs1 & Hblk1).
    rewrite Hsize1 in E.
    destruct (decide (new_size = length xs)) as [->|Hmore].
    + rewrite Nat.sub_diag in E.
      rewrite (bind_Ok _ _ s1 s1 tt) in E by done.
      rewrite (set_size_Some _ _ _ _ Hv1) in E. inversion E; subst s' r.
      exists {| data_ := data_ v1; size_ := length xs |}, [].
      rewrite firstn_all, app_nil_r.
      split_and!; simpl; try done; try lia.
      apply lookup_insert_eq.
    + destruct (buffer_ (data_ v1)) as [b|] eqn:Hbuf; [|lia].
      rewrite (GetAddress_Some _ _ Hbuf), ptr_at in E. simpl in E.
      rewrite bind_unfold in E.
      destruct (uninitialized_value_construct_n _ _ s1) as [s2 r2] eqn:E2.
      apply (uninitialized_value_construct_from_spec (new_size - length xs) 0
               s1 b (length xs) (Some <$> xs) []
               (replicate (capacity_ (data_ v1) - new_size) None)) in E2;
        [|done|by rewrite length_fmap|].
      2:{ rewrite Hblk1. f_equal. apply block_with_room; lia. }
      destruct r2 as [[]|e2|f2]; [| |done].
      * destruct E2 as (ys & Hlen & Hys & M2). simpl in M2.
        apply mem_components in M2 as (Hh2 & Ha2 & Ho2 & Hl2).
        assert (objs s2 !! this = Some v1) as Hv2 by congruence.
        rewrite (set_size_Some _ _ _ _ Hv2) in E. inversion E; subst s' r.
        exists {| data_ := data_ v1; size_ := new_size |}, ys.
        rewrite take_ge by lia.
        split_and!; simpl; try done; try congruence.
        -- apply lookup_insert_eq.
        -- split_and!; simpl.
           ++ rewrite length_app. lia.
           ++ rewrite length_app. lia.
           ++ rewrite Hbuf, Hh2, lookup_insert_eq. f_equal.
              apply block_with_app; lia.
      * destruct E2 as (Hbad & M2). simpl in M2.
        apply mem_components in M2 as (Hh2 & Ha2 & Ho2 & Hl2).
        inversion E; subst s' r. split_and!; [done|lia|].
        exists v1. split_and!; try congruence.
        split_and!; [done..|].
        rewrite Hbuf, Hh2, lookup_insert_eq. f_equal. symmetry.
        apply (block_with_room _ _ new_size); lia.
Qed.

(** Placement-new of the new element in a raw slot.  The state [s0] is the
    one the construction of the new element leaves: when the argument is an
    rvalue that refers to an element, that element is moved-from in [s0]. *)
Lemma construct_at_Ok p args s s0 x :
  construct_value args s = (s0, Ok x) →
  slot s0 p = Some None →
  construct_at p args s = (set_slot p (Some x) s0, Ok tt).
Proof.
  intros E0 Hp. unfold construct_at. rewrite (bind_Ok _ _ _ _ _ E0).
  by apply place_raw.
Qed.

Lemma construct_at_new_Ok nb k n i args s s0 x :
  construct_value args s = (s0, Ok x) →
  heap s !! nb = None →
  i < k →
  ∃ s1,
    construct_at (Ptr (Some nb) i) args (with_new_block nb k n s)
      = (s1, Ok tt) ∧
    mem s1 = (<[nb := <[i := Some x]> (replicate k None)]> (heap s0),
              n, objs s0, leaked s0).
Proof.
  intros E0 Hnb Hi.
  destruct (construct_at (Ptr (Some nb) i) args (with_new_block nb k n s))
    as [s1 r1] eqn:E1.
  destruct (construct_at_new_block _ _ _ _ _ _ _ _ Hnb E1)
    as (s0' & r0 & E0' & H).
  rewrite E0 in E0'. injection E0' as <- <-. rewrite decide_True in H by done.
  destruct H as [-> M]. by exists s1.
Qed.

(** EmplaceBack below the capacity. *)
Lemma EmplaceBack_in_place this args x s s0 v xs b :
  objs s !! this = Some v →
  construct_value args s = (s0, Ok x) →
  holds s0 v xs →
  buffer_ (data_ v) = Some b →
  length xs < capacity_ (data_ v) →
  ∃ s1,
    Vector_EmplaceBack this args s = (s1, Ok (Ptr (Some b) (length xs))) ∧
    mem s1 = (<[b := block_with (capacity_ (data_ v)) (xs ++ [x])]> (heap s0),
              avail s0,
              <[this := {| data_ := data_ v; size_ := size_ v + 1 |}]> (objs s0),
              leaked s0) ∧
    world s1 = world s0 ∧
    trace s1 = trace s0.
Proof.
  intros Hv E0 (Hsize & Hcap & Hblk) Hbuf Hroom. rewrite Hbuf in Hblk.
  destruct (construct_value_frame _ _ _ _ E0) as (Ho0 & _).
  assert (construct_at (Ptr (Some b) (length xs)) args s
          = (set_slot (Ptr (Some b) (length xs)) (Some x) s0, Ok tt)) as E1.
  { apply construct_at_Ok; [done|].
    rewrite slot_lookup, Hblk. simpl. apply block_with_lookup. lia. }
  eexists. split_and!.
  - unfold Vector_EmplaceBack. step (get_obj_Some _ _ _ Hv).
    unfold RawMemory_Capacity. rewrite decide_False by lia.
    rewrite (GetAddress_Some _ _ Hbuf), ptr_at, Hsize. simpl.
    rewrite bind_assoc, (bind_Ok _ _ _ _ _ E1).
    erewrite bind_Ok; [|reflexivity].
    erewrite bind_Ok; last first.
    { apply (set_size_Some _ _ _ v). simpl. congruence. }
    reflexivity.
  - pose proof (mem_set_slot b (length xs) (Some x) s0 _ Hblk) as M.
    apply mem_components in M as (Hh & Ha & Ho & Hl).
    unfold mem. cbn [heap avail objs leaked with_objs].
    rewrite Hh, Ha, Ho, Hl, Hsize. by rewrite block_with_snoc by lia.
  - done.
  - done.
Qed.

(** X21.  For any element type, PopBack undoes a PushBack made below the
    capacity, once the constructor of the new element has succeeded: after
    the two calls blocks, memory provider and vectors are exactly as the
    construction of the new element left them, nothing is leaked, and the
    only operations of the element type were the construction of the new
    element and its destruction.  The construction of the new element
    changes nothing unless the argument refers, as an rvalue, to an object
    in a block (an element of the vector, for one), which is then
    moved-from; for every other argument the two calls leave blocks, memory
    provider and vectors exactly as before. *)
Theorem PopBack_undoes_PushBack_in_place this args x s s0 v xs :
  objs s !! this = Some v →
  construct_value args s = (s0, Ok x) →
  holds s0 v xs →
  length xs < capacity_ (data_ v) →
  ∃ s1 s2,
    Vector_PushBack this args s = (s1, Ok tt) ∧
    elements s1 this = Some (xs ++ [x]) ∧
    Vector_PopBack this s1 = (s2, Ok tt) ∧
    mem s2 = mem s0 ∧
    (moved_from args = None → mem s2 = mem s) ∧
    elements s2 this = Some xs ∧
    world s2 = destroy x (world s1) ∧
    trace s2 = trace s ++ [ev_construct; ev_destroy].
Proof.
  intros Hv E0 Hholds Hroom. pose proof Hholds as (Hsize & Hcap & Hblk).
  destruct (construct_value_frame _ _ _ _ E0) as (Ho0 & _).
  assert (objs s0 !! this = Some v) as Hv0 by congruence.
  destruct (buffer_ (data_ v)) as [b|] eqn:Hbuf; [|lia].
  destruct (EmplaceBack_in_place this args x s s0 v xs b Hv E0 Hholds Hbuf
              Hroom) as (s1 & E1 & M1 & Hw1 & Ht1).
  apply mem_components in M1 as (Hh1 & Ha1 & Ho1 & Hl1).
  set (v1 := {| data_ := data_ v; size_ := size_ v + 1 |}) in *.
  assert (objs s1 !! this = Some v1) as Hv1.
  { rewrite Ho1. apply lookup_insert_eq. }
  destruct (PopBack_last this s1 v1 b xs x Hv1 Hbuf) as (s2 & E2 & M2 & Hw2 & Ht2).
  { simpl. lia. }
  { simpl. lia. }
  { rewrite Hh1. apply lookup_insert_eq. }
  assert (mem s2 = mem s0) as M.
  { rewrite M2, Hh1, Ha1, Ho1, Hl1. unfold mem. simpl.
    rewrite !insert_insert_eq.
    rewrite (insert_id (heap s0) b) by done.
    replace (size_ v + 1 - 1) with (size_ v) by lia.
    by rewrite Vector_eta, insert_id. }
  exists s1, s2. split_and!; try done.
  - unfold Vector_PushBack. by rewrite (bind_Ok _ _ _ _ _ E1).
  - apply (holds_elements this s1 v1); [done|].
    split_and!; simpl.
    + rewrite length_app. simpl. lia.
    + rewrite length_app. simpl. lia.
    + by rewrite Hbuf, Hh1, lookup_insert_eq.
  - intros Hnone. rewrite M. by apply (construct_value_keeps args s s0 (Ok x)).
  - apply mem_components in M as (Hh & _ & Ho & _).
    rewrite (elements_same_mem this s0 s2) by done.
    by apply (holds_elements this s0 v).
  - rewrite Ht2, Ht1, (construct_value_trace _ _ _ _ E0).
    by rewrite <- app_assoc.
Qed.

End RegularElements.

(** ** The constructors *)

(** *** A block that is too short

    When the count of bytes has wrapped, the block is shorter than the
    capacity recorded.  Filling it then cannot return: it runs past the end
    of the block, unless a constructor throws before, in which case what
    was constructed is destroyed as usual. *)

Lemma copy_construct_at_no_slot dst src s x s' r :
  slot s src = Some (Some x) →
  slot s dst = None →
  copy_construct_at dst src s = (s', r) →
  match r with
  | Ok _ => False
  | Throw _ => (copy_construct x (world s)).2 = None ∧ mem s' = mem s
  | Fault _ => True
  end.
Proof.
  intros Hsrc Hdst E. unfold copy_construct_at in E.
  rewrite (bind_Ok _ _ _ _ _ (load_Some _ _ _ Hsrc)), bind_unfold in E.
  destruct (elem_op _ _ _ s) as [s1 r1] eqn:E1.
  apply elem_op_inv in E1 as [M1 Hr1].
  destruct r1 as [y|e|f].
  - unfold place in E. rewrite (slot_mem _ _ _ M1), Hdst in E.
    by inversion E.
  - inversion E; subst s' r. by destruct Hr1 as (_ & _ & ?).
  - by inversion E.
Qed.

Lemma value_construct_at_no_slot dst s s' r :
  slot s dst = None →
  value_construct_at dst s = (s', r) →
  match r with
  | Ok _ => False
  | Throw _ => (default_construct (world s)).2 = None ∧ mem s' = mem s
  | Fault _ => True
  end.
Proof.
  intros Hdst E. unfold value_construct_at in E. rewrite bind_unfold in E.
  destruct (elem_op _ _ _ s) as [s1 r1] eqn:E1.
  apply elem_op_inv in E1 as [M1 Hr1].
  destruct r1 as [y|e|f].
  - unfold place in E. rewrite (slot_mem _ _ _ M1), Hdst in E.
    by inversion E.
  - inversion E; subst s' r. by destruct Hr1 as (_ & _ & ?).
  - by inversion E.
Qed.

(** [std::uninitialized_copy_n] of [n] objects to a block that has room
    for fewer. *)
Lemma uninitialized_copy_from_short n : ∀ k s b nb src done todo room s' r,
  b ≠ nb →
  heap s !! b = Some src →
  take n (drop k src) = Some <$> todo →
  length todo = n →
  length done = k →
  room < n →
  heap s !! nb = Some ((Some <$> done) ++ replicate room None) →
  uninitialized_copy_from k n (Ptr (Some b) 0) (Ptr (Some nb) 0) s = (s', r) →
  match r with
  | Ok _ => False
  | Throw _ =>
      (∃ x w, x ∈ todo ∧ (copy_construct x w).2 = None) ∧
      mem s' = (<[nb := replicate (k + room) None]> (heap s),
                avail s, objs s, leaked s)
  | Fault _ => True
  end.
Proof.
  induction n as [|n IH];
    intros k s b nb src done todo room s' r Hne Hb Hsrc Hlen Hk Hroom Hnb E;
    [lia|].
  destruct todo as [|x todo]; [done|]. simpl in Hsrc, Hlen.
  apply take_drop_cons in Hsrc as [Hx Hsrc].
  cbn [uninitialized_copy_from] in E.
  change (Ptr (Some nb) 0 +ₚ k) with (Ptr (Some nb) k) in E.
  change (Ptr (Some b) 0 +ₚ k) with (Ptr (Some b) k) in E.
  rewrite bind_unfold in E. unfold on_throw in E.
  destruct (copy_construct_at _ _ s) as [s1 r1] eqn:E1.
  assert (slot s (Ptr (Some b) k) = Some (Some x)) as Hsx.
  { unfold slot. simpl. rewrite Hb. simpl. exact Hx. }
  assert (∀ s1, mem s1 = mem s →
            ∃ s2, destroy_n (Ptr (Some nb) 0) k s1 = (s2, Ok tt) ∧
                  mem s2 = (<[nb := replicate (k + room) None]> (heap s),
                            avail s, objs s, leaked s)) as Hclean.
  { intros s1' M1. injection M1 as Hh1 Ha1 Ho1 Hl1.
    destruct (destroy_n_Some k s1' nb [] done (replicate room None))
      as (s2 & E2 & M2); [done | by rewrite Hh1 |].
    exists s2. split; [exact E2|]. rewrite M2, Hh1, Ha1, Ho1, Hl1. simpl.
    by rewrite replicate_add. }
  destruct room as [|room].
  - apply (copy_construct_at_no_slot _ _ _ x) in E1; [|done|].
    2:{ unfold slot. simpl. rewrite Hnb. simpl. apply lookup_ge_None.
        rewrite length_app, length_fmap. simpl. lia. }
    destruct r1 as [[]|e|f]; [done| |by inversion E; subst].
    destruct E1 as [Hthrow M1].
    destruct (Hclean s1 M1) as (s2 & E2 & M2). rewrite E2 in E.
    inversion E; subst s' r.
    split; [exists x, (world s); split; [by left | done] | done].
  - apply (copy_construct_at_inv _ _ _ x) in E1; [|done|].
    2:{ unfold slot. simpl. rewrite Hnb. simpl.
        rewrite lookup_app_r; rewrite length_fmap; [|lia].
        by rewrite Hk, Nat.sub_diag. }
    destruct r1 as [[]|e|f]; [| |done].
    + destruct E1 as (y & Hy & M1).
      rewrite (mem_set_slot _ _ _ _ _ Hnb) in M1.
      injection M1 as Hh1 Ha1 Ho1 Hl1. simpl in Hh1.
      assert (<[k:=Some y]> ((Some <$> done) ++ None :: replicate room None)
              = (Some <$> (done ++ [y])) ++ replicate room None) as Hblk.
      { rewrite insert_app_r_alt; rewrite length_fmap; [|lia].
        rewrite Hk, Nat.sub_diag, fmap_app. simpl. by rewrite <- app_assoc. }
      simpl in Hh1. rewrite Hblk in Hh1.
      specialize (IH (S k) s1 b nb src (done ++ [y]) todo room s' r Hne).
      destruct r as [[]|e|f]; [| |done].
      * apply IH; try done.
        { by rewrite Hh1, lookup_insert_ne. }
        { lia. }
        { rewrite length_app. simpl. lia. }
        { lia. }
        { by rewrite Hh1, lookup_insert_eq. }
      * destruct IH as ((x' & w & Hx' & Hw) & M); try done.
        { by rewrite Hh1, lookup_insert_ne. }
        { lia. }
        { rewrite length_app. simpl. lia. }
        { lia. }
        { by rewrite Hh1, lookup_insert_eq. }
        split; [exists x', w; split; [by right | done]|].
        rewrite M, Hh1, Ha1, Ho1, Hl1, insert_insert_eq.
        by replace (S k + room) with (k + S room) by lia.
    + destruct E1 as [Hthrow M1].
      destruct (Hclean s1 M1) as (s2 & E2 & M2). rewrite E2 in E.
      inversion E; subst s' r.
      split; [exists x, (world s); split; [by left | done] | done].
Qed.

(** [std::uninitialized_value_construct_n] of [n] objects in a block that
    has room for fewer. *)
Lemma uninitialized_value_construct_from_short n : ∀ k s nb done room s' r,
  length done = k →
  room < n →
  heap s !! nb = Some ((Some <$> done) ++ replicate room None) →
  uninitialized_value_construct_from k n (Ptr (Some nb) 0) s = (s', r) →
  match r with
  | Ok _ => False
  | Throw _ =>
      (∃ w, (default_construct w).2 = None) ∧
      mem s' = (<[nb := replicate (k + room) None]> (heap s),
                avail s, objs s, leaked s)
  | Fault _ => True
  end.
Proof.
  induction n as [|n IH]; intros k s nb done room s' r Hk Hroom Hnb E; [lia|].
  cbn [uninitialized_value_construct_from] in E.
  change (Ptr (Some nb) 0 +ₚ k) with (Ptr (Some nb) k) in E.
  rewrite bind_unfold in E. unfold on_throw in E.
  destruct (value_construct_at _ s) as [s1 r1] eqn:E1.
  assert (∀ s1, mem s1 = mem s →
            ∃ s2, destroy_n (Ptr (Some nb) 0) k s1 = (s2, Ok tt) ∧
                  mem s2 = (<[nb := replicate (k + room) None]> (heap s),
                            avail s, objs s, leaked s)) as Hclean.
  { intros s1' M1. injection M1 as Hh1 Ha1 Ho1 Hl1.
    destruct (destroy_n_Some k s1' nb [] done (replicate room None))
      as (s2 & E2 & M2); [done | by rewrite Hh1 |].
    exists s2. split; [exact E2|]. rewrite M2, Hh1, Ha1, Ho1, Hl1. simpl.
    by rewrite replicate_add. }
  destruct room as [|room].
  - apply value_construct_at_no_slot in E1.
    2:{ unfold slot. simpl. rewrite Hnb. simpl. apply lookup_ge_None.
        rewrite length_app, length_fmap. simpl. lia. }
    destruct r1 as [[]|e|f]; [done| |by inversion E; subst].
    destruct E1 as [Hthrow M1].
    destruct (Hclean s1 M1) as (s2 & E2 & M2). rewrite E2 in E.
    inversion E; subst s' r. split; [by exists (world s) | done].
  - apply value_construct_at_inv in E1.
    2:{ unfold slot. simpl. rewrite Hnb. simpl.
        rewrite lookup_app_r; rewrite length_fmap; [|lia].
        by rewrite Hk, Nat.sub_diag. }
    destruct r1 as [[]|e|f]; [| |done].
    + destruct E1 as (y & Hy & M1).
      rewrite (mem_set_slot _ _ _ _ _ Hnb) in M1.
      injection M1 as Hh1 Ha1 Ho1 Hl1. simpl in Hh1.
      assert (<[k:=Some y]> ((Some <$> done) ++ None :: replicate room None)
              = (Some <$> (done ++ [y])) ++ replicate room None) as Hblk.
      { rewrite insert_app_r_alt; rewrite length_fmap; [|lia].
        rewrite Hk, Nat.sub_diag, fmap_app. simpl. by rewrite <- app_assoc. }
      simpl in Hh1. rewrite Hblk in Hh1.
      specialize (IH (S k) s1 nb (done ++ [y]) room s' r).
      destruct r as [[]|e|f]; [| |done].
      * apply IH; try done.
        { rewrite length_app. simpl. lia. }
        { lia. }
        { by rewrite Hh1, lookup_insert_eq. }
      * destruct IH as (Hw & M); try done.
        { rewrite length_app. simpl. lia. }
        { lia. }
        { by rewrite Hh1, lookup_insert_eq. }
        split; [done|].
        rewrite M, Hh1, Ha1, Ho1, Hl1, insert_insert_eq.
        by replace (S k + room) with (k + S room) by lia.
    + destruct E1 as [Hthrow M1].
      destruct (Hclean s1 M1) as (s2 & E2 & M2). rewrite E2 in E.
      inversion E; subst s' r. split; [by exists (world s) | done].
Qed.

(** The copy constructor applied to a well-formed vector, whatever its
    outcome, when the count of bytes has not wrapped. *)
Lemma Vector_copy_inv_exact this other s o xs s' r :
  objs s !! other = Some o →
  holds s o xs →
  slots (length xs) = length xs →
  Vector_copy this other s = (s', r) →
  match r with
  | Ok _ =>
      length xs ≤ avail s ∧
      ∃ ys d,
        Forall2 copy_of xs ys ∧
        capacity_ d = length xs ∧
        objs s' = <[this := {| data_ := d; size_ := length xs |}]> (objs s) ∧
        avail s' = avail s - length xs ∧
        leaked s' = leaked s ∧
        match buffer_ d with
        | Some nb => xs ≠ [] ∧ heap s !! nb = None ∧
                     heap s' = <[nb := Some <$> ys]> (heap s)
        | None => xs = [] ∧ heap s' = heap s
        end
  | Throw e =>
      mem s' = mem s ∧
      ((avail s < length xs ∧ e = bad_alloc) ∨
       ∃ x w, x ∈ xs ∧ (copy_construct x w).2 = None)
  | Fault _ => False
  end.
Proof.
  intros Ho Hholds Hslots E. pose proof Hholds as (Hsize & Hcap & Hblk).
  unfold Vector_copy in E.
  rewrite (bind_Ok _ _ _ _ _ (get_obj_Some _ _ _ Ho)) in E.
  rewrite Hsize in E. rewrite bind_unfold in E.
  destruct (RawMemory_new (length xs) s) as [s2 r2] eqn:Enew.
  destruct r2 as [d|e2|f2].
  - apply RawMemory_new_inv in Enew. rewrite Hslots in Enew.
    destruct Enew as [Hcapd [(Hn0 & Hd & ->) | (Hn & Hav & nb & Hd & Hnb & ->)]].
    + assert (xs = []) as -> by by apply nil_length_inv.
      simpl in E. inversion E; subst s' r. split; [simpl; lia|].
      exists [], d. rewrite Hd. split_and!; try done. simpl. lia.
    + set (s2 := with_avail (avail s - length xs)
                   (with_heap (<[nb:=replicate (length xs) None]> (heap s)) s))
        in *.
      destruct (buffer_ (data_ o)) as [b|] eqn:Hbuf; last first.
      { destruct xs; [done | simpl in *; lia]. }
      rewrite (GetAddress_Some _ _ Hbuf), (GetAddress_Some _ _ Hd) in E.
      rewrite bind_unfold in E. unfold on_throw in E.
      destruct (uninitialized_copy_n _ _ _ s2) as [s3 r3] eqn:Ecopy.
      apply (uninitialized_copy_from_at (length xs) 0 s2 b nb 0 0
               (block_with (capacity_ (data_ o)) xs) [] [] xs []) in Ecopy;
        [|congruence| | |done|done|done|].
      2:{ simpl. rewrite lookup_insert_ne by congruence. exact Hblk. }
      2:{ change (0 + 0) with 0. rewrite drop_0. unfold block_with.
          by rewrite take_app_length' by by rewrite length_fmap. }
      2:{ simpl. rewrite lookup_insert_eq. by rewrite app_nil_r. }
      destruct r3 as [[]|e3|f3]; [| |done].
      * destruct Ecopy as (ys & Hys & M3). simpl in M3.
        rewrite app_nil_r, insert_insert_eq in M3.
        apply mem_components in M3 as (Hh3 & Ha3 & Ho3 & Hl3).
        inversion E; subst s' r. split; [done|].
        exists ys, d. rewrite Hd. simpl. split_and!; try done.
        -- by rewrite Ho3.
        -- by intros ->.
      * destruct Ecopy as (Hbad & M3). simpl in M3.
        rewrite app_nil_r, insert_insert_eq in M3.
        destruct (release_new_buffer d nb (replicate (length xs) None) s s3
                    Hd Hnb) as (s5 & E5 & M5);
          [lia | by rewrite length_replicate | by rewrite Hcapd |].
        rewrite E5 in E. inversion E; subst s' r. split; [|by right].
        by rewrite M5, omap_id_replicate_None, app_nil_r.
  - apply RawMemory_new_Throw in Enew as (Hlt & -> & ->). rewrite Hslots in Hlt.
    inversion E; subst s' r. split; [done | by left].
  - by apply RawMemory_new_inv in Enew.
Qed.

(** The copy constructor applied to a well-formed vector, whatever its
    outcome. *)
Lemma Vector_copy_inv this other s o xs s' r :
  objs s !! other = Some o →
  holds s o xs →
  Vector_copy this other s = (s', r) →
  match r with
  | Ok _ =>
      length xs ≤ avail s ∧
      ∃ ys d,
        Forall2 copy_of xs ys ∧
        capacity_ d = length xs ∧
        objs s' = <[this := {| data_ := d; size_ := length xs |}]> (objs s) ∧
        avail s' = avail s - length xs ∧
        leaked s' = leaked s ∧
        match buffer_ d with
        | Some nb => xs ≠ [] ∧ heap s !! nb = None ∧
                     heap s' = <[nb := Some <$> ys]> (heap s)
        | None => xs = [] ∧ heap s' = heap s
        end
  | Throw e =>
      mem s' = mem s ∧
      ((avail s < length xs ∧ e = bad_alloc) ∨
       ∃ x w, x ∈ xs ∧ (copy_construct x w).2 = None)
  | Fault _ => slots (length xs) ≠ length xs
  end.
Proof.
  intros Ho Hholds E.
  destruct (decide (slots (length xs) = length xs)) as [Hslots|Hshort].
  { pose proof (Vector_copy_inv_exact this other s o xs s' r Ho Hholds
                  Hslots E) as H.
    by destruct r as [[]|e|f]. }
  pose proof (slots_le (length xs)) as Hle.
  pose proof Hholds as (Hsize & Hcap & Hblk).
  unfold Vector_copy in E.
  rewrite (bind_Ok _ _ _ _ _ (get_obj_Some _ _ _ Ho)) in E.
  rewrite Hsize in E. rewrite bind_unfold in E.
  destruct (RawMemory_new (length xs) s) as [s2 r2] eqn:Enew.
  destruct r2 as [d|e2|f2].
  - apply RawMemory_new_inv in Enew.
    destruct Enew as [Hcapd [(Hn0 & Hd & ->) | (Hn & Hav & nb & Hd & Hnb & ->)]].
    { exfalso. apply Hshort. rewrite Hn0 in *. lia. }
    destruct (buffer_ (data_ o)) as [b|] eqn:Hbuf; last first.
    { destruct xs; [done | simpl in *; lia]. }
    rewrite (GetAddress_Some _ _ Hbuf), (GetAddress_Some _ _ Hd) in E.
    rewrite bind_unfold in E. unfold on_throw in E.
    match type of E with
    | context [match uninitialized_copy_n ?p ?n ?q ?s2 with _ => _ end] =>
        destruct (uninitialized_copy_n p n q s2) as [s3 r3] eqn:Ecopy
    end.
    apply (uninitialized_copy_from_short (length xs) 0 _ b nb
             (block_with (capacity_ (data_ o)) xs) [] xs
             (slots (length xs))) in Ecopy;
      [|congruence| | |done|done|lia|].
    2:{ simpl. rewrite lookup_insert_ne by congruence. exact Hblk. }
    2:{ rewrite drop_0. unfold block_with.
        by rewrite take_app_length' by by rewrite length_fmap. }
    2:{ simpl. by rewrite lookup_insert_eq. }
    destruct r3 as [[]|e3|f3]; [done| |by inversion E; subst].
    destruct Ecopy as (Hbad & M3). simpl in M3.
    rewrite insert_insert_eq in M3.
    destruct (release_block d nb (replicate (slots (length xs)) None)
                (heap s) (avail s) (objs s) (leaked s) s3 Hd Hnb)
      as (s5 & E5 & M5);
      [by rewrite length_replicate | by rewrite length_replicate |].
    rewrite E5 in E. inversion E; subst s' r. split; [|by right].
    by rewrite M5, omap_id_replicate_None, app_nil_r.
  - apply RawMemory_new_Throw in Enew as (Hlt & -> & ->).
    inversion E; subst s' r. split; [done|]. left. split; [lia | done].
  - by apply RawMemory_new_inv in Enew.
Qed.

(** X11.  The copy constructor applied to a well-formed vector either
    returns or throws, unless the bytes of the elements of the source are
    too many to be counted in a [size_t]: the run can then construct an
    element past the end of a block that is too short, and that alone
    stops it otherwise.  When it returns, the new vector holds one copy of
    each element of the source, in order, in a buffer of its own whose
    capacity is exactly the length of the source (no buffer at all for an
    empty source), and the source is as it was.  When it throws (the
    allocation failed or a copy constructor threw), the copies made so far
    are destroyed, the buffer is released, and blocks, memory provider and
    vectors are as before the call, with nothing leaked. *)
Theorem Vector_copy_makes_separate_copy this other s o xs s' r :
  this ≠ other →
  objs s !! other = Some o →
  holds s o xs →
  Vector_copy this other s = (s', r) →
  match r with
  | Ok _ =>
      ∃ v' ys,
        Forall2 copy_of xs ys ∧
        objs s' !! this = Some v' ∧
        holds s' v' ys ∧
        capacity_ (data_ v') = length xs ∧
        (buffer_ (data_ v') = None ↔ xs = []) ∧
        separate v' o ∧
        objs s' !! other = Some o ∧
        holds s' o xs ∧
        avail s' = avail s - length xs ∧
        leaked s' = leaked s
  | Throw _ => mem s' = mem s
  | Fault _ => ¬ addressable (length xs)
  end.
Proof.
  intros Hne Ho Hholds E.
  apply (Vector_copy_inv this other s o xs) in E; [|done..].
  destruct r as [[]|e|f];
    [|by destruct E|intros Haddr; by apply E, slots_addressable].
  destruct E as (Hav & ys & d & Hys & Hcapd & Hobjs & Ha & Hl & Hheap).
  pose proof (Forall2_length _ _ _ Hys) as Hlen.
  destruct Hholds as (Hsize & Hcap & Hblk).
  exists {| data_ := d; size_ := length xs |}, ys.
  split_and!; simpl; try done.
  - rewrite Hobjs. apply lookup_insert_eq.
  - split_and!; simpl; [lia..|].
    destruct (buffer_ d) as [nb|]; [|by destruct Hheap as [-> _]].
    destruct Hheap as (_ & _ & ->). rewrite lookup_insert_eq. f_equal.
    rewrite Hcapd, Hlen. symmetry. apply block_with_full.
  - destruct (buffer_ d) as [nb|]; [|by destruct Hheap].
    by destruct Hheap as (? & _).
  - intros blk Hblk' Hb. simpl in Hblk'.
    rewrite Hblk' in Hheap. destruct Hheap as (_ & Hnb & _).
    rewrite Hb, Hnb in Hblk. done.
  - rewrite Hobjs. by rewrite lookup_insert_ne.
  - split_and!; [done..|].
    destruct (buffer_ (data_ o)) as [b|] eqn:Hbuf; [|done].
    destruct (buffer_ d) as [nb|]; [|by destruct Hheap as [_ ->]].
    destruct Hheap as (_ & Hnb & ->).
    rewrite lookup_insert_ne; [done|]. intros ->. congruence.
Qed.

(** The constructor from a size, whatever its outcome, when the count of
    bytes has not wrapped. *)
Lemma Vector_sized_inv_exact this n s s' r :
  slots n = n →
  Vector_sized this n s = (s', r) →
  match r with
  | Ok _ =>
      n ≤ avail s ∧
      ∃ ys d,
        length ys = n ∧
        Forall default_made ys ∧
        capacity_ d = n ∧
        objs s' = <[this := {| data_ := d; size_ := n |}]> (objs s) ∧
        avail s' = avail s - n ∧
        leaked s' = leaked s ∧
        match buffer_ d with
        | Some nb => n ≠ 0 ∧ heap s !! nb = None ∧
                     heap s' = <[nb := Some <$> ys]> (heap s)
        | None => n = 0 ∧ heap s' = heap s
        end
  | Throw e =>
      mem s' = mem s ∧
      ((avail s < n ∧ e = bad_alloc) ∨ ∃ w, (default_construct w).2 = None)
  | Fault _ => False
  end.
Proof.
  intros Hslots E. unfold Vector_sized in E. rewrite bind_unfold in E.
  destruct (RawMemory_new n s) as [s2 r2] eqn:Enew.
  destruct r2 as [d|e2|f2].
  - apply RawMemory_new_inv in Enew. rewrite Hslots in Enew.
    destruct Enew as [Hcapd [(-> & Hd & ->) | (Hn & Hav & nb & Hd & Hnb & ->)]].
    + simpl in E. inversion E; subst s' r. split; [lia|].
      exists [], d. rewrite Hd. split_and!; try done. simpl. lia.
    + set (s2 := with_avail (avail s - n)
                   (with_heap (<[nb:=replicate n None]> (heap s)) s)) in *.
      rewrite (GetAddress_Some _ _ Hd) in E.
      rewrite bind_unfold in E. unfold on_throw in E.
      destruct (uninitialized_value_construct_n _ _ s2) as [s3 r3] eqn:Ector.
      apply (uninitialized_value_construct_from_spec n 0 s2 nb 0 [] [] [])
        in Ector; [|done|done|].
      2:{ simpl. rewrite lookup_insert_eq. by rewrite app_nil_r. }
      destruct r3 as [[]|e3|f3]; [| |done].
      * destruct Ector as (ys & Hlen & Hys & M3). simpl in M3.
        rewrite app_nil_r, insert_insert_eq in M3.
        apply mem_components in M3 as (Hh3 & Ha3 & Ho3 & Hl3).
        inversion E; subst s' r. split; [done|].
        exists ys, d. rewrite Hd. simpl. split_and!; try done.
        by rewrite Ho3.
      * destruct Ector as (Hbad & M3). simpl in M3.
        rewrite app_nil_r, insert_insert_eq in M3.
        destruct (release_new_buffer d nb (replicate n None) s s3
                    Hd Hnb) as (s5 & E5 & M5);
          [lia | by rewrite length_replicate | by rewrite Hcapd |].
        rewrite E5 in E. inversion E; subst s' r. split; [|by right].
        by rewrite M5, omap_id_replicate_None, app_nil_r.
  - apply RawMemory_new_Throw in Enew as (Hlt & -> & ->). rewrite Hslots in Hlt.
    inversion E; subst s' r. split; [done | by left].
  - by apply RawMemory_new_inv in Enew.
Qed.

(** The constructor from a size, whatever its outcome. *)
Lemma Vector_sized_inv this n s s' r :
  Vector_sized this n s = (s', r) →
  match r with
  | Ok _ =>
      n ≤ avail s ∧
      ∃ ys d,
        length ys = n ∧
        Forall default_made ys ∧
        capacity_ d = n ∧
        objs s' = <[this := {| data_ := d; size_ := n |}]> (objs s) ∧
        avail s' = avail s - n ∧
        leaked s' = leaked s ∧
        match buffer_ d with
        | Some nb => n ≠ 0 ∧ heap s !! nb = None ∧
                     heap s' = <[nb := Some <$> ys]> (heap s)
        | None => n = 0 ∧ heap s' = heap s
        end
  | Throw e =>
      mem s' = mem s ∧
      ((avail s < n ∧ e = bad_alloc) ∨ ∃ w, (default_construct w).2 = None)
  | Fault _ => slots n ≠ n
  end.
Proof.
  intros E.
  destruct (decide (slots n = n)) as [Hslots|Hshort].
  { pose proof (Vector_sized_inv_exact this n s s' r Hslots E) as H.
    by destruct r as [[]|e|f]. }
  pose proof (slots_le n) as Hle.
  unfold Vector_sized in E. rewrite bind_unfold in E.
  destruct (RawMemory_new n s) as [s2 r2] eqn:Enew.
  destruct r2 as [d|e2|f2].
  - apply RawMemory_new_inv in Enew.
    destruct Enew as [Hcapd [(-> & Hd & ->) | (Hn & Hav & nb & Hd & Hnb & ->)]].
    { exfalso. apply Hshort. lia. }
    rewrite (GetAddress_Some _ _ Hd) in E.
    rewrite bind_unfold in E. unfold on_throw in E.
    match type of E with
    | context [match uninitialized_value_construct_n ?p ?k ?s2 with _ => _ end]
      => destruct (uninitialized_value_construct_n p k s2) as [s3 r3] eqn:Ector
    end.
    apply (uninitialized_value_construct_from_short n 0 _ nb [] (slots n))
      in Ector; [|done|lia|].
    2:{ simpl. by rewrite lookup_insert_eq. }
    destruct r3 as [[]|e3|f3]; [done| |by inversion E; subst].
    destruct Ector as (Hbad & M3). simpl in M3.
    rewrite insert_insert_eq in M3.
    destruct (release_block d nb (replicate (slots n) None)
                (heap s) (avail s) (objs s) (leaked s) s3 Hd Hnb)
      as (s5 & E5 & M5);
      [by rewrite length_replicate | by rewrite length_replicate |].
    rewrite E5 in E. inversion E; subst s' r. split; [|by right].
    by rewrite M5, omap_id_replicate_None, app_nil_r.
  - apply RawMemory_new_Throw in Enew as (Hlt & -> & ->).
    inversion E; subst s' r. split; [done|]. left. split; [lia | done].
  - by apply RawMemory_new_inv in Enew.
Qed.

(** X12.  The constructor from a size either returns or throws, unless the
    bytes of [size] elements are too many to be counted in a [size_t]:
    the count then wraps, the block is too short, and the run, which cannot
    return, constructs an element past the end of the block if no
    constructor throws before.  When the constructor returns, the new
    vector has [size] elements, each made by the default constructor, in a
    buffer of exactly [size] slots (no buffer at all for size 0).  When it
    throws (the allocation failed or a default constructor threw), the
    elements constructed so far are destroyed, the buffer is released, no
    vector exists, and nothing is leaked. *)
Theorem Vector_sized_value_initializes this size s s' r :
  Vector_sized this size s = (s', r) →
  match r with
  | Ok _ =>
      ∃ v' ys,
        objs s' !! this = Some v' ∧
        holds s' v' ys ∧
        length ys = size ∧
        Forall default_made ys ∧
        capacity_ (data_ v') = size ∧
        (buffer_ (data_ v') = None ↔ size = 0) ∧
        avail s' = avail s - size ∧
        leaked s' = leaked s
  | Throw _ => mem s' = mem s
  | Fault _ => ¬ addressable size
  end.
Proof.
  intros E. apply Vector_sized_inv in E.
  destruct r as [[]|e|f];
    [|by destruct E|intros Haddr; by apply E, slots_addressable].
  destruct E as (Hav & ys & d & Hlen & Hys & Hcapd & Hobjs & Ha & Hl & Hheap).
  exists {| data_ := d; size_ := size |}, ys.
  split_and!; simpl; try done.
  - rewrite Hobjs. apply lookup_insert_eq.
  - split_and!; simpl; [lia..|].
    destruct (buffer_ d) as [nb|]; [|lia].
    destruct Hheap as (_ & _ & ->). rewrite lookup_insert_eq. f_equal.
    rewrite Hcapd, <- Hlen. symmetry. apply block_with_full.
  - destruct (buffer_ d) as [nb|]; [|by destruct Hheap].
    by destruct Hheap as (? & _).
Qed.

(** ** Copy assignment *)

(** Copy assignment to a vector whose capacity is less than the length of
    the source, whatever its outcome: the copy is made aside, swapped in,
    and the old contents are destroyed with the local vector. *)
Lemma copy_assign_grow_inv this rhs s v o xs ys s' r :
  this ≠ rhs →
  objs s !! this = Some v →
  holds s v xs →
  objs s !! rhs = Some o →
  holds s o ys →
  capacity_ (data_ v) < length ys →
  Vector_copy_assign this rhs s = (s', r) →
  match r with
  | Ok _ =>
      length ys ≤ avail s ∧
      ∃ zs nb,
        Forall2 copy_of ys zs ∧
        heap s !! nb = None ∧
        mem s' = (release (data_ v) (<[nb := Some <$> zs]> (heap s)),
                  avail s - length ys + capacity_ (data_ v),
                  <[this := {| data_ := {| buffer_ := Some nb;
                                           capacity_ := length ys |};
                               size_ := length ys |}]> (objs s),
                  leaked s) ∧
        trace s' = trace s ++ replicate (length ys) ev_copy_construct
                     ++ replicate (length xs) ev_destroy
  | Throw e =>
      mem s' = mem s ∧
      ((avail s < length ys ∧ e = bad_alloc) ∨
       ∃ x w, x ∈ ys ∧ (copy_construct x w).2 = None)
  | Fault _ => slots (length ys) ≠ length ys
  end.
Proof.
  intros Hne Hv Hxs Ho Hys Hgrow E. unfold Vector_copy_assign in E.
  rewrite decide_True in E by done.
  rewrite (bind_Ok _ _ _ _ _ (get_obj_Some _ _ _ Ho)) in E.
  rewrite (bind_Ok _ _ _ _ _ (get_obj_Some _ _ _ Hv)) in E.
  unfold RawMemory_Capacity in E.
  pose proof Hys as (Hsizeo & _). rewrite decide_True in E by lia.
  set (nv := fresh (dom (objs s))).
  assert (objs s !! nv = None) as Hnv by apply not_elem_of_dom, is_fresh.
  assert (nv ≠ this) as Hnvt by congruence.
  assert (nv ≠ rhs) as Hnvr by congruence.
  erewrite bind_Ok in E; [|reflexivity]. fold nv in E.
  rewrite bind_unfold in E.
  destruct (Vector_copy nv rhs s) as [s1 r1] eqn:E1.
  pose proof E1 as Ht1.
  apply (Vector_copy_inv nv rhs s o ys) in E1; [|done..].
  destruct r1 as [[]|e1|f1]; [|by inversion E; subst..].
  destruct E1 as (Hav & zs & d & Hzs & Hcapd & Hobjs1 & Ha1 & Hl1 & Hheap).
  destruct (buffer_ d) as [nb|] eqn:Hd; last first.
  { destruct Hheap as [-> _]. simpl in Hgrow. lia. }
  destruct Hheap as (_ & Hnb & Hh1).
  assert (trace s1 = trace s ++ replicate (length ys) ev_copy_construct)
    as Htr1.
  { unfold Vector_copy in Ht1.
    apply bind_Ok_inv in Ht1 as (s01 & o' & Eg & Ht1).
    rewrite (get_obj_Some _ _ _ Ho) in Eg. inversion Eg; subst s01 o'.
    apply bind_Ok_inv in Ht1 as (s02 & d' & Enew & Ht1).
    apply bind_Ok_inv in Ht1 as (s03 & [] & Ecopy & Ht1).
    apply on_throw_Ok_inv in Ecopy.
    rewrite (trace_run (put_obj _ _) _ _ _ ltac:(frame) Ht1).
    rewrite (uninitialized_copy_from_trace _ _ _ _ _ _ Ecopy).
    rewrite (trace_run (RawMemory_new _) _ _ _ ltac:(frame) Enew).
    by rewrite Hsizeo. }
  set (newv := {| data_ := d; size_ := length ys |}) in *.
  assert (objs s1 !! this = Some v) as Hv1.
  { rewrite Hobjs1. by rewrite lookup_insert_ne. }
  assert (objs s1 !! nv = Some newv) as Hnv1.
  { rewrite Hobjs1. apply lookup_insert_eq. }
  rewrite (bind_Ok _ _ _ _ _
             (Vector_Swap_distinct this nv s1 v newv ltac:(done) Hv1 Hnv1)) in E.
  set (s2 := with_objs (<[nv := v]> (<[this := newv]> (objs s1))) s1) in *.
  destruct (Vector_delete_Ok nv s2 v xs) as (s3 & E3 & Ho3 & Hh3 & Ha3 & Hl3 & Ht3).
  { apply lookup_insert_eq. }
  { destruct Hxs as (Hsize & Hcap & Hblk). split_and!; [done..|].
    destruct (buffer_ (data_ v)) as [b|]; [|done]. simpl.
    rewrite Hh1, lookup_insert_ne; [done|]. congruence. }
  rewrite E3 in E. inversion E; subst s' r. split; [done|].
  exists zs, nb. split_and!; try done.
  - assert (delete nv (<[nv:=v]> (<[this:=newv]> (<[nv:=newv]> (objs s))))
            = <[this:={| data_ := {| buffer_ := Some nb;
                                     capacity_ := length ys |};
                         size_ := length ys |}]> (objs s)) as Hobjs3.
    { rewrite delete_insert_eq, delete_insert_ne by done.
      rewrite delete_insert_eq, delete_id by done.
      subst newv. by rewrite <- Hcapd, <- Hd, RawMemory_eta. }
    unfold mem. rewrite Hh3, Ha3, Ho3, Hl3. simpl.
    by rewrite Hh1, Ha1, Hl1, Hobjs1, Hobjs3.
  - rewrite Ht3. simpl. by rewrite Htr1, <- app_assoc.
Qed.

(** X14.  Copy assignment to a vector whose capacity is below the length of
    the source gives the strong guarantee, for any element type: it either
    returns or throws, unless the bytes of the elements of the source are
    too many to be counted in a [size_t] (the run can then construct an
    element past the end of a block that is too short, and that alone
    stops it otherwise).  When it returns, the destination holds one copy of
    each element of the source in a new buffer of exactly that length, its
    old elements were each destroyed once and its old buffer released, and
    the source is as it was.  When it throws (the allocation failed or a
    copy constructor threw), blocks, memory provider and both vectors are
    as before the call.  Nothing is leaked either way. *)
Theorem copy_assign_growing_is_all_or_nothing this rhs s v o xs ys s' r :
  this ≠ rhs →
  objs s !! this = Some v →
  holds s v xs →
  objs s !! rhs = Some o →
  holds s o ys →
  separate v o →
  capacity_ (data_ v) < length ys →
  Vector_copy_assign this rhs s = (s', r) →
  match r with
  | Ok _ =>
      ∃ v' zs,
        Forall2 copy_of ys zs ∧
        objs s' !! this = Some v' ∧
        holds s' v' zs ∧
        capacity_ (data_ v') = length ys ∧
        objs s' !! rhs = Some o ∧
        holds s' o ys ∧
        separate v' o ∧
        avail s' = avail s - length ys + capacity_ (data_ v) ∧
        leaked s' = leaked s ∧
        trace s' = trace s ++ replicate (length ys) ev_copy_construct
                     ++ replicate (length xs) ev_destroy
  | Throw _ => mem s' = mem s
  | Fault _ => ¬ addressable (length ys)
  end.
Proof.
  intros Hne Hv Hxs Ho Hys Hsep Hgrow E.
  apply (copy_assign_grow_inv this rhs s v o xs ys) in E; [|done..].
  destruct r as [[]|e|f];
    [|by destruct E|intros Haddr; by apply E, slots_addressable].
  destruct E as (Hav & zs & nb & Hzs & Hnb & M & Ht).
  apply mem_components in M as (Hh & Ha & Hobjs & Hl).
  pose proof (Forall2_length _ _ _ Hzs) as Hlen.
  assert (heap s' !! nb = Some (Some <$> zs)) as Hnb'.
  { rewrite Hh. unfold release.
    destruct (buffer_ (data_ v)) as [b|] eqn:Hbuf; [|apply lookup_insert_eq].
    rewrite lookup_delete_ne; [apply lookup_insert_eq|].
    destruct Hxs as (_ & _ & Hblk). rewrite Hbuf in Hblk. congruence. }
  exists {| data_ := {| buffer_ := Some nb; capacity_ := length ys |};
            size_ := length ys |}, zs.
  split_and!; try done.
  - rewrite Hobjs. apply lookup_insert_eq.
  - split_and!; simpl; [lia..|]. rewrite Hnb'. f_equal.
    rewrite Hlen. symmetry. apply block_with_full.
  - rewrite Hobjs. by rewrite lookup_insert_ne.
  - destruct Hys as (Hsize & Hcap & Hblk). split_and!; [done..|].
    destruct (buffer_ (data_ o)) as [b|] eqn:Hbuf; [|done].
    rewrite Hh. unfold release.
    assert (b ≠ nb) as Hbn by congruence.
    destruct (buffer_ (data_ v)) as [bv|] eqn:Hbufv.
    + assert (bv ≠ b) as Hbv.
      { intros Heq. apply (Hsep bv); [done|]. congruence. }
      rewrite lookup_delete_ne by done. by rewrite lookup_insert_ne.
    + by rewrite lookup_insert_ne.
  - intros blk [= <-] Hb. destruct Hys as (_ & _ & Hblk).
    rewrite Hb in Hblk. congruence.
Qed.

(** The copy constructor and the copy assignment of the element type do not
    fail and give the destination the value of the source. *)

Section RegularCopy.
Hypothesis copy_ok : ∀ x w, (copy_construct x w).2 = Some x.
Hypothesis copy_assign_ok : ∀ d x w, (copy_assign d x w).2 = Some x.

Lemma elem_op_Ok {A} ev ne (op : W → W * option A) s a :
  (op (world s)).2 = Some a →
  ∃ s1, elem_op ev ne op s = (s1, Ok a) ∧ mem s1 = mem s ∧
        trace s1 = trace s ++ [ev].
Proof.
  intros Ha. unfold elem_op. destruct (op (world s)) as [w r]. simpl in Ha.
  subst r. by eexists.
Qed.

(** One copy assignment from a slot of block [bs] to a slot of another block
    [bt]. *)
Lemma copy_assign_at_Ok bs bt i j s src x pre d rest :
  bs ≠ bt →
  heap s !! bs = Some src →
  src !! i = Some (Some x) →
  length pre = j →
  heap s !! bt = Some (pre ++ Some d :: rest) →
  ∃ s', copy_assign_at (Ptr (Some bt) j) (Ptr (Some bs) i) s = (s', Ok tt) ∧
        mem s' = (<[bt := pre ++ Some x :: rest]> (heap s),
                  avail s, objs s, leaked s) ∧
        trace s' = trace s ++ [ev_copy_assign].
Proof.
  intros Hne Hbs Hx Hj Hbt. unfold copy_assign_at.
  assert (slot s (Ptr (Some bt) j) = Some (Some d)) as Hd.
  { rewrite slot_lookup, Hbt. simpl. by apply lookup_middle. }
  assert (slot s (Ptr (Some bs) i) = Some (Some x)) as Hx'.
  { by rewrite slot_lookup, Hbs. }
  step (load_Some _ _ _ Hd). step (load_Some _ _ _ Hx').
  destruct (elem_op_Ok ev_copy_assign false (copy_assign d x) s x
              (copy_assign_ok d x (world s))) as (s1 & E1 & M1 & Ht1).
  step E1.
  rewrite (store_Some _ s1 x d) by by rewrite (slot_mem _ _ _ M1).
  eexists. split; [reflexivity|]. split.
  - rewrite (mem_set_slot_cong _ _ s s1 M1).
    rewrite (mem_set_slot _ _ _ _ _ Hbt). by rewrite insert_middle.
  - destruct (block (Ptr (Some bt) j)); done.
Qed.

(** [std::copy] of [n] elements from slot [i] of block [bs] onto the
    elements from slot [j] of another block [bt]. *)
Lemma std_copy_Ok n : ∀ i j s bs bt src todo pre olds rest,
  bs ≠ bt →
  heap s !! bs = Some src →
  take n (drop i src) = Some <$> todo →
  length todo = n →
  length olds = n →
  length pre = j →
  heap s !! bt = Some (pre ++ (Some <$> olds) ++ rest) →
  ∃ s', std_copy (Ptr (Some bs) i) n (Ptr (Some bt) j) s = (s', Ok tt) ∧
        mem s' = (<[bt := pre ++ (Some <$> todo) ++ rest]> (heap s),
                  avail s, objs s, leaked s) ∧
        trace s' = trace s ++ replicate n ev_copy_assign.
Proof.
  induction n as [|n IH];
    intros i j s bs bt src todo pre olds rest Hne Hbs Hsrc Htodo Holds Hj Hbt.
  - destruct todo; [|done]. destruct olds; [|done]. exists s.
    split_and!; [done| |by rewrite app_nil_r].
    unfold mem. by rewrite insert_id.
  - destruct todo as [|x todo]; [done|]. destruct olds as [|d olds]; [done|].
    simpl in Htodo, Holds, Hbt, Hsrc.
    apply take_drop_cons in Hsrc as [Hx Hsrc].
    destruct (copy_assign_at_Ok bs bt i j s src x pre d
                ((Some <$> olds) ++ rest) Hne Hbs Hx Hj Hbt)
      as (s1 & E1 & M1 & Ht1).
    apply mem_components in M1 as (Hh1 & Ha1 & Ho1 & Hl1).
    destruct (IH (S i) (S j) s1 bs bt src todo (pre ++ [Some x]) olds rest)
      as (s' & E' & M' & Ht'); try done; try lia.
    { by rewrite Hh1, lookup_insert_ne. }
    { rewrite length_app. simpl. lia. }
    { rewrite Hh1, lookup_insert_eq. by rewrite <- app_assoc. }
    exists s'. split_and!.
    + simpl. step E1. rewrite !ptr_at.
      by replace (i + 1) with (S i) by lia; replace (j + 1) with (S j) by lia.
    + rewrite M', Hh1, Ha1, Ho1, Hl1, insert_insert_eq.
      by rewrite <- app_assoc.
    + rewrite Ht', Ht1. simpl. by rewrite <- app_assoc.
Qed.

(** X15.  For an element type whose copy constructor and copy assignment do
    not fail and give the value of their source, copy assignment from a
    source that fits the capacity of a well-formed destination reuses the
    storage: it returns, the destination keeps its buffer and capacity and
    holds the elements of the source, nothing is allocated or released, the
    source is as it was, and nothing is leaked.  The overlapping prefix is
    copy-assigned; then the surplus of the destination is destroyed, or the
    rest of the source is copy-constructed. *)
Theorem copy_assign_reuses_storage this rhs s v o xs ys :
  this ≠ rhs →
  objs s !! this = Some v →
  holds s v xs →
  objs s !! rhs = Some o →
  holds s o ys →
  separate v o →
  length ys ≤ capacity_ (data_ v) →
  ∃ s',
    Vector_copy_assign this rhs s = (s', Ok tt) ∧
    objs s' = <[this := {| data_ := data_ v; size_ := length ys |}]> (objs s) ∧
    holds s' {| data_ := data_ v; size_ := length ys |} ys ∧
    holds s' o ys ∧
    avail s' = avail s ∧
    dom (heap s') = dom (heap s) ∧
    leaked s' = leaked s ∧
    trace s' = trace s
                 ++ replicate (length ys `min` length xs) ev_copy_assign
                 ++ replicate (length xs - length ys) ev_destroy
                 ++ replicate (length ys - length xs) ev_copy_construct.
Proof.
  intros Hne Hv Hxs Ho Hys Hsep Hfit.
  pose proof Hxs as (Hsize & Hcap & Hblk).
  pose proof Hys as (Hsizeo & Hcapo & Hblko).
  unfold Vector_copy_assign. rewrite decide_True by done.
  step (get_obj_Some _ _ _ Ho). step (get_obj_Some _ _ _ Hv).
  unfold RawMemory_Capacity. rewrite decide_False by lia.
  unfold Vector_CopyFromRhsVector.
  step (get_obj_Some _ _ _ Ho). step (get_obj_Some _ _ _ Hv).
  rewrite Hsize, Hsizeo.
  set (m := length ys `min` length xs).
  (* the state after the assignments and after the tail is settled *)
  assert (∃ s2,
    (std_copy (RawMemory_GetAddress (data_ o)) m
       (RawMemory_GetAddress (data_ v));;
     if decide (length ys < length xs)
     then destroy_n (RawMemory_GetAddress (data_ v) +ₚ length ys)
            (length xs - length ys)
     else uninitialized_copy_n (RawMemory_GetAddress (data_ o) +ₚ length xs)
            (length ys - length xs)
            (RawMemory_GetAddress (data_ v) +ₚ length xs)) s = (s2, Ok tt) ∧
    objs s2 = objs s ∧ avail s2 = avail s ∧ leaked s2 = leaked s ∧
    dom (heap s2) = dom (heap s) ∧
    holds s2 {| data_ := data_ v; size_ := length ys |} ys ∧
    holds s2 o ys ∧
    trace s2 = trace s ++ replicate m ev_copy_assign
                 ++ replicate (length xs - length ys) ev_destroy
                 ++ replicate (length ys - length xs) ev_copy_construct)
    as (s2 & E2 & Ho2 & Ha2 & Hl2 & Hd2 & Hv2 & Hys2 & Ht2).
  { destruct (buffer_ (data_ v)) as [bt|] eqn:Hbt.
    - destruct (buffer_ (data_ o)) as [bs|] eqn:Hbs.
      + assert (bs ≠ bt) as Hst.
        { intros ->. by apply (Hsep bt). }
        rewrite (GetAddress_Some _ _ Hbt), (GetAddress_Some _ _ Hbs).
        rewrite !ptr_at. simpl.
        destruct (std_copy_Ok m 0 0 s bs bt
                    (block_with (capacity_ (data_ o)) ys) (take m ys) []
                    (take m xs)
                    ((Some <$> drop m xs)
                       ++ replicate (capacity_ (data_ v) - length xs) None)
                    Hst Hblko) as (s1 & E1 & M1 & Ht1).
        { rewrite drop_0, (block_with_split _ ys m) by lia.
          rewrite take_app_length'; [done|].
          rewrite length_fmap, length_take. lia. }
        { rewrite length_take. lia. }
        { rewrite length_take. lia. }
        { done. }
        { rewrite Hblk. f_equal. simpl. apply block_with_split. lia. }
        simpl in M1. apply mem_components in M1 as (Hh1 & Ha1 & Ho1 & Hl1).
        step E1. case_decide as Hshrink.
        * (* the source is shorter: the surplus is destroyed *)
          assert (m = length ys) as Hm by lia.
          destruct (destroy_n_Some (length xs - length ys) s1 bt
                      (Some <$> take m ys) (drop m xs)
                      (replicate (capacity_ (data_ v) - length xs) None))
            as (s2 & E2 & M2).
          { rewrite length_drop. lia. }
          { rewrite Hh1. apply lookup_insert_eq. }
          rewrite length_fmap, length_take in E2.
          replace (m `min` length ys) with (length ys) in E2 by lia.
          pose proof (destroy_n_trace _ _ _ _ E2) as Ht2.
          apply mem_components in M2 as (Hh2 & Ha2 & Ho2 & Hl2).
          exists s2. split_and!; try congruence.
          -- rewrite Hh2, Hh1, insert_insert_eq.
             apply dom_insert_lookup_L. by eexists.
          -- split_and!; simpl; [lia..|].
             rewrite Hbt, Hh2, lookup_insert_eq. f_equal.
             rewrite Hm, firstn_all. unfold block_with. f_equal.
             rewrite <- replicate_add. f_equal. lia.
          -- split_and!; [done..|].
             rewrite Hbs, Hh2, lookup_insert_ne by done.
             by rewrite Hh1, lookup_insert_ne.
          -- rewrite Ht2, Ht1.
             replace (length ys - length xs) with 0 by lia.
             simpl. by rewrite app_nil_r, <- app_assoc.
        * (* the source is longer: its rest is copy-constructed *)
          assert (m = length xs) as Hm by lia.
          destruct (uninitialized_copy_n (Ptr (Some bs) (length xs))
                      (length ys - length xs) (Ptr (Some bt) (length xs)) s1)
            as [s2 r2] eqn:E2.
          pose proof E2 as Ht2.
          apply (uninitialized_copy_from_at (length ys - length xs) 0 s1 bs bt
                   (length xs) (length xs)
                   (block_with (capacity_ (data_ o)) ys)
                   (Some <$> take m ys) [] (drop m ys)
                   (replicate (capacity_ (data_ v) - length ys) None)) in E2;
            [|done| | | |done| |].
          2:{ by rewrite Hh1, lookup_insert_ne. }
          2:{ rewrite Nat.add_0_r, Hm.
              rewrite (block_with_split _ ys (length xs)) by lia.
              rewrite drop_app_length'
                by (rewrite length_fmap, length_take; lia).
              rewrite take_app_length'; [done|].
              rewrite length_fmap, length_drop. lia. }
          2:{ rewrite length_drop. lia. }
          2:{ rewrite length_fmap, length_take. lia. }
          2:{ rewrite Hh1, lookup_insert_eq. f_equal. simpl.
              rewrite Hm, drop_all. simpl. f_equal.
              rewrite <- replicate_add. f_equal. lia. }
          destruct r2 as [[]|e2|f2]; [| |done]; last first.
          { destruct E2 as ((x & w & _ & Hbad) & _).
            by rewrite copy_ok in Hbad. }
          destruct E2 as (zs & Hzs & M2).
          apply (Forall2_copy_of_eq copy_ok) in Hzs as ->.
          apply uninitialized_copy_from_trace in Ht2.
          simpl in M2. apply mem_components in M2 as (Hh2 & Ha2 & Ho2 & Hl2).
          exists s2. split_and!; try congruence.
          -- rewrite Hh2, Hh1, insert_insert_eq.
             apply dom_insert_lookup_L. by eexists.
          -- split_and!; simpl; [lia..|].
             rewrite Hbt, Hh2, lookup_insert_eq. f_equal.
             symmetry. apply block_with_split. lia.
          -- split_and!; [done..|].
             rewrite Hbs, Hh2, lookup_insert_ne by done.
             by rewrite Hh1, lookup_insert_ne.
          -- rewrite Ht2, Ht1.
             replace (length xs - length ys) with 0 by lia.
             simpl. by rewrite <- app_assoc.
      + (* the source has no buffer: it is empty *)
        assert (ys = []) as -> by by apply (holds_null s o).
        simpl in *. rewrite (GetAddress_Some _ _ Hbt), !ptr_at. simpl.
        erewrite bind_Ok; [|reflexivity].
        destruct (decide (0 < length xs)) as [Hpos|Hzero].
        * destruct (destroy_n_Some (length xs - 0) s bt [] xs
                      (replicate (capacity_ (data_ v) - length xs) None))
            as (s2 & E2 & M2); [lia|done|].
          pose proof (destroy_n_trace _ _ _ _ E2) as Ht2.
          apply mem_components in M2 as (Hh2 & Ha2 & Ho2 & Hl2).
          simpl in E2. exists s2. split_and!; try congruence.
          -- rewrite Hh2. apply dom_insert_lookup_L. by eexists.
          -- split_and!; simpl; [lia..|].
             rewrite Hbt, Hh2, lookup_insert_eq. f_equal. unfold block_with.
             simpl. rewrite <- replicate_add. f_equal. lia.
          -- split_and!; [done..|]. by rewrite Hbs.
          -- by rewrite Ht2, app_nil_r.
        * assert (xs = []) as -> by (destruct xs; [done|simpl in *; lia]).
          exists s. simpl. rewrite !app_nil_r. split_and!; try done.
          split_and!; simpl; [lia..|]. by rewrite Hbt.
    - (* the destination has no buffer: both are empty *)
      assert (xs = []) as -> by by apply (holds_null s v).
      assert (ys = []) as -> by (destruct ys; [done|simpl in *; lia]).
      exists s. simpl. rewrite !app_nil_r. split_and!; try done.
      split_and!; simpl; [lia..|]. by rewrite Hbt. }
  rewrite <- bind_assoc, (bind_Ok _ _ _ _ _ E2).
  assert (objs s2 !! this = Some v) as Hv2' by congruence.
  rewrite (set_size_Some _ _ _ _ Hv2').
  eexists. split; [reflexivity|]. simpl. rewrite Ho2.
  by split_and!.
Qed.

End RegularCopy.

(** ** Insertion

    The copy and move constructors and the move assignment of the element
    type do not fail and give the destination the value of the source. *)

Section RegularMove.
Hypothesis copy_ok : ∀ x w, (copy_construct x w).2 = Some x.
Hypothesis move_ok : ∀ x w, ∃ m, (move_construct x w).2 = Some (x, m).
Hypothesis move_assign_ok :
  ∀ d x w, ∃ m, (move_assign d x w).2 = Some (x, m).

(** Move construction in the raw slot that follows the source. *)
Lemma move_construct_at_up b j s pre x rest :
  length pre = j →
  heap s !! b = Some (pre ++ Some x :: None :: rest) →
  ∃ s' m,
    move_construct_at (Ptr (Some b) (S j)) (Ptr (Some b) j) s = (s', Ok tt) ∧
    mem s' = (<[b := pre ++ Some m :: Some x :: rest]> (heap s),
              avail s, objs s, leaked s).
Proof.
  intros Hj Hb. unfold move_construct_at.
  assert (slot s (Ptr (Some b) j) = Some (Some x)) as Hx.
  { rewrite slot_lookup, Hb. simpl. by apply lookup_middle. }
  step (load_Some _ _ _ Hx).
  destruct (move_ok x (world s)) as [m Hm].
  destruct (elem_op_Some ev_move_construct nothrow_move_constructible
              (move_construct x) s (x, m) Hm) as (s1 & E1 & M1).
  step E1. simpl.
  rewrite (bind_Ok _ _ _ _ _ (store_Some _ s1 m x
             ltac:(by rewrite (slot_mem _ _ _ M1)))).
  pose proof (mem_set_slot_cong (Ptr (Some b) j) (Some m) s s1 M1) as M2.
  rewrite (mem_set_slot _ _ _ _ _ Hb) in M2.
  rewrite insert_middle in M2 by done.
  apply mem_components in M2 as (Hh2 & Ha2 & Ho2 & Hl2).
  set (s2 := set_slot (Ptr (Some b) j) (Some m) s1) in *.
  assert (heap s2 !! b = Some ((pre ++ [Some m]) ++ None :: rest)) as Hb2.
  { rewrite Hh2, lookup_insert_eq. by rewrite <- app_assoc. }
  assert (length (pre ++ [Some m]) = S j) as Hj2.
  { rewrite length_app. simpl. lia. }
  exists (set_slot (Ptr (Some b) (S j)) (Some x) s2), m. split.
  - apply place_raw. rewrite slot_lookup, Hb2. simpl. by apply lookup_middle.
  - rewrite (mem_set_slot _ _ _ _ _ Hb2), Hh2, Ha2, Ho2, Hl2.
    rewrite insert_insert_eq, insert_middle by done.
    by rewrite <- app_assoc.
Qed.

(** One move assignment inside a block, from slot [j] to slot [j + 1]. *)
Lemma move_assign_at_up b j s pre x d rest :
  length pre = j →
  heap s !! b = Some (pre ++ Some x :: Some d :: rest) →
  ∃ s' m,
    move_assign_at (Ptr (Some b) (S j)) (Ptr (Some b) j) s = (s', Ok tt) ∧
    mem s' = (<[b := pre ++ Some m :: Some x :: rest]> (heap s),
              avail s, objs s, leaked s).
Proof.
  intros Hj Hb. unfold move_assign_at.
  assert (heap s !! b = Some ((pre ++ [Some x]) ++ Some d :: rest)) as Hb'.
  { by rewrite Hb, <- app_assoc. }
  assert (length (pre ++ [Some x]) = S j) as Hj'.
  { rewrite length_app. simpl. lia. }
  assert (slot s (Ptr (Some b) (S j)) = Some (Some d)) as Hd.
  { rewrite slot_lookup, Hb'. simpl. by apply lookup_middle. }
  assert (slot s (Ptr (Some b) j) = Some (Some x)) as Hx.
  { rewrite slot_lookup, Hb. simpl. by apply lookup_middle. }
  step (load_Some _ _ _ Hd). step (load_Some _ _ _ Hx).
  destruct (move_assign_ok d x (world s)) as [m Hm].
  destruct (elem_op_Some ev_move_assign false (move_assign d x) s (x, m) Hm)
    as (s1 & E1 & M1).
  step E1. simpl.
  rewrite (bind_Ok _ _ _ _ _ (store_Some _ s1 m x
             ltac:(by rewrite (slot_mem _ _ _ M1)))).
  pose proof (mem_set_slot_cong (Ptr (Some b) j) (Some m) s s1 M1) as M2.
  rewrite (mem_set_slot _ _ _ _ _ Hb) in M2.
  rewrite insert_middle in M2 by done.
  apply mem_components in M2 as (Hh2 & Ha2 & Ho2 & Hl2).
  set (s2 := set_slot (Ptr (Some b) j) (Some m) s1) in *.
  assert (heap s2 !! b = Some ((pre ++ [Some m]) ++ Some d :: rest)) as Hb2.
  { rewrite Hh2, lookup_insert_eq. by rewrite <- app_assoc. }
  assert (length (pre ++ [Some m]) = S j) as Hj2.
  { rewrite length_app. simpl. lia. }
  exists (set_slot (Ptr (Some b) (S j)) (Some x) s2), m. split.
  - apply (store_Some _ s2 x d).
    rewrite slot_lookup, Hb2. simpl. by apply lookup_middle.
  - rewrite (mem_set_slot _ _ _ _ _ Hb2), Hh2, Ha2, Ho2, Hl2.
    rewrite insert_insert_eq, insert_middle by done.
    by rewrite <- app_assoc.
Qed.

(** [std::move_backward] of the run that starts at slot [j] onto the run
    that starts at slot [j + 1]: every element moves one slot up, and slot
    [j] keeps some object. *)
Lemma std_move_up b todo : ∀ j s pre d rest,
  length pre = j →
  heap s !! b = Some (pre ++ (Some <$> todo) ++ Some d :: rest) →
  ∃ s' m,
    std_move_backward (Ptr (Some b) j) (length todo) (Ptr (Some b) (S j)) s
      = (s', Ok tt) ∧
    mem s' = (<[b := pre ++ Some m :: (Some <$> todo) ++ rest]> (heap s),
              avail s, objs s, leaked s).
Proof.
  induction todo as [|x todo IH] using rev_ind; intros j s pre d rest Hj Hb.
  - exists s, d. split; [done|]. unfold mem. simpl in *. by rewrite insert_id.
  - rewrite fmap_app, <- app_assoc in Hb. simpl in Hb.
    destruct (move_assign_at_up b (j + length todo) s (pre ++ (Some <$> todo))
                x d rest) as (s1 & m & E1 & M1).
    { rewrite length_app, length_fmap. lia. }
    { by rewrite <- app_assoc. }
    apply mem_components in M1 as (Hh1 & Ha1 & Ho1 & Hl1).
    destruct (IH j s1 pre m (Some x :: rest) Hj) as (s' & m' & E' & M').
    { rewrite Hh1, lookup_insert_eq. by rewrite <- app_assoc. }
    exists s', m'. split.
    + rewrite length_app. simpl.
      replace (length todo + 1) with (S (length todo)) by lia.
      cbn [std_move_backward]. rewrite !ptr_at.
      replace (S j + length todo) with (S (j + length todo)) by lia.
      by rewrite (bind_Ok _ _ _ _ _ E1).
    + rewrite M', Hh1, Ha1, Ho1, Hl1, insert_insert_eq.
      by rewrite fmap_app, <- app_assoc.
Qed.

(** Move assignment of a local object to the object in a slot. *)
Lemma move_assign_from_local_Ok b j s pre d x rest :
  length pre = j →
  heap s !! b = Some (pre ++ Some d :: rest) →
  ∃ s' m,
    move_assign_from_local (Ptr (Some b) j) x s = (s', Ok m) ∧
    mem s' = (<[b := pre ++ Some x :: rest]> (heap s),
              avail s, objs s, leaked s).
Proof.
  intros Hj Hb. unfold move_assign_from_local.
  assert (slot s (Ptr (Some b) j) = Some (Some d)) as Hd.
  { rewrite slot_lookup, Hb. simpl. by apply lookup_middle. }
  step (load_Some _ _ _ Hd).
  destruct (move_assign_ok d x (world s)) as [m Hm].
  destruct (elem_op_Some ev_move_assign false (move_assign d x) s (x, m) Hm)
    as (s1 & E1 & M1).
  step E1. simpl.
  rewrite (bind_Ok _ _ _ _ _ (store_Some _ s1 x d
             ltac:(by rewrite (slot_mem _ _ _ M1)))).
  eexists _, m. split; [reflexivity|].
  rewrite (mem_set_slot_cong _ _ s s1 M1).
  rewrite (mem_set_slot _ _ _ _ _ Hb). by rewrite insert_middle.
Qed.

(** Emplace before the element of index [i], below the capacity. *)
Lemma Emplace_body_in_place this args x s s0 v xs i b :
  objs s !! this = Some v →
  construct_value args s = (s0, Ok x) →
  holds s0 v xs →
  buffer_ (data_ v) = Some b →
  i < length xs →
  length xs < capacity_ (data_ v) →
  ∃ s',
    Vector_Emplace_body this (Ptr (Some b) i) args s
      = (s', Ok (Ptr (Some b) i)) ∧
    mem s' = (<[b := block_with (capacity_ (data_ v))
                       (take i xs ++ x :: drop i xs)]> (heap s0),
              avail s,
              <[this := {| data_ := data_ v; size_ := size_ v + 1 |}]> (objs s),
              leaked s).
Proof.
  intros Hv E0 (Hsize & Hcap & Hblk) Hbuf Hi Hroom. rewrite Hbuf in Hblk.
  unfold Vector_Emplace_body.
  step (Vector_begin_Some _ _ _ Hv). step (Vector_end_Some _ _ _ Hv).
  step (get_obj_Some _ _ _ Hv).
  rewrite (GetAddress_Some _ _ Hbuf), !ptr_at. simpl.
  rewrite Nat.sub_0_r. unfold RawMemory_Capacity.
  rewrite decide_True by lia.
  rewrite decide_False by (intros [=]; lia).
  destruct (construct_value_frame _ _ _ _ E0) as (Ho0 & Ha0 & Hl0 & _).
  step E0.
  (* the elements: those before [i], those from [i] but the last, the last *)
  destruct (decide (xs = [])) as [->|Hne]; [simpl in Hi; lia|].
  destruct (exists_last Hne) as (xs' & xl & ->).
  rewrite length_app in Hsize, Hcap, Hi, Hroom. simpl in Hsize, Hcap, Hi, Hroom.
  set (raws := replicate (capacity_ (data_ v) - (length xs' + 1) - 1) (@None T)).
  assert (heap s0 !! b = Some ((Some <$> xs') ++ Some xl :: None :: raws))
    as Hb0.
  { rewrite Hblk. f_equal. unfold block_with, raws.
    rewrite fmap_app, <- app_assoc, length_app. simpl. do 2 f_equal.
    destruct (capacity_ (data_ v) - (length xs' + 1)) as [|k] eqn:Hk; [lia|].
    simpl. by rewrite Nat.sub_0_r. }
  destruct (move_construct_at_up b (length xs') s0 (Some <$> xs') xl raws)
    as (s1 & m & E1 & M1); [by rewrite length_fmap | done |].
  apply mem_components in M1 as (Hh1 & Ha1 & Ho1 & Hl1).
  assert (heap s1 !! b
          = Some ((Some <$> take i xs') ++ (Some <$> drop i xs')
                    ++ Some m :: Some xl :: raws)) as Hb1.
  { rewrite Hh1, lookup_insert_eq. f_equal.
    rewrite <- (take_drop i xs') at 1. by rewrite fmap_app, <- app_assoc. }
  destruct (std_move_up b (drop i xs') i s1 (Some <$> take i xs') m
              (Some xl :: raws)) as (s2 & m' & E2 & M2); [|done|].
  { rewrite length_fmap, length_take. lia. }
  apply mem_components in M2 as (Hh2 & Ha2 & Ho2 & Hl2).
  destruct (move_assign_from_local_Ok b i s2 (Some <$> take i xs') m' x
              ((Some <$> drop i xs') ++ Some xl :: raws))
    as (s3 & m'' & E3 & M3).
  { rewrite length_fmap, length_take. lia. }
  { rewrite Hh2. apply lookup_insert_eq. }
  apply mem_components in M3 as (Hh3 & Ha3 & Ho3 & Hl3).
  rewrite length_drop in E2.
  assert (on_throw
            (last ← RawMemory_index (data_ v) (size_ v - 1);
             move_construct_at (Ptr (Some b) (size_ v)) last;;
             std_move_backward (Ptr (Some b) i) (size_ v - 1 - i)
               (Ptr (Some b) (i + 1));;
             move_assign_from_local (Ptr (Some b) i) x)
            (destroy_local x) s0 = (s3, Ok m'')) as Ebody.
  { apply on_throw_Ok. unfold RawMemory_index.
    assert ((size_ v - 1 <? capacity_ (data_ v)) = true) as ->
      by (apply Nat.ltb_lt; lia).
    simpl. rewrite !bind_assoc. erewrite bind_Ok; [|reflexivity].
    erewrite bind_Ok; [|reflexivity].
    rewrite (GetAddress_Some _ _ Hbuf), ptr_at. simpl.
    replace (size_ v - 1) with (length xs') by lia.
    replace (size_ v) with (S (length xs')) by lia.
    rewrite (bind_Ok _ _ _ _ _ E1).
    replace (S (length xs') - 1 - i) with (length xs' - i) by lia.
    replace (i + 1) with (S i) by lia.
    rewrite (bind_Ok _ _ _ _ _ E2). exact E3. }
  step Ebody.
  erewrite bind_Ok; [|reflexivity].
  erewrite bind_Ok; last first.
  { apply (set_size_Some _ _ _ v). simpl. congruence. }
  erewrite bind_Ok; last first.
  { apply Vector_begin_Some. simpl. apply lookup_insert_eq. }
  simpl. rewrite (GetAddress_Some _ _ Hbuf), ptr_at. simpl.
  eexists. split; [reflexivity|].
  unfold mem. simpl. rewrite Hh3, Hh2, Hh1, Ha3, Ha2, Ha1, Ha0.
  rewrite Ho3, Ho2, Ho1, Ho0, Hl3, Hl2, Hl1, Hl0.
  rewrite !insert_insert_eq. repeat f_equal.
  unfold block_with, raws.
  rewrite take_app_le by lia. rewrite drop_app_le by lia.
  rewrite !fmap_app, !fmap_cons, <- !app_assoc. simpl.
  rewrite fmap_app, <- app_assoc. simpl. do 4 f_equal.
  rewrite !length_app, length_take. simpl. rewrite length_app, length_drop.
  simpl. f_equal. lia.
Qed.

(** The relocation of [n] elements of a regular element type. *)
Lemma relocation_n_Ok s b nb i j n spre xs srest pre suf :
  b ≠ nb →
  length xs = n →
  heap s !! b = Some (spre ++ (Some <$> xs) ++ srest) →
  length spre = i →
  heap s !! nb = Some (pre ++ replicate n None ++ suf) →
  length pre = j →
  ∃ s' ms,
    (if nothrow_move_constructible || negb copy_constructible
     then uninitialized_move_n (Ptr (Some b) i) n (Ptr (Some nb) j)
     else uninitialized_copy_n (Ptr (Some b) i) n (Ptr (Some nb) j))
      s = (s', Ok tt) ∧
    length ms = n ∧
    mem s' = (<[nb := pre ++ (Some <$> xs) ++ suf]>
                (<[b := spre ++ (Some <$> ms) ++ srest]> (heap s)),
              avail s, objs s, leaked s).
Proof.
  intros Hne <- Hb Hi Hnb Hj.
  match goal with
  | |- ∃ s' ms, ?m s = _ ∧ _ => destruct (m s) as [s' r] eqn:E
  end.
  pose proof (relocation_inv s b nb i j spre xs srest pre suf s' r
                Hne Hb Hi Hnb Hj E) as H.
  destruct r as [[]|e|f].
  - destruct H as (ys & ms & Hys & Hms & M).
    apply (relocated_eq copy_ok move_ok) in Hys as ->. by exists s', ms.
  - destruct H as (_ & Hbad & _).
    by apply (relocation_never_fails copy_ok move_ok) in Hbad.
  - destruct H as (_ & Hbad).
    by apply (relocation_never_fails copy_ok move_ok) in Hbad.
Qed.

(** Emplace before the element of index [i], at full capacity. *)
Lemma Emplace_body_grow this args x s s0 v xs i b :
  objs s !! this = Some v →
  construct_value args s = (s0, Ok x) →
  holds s0 v xs →
  buffer_ (data_ v) = Some b →
  i < length xs →
  capacity_ (data_ v) ≤ length xs →
  addressable (length xs * 2) →
  length xs * 2 ≤ avail s →
  ∃ s' nb,
    heap s !! nb = None ∧
    Vector_Emplace_body this (Ptr (Some b) i) args s
      = (s', Ok (Ptr (Some nb) i)) ∧
    mem s' = (<[nb := block_with (length xs * 2)
                        (take i xs ++ x :: drop i xs)]> (delete b (heap s0)),
              avail s - length xs * 2 + capacity_ (data_ v),
              <[this := {| data_ := {| buffer_ := Some nb;
                                       capacity_ := length xs * 2 |};
                           size_ := size_ v + 1 |}]> (objs s),
              leaked s).
Proof.
  intros Hv E0 (Hsize & Hcap & Hblk) Hbuf Hi Hfull Haddr Hav.
  rewrite Hbuf in Hblk.
  destruct (construct_value_frame _ _ _ _ E0) as (Ho0 & Ha0 & Hl0 & Hdom0 & _).
  assert (capacity_ (data_ v) = length xs) as Hcap' by lia.
  rewrite Hcap', block_with_full in Hblk.
  set (n := length xs) in *. set (c := n * 2) in *.
  unfold Vector_Emplace_body.
  step (Vector_begin_Some _ _ _ Hv). step (Vector_end_Some _ _ _ Hv).
  step (get_obj_Some _ _ _ Hv).
  rewrite (GetAddress_Some _ _ Hbuf), !ptr_at. simpl.
  rewrite Nat.sub_0_r. unfold RawMemory_Capacity.
  rewrite decide_False by lia. rewrite (decide_False (P := size_ v = 0)) by lia.
  rewrite Hsize. fold c. rewrite (addressable_size_t c Haddr).
  rewrite bind_assoc.
  rewrite (bind_Ok _ _ _ _ _ (RawMemory_new_Ok c s ltac:(lia)
                                (slots_addressable c Haddr) ltac:(lia))).
  set (nb := fresh (dom (heap s))).
  assert (heap s !! nb = None) as Hnb by apply not_elem_of_dom, is_fresh.
  assert (heap s0 !! nb = None) as Hnb0.
  { apply not_elem_of_dom. rewrite Hdom0. apply is_fresh. }
  assert (b ≠ nb) as Hne by congruence.
  set (d := {| buffer_ := Some nb; capacity_ := c |}).
  change (with_avail (avail s - c)
            (with_heap (<[nb:=replicate c None]> (heap s)) s))
    with (with_new_block nb c (avail s - c) s).
  change (RawMemory_GetAddress d) with (Ptr (Some nb) 0).
  rewrite !ptr_at. simpl.
  (* the new element *)
  destruct (construct_at_new_Ok nb c (avail s - c) i args s s0 x E0 Hnb)
    as (s3 & E3 & M3); [lia|].
  apply mem_components in M3 as (Hh3 & Ha3 & Ho3 & Hl3).
  assert (<[i:=Some x]> (replicate c None)
          = [] ++ replicate i None ++ Some x :: replicate (c - S i) (@None T))
    as Hnew by (apply (new_block_with_element i c x); lia).
  rewrite Hnew in Hh3.
  (* the elements before [i] *)
  destruct (relocation_n_Ok s3 b nb 0 0 i [] (take i xs) (Some <$> drop i xs)
              [] (Some x :: replicate (c - S i) None))
    as (s4 & ms1 & E4 & Hms1 & M4); try done.
  { rewrite length_take. lia. }
  { rewrite Hh3, lookup_insert_ne by done. rewrite Hblk. simpl.
    by rewrite <- fmap_app, take_drop. }
  { rewrite Hh3. apply lookup_insert_eq. }
  apply mem_components in M4 as (Hh4 & Ha4 & Ho4 & Hl4). simpl in Hh4.
  (* the elements from [i] *)
  destruct (relocation_n_Ok s4 b nb i (i + 1) (n - i) (Some <$> ms1)
              (drop i xs) [] ((Some <$> take i xs) ++ [Some x])
              (replicate (c - n - 1) None))
    as (s5 & ms2 & E5 & Hms2 & M5); try done.
  { rewrite length_drop. lia. }
  { rewrite Hh4, lookup_insert_ne by done. rewrite lookup_insert_eq.
    by rewrite app_nil_r. }
  { by rewrite length_fmap. }
  { rewrite Hh4, lookup_insert_eq. f_equal. rewrite <- !app_assoc. simpl.
    do 2 f_equal. rewrite <- replicate_add. f_equal. lia. }
  { rewrite length_app, length_fmap, length_take. simpl. lia. }
  apply mem_components in M5 as (Hh5 & Ha5 & Ho5 & Hl5).
  (* the originals are destroyed *)
  destruct (destroy_n_Some n s5 b [] (ms1 ++ ms2) []) as (s6 & E6 & M6).
  { rewrite length_app. lia. }
  { rewrite Hh5, lookup_insert_ne by done. rewrite lookup_insert_eq.
    simpl. by rewrite fmap_app, !app_nil_r. }
  apply mem_components in M6 as (Hh6 & Ha6 & Ho6 & Hl6).
  simpl in E6, Hh6. rewrite app_nil_r in Hh6.
  rewrite bind_assoc.
  erewrite bind_Ok; last first.
  { apply on_throw_Ok. rewrite (bind_Ok _ _ _ _ _ E3).
    destruct (nothrow_move_constructible || negb copy_constructible).
    - rewrite bind_assoc, (bind_Ok _ _ _ _ _ E4), (bind_Ok _ _ _ _ _ E5).
      exact E6.
    - rewrite bind_assoc, (bind_Ok _ _ _ _ _ E4), (bind_Ok _ _ _ _ _ E5).
      exact E6. }
  destruct (commit_Ok this v d s6) as (s7 & E7 & M7); [congruence| |].
  { rewrite Hbuf, Hh6, lookup_insert_eq. by rewrite Hcap'. }
  apply mem_components in M7 as (Hh7 & Ha7 & Ho7 & Hl7).
  simpl in E7. rewrite (bind_Ok _ _ _ _ _ E7).
  erewrite bind_Ok; last first.
  { apply (set_size_Some _ _ _ {| data_ := d; size_ := size_ v |}).
    rewrite Ho7. apply lookup_insert_eq. }
  erewrite bind_Ok; last first.
  { apply Vector_begin_Some. simpl. apply lookup_insert_eq. }
  simpl. change (RawMemory_GetAddress d) with (Ptr (Some nb) 0).
  rewrite ptr_at. simpl.
  exists (with_objs (<[this:={| data_ := d; size_ := n + 1 |}]> (objs s7)) s7),
         nb.
  split_and!; [done..|].
  unfold mem. simpl. rewrite Hh7, Ha7, Ho7, Hl7. unfold release.
  rewrite Hbuf, Hh6, Ha6, Ho6, Hl6, Hh5, Ha5, Ho5, Hl5.
  rewrite Hh4, Ha4, Ho4, Hl4, Hh3, Ha3, Ho3, Hl3, Ho0, Hl0.
  rewrite insert_insert_eq, Hcap'. repeat f_equal.
  apply map_eq. intros k.
  destruct (decide (k = b)) as [->|Hkb].
  { rewrite lookup_delete_eq, lookup_insert_ne by done.
    by rewrite lookup_delete_eq. }
  rewrite lookup_delete_ne, lookup_insert_ne by done.
  destruct (decide (k = nb)) as [->|Hknb].
  - rewrite !lookup_insert_eq. f_equal. unfold block_with.
    rewrite <- !app_assoc. simpl. rewrite !fmap_app, fmap_cons.
    rewrite <- !app_assoc. simpl. do 3 f_equal.
    rewrite !length_app, length_take. simpl. rewrite length_drop.
    f_equal. lia.
  - rewrite !lookup_insert_ne by done. by rewrite lookup_delete_ne.
Qed.


(** EmplaceBack at full capacity. *)
Lemma EmplaceBack_grow this args x s s0 v xs :
  objs s !! this = Some v →
  construct_value args s = (s0, Ok x) →
  holds s0 v xs →
  capacity_ (data_ v) ≤ length xs →
  addressable (1 `max` (length xs * 2)) →
  1 `max` (length xs * 2) ≤ avail s →
  ∃ s' nb,
    heap s !! nb = None ∧
    Vector_EmplaceBack this args s = (s', Ok (Ptr (Some nb) (length xs))) ∧
    mem s' = (<[nb := block_with (1 `max` (length xs * 2)) (xs ++ [x])]>
                (release (data_ v) (heap s0)),
              avail s - 1 `max` (length xs * 2) + capacity_ (data_ v),
              <[this := {| data_ := {| buffer_ := Some nb;
                                       capacity_ := 1 `max` (length xs * 2) |};
                           size_ := size_ v + 1 |}]> (objs s),
              leaked s).
Proof.
  intros Hv E0 (Hsize & Hcap & Hblk) Hfull Haddr Hav.
  destruct (construct_value_frame _ _ _ _ E0) as (Ho0 & Ha0 & Hl0 & Hdom0 & _).
  assert (capacity_ (data_ v) = length xs) as Hcap' by lia.
  assert (∀ b, buffer_ (data_ v) = Some b → heap s0 !! b = Some (Some <$> xs))
    as Hfullblk.
  { intros b Hb. rewrite Hb in Hblk. by rewrite Hblk, Hcap', block_with_full. }
  set (n := length xs) in *. set (c := 1 `max` (n * 2)) in *.
  unfold Vector_EmplaceBack. step (get_obj_Some _ _ _ Hv).
  unfold RawMemory_Capacity. rewrite decide_True by lia.
  assert ((if decide (size_ v = 0) then 1 else size_t (size_ v * 2)) = c)
    as ->.
  { rewrite growth_no_wrap, growth_formula; [lia|].
    by replace (1 `max` (2 * size_ v)) with c by lia. }
  rewrite bind_assoc.
  rewrite (bind_Ok _ _ _ _ _ (RawMemory_new_Ok c s ltac:(lia)
                                (slots_addressable c Haddr) ltac:(lia))).
  set (nb := fresh (dom (heap s))).
  assert (heap s !! nb = None) as Hnb by apply not_elem_of_dom, is_fresh.
  assert (heap s0 !! nb = None) as Hnb0.
  { apply not_elem_of_dom. rewrite Hdom0. apply is_fresh. }
  set (d := {| buffer_ := Some nb; capacity_ := c |}).
  change (with_avail (avail s - c)
            (with_heap (<[nb:=replicate c None]> (heap s)) s))
    with (with_new_block nb c (avail s - c) s).
  change (RawMemory_GetAddress d) with (Ptr (Some nb) 0).
  rewrite !ptr_at, Hsize. simpl.
  destruct (construct_at_new_Ok nb c (avail s - c) n args s s0 x E0 Hnb)
    as (s3 & E3 & M3); [lia|].
  apply mem_components in M3 as (Hh3 & Ha3 & Ho3 & Hl3).
  assert (<[n:=Some x]> (replicate c None)
          = [] ++ replicate n None ++ Some x :: replicate (c - S n) (@None T))
    as Hnew by (apply (new_block_with_element n c x); lia).
  rewrite Hnew in Hh3.
  (* the relocation and the destruction of the originals *)
  assert (∃ s6,
    ((if nothrow_move_constructible || negb copy_constructible
      then uninitialized_move_n (RawMemory_GetAddress (data_ v)) n
             (Ptr (Some nb) 0)
      else uninitialized_copy_n (RawMemory_GetAddress (data_ v)) n
             (Ptr (Some nb) 0));;
     destroy_n (RawMemory_GetAddress (data_ v)) n) s3 = (s6, Ok tt) ∧
    mem s6 = (<[nb := (Some <$> xs) ++ Some x :: replicate (c - S n) None]>
                (match buffer_ (data_ v) with
                 | Some b => <[b := replicate n None]> (heap s0)
                 | None => heap s0
                 end),
              avail s - c, objs s, leaked s)) as (s6 & E6 & M6).
  { destruct (buffer_ (data_ v)) as [b|] eqn:Hbuf.
    - assert (b ≠ nb) as Hne by congruence.
      rewrite (GetAddress_Some _ _ Hbuf).
      destruct (relocation_n_Ok s3 b nb 0 0 n [] xs [] []
                  (Some x :: replicate (c - S n) None))
        as (s4 & ms & E4 & Hms & M4); try done.
      { rewrite Hh3, lookup_insert_ne by done.
        rewrite (Hfullblk b eq_refl). simpl. by rewrite app_nil_r. }
      { rewrite Hh3. apply lookup_insert_eq. }
      apply mem_components in M4 as (Hh4 & Ha4 & Ho4 & Hl4). simpl in Hh4.
      destruct (destroy_n_Some n s4 b [] ms []) as (s5 & E5 & M5); [done| |].
      { rewrite Hh4, lookup_insert_ne by done. apply lookup_insert_eq. }
      simpl in E5, M5. rewrite app_nil_r in M5.
      exists s5. split; [by rewrite (bind_Ok _ _ _ _ _ E4)|].
      rewrite M5, Hh4, Ha4, Ho4, Hl4, Hh3, Ha3, Ho3, Hl3, Ho0, Hl0.
      do 3 f_equal. apply map_eq. intros k.
      destruct (decide (k = b)) as [->|Hkb].
      { rewrite lookup_insert_eq, lookup_insert_ne by done.
        by rewrite lookup_insert_eq. }
      rewrite lookup_insert_ne by done.
      destruct (decide (k = nb)) as [->|Hknb].
      + by rewrite !lookup_insert_eq.
      + by rewrite !lookup_insert_ne.
    - assert (xs = []) as Hnil by (destruct xs; [done|simpl in *; lia]).
      assert (n = 0) as Hn0 by (subst n; by rewrite Hnil).
      rewrite Hn0. exists s3. split.
      { by destruct (nothrow_move_constructible || negb copy_constructible). }
      unfold mem. rewrite Hh3, Ha3, Ho3, Hl3, Ho0, Hl0, Hnil, Hn0. done. }
  apply mem_components in M6 as (Hh6 & Ha6 & Ho6 & Hl6).
  rewrite bind_assoc.
  erewrite bind_Ok; last first.
  { apply on_throw_Ok. rewrite (bind_Ok _ _ _ _ _ E3). exact E6. }
  destruct (commit_Ok this v d s6) as (s7 & E7 & M7); [congruence| |].
  { rewrite Hh6. destruct (buffer_ (data_ v)) as [b|] eqn:Hbuf; [|lia].
    rewrite lookup_insert_ne by congruence.
    rewrite lookup_insert_eq. by rewrite Hcap'. }
  apply mem_components in M7 as (Hh7 & Ha7 & Ho7 & Hl7).
  simpl in E7. apply bind_Ok_inv in E7 as (s6' & [] & Eset & Edel).
  step Eset. step Edel.
  erewrite bind_Ok; [|reflexivity].
  erewrite bind_Ok; last first.
  { apply (set_size_Some _ _ _ {| data_ := d; size_ := size_ v |}).
    rewrite Ho7. apply lookup_insert_eq. }
  exists (with_objs (<[this:={| data_ := d; size_ := n + 1 |}]> (objs s7)) s7),
         nb.
  split_and!; [done..|].
  unfold mem. simpl. rewrite Hh7, Ha7, Ho7, Hl7, Hh6, Ha6, Ho6, Hl6.
  rewrite insert_insert_eq. do 3 f_equal.
  unfold release. destruct (buffer_ (data_ v)) as [b|] eqn:Hbuf.
  - assert (b ≠ nb) as Hne by congruence.
    apply map_eq. intros k.
    destruct (decide (k = b)) as [->|Hkb].
    { rewrite lookup_delete_eq, lookup_insert_ne by done.
      by rewrite lookup_delete_eq. }
    rewrite lookup_delete_ne by done.
    destruct (decide (k = nb)) as [->|Hknb].
    + rewrite !lookup_insert_eq. f_equal. unfold block_with.
      rewrite fmap_app, <- app_assoc, length_app. simpl.
      do 3 f_equal. lia.
    + rewrite !lookup_insert_ne by done. by rewrite lookup_delete_ne.
  - f_equal. unfold block_with.
    rewrite fmap_app, <- app_assoc, length_app. simpl. do 3 f_equal. lia.
Qed.


End RegularMove.

(** ** Growth doubles the capacity *)

(** Emplace at the position of the element of index [i] passes its
    assertion. *)
Lemma Vector_Emplace_at this b i args s v :
  objs s !! this = Some v →
  buffer_ (data_ v) = Some b →
  i < size_ v →
  Vector_Emplace this (Ptr (Some b) i) args s
    = Vector_Emplace_body this (Ptr (Some b) i) args s.
Proof.
  intros Hv Hbuf Hi. unfold Vector_Emplace.
  step (Vector_begin_Some _ _ _ Hv). step (Vector_end_Some _ _ _ Hv).
  rewrite (GetAddress_Some _ _ Hbuf), ptr_at. simpl.
  assert (ptr_le (Ptr (Some b) 0) (Ptr (Some b) i)
          && ptr_lt (Ptr (Some b) i) (Ptr (Some b) (size_ v)) = true)
    as ->.
  { unfold ptr_le, ptr_lt. simpl. rewrite !bool_decide_eq_true_2 by done.
    simpl. apply Nat.ltb_lt. lia. }
  simpl. by erewrite bind_Ok; [|reflexivity].
Qed.

(** C5.  When a vector's length equals its capacity, a PushBack, an
    EmplaceBack or an Emplace that returns normally leaves the vector with
    capacity [max(1, 2 * old capacity)]: twice the old capacity, and 1 when
    the old capacity is 0.  This holds for any element type and any
    argument.  And these calls do return: for an element type whose copy and
    move constructors do not fail and give the new object the value of
    their source, once the constructor of the new element has succeeded,
    the bytes of the new buffer can be counted in a [size_t] and the memory
    provider has room for it, EmplaceBack and PushBack return, and so does
    Emplace at the position of each element, each leaving the vector with
    capacity [max(1, 2 * old capacity)]. *)
Theorem growth_doubles_capacity this args s v :
  objs s !! this = Some v →
  size_ v = capacity_ (data_ v) →
  (∀ s' p, Vector_EmplaceBack this args s = (s', Ok p) →
     capacity_of s' this = 1 `max` (2 * capacity_ (data_ v))) ∧
  (∀ s', Vector_PushBack this args s = (s', Ok tt) →
     capacity_of s' this = 1 `max` (2 * capacity_ (data_ v))) ∧
  (∀ pos s' p, Vector_Emplace this pos args s = (s', Ok p) →
     capacity_of s' this = 1 `max` (2 * capacity_ (data_ v))) ∧
  ((∀ x w, (copy_construct x w).2 = Some x) →
   (∀ x w, ∃ m, (move_construct x w).2 = Some (x, m)) →
   ∀ s0 x xs,
     construct_value args s = (s0, Ok x) →
     holds s0 v xs →
     addressable (1 `max` (2 * capacity_ (data_ v))) →
     1 `max` (2 * capacity_ (data_ v)) ≤ avail s →
     (∃ s' p, Vector_EmplaceBack this args s = (s', Ok p) ∧
              capacity_of s' this = 1 `max` (2 * capacity_ (data_ v))) ∧
     (∃ s', Vector_PushBack this args s = (s', Ok tt) ∧
            capacity_of s' this = 1 `max` (2 * capacity_ (data_ v))) ∧
     (∀ i, i < size_ v →
        ∃ s' p,
          Vector_Emplace this (RawMemory_GetAddress (data_ v) +ₚ i) args s
            = (s', Ok p) ∧
          capacity_of s' this = 1 `max` (2 * capacity_ (data_ v)))).
Proof.
  intros Hv Hfull.
  destruct (growth_capacity_of this args s v Hv Hfull)
    as (Hback & Hpush & Hemplace).
  split_and!; [done..|].
  intros Hcopy Hmove s0 x xs E0 Hholds Haddr Hav.
  pose proof Hholds as (Hsize & Hcap & Hblk).
  assert (∃ s' p, Vector_EmplaceBack this args s = (s', Ok p))
    as (s1 & p1 & E1).
  { destruct (EmplaceBack_grow Hcopy Hmove this args x s s0 v xs Hv E0 Hholds)
      as (s' & nb & _ & E & _); [lia| |lia|by eauto].
    by replace (length xs * 2) with (2 * capacity_ (data_ v)) by lia. }
  split_and!.
  - exists s1, p1. split; [done|]. by apply (Hback s1 p1).
  - exists s1. assert (Vector_PushBack this args s = (s1, Ok tt)) as E.
    { unfold Vector_PushBack. by rewrite (bind_Ok _ _ _ _ _ E1). }
    split; [done|]. by apply Hpush.
  - intros i Hi.
    destruct (buffer_ (data_ v)) as [b|] eqn:Hbuf; [|lia].
    rewrite (GetAddress_Some _ _ Hbuf), ptr_at. simpl.
    destruct (Emplace_body_grow Hcopy Hmove this args x s s0 v xs i b
                Hv E0 Hholds Hbuf) as (s' & nb & _ & E & _); [lia..| |lia|].
    { eapply addressable_le; [|exact Haddr]. lia. }
    rewrite <- (Vector_Emplace_at this b i args s v Hv Hbuf Hi) in E.
    exists s', (Ptr (Some nb) i). split; [done|].
    by apply (Hemplace (Ptr (Some b) i) s' (Ptr (Some nb) i)).
Qed.

(** ** A constructor of the new element that throws *)

Lemma construct_value_Throw args s e :
  (construct_value args s).2 = Throw e →
  ∃ s1, construct_value args s = (s1, Throw e) ∧ mem s1 = mem s.
Proof.
  destruct (construct_value args s) as [s1 r1] eqn:E. simpl. intros ->.
  exists s1. split; [done|].
  by apply (construct_value_failed args s s1 (Throw e)).
Qed.

Lemma construct_at_Throw p args s e :
  (construct_value args s).2 = Throw e →
  ∃ s1, construct_at p args s = (s1, Throw e) ∧ mem s1 = mem s.
Proof.
  intros Hx.
  destruct (construct_value_Throw args s e Hx) as (s1 & E1 & M1).
  exists s1. split; [|done]. unfold construct_at. rewrite bind_unfold.
  by rewrite E1.
Qed.

(** In a new block too, a constructor that throws leaves everything as it
    is. *)
Lemma construct_at_new_Throw nb k n i args s e :
  (construct_value args s).2 = Throw e →
  heap s !! nb = None →
  ∃ s1,
    construct_at (Ptr (Some nb) i) args (with_new_block nb k n s)
      = (s1, Throw e) ∧
    mem s1 = (<[nb := replicate k None]> (heap s), n, objs s, leaked s).
Proof.
  intros Hx Hnb.
  destruct (construct_value_Throw args s e Hx) as (s0 & E0 & M0).
  apply mem_components in M0 as (Hh0 & Ha0 & Ho0 & Hl0).
  exists (with_new_block nb k n s0). split.
  - unfold construct_at.
    rewrite bind_unfold, (construct_value_new_block args s nb k n Hnb).
    by rewrite E0.
  - unfold mem. simpl. by rewrite Hh0, Ho0, Hl0.
Qed.

Lemma bind_Throw {A B} (m : M A) (k : A → M B) s s' e :
  m s = (s', Throw e) → (m ≫= k) s = (s', Throw e).
Proof. intros E. by rewrite bind_unfold, E. Qed.

Lemma on_throw_Throw {A} (m : M A) c s s1 s2 e :
  m s = (s1, Throw e) → c s1 = (s2, Ok tt) → on_throw m c s = (s2, Throw e).
Proof. intros E1 E2. unfold on_throw. by rewrite E1, E2. Qed.

(** X17.  When the constructor of the new element throws, Emplace (so
    Insert) at the position of an element and EmplaceBack below the capacity
    throw too and change nothing: blocks, memory provider, vectors and
    elements are as before the call (at full capacity, the new buffer of
    Emplace, if it could be allocated, has been released), and nothing is
    leaked. *)
Theorem failed_construction_changes_nothing this args e s v xs :
  objs s !! this = Some v →
  holds s v xs →
  (construct_value args s).2 = Throw e →
  (∀ i, i < length xs →
     ∃ s' e',
       Vector_Emplace this (RawMemory_GetAddress (data_ v) +ₚ i) args s
         = (s', Throw e') ∧
       mem s' = mem s ∧ elements s' this = Some xs) ∧
  (length xs < capacity_ (data_ v) →
     ∃ s',
       Vector_EmplaceBack this args s = (s', Throw e) ∧
       mem s' = mem s ∧ elements s' this = Some xs).
Proof.
  intros Hv Hholds Hx. pose proof Hholds as (Hsize & Hcap & Hblk).
  assert (∀ s', mem s' = mem s → elements s' this = Some xs) as Helems.
  { intros s' M. apply mem_components in M as (Hh & _ & Ho & _).
    rewrite (elements_same_mem this s s') by done.
    by apply (holds_elements this s v). }
  split.
  - intros i Hi.
    destruct (buffer_ (data_ v)) as [b|] eqn:Hbuf; [|lia].
    assert (∃ s' e',
      Vector_Emplace_body this (Ptr (Some b) i) args s = (s', Throw e') ∧
      mem s' = mem s) as (s' & e' & E & M).
    { unfold Vector_Emplace_body.
      step (Vector_begin_Some _ _ _ Hv). step (Vector_end_Some _ _ _ Hv).
      step (get_obj_Some _ _ _ Hv).
      rewrite (GetAddress_Some _ _ Hbuf), !ptr_at. simpl.
      unfold RawMemory_Capacity. case_decide as Hroom.
      - rewrite decide_False by (intros [=]; lia).
        destruct (construct_value_Throw args s e Hx) as (s1 & E1 & M1).
        exists s1, e. split; [|done].
        rewrite !bind_assoc, bind_unfold. by rewrite E1.
      - set (c := if decide (size_ v = 0) then 1 else size_t (size_ v * 2)).
        rewrite ?bind_assoc.
        destruct (decide (c = 0)) as [Hc0|Hc].
        { (* the doubled length has wrapped to 0: no block is allocated *)
          assert (RawMemory_new c s
                  = (s, Ok {| buffer_ := None; capacity_ := c |})) as Enew.
          { unfold RawMemory_new, Allocate. rewrite bind_unfold.
            by rewrite decide_False by (intros Hc; by apply Hc). }
          rewrite (bind_Ok _ _ _ _ _ Enew).
          destruct (construct_at_Throw
                      (RawMemory_GetAddress {| buffer_ := None;
                                               capacity_ := c |} +ₚ (i - 0))
                      args s e Hx) as (s3 & E3 & M3).
          exists s3, e. split; [|done].
          rewrite ?bind_assoc. apply bind_Throw.
          apply (on_throw_Throw _ _ _ s3);
            [by apply bind_Throw | by apply RawMemory_delete_null]. }
        destruct (decide (slots c ≤ avail s)) as [Hav|Hav]; last first.
        { exists s, bad_alloc. split; [|done].
          apply bind_Throw, RawMemory_new_out_of_memory. lia. }
        rewrite (bind_Ok _ _ _ _ _ (RawMemory_new_block c s Hc Hav)).
        set (nb := fresh (dom (heap s))).
        assert (heap s !! nb = None) as Hnb
          by apply not_elem_of_dom, is_fresh.
        set (d := {| buffer_ := Some nb; capacity_ := c |}).
        change (RawMemory_GetAddress d) with (Ptr (Some nb) 0).
        rewrite ptr_at.
        destruct (construct_at_new_Throw nb (slots c) (avail s - slots c)
                    (0 + (i - 0)) args s e Hx Hnb) as (s3 & E3 & M3).
        destruct (release_block d nb (replicate (slots c) None) (heap s)
                    (avail s) (objs s) (leaked s) s3 eq_refl Hnb)
          as (s4 & E4 & M4);
          [by rewrite length_replicate | by rewrite length_replicate |].
        exists s4, e. split.
        + rewrite ?bind_assoc. apply bind_Throw.
          apply (on_throw_Throw _ _ _ s3); [|done].
          by apply bind_Throw.
        + by rewrite M4, omap_id_replicate_None, app_nil_r. }
    exists s', e'. split_and!; [|done|by apply Helems].
    unfold Vector_Emplace.
    step (Vector_begin_Some _ _ _ Hv). step (Vector_end_Some _ _ _ Hv).
    rewrite (GetAddress_Some _ _ Hbuf), !ptr_at. simpl.
    assert (ptr_le (Ptr (Some b) 0) (Ptr (Some b) i)
            && ptr_lt (Ptr (Some b) i) (Ptr (Some b) (size_ v)) = true)
      as ->.
    { unfold ptr_le, ptr_lt. simpl. rewrite !bool_decide_eq_true_2 by done.
      simpl. apply Nat.ltb_lt. lia. }
    simpl. erewrite bind_Ok; [|reflexivity]. exact E.
  - intros Hroom.
    destruct (construct_at_Throw (RawMemory_GetAddress (data_ v) +ₚ size_ v)
                args s e Hx) as (s1 & E1 & M1).
    exists s1. split_and!; [|done|by apply Helems].
    unfold Vector_EmplaceBack. step (get_obj_Some _ _ _ Hv).
    unfold RawMemory_Capacity. rewrite decide_False by lia.
    rewrite !bind_assoc, bind_unfold. by rewrite E1.
Qed.

(** ** The position precondition of Erase and Emplace *)

(** X18.  On a well-formed vector, Erase and Emplace (so Insert) stop at
    their assertion, changing nothing, for every position that is not the
    position of an element: [end()], the positions beyond it, positions in
    other blocks, and every position when the vector is empty. *)
Theorem position_assertion_admits_elements_only this s v xs pos args :
  objs s !! this = Some v →
  holds s v xs →
  (∀ i, i < length xs → pos ≠ RawMemory_GetAddress (data_ v) +ₚ i) →
  Vector_Erase this pos s = (s, Fault assertion_failed) ∧
  Vector_Emplace this pos args s = (s, Fault assertion_failed).
Proof.
  intros Hv (Hsize & _ & _) Hpos.
  assert (ptr_le (RawMemory_GetAddress (data_ v)) pos
          && ptr_lt pos (RawMemory_GetAddress (data_ v) +ₚ size_ v) = false)
    as Hassert.
  { apply not_true_is_false. intros Htrue.
    apply andb_prop in Htrue as [Hle Hlt].
    unfold ptr_le in Hle. unfold ptr_lt in Hlt.
    apply andb_prop in Hle as [Hblock _]. apply andb_prop in Hlt as [_ Hoff].
    apply bool_decide_eq_true in Hblock. apply Nat.ltb_lt in Hoff.
    simpl in Hblock, Hoff.
    apply (Hpos (offset pos)); [lia|].
    destruct pos as [pb po]. unfold RawMemory_GetAddress, ptr_add. simpl in *.
    by rewrite Hblock. }
  split.
  - unfold Vector_Erase.
    step (Vector_begin_Some _ _ _ Hv). step (Vector_end_Some _ _ _ Hv).
    by rewrite Hassert.
  - unfold Vector_Emplace.
    step (Vector_begin_Some _ _ _ Hv). step (Vector_end_Some _ _ _ Hv).
    by rewrite Hassert.
Qed.

(** ** The length stays within the capacity *)

#[local] Instance keeps_bounds_preorder : PreOrder keeps_bounds.
Proof.
  split; [intros s Hs; exact Hs | intros s1 s2 s3 H1 H2 H; by apply H2, H1].
Qed.

Lemma all_bounded_same s s' : objs s' = objs s → all_bounded s → all_bounded s'.
Proof. unfold all_bounded. by intros ->. Qed.

Lemma all_bounded_insert s s' x v :
  objs s' = <[x := v]> (objs s) →
  all_bounded s → size_ v ≤ capacity_ (data_ v) → all_bounded s'.
Proof.
  intros Ho Hs Hv y w. rewrite Ho. destruct (decide (y = x)) as [->|Hne].
  - rewrite lookup_insert_eq. by intros [= <-].
  - rewrite lookup_insert_ne by done. apply Hs.
Qed.

Lemma all_bounded_delete s s' x :
  objs s' = delete x (objs s) → all_bounded s → all_bounded s'.
Proof.
  intros Ho Hs y w. rewrite Ho. destruct (decide (y = x)) as [->|Hne].
  - by rewrite lookup_delete_eq.
  - rewrite lookup_delete_ne by done. apply Hs.
Qed.

Lemma bounds_keeps {A} (m : M A) :
  preserves same_objs m → preserves keeps_bounds m.
Proof.
  apply preserves_weaken. intros s s' Ho Hs. by apply (all_bounded_same s).
Qed.

Hint Resolve bounds_keeps : frame.

Lemma bounded_keeps {A} (m : M A) s :
  preserves same_objs m → all_bounded s → all_bounded (m s).1.
Proof. intros Hm. by apply bounds_keeps. Qed.

Lemma bounded_bind_keeps {A B} (m : M A) (k : A → M B) s :
  preserves same_objs m →
  all_bounded s →
  (∀ s1 a, m s = (s1, Ok a) → objs s1 = objs s → all_bounded s1 →
           all_bounded (k a s1).1) →
  all_bounded ((m ≫= k) s).1.
Proof.
  intros Hm Hs Hk. rewrite bind_unfold. destruct (m s) as [s1 r] eqn:E.
  pose proof (preserves_run same_objs _ _ _ _ Hm E) as Ho.
  destruct r; simpl; eauto using all_bounded_same.
Qed.

Lemma bounded_get_obj {B} this (k : Vector → M B) s :
  all_bounded s →
  (∀ v, objs s !! this = Some v → all_bounded (k v s).1) →
  all_bounded ((get_obj this ≫= k) s).1.
Proof.
  intros Hs Hk. rewrite bind_unfold. unfold get_obj.
  destruct (objs s !! this) eqn:E; simpl; auto.
Qed.

Lemma bounded_set_data {B} this d (k : unit → M B) s v :
  all_bounded s →
  objs s !! this = Some v →
  size_ v ≤ capacity_ d →
  (∀ s1, objs s1 = <[this := {| data_ := d; size_ := size_ v |}]> (objs s) →
         all_bounded s1 → all_bounded (k tt s1).1) →
  all_bounded ((set_data this d ≫= k) s).1.
Proof.
  intros Hs Hv Hle Hk. rewrite (bind_Ok _ _ _ _ _ (set_data_Some _ _ _ _ Hv)).
  apply Hk; [done|]. by eapply all_bounded_insert.
Qed.

Lemma bounded_set_size this n s v :
  all_bounded s →
  objs s !! this = Some v →
  n ≤ capacity_ (data_ v) →
  all_bounded (set_size this n s).1.
Proof.
  intros Hs Hv Hle. rewrite (set_size_Some _ _ _ _ Hv). simpl.
  by eapply all_bounded_insert.
Qed.

Lemma bounded_set_size_then {B} this n (k : unit → M B) s v :
  all_bounded s →
  objs s !! this = Some v →
  n ≤ capacity_ (data_ v) →
  (∀ a, preserves same_objs (k a)) →
  all_bounded ((set_size this n ≫= k) s).1.
Proof.
  intros Hs Hv Hle Hk. rewrite (bind_Ok _ _ _ _ _ (set_size_Some _ _ _ _ Hv)).
  apply bounded_keeps; [done|]. by eapply all_bounded_insert.
Qed.

(** The commit of a reallocation to a buffer [d] that has room for [n]
    elements, followed by the update of the length to [n]. *)
Lemma bounded_commit {A B} this v (d : RawMemory) n (old : M A)
    (k : A → M B) s :
  all_bounded s →
  objs s !! this = Some v →
  size_ v ≤ capacity_ d →
  n ≤ capacity_ d →
  preserves same_objs old →
  (∀ a, preserves same_objs (k a)) →
  all_bounded ((set_data this d;; a ← old; set_size this n;; k a) s).1.
Proof.
  intros Hs Hv Hle Hn Hold Hk.
  apply (bounded_set_data this d _ s v); [done..|]. intros s1 Ho1 Hs1.
  apply bounded_bind_keeps; [done..|]. intros s2 a _ Ho2 Hs2.
  apply (bounded_set_size_then this n _ s2
           {| data_ := d; size_ := size_ v |}); [done| |done|by intros _].
  rewrite Ho2, Ho1. apply lookup_insert_eq.
Qed.

Lemma bounded_Reserve this n s :
  all_bounded s →
  all_bounded (Vector_Reserve this n s).1 ∧
  ∀ s' v', Vector_Reserve this n s = (s', Ok tt) →
           objs s' !! this = Some v' → n ≤ capacity_ (data_ v').
Proof.
  intros Hs. split.
  - unfold Vector_Reserve. apply bounded_get_obj; [done|]. intros v Hv.
    unfold RawMemory_Capacity. case_decide as Hn; [done|].
    apply bounded_bind_keeps; [frame|done|]. intros s1 d Enew Ho1 Hs1.
    apply RawMemory_new_Ok_inv in Enew as [Hcap _].
    apply bounded_bind_keeps; [frame|done|]. intros s2 [] _ Ho2 Hs2.
    apply (bounded_set_data this _ _ s2 v); [done|congruence| |].
    { simpl. specialize (Hs this v Hv). lia. }
    intros s3 _ Hs3. apply bounded_keeps; [frame|done].
  - intros s' v' E Hv'. unfold Vector_Reserve in E.
    apply bind_Ok_inv in E as (s0 & v & Eget & E).
    unfold get_obj in Eget. destruct (objs s !! this) as [v0|] eqn:Hv; [|done].
    inversion Eget; subst s0 v0; clear Eget.
    unfold RawMemory_Capacity in E. case_decide as Hn.
    { inversion E; subst s'. assert (v' = v) as -> by congruence. done. }
    apply bind_Ok_inv in E as (s1 & d & Enew & E).
    apply RawMemory_new_Ok_inv in Enew as [Hcap Ho1].
    apply bind_Ok_inv in E as (s2 & [] & Ebody & E).
    assert (objs s2 = objs s1) as Ho2.
    { refine (preserves_run same_objs _ _ _ _ _ Ebody). frame. }
    assert (objs s2 !! this = Some v) as Hv2 by congruence.
    pose proof (commit_Ok_inv this v d s2 s' Hv2 E) as Ho'.
    rewrite Ho', lookup_insert_eq in Hv'. injection Hv' as <-. simpl. lia.
Qed.

Lemma bounds_Reserve this n : preserves keeps_bounds (Vector_Reserve this n).
Proof. intros s Hs. by apply bounded_Reserve. Qed.

Lemma bounds_Resize this n : preserves keeps_bounds (Vector_Resize this n).
Proof.
  intros s Hs. unfold Vector_Resize.
  apply bounded_get_obj; [done|]. intros v Hv.
  pose proof (Hs this v Hv) as Hle. case_decide as Hshrink.
  - apply bounded_bind_keeps; [frame|done|]. intros s1 [] _ Ho1 Hs1.
    apply (bounded_set_size this n s1 v); [done|congruence|lia].
  - rewrite ?bind_assoc, bind_unfold.
    match goal with
    | |- context [match ?m s with _ => _ end] =>
        assert (all_bounded (m s).1 ∧
                ∀ s1 v1, m s = (s1, Ok tt) → objs s1 !! this = Some v1 →
                         n ≤ capacity_ (data_ v1)) as [Hm Hcap];
          [|destruct (m s) as [s1 [[]|e|f]] eqn:E; simpl in Hm; [|done..]]
    end.
    { unfold RawMemory_Capacity. case_decide as Hgrow.
      - by apply bounded_Reserve.
      - split; [done|]. intros s1 v1 E Hv1. inversion E; subst s1.
        assert (v1 = v) as -> by congruence. lia. }
    rewrite bind_assoc.
    apply bounded_get_obj; [done|]. intros v1 Hv1.
    apply bounded_bind_keeps; [frame|done|]. intros s2 [] _ Ho2 Hs2.
    apply (bounded_set_size this n s2 v1); [done|congruence|].
    by apply (Hcap s1).
Qed.

Lemma bounds_EmplaceBack this a :
  preserves keeps_bounds (Vector_EmplaceBack this a).
Proof.
  intros s Hs. unfold Vector_EmplaceBack.
  apply bounded_get_obj; [done|]. intros v Hv.
  pose proof (Hs this v Hv) as Hle.
  unfold RawMemory_Capacity. case_decide as Hfull.
  - rewrite ?bind_assoc.
    apply bounded_bind_keeps; [frame|done|]. intros s1 d Enew Ho1 Hs1.
    rewrite ?bind_assoc.
    apply bounded_bind_keeps; [frame|done|]. intros s2 [] Ebody Ho2 Hs2.
    assert (capacity_ d = 1 `max` (2 * size_ v)) as Hgrow.
    { apply on_throw_Ok_inv, bind_Ok_inv in Ebody as (s0 & [] & Ector & _).
      apply construct_at_room in Ector.
      apply (growth_capacity _ _ _ _ _ Enew (Nat.le_refl _) Ector). }
    rewrite ?bind_assoc. simpl fst. simpl snd.
    refine (bounded_commit this v _ (size_ v + 1) _ _ s2 Hs2 _ _ _ _ _);
      simpl; [congruence|lia|lia|frame|intros p; frame].
  - rewrite ?bind_assoc.
    apply bounded_bind_keeps; [frame|done|]. intros s1 [] _ Ho1 Hs1.
    rewrite ?bind_assoc.
    erewrite bind_Ok; [|reflexivity].
    apply (bounded_set_size_then this _ _ s1 v); [done|congruence|lia|].
    intros _. frame.
Qed.

Lemma bounds_PopBack this : preserves keeps_bounds (Vector_PopBack this).
Proof.
  intros s Hs. unfold Vector_PopBack.
  apply bounded_get_obj; [done|]. intros v Hv.
  pose proof (Hs this v Hv) as Hle. case_decide; [|done].
  apply (bounded_set_size_then this _ _ s v); [done|done|lia|].
  intros _. frame.
Qed.

Lemma bounds_Erase this pos : preserves keeps_bounds (Vector_Erase this pos).
Proof.
  unfold Vector_Erase, Vector_begin, Vector_end. frame.
  apply bounds_PopBack.
Qed.

Lemma bounds_Emplace this pos a :
  preserves keeps_bounds (Vector_Emplace this pos a).
Proof.
  intros s Hs. unfold Vector_Emplace.
  destruct (objs s !! this) as [v|] eqn:Hv; last first.
  { rewrite bind_unfold. unfold Vector_begin. rewrite bind_unfold.
    unfold get_obj. by rewrite Hv. }
  rewrite (bind_Ok _ _ _ _ _ (Vector_begin_Some _ _ _ Hv)).
  rewrite (bind_Ok _ _ _ _ _ (Vector_end_Some _ _ _ Hv)).
  rewrite bind_unfold. unfold assert.
  destruct (ptr_le _ _ && ptr_lt _ _) eqn:Hpos; simpl; [|done].
  assert (offset pos - offset (RawMemory_GetAddress (data_ v)) < size_ v)
    as Hdist.
  { apply andb_true_iff in Hpos as [_ Hlt].
    apply andb_true_iff in Hlt as [_ Hlt]. apply Nat.ltb_lt in Hlt.
    simpl in *. lia. }
  unfold Vector_Emplace_body.
  rewrite (bind_Ok _ _ _ _ _ (Vector_begin_Some _ _ _ Hv)).
  rewrite (bind_Ok _ _ _ _ _ (Vector_end_Some _ _ _ Hv)).
  rewrite (bind_Ok _ _ _ _ _ (get_obj_Some _ _ _ Hv)).
  pose proof (Hs this v Hv) as Hle.
  unfold RawMemory_Capacity. case_decide as Hroom.
  - apply bounded_bind_keeps; [frame|done|]. intros s1 [] _ Ho1 Hs1.
    apply (bounded_set_size_then this _ _ s1 v); [done|congruence|lia|].
    intros _. unfold Vector_begin. frame.
  - rewrite ?bind_assoc.
    apply bounded_bind_keeps; [frame|done|]. intros s1 d Enew Ho1 Hs1.
    rewrite ?bind_assoc.
    apply bounded_bind_keeps; [frame|done|]. intros s2 [] Ebody Ho2 Hs2.
    assert (capacity_ d = 1 `max` (2 * size_ v)) as Hgrow.
    { apply on_throw_Ok_inv in Ebody.
      pose proof (Emplace_growth_room _ _ _ _ _ _ _ _ Hdist Ebody) as Hslot.
      apply (growth_capacity _ _ _ _ _ Enew (Nat.le_refl _) Hslot). }
    rewrite ?bind_assoc. simpl fst. simpl snd.
    refine (bounded_commit this v _ (size_ v + 1) _ _ s2 Hs2 _ _ _ _ _);
      simpl; [congruence|lia|lia|frame|].
    intros _. unfold Vector_begin. frame.
Qed.

Lemma bounds_Swap this other : preserves keeps_bounds (Vector_Swap this other).
Proof.
  intros s Hs.
  destruct (objs s !! this) as [a|] eqn:Ha; last first.
  { unfold Vector_Swap. rewrite bind_unfold. unfold get_obj at 1.
    by rewrite Ha. }
  destruct (objs s !! other) as [b|] eqn:Hb; last first.
  { unfold Vector_Swap. rewrite (bind_Ok _ _ _ _ _ (get_obj_Some _ _ _ Ha)).
    rewrite bind_unfold. unfold get_obj at 1. by rewrite Hb. }
  destruct (decide (this = other)) as [->|Hne].
  - by rewrite (Vector_Swap_self _ _ _ Ha).
  - rewrite (Vector_Swap_distinct this other s a b Hne Ha Hb). simpl.
    apply (all_bounded_insert
             (with_objs (<[this := b]> (objs s)) s) _ other a);
      [done| |by apply (Hs this)].
    apply (all_bounded_insert s _ this b); [done|done|by apply (Hs other)].
Qed.

Lemma bounds_put_obj x v :
  size_ v ≤ capacity_ (data_ v) → preserves keeps_bounds (put_obj x v).
Proof.
  intros Hv. apply (preserves_modify keeps_bounds). intros s Hs.
  by apply (all_bounded_insert s _ x v).
Qed.

Lemma bounds_remove_obj x : preserves keeps_bounds (remove_obj x).
Proof.
  apply (preserves_modify keeps_bounds). intros s Hs.
  by apply (all_bounded_delete s _ x).
Qed.

Lemma bounds_Vector_copy this other :
  preserves keeps_bounds (Vector_copy this other).
Proof.
  intros s Hs. unfold Vector_copy.
  apply bounded_get_obj; [done|]. intros o Ho.
  apply bounded_bind_keeps; [frame|done|]. intros s1 d Enew Ho1 Hs1.
  apply RawMemory_new_Ok_inv in Enew as [Hcap _].
  apply bounded_bind_keeps; [frame|done|]. intros s2 [] _ Ho2 Hs2.
  apply bounds_put_obj; [|done]. simpl. lia.
Qed.

Lemma bounds_Vector_sized this n : preserves keeps_bounds (Vector_sized this n).
Proof.
  intros s Hs. unfold Vector_sized.
  apply bounded_bind_keeps; [frame|done|]. intros s1 d Enew Ho1 Hs1.
  apply RawMemory_new_Ok_inv in Enew as [Hcap _].
  apply bounded_bind_keeps; [frame|done|]. intros s2 [] _ Ho2 Hs2.
  apply bounds_put_obj; [|done]. simpl. lia.
Qed.

Lemma bounds_Vector_delete this : preserves keeps_bounds (Vector_delete this).
Proof. unfold Vector_delete. frame. apply bounds_remove_obj. Qed.

Lemma bounds_Vector_move this other :
  preserves keeps_bounds (Vector_move this other).
Proof.
  unfold Vector_move, Vector_default. frame; [|apply bounds_Swap].
  by apply bounds_put_obj.
Qed.

Lemma bounds_copy_assign this rhs :
  preserves keeps_bounds (Vector_copy_assign this rhs).
Proof.
  intros s Hs. unfold Vector_copy_assign. case_decide as Hne; [|done].
  apply bounded_get_obj; [done|]. intros r Hr.
  apply bounded_get_obj; [done|]. intros v Hv.
  unfold RawMemory_Capacity. case_decide as Hbig.
  - assert (preserves keeps_bounds
              (new_vector ← fresh_obj;
               Vector_copy new_vector rhs;;
               Vector_Swap this new_vector;;
               Vector_delete new_vector)) as Hp; [|by apply Hp].
    apply (preserves_bind keeps_bounds); [frame|]. intros nv.
    apply (preserves_bind keeps_bounds); [apply bounds_Vector_copy|].
    intros _.
    apply (preserves_bind keeps_bounds); [apply bounds_Swap|]. intros _.
    apply bounds_Vector_delete.
  - unfold Vector_CopyFromRhsVector.
    rewrite (bind_Ok _ _ _ _ _ (get_obj_Some _ _ _ Hr)).
    rewrite (bind_Ok _ _ _ _ _ (get_obj_Some _ _ _ Hv)).
    apply bounded_bind_keeps; [frame|done|]. intros s1 [] _ Ho1 Hs1.
    apply bounded_bind_keeps; [case_decide; frame|done|].
    intros s2 [] _ Ho2 Hs2.
    apply (bounded_set_size this _ s2 v); [done|congruence|lia].
Qed.

Lemma bounds_exec this c : preserves keeps_bounds (exec this c).
Proof.
  destruct c; simpl.
  - apply bounds_Reserve.
  - apply bounds_Resize.
  - unfold Vector_PushBack. frame. apply bounds_EmplaceBack.
  - apply bounds_PopBack.
  - frame. apply bounds_Emplace.
  - frame. apply bounds_Erase.
  - apply bounds_copy_assign.
  - unfold Vector_move_assign. case_decide; [frame|apply bounds_Swap].
Qed.

(** X19.  The length of a vector never exceeds its capacity.  When every
    vector of a state has its length within its capacity, this is still so
    after any sequence of Reserve, Resize, PushBack, PopBack, Emplace,
    Erase, copy-assignment and move-assignment calls, after each of the
    constructors and after the destructor, for any element type and whether
    the call returns, throws or stops at an assertion. *)
Theorem length_stays_within_capacity this other n cs s :
  all_bounded s →
  all_bounded (exec_all this cs s).1 ∧
  all_bounded (Vector_default this s).1 ∧
  all_bounded (Vector_sized this n s).1 ∧
  all_bounded (Vector_copy this other s).1 ∧
  all_bounded (Vector_move this other s).1 ∧
  all_bounded (Vector_delete this s).1.
Proof.
  intros Hs. split_and!.
  - revert s Hs. induction cs as [|c cs IH]; intros s Hs; [done|].
    simpl. rewrite bind_unfold.
    pose proof (bounds_exec this c s Hs) as Hc.
    destruct (exec this c s) as [s1 [[]|e|f]]; simpl in *; auto.
  - by apply bounds_put_obj.
  - by apply bounds_Vector_sized.
  - by apply bounds_Vector_copy.
  - by apply bounds_Vector_move.
  - by apply bounds_Vector_delete.
Qed.

(** ** A constructor followed by the destructor *)

(** X20.  Every allocation of a constructor is matched by the deallocation
    of the destructor.  When the constructor from a size or the copy
    constructor has returned, the destructor of the new vector returns too,
    runs the destructor of each of its elements once, and leaves blocks,
    memory provider and vectors exactly as they were before the
    constructor, with nothing leaked. *)
Theorem constructor_then_destructor_restores_storage this other n s o xs :
  objs s !! this = None →
  objs s !! other = Some o →
  holds s o xs →
  (∀ s1, Vector_sized this n s = (s1, Ok tt) →
     ∃ s2, Vector_delete this s1 = (s2, Ok tt) ∧
           mem s2 = mem s ∧
           trace s2 = trace s1 ++ replicate n ev_destroy) ∧
  (∀ s1, Vector_copy this other s = (s1, Ok tt) →
     ∃ s2, Vector_delete this s1 = (s2, Ok tt) ∧
           mem s2 = mem s ∧
           trace s2 = trace s1 ++ replicate (length xs) ev_destroy).
Proof.
  intros Hnew Ho Hholds.
  assert (∀ s1 d ys k,
    k ≤ avail s → length ys = k → capacity_ d = k →
    objs s1 = <[this := {| data_ := d; size_ := k |}]> (objs s) →
    avail s1 = avail s - k → leaked s1 = leaked s →
    match buffer_ d with
    | Some nb => heap s !! nb = None ∧
                 heap s1 = <[nb := Some <$> ys]> (heap s)
    | None => k = 0 ∧ heap s1 = heap s
    end →
    ∃ s2, Vector_delete this s1 = (s2, Ok tt) ∧ mem s2 = mem s ∧
          trace s2 = trace s1 ++ replicate k ev_destroy) as Hdel.
  { intros s1 d ys k Hav Hlen Hcapd Ho1 Ha1 Hl1 Hheap.
    destruct (Vector_delete_Ok this s1 {| data_ := d; size_ := k |} ys)
      as (s2 & E2 & Ho2 & Hh2 & Ha2 & Hl2 & Ht2).
    { rewrite Ho1. apply lookup_insert_eq. }
    { split_and!; simpl; [lia..|].
      destruct (buffer_ d) as [nb|]; [|destruct Hheap; lia].
      destruct Hheap as [_ ->]. rewrite lookup_insert_eq. f_equal.
      rewrite Hcapd, <- Hlen. symmetry. apply block_with_full. }
    exists s2. split_and!; [done| |by rewrite Ht2, Hlen].
    unfold mem. rewrite Hh2, Ha2, Ho2, Hl2, Ho1, Ha1, Hl1. simpl.
    rewrite delete_insert_id by done.
    destruct (buffer_ d) as [nb|].
    - destruct Hheap as [Hnb ->]. rewrite delete_insert_id by done.
      repeat f_equal. lia.
    - destruct Hheap as [_ ->]. repeat f_equal. lia. }
  split.
  - intros s1 E. apply Vector_sized_inv in E.
    destruct E as (Hav & ys & d & Hlen & _ & Hcapd & Ho1 & Ha1 & Hl1 & Hheap).
    apply (Hdel s1 d ys n); try done.
    destruct (buffer_ d); [by destruct Hheap as (_ & ? & ?) | done].
  - intros s1 E. apply (Vector_copy_inv this other s o xs) in E; [|done..].
    destruct E as (Hav & ys & d & Hys & Hcapd & Ho1 & Ha1 & Hl1 & Hheap).
    apply (Hdel s1 d ys (length xs)); try done.
    + symmetry. by eapply Forall2_length.
    + destruct (buffer_ d); [by destruct Hheap as (_ & ? & ?)|].
      by destruct Hheap as [-> ?].
Qed.

(** ** Erase and PopBack keep the storage *)

#[local] Instance storage_kept_preorder this : PreOrder (storage_kept this).
Proof.
  split.
  - intros s. split_and!; eauto.
  - intros s1 s2 s3 (Ha1 & Hd1 & Hl1 & Ho1) (Ha2 & Hd2 & Hl2 & Ho2).
    split_and!; try congruence. intros v Hv.
    destruct (Ho1 v Hv) as (v1 & Hv1 & Hdata1).
    destruct (Ho2 v1 Hv1) as (v2 & Hv2 & Hdata2).
    exists v2. split; [done | congruence].
Qed.

Lemma set_slot_kept this p o s : storage_kept this s (set_slot p o s).
Proof.
  unfold set_slot. destruct (block p) as [b|]; [|reflexivity].
  split_and!; simpl; try done; [|eauto].
  apply set_eq. intros k. rewrite !elem_of_dom.
  destruct (decide (k = b)) as [->|Hne].
  - rewrite lookup_alter_eq. by rewrite fmap_is_Some.
  - by rewrite lookup_alter_ne.
Qed.

Lemma kept_load this p : preserves (storage_kept this) (load p).
Proof. intros s. unfold load. by destruct (slot s p) as [[?|]|]. Qed.

Lemma kept_store this p x : preserves (storage_kept this) (store p x).
Proof.
  intros s. unfold store. destruct (slot s p) as [[?|]|]; try done.
  apply set_slot_kept.
Qed.

Lemma kept_elem_op this {A} ev ne (op : W → W * option A) :
  preserves (storage_kept this) (elem_op ev ne op).
Proof.
  intros s. unfold elem_op. destruct (op (world s)) as [w [a|]]; simpl.
  - split_and!; eauto.
  - split_and!; eauto.
Qed.

Lemma kept_destroy_at this p : preserves (storage_kept this) (destroy_at p).
Proof.
  unfold destroy_at. apply (preserves_bind (storage_kept this));
    [apply kept_load|]. intros x.
  apply (preserves_modify (storage_kept this)). intros s.
  destruct (set_slot_kept this p None s) as (Ha & Hd & Hl & Ho).
  split_and!; done.
Qed.

Lemma kept_set_size this x n : preserves (storage_kept this) (set_size x n).
Proof.
  intros s. unfold set_size, get_obj. rewrite bind_unfold.
  destruct (objs s !! x) as [vx|] eqn:Hx; simpl; [|reflexivity].
  split_and!; try done. intros v Hv. simpl.
  destruct (decide (x = this)) as [->|Hne].
  - rewrite lookup_insert_eq. eexists. split; [done|]. simpl. congruence.
  - rewrite lookup_insert_ne by done. eauto.
Qed.

Hint Resolve kept_load kept_store kept_elem_op kept_destroy_at kept_set_size
  : frame.

Lemma kept_move_assign_at this p q :
  preserves (storage_kept this) (move_assign_at p q).
Proof. unfold move_assign_at. frame. Qed.

Hint Resolve kept_move_assign_at : frame.

Lemma kept_std_move this p n q : preserves (storage_kept this) (std_move p n q).
Proof. revert p q. induction n; intros p q; simpl; frame. Qed.

Lemma kept_PopBack this x : preserves (storage_kept this) (Vector_PopBack x).
Proof. unfold Vector_PopBack. frame. Qed.

Hint Resolve kept_std_move kept_PopBack : frame.

(** X23.  Erase and PopBack never allocate, release or leak, for any
    element type and whatever their outcome, also when a move assignment
    throws in the middle of Erase or the position fails the assertion: the
    memory provider and the set of blocks are as before the call, and the
    vector has the buffer and the capacity it had. *)
Theorem Erase_and_PopBack_keep_the_storage this pos s :
  storage_kept this s (Vector_Erase this pos s).1 ∧
  storage_kept this s (Vector_PopBack this s).1.
Proof.
  split.
  - assert (preserves (storage_kept this) (Vector_Erase this pos)) as H;
      [|apply H].
    unfold Vector_Erase, Vector_begin, Vector_end. frame.
  - apply kept_PopBack.
Qed.

End Machine.

(** * Concrete runs *)

(** Unless said otherwise, the runs are on the machine whose [size_t] has
    64 bits. *)
#[global] Existing Instance lp64.

(** ** C1 *)



(** ** C2 *)

Lemma plain_copy_ok (x w : nat) :
  (copy_construct (Element := plain) x w).2 = Some x.
Proof. reflexivity. Qed.

Lemma plain_move_ok (x w : nat) :
  ∃ m, (move_construct (Element := plain) x w).2 = Some (x, m).
Proof. by exists 0. Qed.

Lemma plain_move_assign_ok (d x w : nat) :
  ∃ m, (move_assign (Element := plain) d x w).2 = Some (x, m).
Proof. by exists 0. Qed.



(** ** C3 *)

Lemma Emplace_at_end_fails_assertion_witness :
  let e := Ptr (Some 0) 2 in
  objs roomy2 !! 0
    = Some {| data_ := {| buffer_ := Some 0; capacity_ := 4 |}; size_ := 2 |} ∧
  Vector_end 0 roomy2 = (roomy2, Ok e) ∧
  Vector_Emplace (Element0 := plain) 0 e (from_args 30) roomy2
    = (roomy2, Fault assertion_failed) ∧
  Vector_Insert (Element0 := plain) 0 e (outside 30) roomy2
    = (roomy2, Fault assertion_failed) ∧
  Vector_Insert_rvalue (Element0 := plain) 0 e (outside 30) roomy2
    = (roomy2, Fault assertion_failed).
Proof.
  intros e. split; [reflexivity|].
  apply (Emplace_at_end_fails_assertion (Element0 := plain) 0 (from_args 30)
           (outside 30) roomy2 _ eq_refl).
Defined.

(** What follows the assertion does handle the position [end()]: with room
    left, the new element is constructed at the end. *)
Example Emplace_body_at_end_appends :
  let r := Vector_Emplace_body (Element0 := plain) 0 (Ptr (Some 0) 2)
             (from_lvalue 30) roomy2 in
  r.2 = Ok (Ptr (Some 0) 2) ∧ elements r.1 0 = Some [10; 20; 30].
Proof. vm_compute. done. Qed.

(** ** C4 *)

(** C4 (counterexample).  An element type that is not copy-constructible and
    whose move constructor is not declared non-throwing: Reserve relocates
    the three elements by move construction. *)
Lemma relocation_by_move_counterexample :
  let E := probe false false None in
  let r := Vector_Reserve (Element0 := E) 0 6 full3 in
  nothrow_move_constructible (Element := E) = false ∧
  r.2 = Ok tt ∧
  trace r.1 = [ev_move_construct; ev_move_construct; ev_move_construct;
               ev_destroy; ev_destroy; ev_destroy].
Proof. vm_compute. done. Qed.

Lemma relocation_by_move_or_copy_witness :
  let E := probe false true None in
  let r := Vector_Reserve (Element0 := E) 0 6 full3 in
  objs full3 !! 0
    = Some {| data_ := {| buffer_ := Some 0; capacity_ := 3 |}; size_ := 3 |} ∧
  r.2 = Ok tt ∧
  trace r.1 = [ev_copy_construct; ev_copy_construct; ev_copy_construct;
               ev_destroy; ev_destroy; ev_destroy].
Proof.
  intros E r.
  assert (r = (r.1, Ok tt)) as Hr by (vm_compute; reflexivity).
  split; [reflexivity|]. split; [by rewrite Hr|].
  destruct (relocation_by_move_or_copy (Element0 := E) 0 full3 _ r.1 eq_refl)
    as (_ & _ & HReserve & _).
  apply (HReserve 6); [simpl; lia | exact Hr].
Defined.

(** ** C5 *)

Lemma growth_doubles_capacity_witness :
  let v3 := {| data_ := {| buffer_ := Some 0; capacity_ := 3 |};
               size_ := 3 |} in
  let v0 := {| data_ := RawMemory_default; size_ := 0 |} in
  let empty := (Vector_default 0 start).1 in
  (objs full3 !! 0 = Some v3 ∧ size_ v3 = capacity_ (data_ v3) ∧
   objs empty !! 0 = Some v0 ∧ size_ v0 = capacity_ (data_ v0)) ∧
  (∃ s' p, Vector_EmplaceBack (Element0 := plain) 0 (from_lvalue 40) full3
             = (s', Ok p) ∧
           capacity_of s' 0 = 6) ∧
  (∃ s', Vector_PushBack (Element0 := plain) 0 (from_lvalue 40) full3
           = (s', Ok tt) ∧
         capacity_of s' 0 = 6) ∧
  (∃ s' p, Vector_Emplace (Element0 := plain) 0 (Ptr (Some 0) 1)
             (from_lvalue 40) full3 = (s', Ok p) ∧
           capacity_of s' 0 = 6) ∧
  (∃ s' p, Vector_EmplaceBack (Element0 := plain) 0 (from_rvalue 7) empty
             = (s', Ok p) ∧
           capacity_of s' 0 = 1) ∧
  (∃ s', Vector_PushBack (Element0 := plain) 0 (from_rvalue 7) empty
           = (s', Ok tt) ∧
         capacity_of s' 0 = 1).
Proof.
  intros v3 v0 empty.
  assert (holds (construct_value (Element0 := plain) (from_lvalue 40) full3).1
            v3 [10; 20; 30]) as Hholds3.
  { split; [reflexivity|]. split; [simpl; lia | reflexivity]. }
  assert (holds (construct_value (Element0 := plain) (from_rvalue 7) empty).1
            v0 []) as Hholds0.
  { split; [reflexivity|]. split; [simpl; lia | reflexivity]. }
  destruct (growth_doubles_capacity (Element0 := plain) 0 (from_lvalue 40)
              full3 v3 eq_refl eq_refl) as (_ & _ & _ & Hfull).
  destruct (Hfull plain_copy_ok plain_move_ok _ 40 [10; 20; 30] eq_refl
              Hholds3 ltac:(by vm_compute) ltac:(simpl; lia))
    as (Hback3 & Hpush3 & Hemplace3).
  destruct (growth_doubles_capacity (Element0 := plain) 0 (from_rvalue 7)
              empty v0 eq_refl eq_refl) as (_ & _ & _ & Hempty).
  destruct (Hempty plain_copy_ok plain_move_ok _ 7 [] eq_refl
              Hholds0 ltac:(by vm_compute) ltac:(simpl; lia))
    as (Hback0 & Hpush0 & _).
  split; [by split_and!|].
  split_and!; [exact Hback3 | exact Hpush3 | | exact Hback0 | exact Hpush0].
  apply (Hemplace3 1). simpl. lia.
Defined.

(** ** C6 *)

Lemma Erase_shifts_tail_left_witness :
  let v := {| data_ := {| buffer_ := Some 0; capacity_ := 3 |}; size_ := 3 |} in
  let pos := Ptr (Some 0) 1 in
  (objs full3 !! 0 = Some v ∧ holds full3 v [10; 20; 30]) ∧
  ∃ s' v',
    Vector_Erase (Element0 := plain) 0 pos full3 = (s', Ok pos) ∧
    objs s' !! 0 = Some v' ∧
    holds s' v' [10; 30] ∧
    size_ v' = 2 ∧
    data_ v' = data_ v ∧
    elements s' 0 = Some [10; 30] ∧
    (∀ j x, j < 1 → [10; 20; 30] !! j = Some x →
            Vector_read 0 j s' = (s', Ok x)) ∧
    (∀ j x, 1 < j → [10; 20; 30] !! j = Some x →
            Vector_read 0 (j - 1) s' = (s', Ok x)) ∧
    (Vector_end 0 s' = (s', Ok pos) ↔ 1 = 2).
Proof.
  intros v pos.
  assert (objs full3 !! 0 = Some v) as Hv by reflexivity.
  assert (holds full3 v [10; 20; 30]) as Hholds.
  { split; [reflexivity|]. split; [simpl; lia | reflexivity]. }
  split; [done|].
  apply (Erase_shifts_tail_left (Element0 := plain) plain_move_assign_ok
           0 full3 v [10; 20; 30] 1 Hv Hholds).
  simpl. lia.
Defined.

(** ** C7 *)

(** C7 (counterexample).  Move-assigning a vector of capacity 1 to a vector
    of capacity 4 leaves the latter with capacity 1. *)
Lemma capacity_decreases_by_move_assign_counterexample :
  let r := Vector_move_assign 0 1 two_vectors in
  capacity_of two_vectors 0 = 4 ∧
  r.2 = Ok tt ∧
  capacity_of r.1 0 = 1.
Proof. vm_compute. done. Qed.

Lemma capacity_kept_except_by_move_assign_witness :
  let cs := [call_PushBack (from_lvalue 30); call_Resize 1; call_PopBack;
             call_Reserve 2; call_copy_assign 1;
             call_Erase (Ptr (Some 0) 0)] in
  Forall (λ c, is_move_assign c = false) cs ∧
  (exec_all (Element0 := plain) 0 cs two_vectors).2 = Ok tt ∧
  capacity_of two_vectors 0
    ≤ capacity_of (exec_all (Element0 := plain) 0 cs two_vectors).1 0 ∧
  capacity_of (Vector_move_assign 0 1 two_vectors).1 0
    = capacity_of two_vectors 1.
Proof.
  intros cs.
  assert (Forall (λ c, is_move_assign (T := nat) (Args := nat) c = false) cs)
    as Hcs by (repeat constructor).
  destruct (capacity_kept_except_by_move_assign (Element0 := plain) 0
              two_vectors) as [Hkept Hmove].
  split_and!.
  - exact Hcs.
  - by vm_compute.
  - exact (Hkept cs Hcs).
  - apply Hmove; [done | by eexists | by eexists].
Defined.

(** ** C8 *)

(** C8 (counterexample).  Move-assigning a Raw Buffer that owns a block to
    another that owns a block: the source is left with the destination's
    former address and capacity, not with a null address and capacity 0. *)
Lemma RawMemory_move_assign_counterexample :
  (st' ← RawMemory_move_assign 0 1 two_buffers; st' !! 1)
    = Some {| buffer_ := Some 7; capacity_ := 2 |} ∧
  (st' ← RawMemory_move_assign 0 1 two_buffers; st' !! 1)
    ≠ Some RawMemory_default.
Proof. by vm_compute. Qed.

Lemma RawMemory_move_transfers_or_exchanges_witness :
  let src := {| buffer_ := Some 9; capacity_ := 4 |} in
  let dst := {| buffer_ := Some 7; capacity_ := 2 |} in
  two_buffers !! 1 = Some src ∧
  (∃ st', RawMemory_move_ctor 2 1 two_buffers = Some st' ∧
          st' !! 2 = Some src ∧ st' !! 1 = Some RawMemory_default) ∧
  (∃ st', RawMemory_move_assign 0 1 two_buffers = Some st' ∧
          st' !! 0 = Some src ∧ st' !! 1 = Some dst) ∧
  RawMemory_move_assign 1 1 two_buffers = Some two_buffers.
Proof.
  intros src dst.
  destruct (RawMemory_move_transfers_or_exchanges 1 two_buffers src eq_refl)
    as (Hctor & Hassign & Hself).
  split_and!.
  - reflexivity.
  - by apply Hctor.
  - by apply Hassign.
  - exact Hself.
Defined.

(** ** C9 *)

Lemma Vector_move_transfers_witness :
  let v := {| data_ := {| buffer_ := Some 0; capacity_ := 4 |}; size_ := 2 |} in
  (1 ≠ 0 ∧ objs roomy2 !! 0 = Some v ∧ elements roomy2 0 = Some [10; 20]) ∧
  ∃ s', Vector_move 1 0 roomy2 = (s', Ok tt) ∧
        objs s' !! 1 = Some v ∧
        elements s' 1 = elements roomy2 0 ∧
        size_of s' 1 = 2 ∧
        capacity_of s' 1 = 4 ∧
        size_of s' 0 = 0 ∧
        elements s' 0 = Some [] ∧
        heap s' = heap roomy2.
Proof.
  intros v. split; [split_and!; [lia | reflexivity | reflexivity]|].
  apply (Vector_move_transfers 1 0 roomy2 v); [lia | reflexivity].
Defined.

(** * Concrete runs of the remaining member functions *)

Lemma plain_copy_assign_ok (d x w : nat) :
  (copy_assign (Element := plain) d x w).2 = Some x.
Proof. reflexivity. Qed.

Lemma full3_holds :
  holds full3
    {| data_ := {| buffer_ := Some 0; capacity_ := 3 |}; size_ := 3 |}
    [10; 20; 30].
Proof. split; [reflexivity|]. split; [simpl; lia | reflexivity]. Qed.

Lemma roomy2_holds :
  holds roomy2
    {| data_ := {| buffer_ := Some 0; capacity_ := 4 |}; size_ := 2 |}
    [10; 20].
Proof. split; [reflexivity|]. split; [simpl; lia | reflexivity]. Qed.

Lemma two_vectors_holds_0 :
  holds two_vectors
    {| data_ := {| buffer_ := Some 0; capacity_ := 4 |}; size_ := 2 |}
    [10; 20].
Proof. split; [reflexivity|]. split; [simpl; lia | reflexivity]. Qed.

Lemma two_vectors_holds_1 :
  holds two_vectors
    {| data_ := {| buffer_ := Some 1; capacity_ := 1 |}; size_ := 1 |} [7].
Proof. split; [reflexivity|]. split; [simpl; lia | reflexivity]. Qed.

Lemma two_vectors_separate :
  separate {| data_ := {| buffer_ := Some 0; capacity_ := 4 |}; size_ := 2 |}
           {| data_ := {| buffer_ := Some 1; capacity_ := 1 |}; size_ := 1 |}.
Proof. intros blk [= <-]. simpl. congruence. Qed.

Lemma two_vectors_separate' :
  separate {| data_ := {| buffer_ := Some 1; capacity_ := 1 |}; size_ := 1 |}
           {| data_ := {| buffer_ := Some 0; capacity_ := 4 |}; size_ := 2 |}.
Proof. intros blk [= <-]. simpl. congruence. Qed.

(** ** X1 *)

Lemma PopBack_drops_last_witness :
  let v := {| data_ := {| buffer_ := Some 0; capacity_ := 3 |}; size_ := 3 |} in
  (objs full3 !! 0 = Some v ∧ holds full3 v [10; 20; 30]) ∧
  ∃ s' v',
    Vector_PopBack (Element0 := plain) 0 full3 = (s', Ok tt) ∧
    objs s' !! 0 = Some v' ∧
    data_ v' = data_ v ∧
    holds s' v' [10; 20] ∧
    avail s' = avail full3 ∧
    leaked s' = leaked full3 ∧
    world s' = destroy (Element := plain) 30 (world full3) ∧
    trace s' = trace full3 ++ [ev_destroy].
Proof.
  intros v. split; [split; [reflexivity | exact full3_holds]|].
  exact (PopBack_drops_last (Element0 := plain) 0 full3 v [10; 20; 30]
           eq_refl full3_holds).
Defined.

(** ** X2 *)

Lemma Vector_delete_releases_witness :
  let v := {| data_ := {| buffer_ := Some 0; capacity_ := 3 |}; size_ := 3 |} in
  (objs full3 !! 0 = Some v ∧ holds full3 v [10; 20; 30]) ∧
  ∃ s',
    Vector_delete (Element0 := plain) 0 full3 = (s', Ok tt) ∧
    objs s' = delete 0 (objs full3) ∧
    heap s' = delete 0 (heap full3) ∧
    avail s' = avail full3 + 3 ∧
    leaked s' = leaked full3 ∧
    trace s' = trace full3 ++ replicate 3 ev_destroy.
Proof.
  intros v. split; [split; [reflexivity | exact full3_holds]|].
  exact (Vector_delete_releases (Element0 := plain) 0 full3 v [10; 20; 30]
           eq_refl full3_holds).
Defined.

(** ** X3 *)

Lemma Vector_Swap_exchanges_and_reverts_witness :
  let a := {| data_ := {| buffer_ := Some 0; capacity_ := 4 |}; size_ := 2 |} in
  let b := {| data_ := {| buffer_ := Some 1; capacity_ := 1 |}; size_ := 1 |} in
  (objs two_vectors !! 0 = Some a ∧ objs two_vectors !! 1 = Some b) ∧
  ∃ s1,
    Vector_Swap 0 1 two_vectors = (s1, Ok tt) ∧
    objs s1 !! 0 = Some b ∧
    objs s1 !! 1 = Some a ∧
    (∀ x, x ≠ 0 → x ≠ 1 → objs s1 !! x = objs two_vectors !! x) ∧
    objs_step two_vectors s1 ∧
    Vector_Swap 0 1 s1 = (two_vectors, Ok tt).
Proof.
  intros a b. split; [split; reflexivity|].
  exact (Vector_Swap_exchanges_and_reverts 0 1 two_vectors a b
           eq_refl eq_refl).
Defined.

(** ** X5 *)

Lemma move_assign_then_source_destructor_witness :
  let a := {| data_ := {| buffer_ := Some 0; capacity_ := 4 |}; size_ := 2 |} in
  let b := {| data_ := {| buffer_ := Some 1; capacity_ := 1 |}; size_ := 1 |} in
  (0 ≠ 1 ∧ objs two_vectors !! 0 = Some a ∧ objs two_vectors !! 1 = Some b ∧
   holds two_vectors a [10; 20] ∧ holds two_vectors b [7] ∧ separate a b) ∧
  ∃ s1 s2,
    Vector_move_assign 0 1 two_vectors = (s1, Ok tt) ∧
    objs s1 !! 0 = Some b ∧ holds s1 b [7] ∧
    objs s1 !! 1 = Some a ∧ holds s1 a [10; 20] ∧
    Vector_delete (Element0 := plain) 1 s1 = (s2, Ok tt) ∧
    objs s2 !! 0 = Some b ∧ holds s2 b [7] ∧
    objs s2 !! 1 = None ∧
    avail s2 = avail two_vectors + 4 ∧
    leaked s2 = leaked two_vectors ∧
    trace s2 = trace two_vectors ++ replicate 2 ev_destroy.
Proof.
  intros a b.
  assert (0 ≠ 1) as Hne by lia.
  split.
  { split_and!; [done | reflexivity | reflexivity | exact two_vectors_holds_0
                 | exact two_vectors_holds_1 | exact two_vectors_separate]. }
  exact (move_assign_then_source_destructor (Element0 := plain) 0 1
           two_vectors a b [10; 20] [7] Hne eq_refl eq_refl
           two_vectors_holds_0 two_vectors_holds_1 two_vectors_separate).
Defined.

(** ** X7 *)

Lemma Vector_index_checks_bounds_witness :
  let v := {| data_ := {| buffer_ := Some 0; capacity_ := 4 |}; size_ := 2 |} in
  (objs roomy2 !! 0 = Some v ∧ holds roomy2 v [10; 20]) ∧
  (Vector_index 0 1 roomy2
     = (roomy2, Ok (Ptr (Some 0) 1)) ∧
   slot roomy2 (Ptr (Some 0) 1) = Some (Some 20)) ∧
  Vector_index 0 2 roomy2
    = (roomy2, Fault assertion_failed).
Proof.
  intros v. split; [split; [reflexivity | exact roomy2_holds]|]. split.
  - exact (Vector_index_checks_bounds 0 roomy2 v [10; 20]
             1 eq_refl roomy2_holds).
  - exact (Vector_index_checks_bounds 0 roomy2 v [10; 20]
             2 eq_refl roomy2_holds).
Defined.

(** ** A count of bytes that wraps *)

(** On the machine whose [size_t] has 4 bits, with elements of 4 bytes, the
    bytes of 4 elements are counted as 16 - 16 = 0 and those of 5 elements
    as 20 - 16 = 4: the block allocated has no slot, or one slot, while the
    capacity recorded is 4, or 5.  The constructor from the size 4,
    Reserve(4) and Resize(4) on the vector [10; 20; 30] then construct an
    element past the end of their block, although the memory provider has
    room for 4 elements. *)
Example byte_count_wraps :
  let new4 := RawMemory_new (Platform0 := tiny) (Element0 := plain) 4 start in
  let new5 := RawMemory_new (Platform0 := tiny) (Element0 := plain) 5 start in
  slots (Platform0 := tiny) (Element0 := plain) 4 = 0 ∧
  new4.2 = Ok {| buffer_ := Some 0; capacity_ := 4 |} ∧
  heap new4.1 !! 0 = Some [] ∧
  slots (Platform0 := tiny) (Element0 := plain) 5 = 1 ∧
  new5.2 = Ok {| buffer_ := Some 0; capacity_ := 5 |} ∧
  heap new5.1 !! 0 = Some [None] ∧
  4 ≤ avail start ∧
  4 ≤ avail full3 ∧
  (Vector_sized (Platform0 := tiny) (Element0 := plain) 1 4 start).2
    = Fault bad_access ∧
  (Vector_Reserve (Platform0 := tiny) (Element0 := plain) 0 4 full3).2
    = Fault bad_access ∧
  (Vector_Resize (Platform0 := tiny) (Element0 := plain) 0 4 full3).2
    = Fault bad_access.
Proof. split_and!; try (by vm_compute); simpl; lia. Qed.

(** ** X8 *)

Lemma Reserve_strong_guarantee_witness :
  let v := {| data_ := {| buffer_ := Some 0; capacity_ := 3 |}; size_ := 3 |} in
  let E := probe false true (Some 4) in
  (objs full3 !! 0 = Some v ∧ holds full3 v [10; 20; 30] ∧
   (nothrow_move_constructible (Element := E) = true ∨
    copy_constructible (Element := E) = true)) ∧
  (∃ s', Vector_Reserve (Element0 := E) 0 6 full3 = (s', Throw element_failure) ∧
         mem s' = mem full3 ∧
         elements s' 0 = Some [10; 20; 30]) ∧
  Vector_Reserve (Element0 := E) 0 2 full3 = (full3, Ok tt).
Proof.
  intros v E.
  assert (nothrow_move_constructible (Element := E) = true ∨
          copy_constructible (Element := E) = true) as Hkind
    by (right; reflexivity).
  split; [split_and!; [reflexivity | exact full3_holds | exact Hkind]|].
  pose proof (Reserve_strong_guarantee (Element0 := E) 0 6 full3 v
                [10; 20; 30] eq_refl full3_holds Hkind) as (Hthrow & _ & _).
  pose proof (Reserve_strong_guarantee (Element0 := E) 0 2 full3 v
                [10; 20; 30] eq_refl full3_holds Hkind) as (_ & _ & Hnoop).
  split.
  - exists (Vector_Reserve (Element0 := E) 0 6 full3).1.
    assert (Vector_Reserve (Element0 := E) 0 6 full3
            = ((Vector_Reserve (Element0 := E) 0 6 full3).1,
               Throw element_failure)) as Hr by (vm_compute; reflexivity).
    split; [exact Hr|]. exact (Hthrow ltac:(by vm_compute) _ _ Hr).
  - apply Hnoop. simpl. lia.
Defined.

(** ** X9 *)

Lemma Reserve_moves_to_buffer_of_exact_capacity_witness :
  let v := {| data_ := {| buffer_ := Some 0; capacity_ := 3 |}; size_ := 3 |} in
  (objs full3 !! 0 = Some v ∧ holds full3 v [10; 20; 30] ∧
   capacity_ (data_ v) < 6 ∧ addressable (Element0 := plain) 6 ∧
   6 ≤ avail full3) ∧
  ∃ s' v',
    Vector_Reserve (Element0 := plain) 0 6 full3 = (s', Ok tt) ∧
    objs s' !! 0 = Some v' ∧
    holds s' v' [10; 20; 30] ∧
    elements s' 0 = Some [10; 20; 30] ∧
    size_ v' = 3 ∧
    capacity_ (data_ v') = 6 ∧
    (∃ nb, heap full3 !! nb = None ∧
           buffer_ (data_ v') = Some nb ∧
           heap s' = <[nb := block_with 6 [10; 20; 30]]>
                       (release (data_ v) (heap full3))) ∧
    avail s' = 97 + 3 - 6 ∧ leaked s' = leaked full3.
Proof.
  intros v.
  assert (capacity_ (data_ v) < 6) as Hlt by (simpl; lia).
  assert (addressable (Element0 := plain) 6) as Haddr by (by vm_compute).
  assert (6 ≤ avail full3) as Hroom by (simpl; lia).
  split; [split_and!; [reflexivity | exact full3_holds | exact Hlt
                       | exact Haddr | exact Hroom]|].
  exact (Reserve_moves_to_buffer_of_exact_capacity (Element0 := plain)
           plain_copy_ok plain_move_ok 0 6 full3 v [10; 20; 30]
           eq_refl full3_holds Hlt Haddr Hroom).
Defined.

(** ** X10 *)

Lemma Reserve_then_pushes_keep_buffer_witness :
  let v := {| data_ := {| buffer_ := Some 0; capacity_ := 3 |}; size_ := 3 |} in
  let vals := [(true, 40); (false, 50)] in
  (objs full3 !! 0 = Some v ∧ holds full3 v [10; 20; 30] ∧
   (5 ≤ capacity_ (data_ v) ∨
    (addressable (Element0 := plain) 5 ∧ 5 ≤ avail full3)) ∧
   length [10; 20; 30] + length vals ≤ 5) ∧
  ∃ s1 v1 s2 v2,
    Vector_Reserve (Element0 := plain) 0 5 full3 = (s1, Ok tt) ∧
    objs s1 !! 0 = Some v1 ∧
    exec_all (Element0 := plain) 0
      ((λ a, call_PushBack (pushed a.1 a.2)) <$> vals) s1 = (s2, Ok tt) ∧
    objs s2 !! 0 = Some v2 ∧
    data_ v2 = data_ v1 ∧
    size_ v2 = 5 ∧
    elements s2 0 = Some [10; 20; 30; 40; 50] ∧
    avail s2 = avail s1 ∧
    dom (heap s2) = dom (heap s1) ∧
    leaked s2 = leaked full3 ∧
    trace s2 = trace s1 ++ replicate 2 ev_construct.
Proof.
  intros v vals.
  assert (5 ≤ capacity_ (data_ v) ∨
          (addressable (Element0 := plain) 5 ∧ 5 ≤ avail full3)) as Hroom
    by (right; split; [by vm_compute | simpl; lia]).
  assert (length [10; 20; 30] + length vals ≤ 5) as Hfit by (simpl; lia).
  split; [split_and!; [reflexivity | exact full3_holds | exact Hroom | exact Hfit]|].
  exact (Reserve_then_pushes_keep_buffer (Element0 := plain)
           plain_copy_ok plain_move_ok 0 5 full3 v [10; 20; 30] vals
           eq_refl full3_holds Hroom Hfit).
Defined.

(** ** X11 *)

Lemma Vector_copy_makes_separate_copy_witness :
  let o := {| data_ := {| buffer_ := Some 0; capacity_ := 3 |}; size_ := 3 |} in
  let s' := (Vector_copy (Element0 := plain) 1 0 full3).1 in
  (1 ≠ 0 ∧ objs full3 !! 0 = Some o ∧ holds full3 o [10; 20; 30] ∧
   Vector_copy (Element0 := plain) 1 0 full3 = (s', Ok tt)) ∧
  ∃ v' ys,
    Forall2 (copy_of (Element0 := plain)) [10; 20; 30] ys ∧
    objs s' !! 1 = Some v' ∧
    holds s' v' ys ∧
    capacity_ (data_ v') = 3 ∧
    (buffer_ (data_ v') = None ↔ [10; 20; 30] = []) ∧
    separate v' o ∧
    objs s' !! 0 = Some o ∧
    holds s' o [10; 20; 30] ∧
    avail s' = 97 - 3 ∧ leaked s' = leaked full3.
Proof.
  intros o s'.
  assert (1 ≠ 0) as Hne by lia.
  assert (Vector_copy (Element0 := plain) 1 0 full3 = (s', Ok tt)) as Hr
    by (vm_compute; reflexivity).
  split; [split_and!; [exact Hne | reflexivity | exact full3_holds | exact Hr]|].
  exact (Vector_copy_makes_separate_copy (Element0 := plain) 1 0 full3 o
           [10; 20; 30] s' (Ok tt) Hne eq_refl full3_holds Hr).
Defined.

(** ** X12 *)

Lemma Vector_sized_value_initializes_witness :
  let s' := (Vector_sized (Element0 := plain) 1 2 full3).1 in
  Vector_sized (Element0 := plain) 1 2 full3 = (s', Ok tt) ∧
  ∃ v' ys,
    objs s' !! 1 = Some v' ∧
    holds s' v' ys ∧
    length ys = 2 ∧
    Forall (default_made (Element0 := plain)) ys ∧
    capacity_ (data_ v') = 2 ∧
    (buffer_ (data_ v') = None ↔ 2 = 0) ∧
    avail s' = 97 - 2 ∧ leaked s' = leaked full3.
Proof.
  intros s'.
  assert (Vector_sized (Element0 := plain) 1 2 full3 = (s', Ok tt)) as Hr
    by (vm_compute; reflexivity).
  split; [exact Hr|].
  exact (Vector_sized_value_initializes (Element0 := plain) 1 2 full3 s'
           (Ok tt) Hr).
Defined.

(** ** X13 *)

Lemma Resize_truncates_or_value_initializes_witness :
  let v := {| data_ := {| buffer_ := Some 0; capacity_ := 3 |}; size_ := 3 |} in
  let s' := (Vector_Resize (Element0 := plain) 0 5 full3).1 in
  (objs full3 !! 0 = Some v ∧ holds full3 v [10; 20; 30] ∧
   (5 ≤ capacity_ (data_ v) ∨
    (addressable (Element0 := plain) 5 ∧ 5 ≤ avail full3)) ∧
   Vector_Resize (Element0 := plain) 0 5 full3 = (s', Ok tt)) ∧
  ∃ v' ys,
    objs s' !! 0 = Some v' ∧
    holds s' v' ([10; 20; 30] ++ ys) ∧
    length ys = 2 ∧
    Forall (default_made (Element0 := plain)) ys ∧
    size_ v' = 5 ∧
    capacity_ (data_ v') = 5 ∧ leaked s' = leaked full3.
Proof.
  intros v s'.
  assert (5 ≤ capacity_ (data_ v) ∨
          (addressable (Element0 := plain) 5 ∧ 5 ≤ avail full3)) as Hroom
    by (right; split; [by vm_compute | simpl; lia]).
  assert (Vector_Resize (Element0 := plain) 0 5 full3 = (s', Ok tt)) as Hr
    by (vm_compute; reflexivity).
  split; [split_and!; [reflexivity | exact full3_holds | exact Hroom | exact Hr]|].
  exact (Resize_truncates_or_value_initializes (Element0 := plain)
           plain_copy_ok plain_move_ok 0 5 full3 v [10; 20; 30] s' (Ok tt)
           eq_refl full3_holds Hroom Hr).
Defined.
(** ** X14 *)

Lemma copy_assign_growing_is_all_or_nothing_witness :
  let v := {| data_ := {| buffer_ := Some 1; capacity_ := 1 |}; size_ := 1 |} in
  let o := {| data_ := {| buffer_ := Some 0; capacity_ := 4 |}; size_ := 2 |} in
  let s' := (Vector_copy_assign (Element0 := plain) 1 0 two_vectors).1 in
  (1 ≠ 0 ∧ objs two_vectors !! 1 = Some v ∧ holds two_vectors v [7] ∧
   objs two_vectors !! 0 = Some o ∧ holds two_vectors o [10; 20] ∧
   separate v o ∧ capacity_ (data_ v) < length [10; 20] ∧
   Vector_copy_assign (Element0 := plain) 1 0 two_vectors = (s', Ok tt)) ∧
  ∃ v' zs,
    Forall2 (copy_of (Element0 := plain)) [10; 20] zs ∧
    objs s' !! 1 = Some v' ∧
    holds s' v' zs ∧
    capacity_ (data_ v') = 2 ∧
    objs s' !! 0 = Some o ∧
    holds s' o [10; 20] ∧
    separate v' o ∧
    avail s' = 95 - 2 + 1 ∧
    leaked s' = leaked two_vectors ∧
    trace s' = trace two_vectors ++ replicate 2 ev_copy_construct
                 ++ replicate 1 ev_destroy.
Proof.
  intros v o s'.
  assert (1 ≠ 0) as Hne by lia.
  assert (capacity_ (data_ v) < length [10; 20]) as Hlt by (simpl; lia).
  assert (Vector_copy_assign (Element0 := plain) 1 0 two_vectors = (s', Ok tt))
    as Hr by (vm_compute; reflexivity).
  split.
  { split_and!; [exact Hne | reflexivity | exact two_vectors_holds_1
                 | reflexivity | exact two_vectors_holds_0
                 | exact two_vectors_separate' | exact Hlt | exact Hr]. }
  exact (copy_assign_growing_is_all_or_nothing (Element0 := plain) 1 0
           two_vectors v o [7] [10; 20] s' (Ok tt) Hne eq_refl
           two_vectors_holds_1 eq_refl two_vectors_holds_0
           two_vectors_separate' Hlt Hr).
Defined.

(** ** X15 *)

Lemma copy_assign_reuses_storage_witness :
  let v := {| data_ := {| buffer_ := Some 0; capacity_ := 4 |}; size_ := 2 |} in
  let o := {| data_ := {| buffer_ := Some 1; capacity_ := 1 |}; size_ := 1 |} in
  (0 ≠ 1 ∧ objs two_vectors !! 0 = Some v ∧ holds two_vectors v [10; 20] ∧
   objs two_vectors !! 1 = Some o ∧ holds two_vectors o [7] ∧
   separate v o ∧ length [7] ≤ capacity_ (data_ v)) ∧
  ∃ s',
    Vector_copy_assign (Element0 := plain) 0 1 two_vectors = (s', Ok tt) ∧
    objs s' = <[0 := {| data_ := data_ v; size_ := 1 |}]> (objs two_vectors) ∧
    holds s' {| data_ := data_ v; size_ := 1 |} [7] ∧
    holds s' o [7] ∧
    avail s' = avail two_vectors ∧
    dom (heap s') = dom (heap two_vectors) ∧
    leaked s' = leaked two_vectors ∧
    trace s' = trace two_vectors ++ replicate 1 ev_copy_assign
                 ++ replicate 1 ev_destroy ++ replicate 0 ev_copy_construct.
Proof.
  intros v o.
  assert (0 ≠ 1) as Hne by lia.
  assert (length [7] ≤ capacity_ (data_ v)) as Hfit by (simpl; lia).
  split.
  { split_and!; [exact Hne | reflexivity | exact two_vectors_holds_0
                 | reflexivity | exact two_vectors_holds_1
                 | exact two_vectors_separate | exact Hfit]. }
  exact (copy_assign_reuses_storage (Element0 := plain) plain_copy_ok
           plain_copy_assign_ok 0 1 two_vectors v o [10; 20] [7] Hne eq_refl
           two_vectors_holds_0 eq_refl two_vectors_holds_1
           two_vectors_separate Hfit).
Defined.

(** ** X16 *)


(** ** X17 *)

Lemma failed_construction_changes_nothing_witness :
  let v := {| data_ := {| buffer_ := Some 0; capacity_ := 4 |}; size_ := 2 |} in
  let E := probe true true (Some 2) in
  let args := from_args (T := nat) 15 in
  (objs roomy2 !! 0 = Some v ∧ holds roomy2 v [10; 20] ∧
   (construct_value (Element0 := E) args roomy2).2 = Throw element_failure) ∧
  (∀ i, i < 2 →
        ∃ s' e',
          Vector_Emplace (Element0 := E) 0 (Ptr (Some 0) (0 + i)) args roomy2
            = (s', Throw e') ∧
          mem s' = mem roomy2 ∧ elements s' 0 = Some [10; 20]) ∧
  ∃ s',
    Vector_EmplaceBack (Element0 := E) 0 args roomy2
      = (s', Throw element_failure) ∧
    mem s' = mem roomy2 ∧ elements s' 0 = Some [10; 20].
Proof.
  intros v E args.
  assert ((construct_value (Element0 := E) args roomy2).2
          = Throw element_failure) as Hx by reflexivity.
  split; [split_and!; [reflexivity | exact roomy2_holds | exact Hx]|].
  pose proof (failed_construction_changes_nothing (Element0 := E) 0 args
                element_failure roomy2 v [10; 20] eq_refl roomy2_holds Hx)
    as [Hmid Hback].
  split; [exact Hmid|].
  apply Hback. simpl. lia.
Defined.

(** ** X18 *)

Lemma position_assertion_admits_elements_only_witness :
  let v := {| data_ := {| buffer_ := Some 0; capacity_ := 4 |}; size_ := 2 |} in
  let pos := Ptr (Some 0) 2 in
  (objs roomy2 !! 0 = Some v ∧ holds roomy2 v [10; 20] ∧
   ∀ i, i < length [10; 20] → pos ≠ RawMemory_GetAddress (data_ v) +ₚ i) ∧
  Vector_Erase (Element0 := plain) 0 pos roomy2
    = (roomy2, Fault assertion_failed) ∧
  Vector_Emplace (Element0 := plain) 0 pos (from_lvalue 15) roomy2
    = (roomy2, Fault assertion_failed).
Proof.
  intros v pos.
  assert (∀ i, i < length [10; 20] →
               pos ≠ RawMemory_GetAddress (data_ v) +ₚ i) as Hpos.
  { intros i Hi [= E]. simpl in Hi. lia. }
  split; [split_and!; [reflexivity | exact roomy2_holds | exact Hpos]|].
  exact (position_assertion_admits_elements_only (Element0 := plain) 0 roomy2
           v [10; 20] pos (from_lvalue 15) eq_refl roomy2_holds Hpos).
Defined.

(** ** X19 *)

Lemma full3_bounded : all_bounded full3.
Proof.
  intros x v Hx. change (objs full3) with ({[0 := {| data_ := {| buffer_ := Some 0; capacity_ := 3 |}; size_ := 3 |}]} : gmap nat Vector) in Hx.
  apply lookup_singleton_Some in Hx as [_ <-]. simpl. lia.
Qed.

Lemma length_stays_within_capacity_witness :
  let cs := [call_PushBack (from_lvalue 40); call_Erase (Ptr (Some 0) 1);
             call_Resize 9; call_PopBack; call_copy_assign 0] in
  all_bounded full3 ∧
  all_bounded (exec_all (Element0 := plain) 0 cs full3).1 ∧
  all_bounded (Vector_default 1 full3).1 ∧
  all_bounded (Vector_sized (Element0 := plain) 1 2 full3).1 ∧
  all_bounded (Vector_copy (Element0 := plain) 1 0 full3).1 ∧
  all_bounded (Vector_move 1 0 full3).1 ∧
  all_bounded (Vector_delete (Element0 := plain) 1 full3).1.
Proof.
  intros cs. split; [exact full3_bounded|].
  pose proof (length_stays_within_capacity (Element0 := plain) 0 0 0 cs full3
                full3_bounded) as [Hcalls _].
  pose proof (length_stays_within_capacity (Element0 := plain) 1 0 2 [] full3
                full3_bounded) as [_ Hctors].
  exact (conj Hcalls Hctors).
Defined.

(** ** X20 *)

Lemma constructor_then_destructor_restores_storage_witness :
  let o := {| data_ := {| buffer_ := Some 0; capacity_ := 3 |}; size_ := 3 |} in
  let s1 := (Vector_sized (Element0 := plain) 1 2 full3).1 in
  let s1' := (Vector_copy (Element0 := plain) 1 0 full3).1 in
  (objs full3 !! 1 = None ∧ objs full3 !! 0 = Some o ∧
   holds full3 o [10; 20; 30]) ∧
  (∃ s2, Vector_delete (Element0 := plain) 1 s1 = (s2, Ok tt) ∧
         mem s2 = mem full3 ∧
         trace s2 = trace s1 ++ replicate 2 ev_destroy) ∧
  (∃ s2, Vector_delete (Element0 := plain) 1 s1' = (s2, Ok tt) ∧
         mem s2 = mem full3 ∧
         trace s2 = trace s1' ++ replicate 3 ev_destroy).
Proof.
  intros o s1 s1'.
  split; [split_and!; [reflexivity | reflexivity | exact full3_holds]|].
  pose proof (constructor_then_destructor_restores_storage (Element0 := plain)
                1 0 2 full3 o [10; 20; 30] eq_refl eq_refl full3_holds)
    as [Hsized Hcopy].
  split.
  - apply Hsized. vm_compute. reflexivity.
  - apply Hcopy. vm_compute. reflexivity.
Defined.

(** ** X21 *)

(** [v.PushBack(std::move(v[0]))] and [v.PopBack()] on the vector [10; 20]
    of capacity 4 leave it as the construction of the new element left it,
    with element 0 moved-from; [v.PushBack(x)] for an lvalue [x] of value
    30 and [v.PopBack()] leave it as it was. *)
Lemma PopBack_undoes_PushBack_in_place_witness :
  let v := {| data_ := {| buffer_ := Some 0; capacity_ := 4 |}; size_ := 2 |} in
  let a := from_rvalue_at (T := nat) (Args := nat) (Ptr (Some 0) 0) in
  let s0 := (construct_value (Element0 := plain) a roomy2).1 in
  let a' := from_lvalue (Args := nat) 30 in
  let s0' := (construct_value (Element0 := plain) a' roomy2).1 in
  (objs roomy2 !! 0 = Some v ∧
   construct_value (Element0 := plain) a roomy2 = (s0, Ok 10) ∧
   holds s0 v [0; 20] ∧
   construct_value (Element0 := plain) a' roomy2 = (s0', Ok 30) ∧
   holds s0' v [10; 20] ∧
   length [10; 20] < capacity_ (data_ v)) ∧
  (∃ s1 s2,
     Vector_PushBack (Element0 := plain) 0 a roomy2 = (s1, Ok tt) ∧
     elements s1 0 = Some [0; 20; 10] ∧
     Vector_PopBack (Element0 := plain) 0 s1 = (s2, Ok tt) ∧
     mem s2 = mem s0 ∧
     elements s2 0 = Some [0; 20] ∧
     trace s2 = trace roomy2 ++ [ev_construct; ev_destroy]) ∧
  (∃ s1 s2,
     Vector_PushBack (Element0 := plain) 0 a' roomy2 = (s1, Ok tt) ∧
     elements s1 0 = Some [10; 20; 30] ∧
     Vector_PopBack (Element0 := plain) 0 s1 = (s2, Ok tt) ∧
     mem s2 = mem roomy2 ∧
     elements s2 0 = Some [10; 20] ∧
     trace s2 = trace roomy2 ++ [ev_construct; ev_destroy]).
Proof.
  intros v a s0 a' s0'.
  assert (construct_value (Element0 := plain) a roomy2 = (s0, Ok 10)) as E0
    by reflexivity.
  assert (holds s0 v [0; 20]) as Hholds.
  { split; [reflexivity|]. split; [simpl; lia | reflexivity]. }
  assert (construct_value (Element0 := plain) a' roomy2 = (s0', Ok 30)) as E0'
    by reflexivity.
  assert (holds s0' v [10; 20]) as Hholds'.
  { split; [reflexivity|]. split; [simpl; lia | reflexivity]. }
  assert (length [10; 20] < capacity_ (data_ v)) as Hroom by (simpl; lia).
  split; [by split_and!|].
  destruct (PopBack_undoes_PushBack_in_place (Element0 := plain) 0 a 10
              roomy2 s0 v [0; 20] eq_refl E0 Hholds Hroom)
    as (s1 & s2 & E1 & He1 & E2 & M & _ & He2 & _ & Ht).
  destruct (PopBack_undoes_PushBack_in_place (Element0 := plain) 0 a' 30
              roomy2 s0' v [10; 20] eq_refl E0' Hholds' Hroom)
    as (s1' & s2' & E1' & He1' & E2' & _ & M' & He2' & _ & Ht').
  split; [by exists s1, s2|].
  exists s1', s2'. split_and!; try done. by apply M'.
Defined.

(** ** X22 *)

